(** * Fast marching method: a shallow embedding of
      include/thinks/fastMarchingMethod.hpp and its verification.

    Conventions of the embedding.

    - [std::size_t] is a 64-bit unsigned integer: a [Z] in [0, 2^64) whose
      arithmetic wraps ([wrap64]).  [std::int32_t] index components are [Z];
      signed overflow is undefined in C++: the extent that [HyperVolume]
      computes in [std::int32_t] wraps ([wrap_int32]), and elsewhere it does
      not arise on the inputs the theorems quantify over.
    - [std::array<_, N>] and [std::vector<_>] are lists; an N-dimensional
      index or size is a list of length N.
    - The scalar type [T] of the templates is a type class [Scalar]; it is
      instantiated with binary64 floats (the C++ [double]) to run the code,
      and with the real numbers to state what the arithmetic means.
    - A function that can throw returns a [Result]; a function that writes
      through a [Grid*] returns the new grid.
    - The header is modelled as compiled with NDEBUG (the CMake files default
      to a release build): an [assert] is not executed.  An access outside
      the cell buffer, which C++ leaves undefined, is the error [OutOfBounds].
*)

From Stdlib Require Import ZArith List Bool Lia Arith Permutation Sorted.
From Stdlib Require Import Floats.
From Stdlib Require Import Reals Lra.
Import ListNotations.

Local Open Scope Z_scope.

(** ** Results of code that may throw *)

Inductive Error : Type :=
| InvalidGridSize            (* "invalid grid size: ..." *)
| InvalidCellBufferSize      (* "grid size ... does not match cell buffer size" *)
| InvalidGridSpacing         (* "invalid grid spacing: ..." *)
| InvalidSpeed               (* "invalid speed: ..." *)
| ZeroSizeElement            (* "zero size element" *)
| EmptyBoundingBox           (* "cannot compute bounding box from empty indices" *)
| EmptyFrozenIndices         (* "empty frozen indices" *)
| SizeMismatch               (* "frozen indices/distances size mismatch" *)
| FrozenIndexOutsideGrid     (* "frozen index outside grid: ..." *)
| InvalidFrozenDistance      (* "invalid frozen distance: ..." *)
| DuplicateFrozenIndex       (* "duplicate frozen index: ..." *)
| WholeGridFrozen            (* "whole grid frozen" *)
| NegativeDiscriminant       (* "negative discriminant" *)
| NegativeDistance           (* "negative distance" *)
| IndexOutsideSpeedGrid      (* "index outside speed grid" *)
| OpenConnectedComponent     (* "open connected component" *)
| DimensionNotAboveOne       (* static_assert "number of dimensions must be > 1":
                                the call is rejected when it is compiled *)
| OutOfBounds                (* undefined behaviour: access outside a buffer *)
| OutOfFuel.                 (* not a C++ outcome: the iteration budget given to
                                the model of an unbounded loop ran out *)

Inductive Result (A : Type) : Type :=
| Ok (a : A)
| Err (e : Error).

Arguments Ok {A} a.
Arguments Err {A} e.

Definition bind {A B : Type} (r : Result A) (k : A -> Result B) : Result B :=
  match r with
  | Ok a => k a
  | Err e => Err e
  end.

Notation "x <- r ;; k" := (bind r (fun x => k))
  (at level 61, r at next level, right associativity).
Notation "' pat <- r ;; k" := (bind r (fun x => match x with pat => k end))
  (at level 61, pat pattern, r at next level, right associativity).

Definition is_ok {A : Type} (r : Result A) : bool :=
  match r with Ok _ => true | Err _ => false end.

(** ** Machine integers *)

Definition size_t_modulus : Z := 2 ^ 64.

(** Reduction of an integer to [std::size_t]. *)
Definition wrap64 (z : Z) : Z := z mod size_t_modulus.

Definition Index : Type := list Z.
Definition Size : Type := list Z.

(** ** Grid arithmetic *)

(** [accumulate(begin(a), end(a), size_t{1}, multiplies<size_t>())]. *)
Definition LinearSize (a : Size) : Z :=
  fold_left (fun acc x => wrap64 (acc * x)) a 1.

(** The loop of [Inside] over the N components of both arrays. *)
Fixpoint Inside (index : Index) (size : Size) : bool :=
  match index, size with
  | i :: index', s :: size' =>
      if negb ((0 <=? i) && (i <? s)) then false else Inside index' size'
  | _, _ => true
  end.

(** [GridStrides]: the running product [stride] after each of the first
    N - 1 sizes. *)
Fixpoint GridStrides_from (stride : Z) (grid_size : Size) : list Z :=
  match grid_size with
  | s :: ((_ :: _) as rest) =>
      let stride' := wrap64 (stride * s) in
      stride' :: GridStrides_from stride' rest
  | _ => []
  end.

Definition GridStrides (grid_size : Size) : list Z :=
  GridStrides_from 1 grid_size.

(** [GridLinearIndex]: [k = size_t(index[0])], then
    [k += index[i] * grid_strides[i - 1]] in [size_t] arithmetic. *)
Definition GridLinearIndex (index : Index) (grid_strides : list Z) : Z :=
  match index with
  | [] => 0
  | i0 :: rest =>
      fold_left (fun k (p : Z * Z) => wrap64 (k + wrap64 (wrap64 (fst p) * snd p)))
                (combine rest grid_strides) (wrap64 i0)
  end.

(** Unbounded counterparts, used to state when the 64-bit arithmetic is exact. *)
Definition size_product (a : Size) : Z := fold_right Z.mul 1 a.

Fixpoint mixed_radix (index : Index) (size : Size) : Z :=
  match index, size with
  | i :: index', s :: size' => i + s * mixed_radix index' size'
  | _, _ => 0
  end.

Definition all_positive (a : Size) : Prop := Forall (fun s => 0 < s) a.

(** ** Scalars *)

(** The operations the templates use on their floating-point parameter [T]. *)
Class Scalar (T : Type) : Type := {
  s_of_Z : Z -> T;                 (* the literals [T{n}] *)
  sadd : T -> T -> T;
  ssub : T -> T -> T;
  smul : T -> T -> T;
  sdiv : T -> T -> T;
  sopp : T -> T;
  ssqrt : T -> T;
  sltb : T -> T -> bool;
  sleb : T -> T -> bool;
  sisnan : T -> bool;
  smax : T                         (* [numeric_limits<T>::max()] *)
}.

Declare Scope scalar_scope.
Delimit Scope scalar_scope with S.
Infix "+" := sadd : scalar_scope.
Infix "-" := ssub : scalar_scope.
Infix "*" := smul : scalar_scope.
Infix "/" := sdiv : scalar_scope.
Notation "- x" := (sopp x) : scalar_scope.
Infix "<?" := sltb : scalar_scope.
Infix "<=?" := sleb : scalar_scope.

(** [double]: IEEE 754 binary64. *)
Definition float_of_Z (z : Z) : float :=
  match z with
  | Z0 => PrimFloat.zero
  | Zpos _ => PrimFloat.of_uint63 (Uint63.of_Z z)
  | Zneg p => PrimFloat.opp (PrimFloat.of_uint63 (Uint63.of_Z (Zpos p)))
  end.

Definition double_max : float := 0x1.fffffffffffffp+1023%float.

#[export] Instance double_Scalar : Scalar float := {|
  s_of_Z := float_of_Z;
  sadd := PrimFloat.add;
  ssub := PrimFloat.sub;
  smul := PrimFloat.mul;
  sdiv := PrimFloat.div;
  sopp := PrimFloat.opp;
  ssqrt := PrimFloat.sqrt;
  sltb := PrimFloat.ltb;
  sleb := PrimFloat.leb;
  sisnan := PrimFloat.is_nan;
  smax := double_max
|}.

(** Exact real arithmetic: what the floating-point code approximates.  The
    sentinel is the value of [numeric_limits<double>::max()]. *)
Definition Rltb (x y : R) : bool := if Rlt_dec x y then true else false.
Definition Rleb (x y : R) : bool := if Rle_dec x y then true else false.
Definition real_max_Z : Z := Eval vm_compute in 2 ^ 1024 - 2 ^ 971.
Definition real_max : R := IZR real_max_Z.

#[export] Instance real_Scalar : Scalar R := {|
  s_of_Z := IZR;
  sadd := Rplus;
  ssub := Rminus;
  smul := Rmult;
  sdiv := Rdiv;
  sopp := Ropp;
  ssqrt := R_sqrt.sqrt;
  sltb := Rltb;
  sleb := Rleb;
  sisnan := fun _ => false;
  smax := real_max
|}.

(** [Squared] and [InverseSquared]. *)
Definition Squared {T} `{Scalar T} (x : T) : T := (x * x)%S.
Definition InverseSquared {T} `{Scalar T} (x : T) : T := (s_of_Z 1 / Squared x)%S.

(** [frozen]: a distance below the sentinel. *)
Definition frozen {T} `{Scalar T} (d : T) : bool := (d <? smax)%S.

(** ** Validation helpers *)

Definition ThrowIfZeroElementInGridSize (grid_size : Size) : Result unit :=
  if existsb (fun x => x =? 0) grid_size then Err InvalidGridSize else Ok tt.

Definition ThrowIfInvalidCellBufferSize (grid_size : Size) (cell_buffer_size : Z)
  : Result unit :=
  if negb (LinearSize grid_size =? cell_buffer_size)
  then Err InvalidCellBufferSize else Ok tt.

Definition ThrowIfInvalidGridSpacing {T} `{Scalar T} (grid_spacing : list T)
  : Result unit :=
  if existsb (fun x => sisnan x || (x <=? s_of_Z 0)%S) grid_spacing
  then Err InvalidGridSpacing else Ok tt.

Definition ThrowIfZeroOrNegativeOrNanSpeed {T} `{Scalar T} (speed : T)
  : Result unit :=
  if sisnan speed || (speed <=? s_of_Z 0)%S then Err InvalidSpeed else Ok tt.

(** ** Grid: a view of a linear buffer *)

Record Grid (C : Type) : Type := mkGrid {
  size_ : Size;
  strides_ : list Z;
  cells_ : list C            (* the buffer [cells_] points into *)
}.

Arguments mkGrid {C} _ _ _.
Arguments size_ {C} _.
Arguments strides_ {C} _.
Arguments cells_ {C} _.

(** The constructor of [Grid] (and of [ConstGrid]). *)
Definition make_Grid {C} (size : Size) (cell_buffer : list C) : Result (Grid C) :=
  _ <- ThrowIfZeroElementInGridSize size ;;
  _ <- ThrowIfInvalidCellBufferSize size (Z.of_nat (length cell_buffer)) ;;
  Ok (mkGrid size (GridStrides size) cell_buffer).

Fixpoint update_nth {C} (k : nat) (v : C) (l : list C) : list C :=
  match l, k with
  | [], _ => []
  | _ :: l', O => v :: l'
  | c :: l', S k' => c :: update_nth k' v l'
  end.

(** [Cell(index)], read: "No range checking!". *)
Definition Cell {C} (g : Grid C) (index : Index) : Result C :=
  let k := GridLinearIndex index (strides_ g) in
  if k <? Z.of_nat (length (cells_ g)) then
    match nth_error (cells_ g) (Z.to_nat k) with
    | Some c => Ok c
    | None => Err OutOfBounds
    end
  else Err OutOfBounds.

(** [Cell(index) = v], write. *)
Definition SetCell {C} (g : Grid C) (index : Index) (v : C) : Result (Grid C) :=
  let k := GridLinearIndex index (strides_ g) in
  if k <? Z.of_nat (length (cells_ g))
  then Ok (mkGrid (size_ g) (strides_ g) (update_nth (Z.to_nat k) v (cells_ g)))
  else Err OutOfBounds.

(** ** NarrowBandStore *)

Section NarrowBand.
Context {T : Type} `{Scalar T}.

Definition ValueType : Type := (T * Index)%type.

(** The elements of [min_heap_].  [std::priority_queue] is library code: the
    header fixes only the comparison.  Which entry leaves the heap is
    determined when one entry is strictly before every other one; among
    entries of equal distance, or with a distance that does not compare
    (NaN), it depends on the library's heap layout.  The model keeps the
    entries in insertion order and [Pop] removes the earliest entry that
    [HeapComparison_] ranks first; statements that depend on which entry is
    popped carry the condition that it is determined ([no_tie]). *)
Definition NarrowBandStore : Type := list ValueType.

Definition HeapComparison_ (lhs rhs : ValueType) : bool :=
  (fst rhs <? fst lhs)%S.

Definition empty (nb : NarrowBandStore) : bool :=
  match nb with [] => true | _ => false end.

Definition Push (value : ValueType) (nb : NarrowBandStore) : NarrowBandStore :=
  nb ++ [value].

(** Position of the entry [top()] returns, scanning [rest] from position
    [pos] with the best entry so far at [best_pos]. *)
Fixpoint top_position (best : ValueType) (best_pos pos : nat)
         (rest : list ValueType) : nat :=
  match rest with
  | [] => best_pos
  | v :: rest' =>
      if HeapComparison_ best v
      then top_position v pos (S pos) rest'
      else top_position best best_pos (S pos) rest'
  end.

Fixpoint remove_nth {A} (k : nat) (l : list A) : list A :=
  match l, k with
  | [], _ => []
  | _ :: l', O => l'
  | a :: l', S k' => a :: remove_nth k' l'
  end.

Definition Pop (nb : NarrowBandStore) : option (ValueType * NarrowBandStore) :=
  match nb with
  | [] => None
  | v :: rest =>
      let k := top_position v 0 1 rest in
      match nth_error nb k with
      | Some top => Some (top, remove_nth k nb)
      | None => None
      end
  end.
End NarrowBand.

(** ** Neighbourhoods *)

(** [static_pow]. *)
Fixpoint static_pow (base : Z) (exponent : nat) : Z :=
  match exponent with
  | O => 1
  | S e => wrap64 (base * static_pow base e)
  end.

(** [index[i] += offset]. *)
Fixpoint add_at (index : Index) (i : nat) (offset : Z) : Index :=
  match index, i with
  | [], _ => []
  | x :: index', O => (x + offset) :: index'
  | x :: index', S i' => x :: add_at index' i' offset
  end.

(** Component-wise [index[i] += offset[i]]. *)
Fixpoint add_index (index offset : Index) : Index :=
  match index, offset with
  | x :: index', o :: offset' => (x + o) :: add_index index' offset'
  | _, _ => index
  end.

(** [IndexIterator::Next]: the odometer advances the last component first.
    Returns the value of [Next()] and the new [index_]. *)
Fixpoint IndexIterator_Next (size index : list Z) : bool * list Z :=
  match index, size with
  | x :: index', s :: size' =>
      let '(advanced, index'') := IndexIterator_Next size' index' in
      if advanced then (true, x :: index'')
      else if wrap64 x <? wrap64 (s - 1) then (true, (x + 1) :: index'')
      else (false, 0 :: index'')
  | _, _ => (false, index)
  end.

(** The loop of [VertexNeighborOffsets]; it runs 3^N times. *)
Fixpoint VertexNeighborOffsets_loop (fuel : nat) (index_size index : list Z)
  : list Index :=
  match fuel with
  | O => []
  | S fuel' =>
      let offset := map (fun d => d - 1) index in
      let here := if forallb (fun i => i =? 0) offset then [] else [offset] in
      let '(valid_index, index') := IndexIterator_Next index_size index in
      if valid_index
      then here ++ VertexNeighborOffsets_loop fuel' index_size index'
      else here
  end.

Definition VertexNeighborOffsets (N : nat) : list Index :=
  VertexNeighborOffsets_loop (Z.to_nat (static_pow 3 N)) (repeat 3 N) (repeat 0 N).

(** [FaceNeighborOffsets]: rows [2 i] and [2 i + 1] are [+e_i] and [-e_i]. *)
Definition unit_offset (N i : nat) (v : Z) : Index :=
  map (fun j => if (j =? i)%nat then v else 0) (seq 0 N).

Definition FaceNeighborOffsets (N : nat) : list Index :=
  flat_map (fun i => [unit_offset N i 1; unit_offset N i (-1)]) (seq 0 N).

(** [kNeighborOffsets = {-1, 1}], and the order in which the loops
    [for i < N] / [for offset : kNeighborOffsets] visit (axis, offset). *)
Definition kNeighborOffsets : list Z := [-1; 1].

Definition face_steps (N : nat) : list (nat * Z) :=
  flat_map (fun i => map (fun o => (i, o)) kNeighborOffsets) (seq 0 N).

(** ** The local Eikonal update *)

Section Solver.
Context {T : Type} `{Scalar T}.

(** The array [q]: [q[0] + q[1] * x + q[2] * x^2 = 0]. *)
Definition Quadratic : Type := (T * T * T)%type.

Definition SolveEikonalQuadratic (q : Quadratic) : Result T :=
  let '(q0, q1, q2) := q in
  let discriminant := (q1 * q1 - s_of_Z 4 * q2 * q0)%S in
  if (discriminant <? s_of_Z 0)%S then Err NegativeDiscriminant
  else
    let root := ((- q1 + ssqrt discriminant) / (s_of_Z 2 * q2))%S in
    if (root <? s_of_Z 0)%S then Err NegativeDistance else Ok root.

(** First-order contribution of one axis to [q]. *)
Definition first_order_update (q : Quadratic) (neighbor_min_distance h : T)
  : Quadratic :=
  let '(q0, q1, q2) := q in
  let inv_grid_spacing_squared := InverseSquared h in
  ((q0 + Squared neighbor_min_distance * inv_grid_spacing_squared)%S,
   (q1 + s_of_Z (-2) * neighbor_min_distance * inv_grid_spacing_squared)%S,
   (q2 + inv_grid_spacing_squared)%S).

(** The inner loop of [SolveEikonal] over [neighbor_offsets]. *)
Fixpoint neighbor_min (offsets : list Z) (index : Index) (i : nat)
         (distance_grid : Grid T) (neighbor_min_distance : T) : Result T :=
  match offsets with
  | [] => Ok neighbor_min_distance
  | neighbor_offset :: offsets' =>
      let neighbor_index := add_at index i neighbor_offset in
      if Inside neighbor_index (size_ distance_grid) then
        neighbor_distance <- Cell distance_grid neighbor_index ;;
        if (neighbor_distance <? neighbor_min_distance)%S
        then neighbor_min offsets' index i distance_grid neighbor_distance
        else neighbor_min offsets' index i distance_grid neighbor_min_distance
      else neighbor_min offsets' index i distance_grid neighbor_min_distance
  end.

(** The outer loop of [SolveEikonal] over the axes [i], each with its
    [grid_spacing[i]]. *)
Fixpoint SolveEikonal_axes (axes : list (nat * T)) (index : Index)
         (distance_grid : Grid T) (q : Quadratic) : Result Quadratic :=
  match axes with
  | [] => Ok q
  | (i, h) :: axes' =>
      neighbor_min_distance <-
        neighbor_min kNeighborOffsets index i distance_grid smax ;;
      let q' := if (neighbor_min_distance <? smax)%S
                then first_order_update q neighbor_min_distance h
                else q in
      SolveEikonal_axes axes' index distance_grid q'
  end.

Definition initial_quadratic (speed : T) : Quadratic :=
  ((s_of_Z (-1) / Squared speed)%S, s_of_Z 0, s_of_Z 0).

Definition axes_of (index : Index) (grid_spacing : list T) : list (nat * T) :=
  combine (seq 0 (length index)) grid_spacing.

Definition SolveEikonal_coefficients (index : Index) (distance_grid : Grid T)
           (speed : T) (grid_spacing : list T) : Result Quadratic :=
  SolveEikonal_axes (axes_of index grid_spacing) index distance_grid
                    (initial_quadratic speed).

Definition SolveEikonal (index : Index) (distance_grid : Grid T)
           (speed : T) (grid_spacing : list T) : Result T :=
  q <- SolveEikonal_coefficients index distance_grid speed grid_spacing ;;
  SolveEikonalQuadratic q.

(** Second-order contribution of one axis to [q]. *)
Definition second_order_update (q : Quadratic)
           (neighbor_min_distance neighbor_min_distance2 h : T) : Quadratic :=
  let '(q0, q1, q2) := q in
  let alpha := (s_of_Z 9 / (s_of_Z 4 * Squared h))%S in
  let t := ((s_of_Z 1 / s_of_Z 3)
            * (s_of_Z 4 * neighbor_min_distance - neighbor_min_distance2))%S in
  ((q0 + Squared t * alpha)%S,
   (q1 + s_of_Z (-2) * t * alpha)%S,
   (q2 + alpha)%S).

(** The inner loop of [HighAccuracySolveEikonal]; the state is the pair
    [(neighbor_min_distance, neighbor_min_distance2)]. *)
Fixpoint neighbor_min2 (offsets : list Z) (index : Index) (i : nat)
         (distance_grid : Grid T) (mins : T * T) : Result (T * T) :=
  match offsets with
  | [] => Ok mins
  | neighbor_offset :: offsets' =>
      let '(neighbor_min_distance, neighbor_min_distance2) := mins in
      let neighbor_index := add_at index i neighbor_offset in
      if Inside neighbor_index (size_ distance_grid) then
        neighbor_distance <- Cell distance_grid neighbor_index ;;
        if (neighbor_distance <? neighbor_min_distance)%S then
          let neighbor_index2 := add_at neighbor_index i neighbor_offset in
          if Inside neighbor_index2 (size_ distance_grid) then
            neighbor_distance2 <- Cell distance_grid neighbor_index2 ;;
            if (neighbor_distance2 <=? neighbor_distance)%S
            then neighbor_min2 offsets' index i distance_grid
                               (neighbor_distance, neighbor_distance2)
            else neighbor_min2 offsets' index i distance_grid
                               (neighbor_distance, neighbor_min_distance2)
          else neighbor_min2 offsets' index i distance_grid
                             (neighbor_distance, neighbor_min_distance2)
        else neighbor_min2 offsets' index i distance_grid mins
      else neighbor_min2 offsets' index i distance_grid mins
  end.

Fixpoint HighAccuracySolveEikonal_axes (axes : list (nat * T)) (index : Index)
         (distance_grid : Grid T) (q : Quadratic) : Result Quadratic :=
  match axes with
  | [] => Ok q
  | (i, h) :: axes' =>
      '(neighbor_min_distance, neighbor_min_distance2) <-
        neighbor_min2 kNeighborOffsets index i distance_grid (smax, smax) ;;
      let q' :=
        if (neighbor_min_distance <? smax)%S then
          if (neighbor_min_distance2 <? smax)%S
          then second_order_update q neighbor_min_distance
                                   neighbor_min_distance2 h
          else first_order_update q neighbor_min_distance h
        else q in
      HighAccuracySolveEikonal_axes axes' index distance_grid q'
  end.

Definition HighAccuracySolveEikonal_coefficients (index : Index)
           (distance_grid : Grid T) (speed : T) (grid_spacing : list T)
  : Result Quadratic :=
  HighAccuracySolveEikonal_axes (axes_of index grid_spacing) index
                                distance_grid (initial_quadratic speed).

Definition HighAccuracySolveEikonal (index : Index) (distance_grid : Grid T)
           (speed : T) (grid_spacing : list T) : Result T :=
  q <- HighAccuracySolveEikonal_coefficients index distance_grid speed
                                             grid_spacing ;;
  SolveEikonalQuadratic q.

(** *** The solver classes.  A solver is its [Solve] method; a constructor
    that throws yields no solver. *)
Definition EikonalSolver : Type := Index -> Grid T -> Result T.

Definition UniformSpeedEikonalSolver (grid_spacing : list T) (speed : T)
  : Result EikonalSolver :=
  _ <- ThrowIfInvalidGridSpacing grid_spacing ;;
  _ <- ThrowIfZeroOrNegativeOrNanSpeed speed ;;
  Ok (fun index distance_grid =>
        SolveEikonal index distance_grid speed grid_spacing).

Definition HighAccuracyUniformSpeedEikonalSolver (grid_spacing : list T)
           (speed : T) : Result EikonalSolver :=
  _ <- ThrowIfInvalidGridSpacing grid_spacing ;;
  _ <- ThrowIfZeroOrNegativeOrNanSpeed speed ;;
  Ok (fun index distance_grid =>
        HighAccuracySolveEikonal index distance_grid speed grid_spacing).

Fixpoint check_speeds (speed_buffer : list T) : Result unit :=
  match speed_buffer with
  | [] => Ok tt
  | speed :: rest =>
      _ <- ThrowIfZeroOrNegativeOrNanSpeed speed ;; check_speeds rest
  end.

(** [VaryingSpeedEikonalSolverBase::Speed]. *)
Definition Speed (speed_grid : Grid T) (index : Index) : Result T :=
  if negb (Inside index (size_ speed_grid)) then Err IndexOutsideSpeedGrid
  else Cell speed_grid index.

Definition VaryingSpeedEikonalSolver (grid_spacing : list T)
           (speed_grid_size : Size) (speed_buffer : list T)
  : Result EikonalSolver :=
  _ <- ThrowIfInvalidGridSpacing grid_spacing ;;
  speed_grid <- make_Grid speed_grid_size speed_buffer ;;
  _ <- check_speeds speed_buffer ;;
  Ok (fun index distance_grid =>
        speed <- Speed speed_grid index ;;
        SolveEikonal index distance_grid speed grid_spacing).

Definition HighAccuracyVaryingSpeedEikonalSolver (grid_spacing : list T)
           (speed_grid_size : Size) (speed_buffer : list T)
  : Result EikonalSolver :=
  _ <- ThrowIfInvalidGridSpacing grid_spacing ;;
  speed_grid <- make_Grid speed_grid_size speed_buffer ;;
  _ <- check_speeds speed_buffer ;;
  Ok (fun index distance_grid =>
        speed <- Speed speed_grid index ;;
        HighAccuracySolveEikonal index distance_grid speed grid_spacing).
End Solver.

(** ** Boundary condition, initial narrow band and marching *)

(** The scoped enumerations local to the functions of the header. *)
Module LabelCell.
Inductive t : Type := kBackground | kForeground | kLabelled.
Definition eqb (a b : t) : bool :=
  match a, b with
  | kBackground, kBackground | kForeground, kForeground
  | kLabelled, kLabelled => true
  | _, _ => false
  end.
End LabelCell.

Module DilationCell.
Inductive t : Type := kBackground | kForeground | kDilated.
Definition eqb (a b : t) : bool :=
  match a, b with
  | kBackground, kBackground | kForeground, kForeground
  | kDilated, kDilated => true
  | _, _ => false
  end.
End DilationCell.

Module NarrowBandCell.
Inductive t : Type := kBackground | kFrozen | kNarrowBand.
Definition eqb (a b : t) : bool :=
  match a, b with
  | kBackground, kBackground | kFrozen, kFrozen
  | kNarrowBand, kNarrowBand => true
  | _, _ => false
  end.
End NarrowBandCell.

Section Marching.
Context {T : Type} `{Scalar T}.

(** The loop of [SetBoundaryCondition] over the seeds
    [(indices[i], distances[i])].  The result pairs the state of
    [*distance_grid] when the function is left with how it is left. *)
Fixpoint SetBoundaryCondition_loop (seeds : list (Index * T)) (multiplier : T)
         (distance_predicate : T -> bool) (distance_grid : Grid T)
  : Grid T * Result unit :=
  match seeds with
  | [] => (distance_grid, Ok tt)
  | (index, distance) :: seeds' =>
      if negb (Inside index (size_ distance_grid))
      then (distance_grid, Err FrozenIndexOutsideGrid)
      else if negb (distance_predicate distance)
      then (distance_grid, Err InvalidFrozenDistance)
      else
        match Cell distance_grid index with
        | Err e => (distance_grid, Err e)
        | Ok distance_cell =>
            if frozen distance_cell
            then (distance_grid, Err DuplicateFrozenIndex)
            else
              match SetCell distance_grid index (multiplier * distance)%S with
              | Err e => (distance_grid, Err e)
              | Ok distance_grid' =>
                  SetBoundaryCondition_loop seeds' multiplier
                    distance_predicate distance_grid'
              end
        end
  end.

Definition SetBoundaryCondition (indices : list Index) (distances : list T)
           (multiplier : T) (distance_predicate : T -> bool)
           (distance_grid : Grid T) : Grid T * Result unit :=
  match indices with
  | [] => (distance_grid, Err EmptyFrozenIndices)
  | _ :: _ =>
      if negb (length indices =? length distances)%nat
      then (distance_grid, Err SizeMismatch)
      else
        let '(distance_grid', r) :=
          SetBoundaryCondition_loop (combine indices distances) multiplier
            distance_predicate distance_grid in
        match r with
        | Err e => (distance_grid', Err e)
        | Ok _ =>
            if Z.of_nat (length indices) =? LinearSize (size_ distance_grid')
            then (distance_grid', Err WholeGridFrozen)
            else (distance_grid', Ok tt)
        end
  end.

Section WithSolver.
(** The template parameter [E]: any type with a [Solve] method. *)
Variable eikonal_solver : Index -> Grid T -> Result T.

(** The two inner loops of [InitialUnsignedNarrowBand] for one
  [frozen_index]. *)
Fixpoint InitialUnsignedNarrowBand_steps (steps : list (nat * Z))
       (frozen_index : Index) (distance_grid : Grid T)
       (narrow_band_grid : Grid NarrowBandCell.t)
       (narrow_band : NarrowBandStore)
    : Result (Grid NarrowBandCell.t * NarrowBandStore) :=
    match steps with
    | [] => Ok (narrow_band_grid, narrow_band)
    | (i, neighbor_offset) :: steps' =>
    let neighbor_index := add_at frozen_index i neighbor_offset in
    if Inside neighbor_index (size_ narrow_band_grid) then
      neighbor_cell <- Cell narrow_band_grid neighbor_index ;;
      if NarrowBandCell.eqb neighbor_cell NarrowBandCell.kBackground then
        distance <- eikonal_solver neighbor_index distance_grid ;;
        narrow_band_grid' <-
          SetCell narrow_band_grid neighbor_index
                  NarrowBandCell.kNarrowBand ;;
        InitialUnsignedNarrowBand_steps steps' frozen_index distance_grid
          narrow_band_grid' (Push (distance, neighbor_index) narrow_band)
      else InitialUnsignedNarrowBand_steps steps' frozen_index
             distance_grid narrow_band_grid narrow_band
    else InitialUnsignedNarrowBand_steps steps' frozen_index
           distance_grid narrow_band_grid narrow_band
    end.

Fixpoint InitialUnsignedNarrowBand_loop (frozen_indices : list Index)
       (distance_grid : Grid T) (narrow_band_grid : Grid NarrowBandCell.t)
       (narrow_band : NarrowBandStore) : Result NarrowBandStore :=
    match frozen_indices with
    | [] => Ok narrow_band
    | frozen_index :: frozen_indices' =>
    '(narrow_band_grid', narrow_band') <-
      InitialUnsignedNarrowBand_steps
        (face_steps (length frozen_index)) frozen_index distance_grid
        narrow_band_grid narrow_band ;;
    InitialUnsignedNarrowBand_loop frozen_indices' distance_grid
      narrow_band_grid' narrow_band'
    end.

Definition InitialUnsignedNarrowBand (frozen_indices : list Index)
         (distance_grid : Grid T) : Result NarrowBandStore :=
    narrow_band_grid <-
  make_Grid (size_ distance_grid)
    (repeat NarrowBandCell.kBackground
            (Z.to_nat (LinearSize (size_ distance_grid)))) ;;
    InitialUnsignedNarrowBand_loop frozen_indices distance_grid
  narrow_band_grid [].

(** The loops of [UpdateNeighbors].  The grid is only read. *)
Fixpoint UpdateNeighbors_steps (steps : list (nat * Z)) (index : Index)
       (distance_grid : Grid T) (narrow_band : NarrowBandStore)
    : Result NarrowBandStore :=
    match steps with
    | [] => Ok narrow_band
    | (i, neighbor_offset) :: steps' =>
    let neighbor_index := add_at index i neighbor_offset in
    if Inside neighbor_index (size_ distance_grid) then
      distance_cell <- Cell distance_grid neighbor_index ;;
      if negb (frozen distance_cell) then
        distance <- eikonal_solver neighbor_index distance_grid ;;
        UpdateNeighbors_steps steps' index distance_grid
          (Push (distance, neighbor_index) narrow_band)
      else UpdateNeighbors_steps steps' index distance_grid narrow_band
    else UpdateNeighbors_steps steps' index distance_grid narrow_band
    end.

Definition UpdateNeighbors (index : Index) (distance_grid : Grid T)
         (narrow_band : NarrowBandStore) : Result NarrowBandStore :=
    UpdateNeighbors_steps (face_steps (length index)) index distance_grid
                      narrow_band.

(** One iteration of the loop of [MarchNarrowBand] on a non-empty band. *)
Definition MarchNarrowBand_body (narrow_band : NarrowBandStore)
         (distance_grid : Grid T)
    : Result (NarrowBandStore * Grid T) :=
    match Pop narrow_band with
    | None => Err OutOfBounds        (* [Pop] on an empty heap *)
    | Some ((distance, index), narrow_band') =>
    distance_cell <- Cell distance_grid index ;;
    if negb (frozen distance_cell) then
      distance_grid' <- SetCell distance_grid index distance ;;
      narrow_band'' <- UpdateNeighbors index distance_grid' narrow_band' ;;
      Ok (narrow_band'', distance_grid')
    else Ok (narrow_band', distance_grid)
    end.

(** [MarchNarrowBand]: [while (!narrow_band->empty())].  [fuel] bounds the
  number of iterations the model may run; the second component of the
  result counts the iterations that were run. *)
Fixpoint MarchNarrowBand_loop (fuel : nat) (iterations : nat)
       (narrow_band : NarrowBandStore) (distance_grid : Grid T)
    : Result (Grid T * nat) :=
    if empty narrow_band then Ok (distance_grid, iterations)
    else
  match fuel with
  | O => Err OutOfFuel
  | S fuel' =>
      '(narrow_band', distance_grid') <-
        MarchNarrowBand_body narrow_band distance_grid ;;
      MarchNarrowBand_loop fuel' (S iterations) narrow_band' distance_grid'
  end.

Definition MarchNarrowBand (fuel : nat) (narrow_band : NarrowBandStore)
         (distance_grid : Grid T) : Result (Grid T) :=
    '(distance_grid', _) <-
  MarchNarrowBand_loop fuel 0 narrow_band distance_grid ;;
    Ok distance_grid'.

(** The predicate the unsigned driver passes to [SetBoundaryCondition]. *)
Definition unsigned_distance_predicate (d : T) : bool :=
    negb (sisnan d) && frozen d && (s_of_Z 0 <=? d)%S.

(** [UnsignedDistance].  An exception leaves through the driver: the local
  [distance_buffer] is not returned. *)
Definition UnsignedDistance (fuel : nat) (grid_size : Size)
         (frozen_indices : list Index) (frozen_distances : list T)
    : Result (list T) :=
    let distance_buffer := repeat smax (Z.to_nat (LinearSize grid_size)) in
    distance_grid <- make_Grid grid_size distance_buffer ;;
    let '(distance_grid1, r) :=
  SetBoundaryCondition frozen_indices frozen_distances (s_of_Z 1)
    unsigned_distance_predicate distance_grid in
    _ <- r ;;
    narrow_band <- InitialUnsignedNarrowBand frozen_indices distance_grid1 ;;
    distance_grid2 <- MarchNarrowBand fuel narrow_band distance_grid1 ;;
    Ok (cells_ distance_grid2).
End WithSolver.
End Marching.

(** ** Connected components and dilation bands *)

(** The loop over the neighbour offsets inside the flood fill of
    [ConnectedComponents], for the popped [top_neighbor_index]. *)
Fixpoint flood_offsets (offsets : list Index) (top_neighbor_index : Index)
         (label_grid : Grid LabelCell.t) (component : list Index)
         (neighbor_indices : list Index)
  : Result (Grid LabelCell.t * list Index * list Index) :=
  match offsets with
  | [] => Ok (label_grid, component, neighbor_indices)
  | neighbor_offset :: offsets' =>
      let neighbor_index := add_index top_neighbor_index neighbor_offset in
      if Inside neighbor_index (size_ label_grid) then
        c <- Cell label_grid neighbor_index ;;
        if LabelCell.eqb c LabelCell.kForeground then
          label_grid' <- SetCell label_grid neighbor_index LabelCell.kLabelled ;;
          flood_offsets offsets' top_neighbor_index label_grid'
            (component ++ [neighbor_index]) (neighbor_index :: neighbor_indices)
        else flood_offsets offsets' top_neighbor_index label_grid component
               neighbor_indices
      else flood_offsets offsets' top_neighbor_index label_grid component
             neighbor_indices
  end.

(** [while (!neighbor_indices.empty())]; the stack is a list with its top
    first.  Every pop is of a cell that was labelled when it was pushed, so
    the loop runs at most once per cell of the grid: that is the fuel. *)
Fixpoint flood_fill (fuel : nat) (offsets : list Index)
         (label_grid : Grid LabelCell.t) (component : list Index)
         (neighbor_indices : list Index)
  : Result (Grid LabelCell.t * list Index) :=
  match neighbor_indices with
  | [] => Ok (label_grid, component)
  | top_neighbor_index :: rest =>
      match fuel with
      | O => Err OutOfFuel
      | S fuel' =>
          '(label_grid', component', neighbor_indices') <-
            flood_offsets offsets top_neighbor_index label_grid component rest ;;
          flood_fill fuel' offsets label_grid' component' neighbor_indices'
      end
  end.

Fixpoint set_cells {C} (indices : list Index) (v : C) (g : Grid C)
  : Result (Grid C) :=
  match indices with
  | [] => Ok g
  | index :: indices' => g' <- SetCell g index v ;; set_cells indices' v g'
  end.

Fixpoint ConnectedComponents_loop (indices : list Index) (offsets : list Index)
         (label_grid : Grid LabelCell.t)
         (connected_components : list (list Index))
  : Result (list (list Index)) :=
  match indices with
  | [] => Ok connected_components
  | index :: indices' =>
      c <- Cell label_grid index ;;
      if LabelCell.eqb c LabelCell.kForeground then
        label_grid1 <- SetCell label_grid index LabelCell.kLabelled ;;
        '(label_grid2, component) <-
          flood_fill (S (length (cells_ label_grid))) offsets label_grid1
                     [index] [index] ;;
        ConnectedComponents_loop indices' offsets label_grid2
          (connected_components ++ [component])
      else ConnectedComponents_loop indices' offsets label_grid
             connected_components
  end.

Definition ConnectedComponents (indices : list Index) (grid_size : Size)
           (neighbor_offsets : list Index) : Result (list (list Index)) :=
  match indices with
  | [] => Ok []
  | _ :: _ =>
      label_grid <-
        make_Grid grid_size
          (repeat LabelCell.kBackground (Z.to_nat (LinearSize grid_size))) ;;
      label_grid' <- set_cells indices LabelCell.kForeground label_grid ;;
      ConnectedComponents_loop indices neighbor_offsets label_grid' []
  end.

(** The loop over the vertex offsets of one foreground cell in
    [DilationBands]. *)
Fixpoint dilate_offsets (offsets : list Index) (dilation_index : Index)
         (dilation_grid : Grid DilationCell.t) (dilation_indices : list Index)
  : Result (Grid DilationCell.t * list Index) :=
  match offsets with
  | [] => Ok (dilation_grid, dilation_indices)
  | dilation_neighbor_offset :: offsets' =>
      let neighbor_index := add_index dilation_index dilation_neighbor_offset in
      c <- Cell dilation_grid neighbor_index ;;
      if DilationCell.eqb c DilationCell.kBackground then
        dilation_grid' <-
          SetCell dilation_grid neighbor_index DilationCell.kDilated ;;
        dilate_offsets offsets' dilation_index dilation_grid'
          (dilation_indices ++ [neighbor_index])
      else dilate_offsets offsets' dilation_index dilation_grid dilation_indices
  end.

Fixpoint dilate_loop (indices : list Index) (offsets : list Index)
         (dilation_grid : Grid DilationCell.t) (dilation_indices : list Index)
  : Result (Grid DilationCell.t * list Index) :=
  match indices with
  | [] => Ok (dilation_grid, dilation_indices)
  | grid_index :: indices' =>
      let dilation_index := map (fun d => d + 1) grid_index in
      '(dilation_grid', dilation_indices') <-
        dilate_offsets offsets dilation_index dilation_grid dilation_indices ;;
      dilate_loop indices' offsets dilation_grid' dilation_indices'
  end.

(** The last loop of [DilationBands]: remove the padding, keep what lies in
    the grid, drop empty bands. *)
Fixpoint unpad_bands (components : list (list Index)) (grid_size : Size)
  : list (list Index) :=
  match components with
  | [] => []
  | dilation_component :: components' =>
      let dilation_band :=
        filter (fun grid_index => Inside grid_index grid_size)
               (map (map (fun d => d - 1)) dilation_component) in
      match dilation_band with
      | [] => unpad_bands components' grid_size
      | _ :: _ => dilation_band :: unpad_bands components' grid_size
      end
  end.

Definition DilationBands (indices : list Index) (grid_size : Size)
  : Result (list (list Index)) :=
  match indices with
  | [] => Ok []
  | _ :: _ =>
      let N := length grid_size in
      let dilation_grid_size := map (fun d => wrap64 (d + 2)) grid_size in
      dilation_grid <-
        make_Grid dilation_grid_size
          (repeat DilationCell.kBackground
                  (Z.to_nat (LinearSize dilation_grid_size))) ;;
      dilation_grid1 <-
        set_cells (map (map (fun d => d + 1)) indices)
                  DilationCell.kForeground dilation_grid ;;
      '(_, dilation_indices) <-
        dilate_loop indices (VertexNeighborOffsets N) dilation_grid1 [] ;;
      connected_dilation_components <-
        ConnectedComponents dilation_indices dilation_grid_size
                            (FaceNeighborOffsets N) ;;
      Ok (unpad_bands connected_dilation_components grid_size)
  end.

Definition int32_max : Z := 2 ^ 31 - 1.
Definition int32_min : Z := - 2 ^ 31.

(** [BoundingBox]: per axis the pair (min, max) of the components. *)
Definition BoundingBox (N : nat) (indices : list Index) : Result (list (Z * Z)) :=
  match indices with
  | [] => Err EmptyBoundingBox
  | _ :: _ =>
      Ok (fold_left
            (fun bbox index =>
               map (fun p : (Z * Z) * Z =>
                      (Z.min (fst (fst p)) (snd p), Z.max (snd (fst p)) (snd p)))
                   (combine bbox index))
            indices (repeat (int32_max, int32_min) N))
  end.

(** [std::int32_t] arithmetic: the value of an [int] expression on a
    two's-complement target, where an overflow (undefined in C++) wraps. *)
Definition wrap_int32 (z : Z) : Z := (z + 2 ^ 31) mod 2 ^ 32 - 2 ^ 31.

(** [HyperVolume]: [hyper_volume *= (bbox[i].second - bbox[i].first + 1)].
    The extent is computed in [std::int32_t] and converted to [size_t] for
    the product. *)
Definition HyperVolume (bbox : list (Z * Z)) : Z :=
  fold_left (fun hyper_volume (b : Z * Z) =>
               wrap64 (hyper_volume
                       * wrap64 (wrap_int32 (wrap_int32 (snd b - fst b) + 1))))
            bbox 1.

(** ** Initial narrow bands of the signed driver *)

(** [dilation_band_areas]: the pairs (band number, hyper volume of its
    bounding box). *)
Fixpoint band_areas (N : nat) (i : Z) (dilation_bands : list (list Index))
  : Result (list (Z * Z)) :=
  match dilation_bands with
  | [] => Ok []
  | band :: rest =>
      bbox <- BoundingBox N band ;;
      areas <- band_areas N (i + 1) rest ;;
      Ok ((i, HyperVolume bbox) :: areas)
  end.

(** [std::sort] with the comparison [lhs.second > rhs.second].  The order it
    leaves between pairs of equal area is not fixed by the C++ standard; the
    model is an insertion sort, which keeps them in their original order. *)
Fixpoint insert_by_area (x : Z * Z) (sorted : list (Z * Z)) : list (Z * Z) :=
  match sorted with
  | [] => [x]
  | y :: sorted' =>
      if snd y <? snd x then x :: y :: sorted'
      else y :: insert_by_area x sorted'
  end.

Definition sort_by_area (areas : list (Z * Z)) : list (Z * Z) :=
  fold_left (fun sorted x => insert_by_area x sorted) areas [].

(** The nested [while] loops that look for a frozen face neighbour of
    [dilation_index]; they stop at the first one found. *)
Fixpoint frozen_neighbor_found (steps : list (nat * Z)) (dilation_index : Index)
         (narrow_band_grid : Grid NarrowBandCell.t) : Result bool :=
  match steps with
  | [] => Ok false
  | (i, neighbor_offset) :: steps' =>
      c <- Cell narrow_band_grid (add_at dilation_index i neighbor_offset) ;;
      if NarrowBandCell.eqb c NarrowBandCell.kFrozen then Ok true
      else frozen_neighbor_found steps' dilation_index narrow_band_grid
  end.

(** The loop over one dilation band.  [check_background] is true for the
    outer band, whose cells are skipped unless they are [kBackground]. *)
Fixpoint band_loop (check_background : bool) (N : nat) (band : list Index)
         (narrow_band_grid : Grid NarrowBandCell.t)
         (narrow_band_indices : list Index)
  : Result (Grid NarrowBandCell.t * list Index) :=
  match band with
  | [] => Ok (narrow_band_grid, narrow_band_indices)
  | dilation_index :: band' =>
      skip <-
        (if check_background then
           c <- Cell narrow_band_grid dilation_index ;;
           Ok (negb (NarrowBandCell.eqb c NarrowBandCell.kBackground))
         else Ok false) ;;
      if skip : bool
      then band_loop check_background N band' narrow_band_grid
                     narrow_band_indices
      else
        found <- frozen_neighbor_found (face_steps N) dilation_index
                                       narrow_band_grid ;;
        if found : bool then
          narrow_band_grid' <-
            SetCell narrow_band_grid dilation_index NarrowBandCell.kNarrowBand ;;
          band_loop check_background N band' narrow_band_grid'
                    (narrow_band_indices ++ [dilation_index])
        else band_loop check_background N band' narrow_band_grid
                       narrow_band_indices
  end.

(** [dilation_bands[dilation_band_areas[k].first]]. *)
Definition band_at (dilation_bands : list (list Index))
           (dilation_band_areas : list (Z * Z)) (k : nat)
  : Result (list Index) :=
  match nth_error dilation_band_areas k with
  | None => Err OutOfBounds
  | Some (i, _) =>
      match nth_error dilation_bands (Z.to_nat i) with
      | None => Err OutOfBounds
      | Some band => Ok band
      end
  end.

(** The loop [for k = 1 .. dilation_bands.size() - 1] over the inner bands. *)
Fixpoint inner_bands_loop (ks : list nat) (N : nat)
         (dilation_bands : list (list Index)) (dilation_band_areas : list (Z * Z))
         (narrow_band_grid : Grid NarrowBandCell.t)
         (inside_narrow_band_indices : list Index)
  : Result (Grid NarrowBandCell.t * list Index) :=
  match ks with
  | [] => Ok (narrow_band_grid, inside_narrow_band_indices)
  | k :: ks' =>
      inner_dilation_band <- band_at dilation_bands dilation_band_areas k ;;
      '(narrow_band_grid', inside') <-
        band_loop false N inner_dilation_band narrow_band_grid
                  inside_narrow_band_indices ;;
      inner_bands_loop ks' N dilation_bands dilation_band_areas
                       narrow_band_grid' inside'
  end.

(** The body of the loop over the connected components.  The state is the
    label grid and the two index lists (inside, outside). *)
Definition component_step (grid_size : Size) (connected_component : list Index)
           (st : Grid NarrowBandCell.t * list Index * list Index)
  : Result (Grid NarrowBandCell.t * list Index * list Index) :=
  let '(narrow_band_grid, inside_narrow_band_indices,
        outside_narrow_band_indices) := st in
  let N := length grid_size in
  dilation_bands <- DilationBands connected_component grid_size ;;
  if (length dilation_bands =? 1)%nat then Err OpenConnectedComponent
  else
    areas <- band_areas N 0 dilation_bands ;;
    let dilation_band_areas := sort_by_area areas in
    outer_dilation_band <- band_at dilation_bands dilation_band_areas 0 ;;
    '(narrow_band_grid1, outside') <-
      band_loop true N outer_dilation_band narrow_band_grid
                outside_narrow_band_indices ;;
    '(narrow_band_grid2, inside') <-
      inner_bands_loop (seq 1 (length dilation_bands - 1)) N dilation_bands
                       dilation_band_areas narrow_band_grid1
                       inside_narrow_band_indices ;;
    Ok (narrow_band_grid2, inside', outside').

Fixpoint components_loop (grid_size : Size)
         (connected_components : list (list Index))
         (st : Grid NarrowBandCell.t * list Index * list Index)
  : Result (Grid NarrowBandCell.t * list Index * list Index) :=
  match connected_components with
  | [] => Ok st
  | connected_component :: rest =>
      st' <- component_step grid_size connected_component st ;;
      components_loop grid_size rest st'
  end.

(** [InitialSignedNarrowBands]: the result is the pair
    [(inside_narrow_band_indices, outside_narrow_band_indices)]. *)
Definition InitialSignedNarrowBands (frozen_indices : list Index)
           (grid_size : Size) : Result (list Index * list Index) :=
  connected_components <-
    ConnectedComponents frozen_indices grid_size
                        (VertexNeighborOffsets (length grid_size)) ;;
  narrow_band_grid <-
    make_Grid grid_size
      (repeat NarrowBandCell.kBackground (Z.to_nat (LinearSize grid_size))) ;;
  narrow_band_grid' <-
    set_cells frozen_indices NarrowBandCell.kFrozen narrow_band_grid ;;
  '(_, inside_narrow_band_indices, outside_narrow_band_indices) <-
    components_loop grid_size connected_components
                    (narrow_band_grid', [], []) ;;
  Ok (inside_narrow_band_indices, outside_narrow_band_indices).

(** ** The signed driver *)

Section Signed.
Context {T : Type} `{Scalar T}.

(** Modelled from the spec: [ThrowIfSizeNotEqual] is called by
    [SignedDistance] but not defined in the header; the error kinds of the
    spec name a mismatch of the seed index and distance lists. *)
Definition ThrowIfSizeNotEqual (frozen_indices : list Index)
           (frozen_distances : list T) : Result unit :=
  if negb (length frozen_indices =? length frozen_distances)%nat
  then Err SizeMismatch else Ok tt.

(** Modelled from the spec: [ThrowIfEmptyIndices] is not defined in the
    header; an empty seed list is an error. *)
Definition ThrowIfEmptyIndices (frozen_indices : list Index) : Result unit :=
  match frozen_indices with
  | [] => Err EmptyFrozenIndices
  | _ :: _ => Ok tt
  end.

(** Modelled from the spec: [ThrowIfIndexOutsideGrid] is not defined in the
    header; a seed index outside the grid is an error. *)
Definition ThrowIfIndexOutsideGrid (frozen_indices : list Index)
           (grid_size : Size) : Result unit :=
  if forallb (fun index => Inside index grid_size) frozen_indices
  then Ok tt else Err FrozenIndexOutsideGrid.

Definition Index_eqb (a b : Index) : bool :=
  if list_eq_dec Z.eq_dec a b then true else false.

Fixpoint has_duplicate (indices : list Index) : bool :=
  match indices with
  | [] => false
  | index :: rest => existsb (Index_eqb index) rest || has_duplicate rest
  end.

(** Modelled from the spec: [ThrowIfDuplicateIndices] is not defined in the
    header; a seed index that occurs twice is an error. *)
Definition ThrowIfDuplicateIndices (frozen_indices : list Index)
           (grid_size : Size) : Result unit :=
  if has_duplicate frozen_indices then Err DuplicateFrozenIndex else Ok tt.

(** Modelled from the spec: [ThrowIfWholeGridFrozen] is not defined in the
    header; seeds that cover the entire grid are an error. *)
Definition ThrowIfWholeGridFrozen (frozen_indices : list Index)
           (grid_size : Size) : Result unit :=
  if Z.of_nat (length frozen_indices) =? LinearSize grid_size
  then Err WholeGridFrozen else Ok tt.

(** Modelled from the spec: [ThrowIfInvalidDistance] is not defined in the
    header; a seed distance the predicate rejects is an error. *)
Definition ThrowIfInvalidDistance (frozen_distances : list T)
           (distance_predicate : T -> bool) : Result unit :=
  if forallb distance_predicate frozen_distances
  then Ok tt else Err InvalidFrozenDistance.

(** The predicate the signed driver passes: [!isnan(d)]. *)
Definition signed_distance_predicate (d : T) : bool := negb (sisnan d).

(** Modelled from the spec: [InitializeNarrowBand] is called by
    [SignedDistance] but not defined in the header; the spec says the narrow
    band is seeded from the collected cells, each with a solver call (as
    [InitialUnsignedNarrowBand] does for its cells). *)
Fixpoint InitializeNarrowBand (narrow_band_indices : list Index)
         (eikonal_solver : Index -> Grid T -> Result T)
         (distance_grid : Grid T) (narrow_band : NarrowBandStore)
  : Result NarrowBandStore :=
  match narrow_band_indices with
  | [] => Ok narrow_band
  | index :: rest =>
      distance <- eikonal_solver index distance_grid ;;
      InitializeNarrowBand rest eikonal_solver distance_grid
                           (Push (distance, index) narrow_band)
  end.

(** The [for_each] between the two marches:
    [d = d < max ? d * T{-1} : d]. *)
Definition flip_sign (d : T) : T :=
  if (d <? smax)%S then (d * s_of_Z (-1))%S else d.

(** [static_assert(N > 1, ...)] of [SignedDistance]: with one dimension (or
    none) the call does not compile, so no run of the driver exists; the
    model has no result for it either. *)
Definition static_assert_dimensions (grid_size : Size) : Result unit :=
  if (1 <? length grid_size)%nat then Ok tt else Err DimensionNotAboveOne.

(** [SignedDistance].  The helpers above stand for the functions the header
    calls without defining them; the call of [SetBoundaryCondition] passes no
    predicate in the header and is given the driver's predicate here;
    [EikonalSolverType] is the first-order uniform-speed solver.  The narrow
    band object is shared by the two marches; the first march leaves it
    empty. *)
Definition SignedDistance (fuel : nat) (grid_size : Size) (dx : list T)
           (speed : T) (frozen_indices : list Index)
           (frozen_distances : list T) : Result (list T) :=
  _ <- static_assert_dimensions grid_size ;;
  _ <- ThrowIfZeroElementInGridSize grid_size ;;
  _ <- ThrowIfInvalidGridSpacing dx ;;
  _ <- ThrowIfZeroOrNegativeOrNanSpeed speed ;;
  _ <- ThrowIfSizeNotEqual frozen_indices frozen_distances ;;
  _ <- ThrowIfEmptyIndices frozen_indices ;;
  _ <- ThrowIfIndexOutsideGrid frozen_indices grid_size ;;
  _ <- ThrowIfDuplicateIndices frozen_indices grid_size ;;
  _ <- ThrowIfWholeGridFrozen frozen_indices grid_size ;;
  _ <- ThrowIfInvalidDistance frozen_distances signed_distance_predicate ;;
  let distance_buffer := repeat smax (Z.to_nat (LinearSize grid_size)) in
  distance_grid <- make_Grid grid_size distance_buffer ;;
  let '(distance_grid1, r) :=
    SetBoundaryCondition frozen_indices frozen_distances (s_of_Z (-1))
      signed_distance_predicate distance_grid in
  _ <- r ;;
  '(inside_narrow_band_indices, outside_narrow_band_indices) <-
    InitialSignedNarrowBands frozen_indices grid_size ;;
  eikonal_solver <- UniformSpeedEikonalSolver dx speed ;;
  narrow_band1 <-
    InitializeNarrowBand inside_narrow_band_indices eikonal_solver
                         distance_grid1 [] ;;
  distance_grid2 <- MarchNarrowBand eikonal_solver fuel narrow_band1
                                    distance_grid1 ;;
  let distance_grid3 :=
    mkGrid (size_ distance_grid2) (strides_ distance_grid2)
           (map flip_sign (cells_ distance_grid2)) in
  narrow_band2 <-
    InitializeNarrowBand outside_narrow_band_indices eikonal_solver
                         distance_grid3 [] ;;
  distance_grid4 <- MarchNarrowBand eikonal_solver fuel narrow_band2
                                    distance_grid3 ;;
  Ok (cells_ distance_grid4).
(** The signed driver as the specification words it: phase A marches from the
    outside-band cells, the frozen cells are negated, phase B marches from the
    inner-band cells.  It differs from [SignedDistance] in the order in which
    the two index lists seed the marches, and in nothing else. *)
Definition SignedDistance_spec (fuel : nat) (grid_size : Size) (dx : list T)
           (speed : T) (frozen_indices : list Index)
           (frozen_distances : list T) : Result (list T) :=
  _ <- static_assert_dimensions grid_size ;;
  _ <- ThrowIfZeroElementInGridSize grid_size ;;
  _ <- ThrowIfInvalidGridSpacing dx ;;
  _ <- ThrowIfZeroOrNegativeOrNanSpeed speed ;;
  _ <- ThrowIfSizeNotEqual frozen_indices frozen_distances ;;
  _ <- ThrowIfEmptyIndices frozen_indices ;;
  _ <- ThrowIfIndexOutsideGrid frozen_indices grid_size ;;
  _ <- ThrowIfDuplicateIndices frozen_indices grid_size ;;
  _ <- ThrowIfWholeGridFrozen frozen_indices grid_size ;;
  _ <- ThrowIfInvalidDistance frozen_distances signed_distance_predicate ;;
  let distance_buffer := repeat smax (Z.to_nat (LinearSize grid_size)) in
  distance_grid <- make_Grid grid_size distance_buffer ;;
  let '(distance_grid1, r) :=
    SetBoundaryCondition frozen_indices frozen_distances (s_of_Z (-1))
      signed_distance_predicate distance_grid in
  _ <- r ;;
  '(inside_narrow_band_indices, outside_narrow_band_indices) <-
    InitialSignedNarrowBands frozen_indices grid_size ;;
  eikonal_solver <- UniformSpeedEikonalSolver dx speed ;;
  narrow_band1 <-
    InitializeNarrowBand outside_narrow_band_indices eikonal_solver
                         distance_grid1 [] ;;
  distance_grid2 <- MarchNarrowBand eikonal_solver fuel narrow_band1
                                    distance_grid1 ;;
  let distance_grid3 :=
    mkGrid (size_ distance_grid2) (strides_ distance_grid2)
           (map flip_sign (cells_ distance_grid2)) in
  narrow_band2 <-
    InitializeNarrowBand inside_narrow_band_indices eikonal_solver
                         distance_grid3 [] ;;
  distance_grid4 <- MarchNarrowBand eikonal_solver fuel narrow_band2
                                    distance_grid3 ;;
  Ok (cells_ distance_grid4).
End Signed.

(** ** Dilation bands as the specification classifies them *)

(** The extent of the bounding box of a band along axis [i], and the number
    of cells of the bounding box: the product over the axes of (largest
    component - smallest component + 1). *)
Definition axis_extent (band : list Index) (i : nat) : Z :=
  let values := map (fun x => nth i x 0) band in
  fold_right Z.max (hd 0 values) values
  - fold_right Z.min (hd 0 values) values + 1.

Definition bounding_box_cells (N : nat) (band : list Index) : Z :=
  fold_right Z.mul 1 (map (axis_extent band) (seq 0 N)).

(** Band [j] has a largest bounding box among the bands; some other band
    has a bounding box at least as large; and the strict versions: the
    bounding box of band [j] is larger than that of every other band, and
    some band has a larger bounding box. *)
Definition largest_band (N : nat) (dilation_bands : list (list Index))
           (j : nat) : Prop :=
  exists band,
    nth_error dilation_bands j = Some band /\
    forall k band', nth_error dilation_bands k = Some band' ->
                    bounding_box_cells N band' <= bounding_box_cells N band.

Definition surpassed_band (N : nat) (dilation_bands : list (list Index))
           (j : nat) : Prop :=
  exists band k band',
    nth_error dilation_bands j = Some band /\ k <> j /\
    nth_error dilation_bands k = Some band' /\
    bounding_box_cells N band <= bounding_box_cells N band'.

Definition strictly_largest_band (N : nat)
           (dilation_bands : list (list Index)) (j : nat) : Prop :=
  exists band,
    nth_error dilation_bands j = Some band /\
    forall k band', k <> j -> nth_error dilation_bands k = Some band' ->
                    bounding_box_cells N band' < bounding_box_cells N band.

Definition strictly_surpassed_band (N : nat)
           (dilation_bands : list (list Index)) (j : nat) : Prop :=
  exists band k band',
    nth_error dilation_bands j = Some band /\
    nth_error dilation_bands k = Some band' /\
    bounding_box_cells N band < bounding_box_cells N band'.

(** [x] is a cell of a dilation band of class [class] of the connected
    component. *)
Definition component_band_cell (grid_size : Size)
           (class : nat -> list (list Index) -> nat -> Prop)
           (connected_component : list Index) (x : Index) : Prop :=
  exists dilation_bands j band,
    DilationBands connected_component grid_size = Ok dilation_bands /\
    class (length grid_size) dilation_bands j /\
    nth_error dilation_bands j = Some band /\ In x band.

(** [x] is a cell of a dilation band of class [class] of some connected
    component of the seeds. *)
Definition band_cell (frozen_indices : list Index) (grid_size : Size)
           (class : nat -> list (list Index) -> nat -> Prop) (x : Index)
  : Prop :=
  exists connected_components connected_component,
    ConnectedComponents frozen_indices grid_size
                        (VertexNeighborOffsets (length grid_size))
    = Ok connected_components /\
    In connected_component connected_components /\
    component_band_cell grid_size class connected_component x.

(** The assertions of [InitialSignedNarrowBands] on the cells of the
    dilation bands: none of them is a seed. *)
Definition dilation_off_seeds (frozen_indices : list Index)
           (grid_size : Size) : Prop :=
  forall connected_components connected_component dilation_bands band x,
    ConnectedComponents frozen_indices grid_size
                        (VertexNeighborOffsets (length grid_size))
    = Ok connected_components ->
    In connected_component connected_components ->
    DilationBands connected_component grid_size = Ok dilation_bands ->
    In band dilation_bands -> In x band -> ~ In x frozen_indices.

(** The unchecked read [narrow_band_grid.Cell(neighbor_index)] of a face
    neighbour of [x] lands on the cell of a seed. *)
Definition touches_seed (frozen_indices : list Index) (grid_size : Size)
           (x : Index) : Prop :=
  exists i neighbor_offset seed,
    In (i, neighbor_offset) (face_steps (length grid_size)) /\
    In seed frozen_indices /\
    GridLinearIndex (add_at x i neighbor_offset) (GridStrides grid_size)
    = GridLinearIndex seed (GridStrides grid_size).

(** ** Auxiliary definitions used to state the theorems *)

Section Observers.
Context {T : Type} `{Scalar T}.

(** The state of the loop of [MarchNarrowBand] after at most [n] further
    iterations. *)
Fixpoint MarchNarrowBand_iterate (eikonal_solver : Index -> Grid T -> Result T)
         (n : nat) (narrow_band : NarrowBandStore) (distance_grid : Grid T)
  : Result (NarrowBandStore * Grid T) :=
  match n with
  | O => Ok (narrow_band, distance_grid)
  | S n' =>
      if empty narrow_band then Ok (narrow_band, distance_grid)
      else
        '(narrow_band', distance_grid') <-
          MarchNarrowBand_body eikonal_solver narrow_band distance_grid ;;
        MarchNarrowBand_iterate eikonal_solver n' narrow_band' distance_grid'
  end.

(** [assert(frozen(distance_cell))], the assertion that follows the write
    in the loop body, for the iteration about to run: it holds when the
    popped entry is discarded or its distance is below the sentinel. *)
Definition MarchNarrowBand_assertion (narrow_band : NarrowBandStore)
           (distance_grid : Grid T) : bool :=
  match Pop narrow_band with
  | Some ((distance, index), _) =>
      match Cell distance_grid index with
      | Ok distance_cell => frozen distance_cell || frozen distance
      | Err _ => true
      end
  | None => true
  end.

(** The assertion holds in each of the first [n] iterations. *)
Fixpoint MarchNarrowBand_assertions
         (eikonal_solver : Index -> Grid T -> Result T)
         (n : nat) (narrow_band : NarrowBandStore) (distance_grid : Grid T)
  : bool :=
  match n with
  | O => true
  | S n' =>
      if empty narrow_band then true
      else
        MarchNarrowBand_assertion narrow_band distance_grid
        && match MarchNarrowBand_body eikonal_solver narrow_band
                                      distance_grid with
           | Ok (narrow_band', distance_grid') =>
               MarchNarrowBand_assertions eikonal_solver n' narrow_band'
                                          distance_grid'
           | Err _ => true
           end
  end.

(** The grid after the seeds of a list have been written into it one after
    the other, [multiplier * distance] at each index. *)
Fixpoint install_seeds (seeds : list (Index * T)) (multiplier : T)
         (distance_grid : Grid T) : Grid T :=
  match seeds with
  | [] => distance_grid
  | (index, distance) :: seeds' =>
      match SetCell distance_grid index (multiplier * distance)%S with
      | Ok distance_grid' => install_seeds seeds' multiplier distance_grid'
      | Err _ => distance_grid
      end
  end.

(** Narrow-band entries whose index has [N] components. *)
Definition band_ok (N : nat) (narrow_band : NarrowBandStore (T:=T)) : Prop :=
  Forall (fun entry => length (snd entry) = N) narrow_band.

(** The value that the seeds of [earlier], written one after the other with
    [multiplier], leave in the cell of [index]: the one written last, if
    any. *)
Definition last_written (earlier : list (Index * T)) (multiplier : T)
           (index : Index) : option T :=
  fold_left (fun written (seed : Index * T) =>
               if Index_eqb (fst seed) index
               then Some (multiplier * snd seed)%S else written)
            earlier None.

(** How the specification classifies one seed, given the seeds before it:
    the error it is refused with, if any.  An index outside the grid comes
    first, then a distance the predicate rejects, then a duplicate: an index
    at which an earlier seed has left a value below the sentinel. *)
Definition seed_refusal (grid_size : Size) (multiplier : T)
           (distance_predicate : T -> bool) (earlier : list (Index * T))
           (seed : Index * T) : option Error :=
  if negb (Inside (fst seed) grid_size) then Some FrozenIndexOutsideGrid
  else if negb (distance_predicate (snd seed)) then Some InvalidFrozenDistance
  else match last_written earlier multiplier (fst seed) with
       | Some written =>
           if frozen written then Some DuplicateFrozenIndex else None
       | None => None
       end.

(** Number of cells of a buffer that are not frozen. *)
Definition unfrozen_count (cells : list T) : nat :=
  length (filter (fun d => negb (frozen d)) cells).
End Observers.

(** A grid view as the constructor of [Grid] builds it over a buffer whose
    length does not overflow [size_t]. *)
Record WfGrid {C} (g : Grid C) : Prop := {
  wf_positive : all_positive (size_ g);
  wf_no_overflow : size_product (size_ g) < size_t_modulus;
  wf_strides : strides_ g = GridStrides (size_ g);
  wf_cells : Z.of_nat (length (cells_ g)) = LinearSize (size_ g)
}.

(** An index with as many components as the size, all of them in range. *)
Definition wf_index (size : Size) (x : Index) : Prop :=
  length x = length size /\ Inside x size = true.

Section SeedsHeld.
Context {T : Type} `{Scalar T}.

(** The grid [g] is a fresh grid into which the seeds of [earlier] have
    been written. *)
Definition holds_seeds (earlier : list (Index * T)) (multiplier : T)
           (g : Grid T) : Prop :=
  WfGrid g /\
  forall x, wf_index (size_ g) x ->
            Cell g x = Ok match last_written earlier multiplier x with
                          | Some written => written
                          | None => smax
                          end.
End SeedsHeld.

(** ** Example inputs (binary64) *)

Module Examples.
Local Open Scope float_scope.

(** First-order solvers with unit speed and unit spacing, in one and two
    dimensions; the high-order solver in one dimension. *)
Definition solver_1d : Index -> Grid float -> Result float :=
  fun index distance_grid => SolveEikonal index distance_grid 1 [1].

Definition solver_2d : Index -> Grid float -> Result float :=
  fun index distance_grid => SolveEikonal index distance_grid 1 [1; 1].

(** A line of three cells; a 3 x 3 grid. *)
Definition line3 (a b c : float) : Grid float := mkGrid [3%Z] [] [a; b; c].

Definition grid3x3 (cells : list float) : Grid float :=
  mkGrid [3%Z; 3%Z] [3%Z] cells.

(** A line of five cells around the unfrozen cell 2: the neighbours on the
    left hold 5 (one step) and 4.5 (two steps), the neighbour on the right
    holds 4 and the cell behind it is not frozen. *)
Definition line5 : Grid float :=
  mkGrid [5%Z] [] [4.5; 5; smax; 4; smax].

(** The 3 x 3 distance grid before any seed is written. *)
Definition fresh3x3 : Grid float :=
  grid3x3 [smax; smax; smax; smax; smax; smax; smax; smax; smax].

(** The 3 x 3 distance grid with the single seed (0, 0) at distance 0. *)
Definition corner_seed : Grid float :=
  grid3x3 [0; smax; smax; smax; smax; smax; smax; smax; smax].

(** The 3 x 3 distance grid with the seeds (0, 0) at distance 0 and (2, 2)
    at distance 100. *)
Definition far_seeds : Grid float :=
  grid3x3 [0; smax; smax; smax; smax; smax; smax; smax; 100].
(** The 3 x 3 distance grid in which the two face neighbours (1, 0) and
    (0, 1) of the corner (0, 0) are frozen, at the distances [a] and [b]. *)
Definition corner_neighbors (a b : float) : Grid float :=
  grid3x3 [smax; a; smax; b; smax; smax; smax; smax; smax].

Definition real_corner_neighbors (a b : R) : Grid R :=
  mkGrid [3%Z; 3%Z] [3%Z]
         [real_max; a; real_max; b; real_max; real_max; real_max; real_max;
          real_max].
(** The eight cells around (r, c): a closed ring of seeds. *)
Definition ring (r c : Z) : list Index :=
  [[r - 1; c - 1]; [r - 1; c]; [r - 1; c + 1]; [r; c - 1]; [r; c + 1];
   [r + 1; c - 1]; [r + 1; c]; [r + 1; c + 1]]%Z.
End Examples.

(** ** The first-order update as the specification words it (exact reals) *)

Module EikonalSpec.
Local Open Scope R_scope.

(** The two face neighbours of [index] along axis [i]. *)
Definition face_neighbors (index : Index) (i : nat) : list Index :=
  [add_at index i (-1)%Z; add_at index i 1%Z].

(** The values of the face neighbours along axis [i] that lie in the grid and
    are frozen. *)
Definition frozen_face_values (g : Grid R) (index : Index) (i : nat) : list R :=
  flat_map
    (fun neighbor =>
       if Inside neighbor (size_ g) then
         match Cell g neighbor with
         | Ok v => if frozen v then [v] else []
         | Err _ => []
         end
       else [])
    (face_neighbors index i).

(** The minimum [m_i] of a list of values, if it has one. *)
Definition minimum (values : list R) : option R :=
  match values with
  | [] => None
  | v :: values' => Some (fold_left Rmin values' v)
  end.

(** What one axis adds to (a0, a1, a2). *)
Definition add_axis (a : R * R * R) (m : option R) (h : R) : R * R * R :=
  match m with
  | None => a
  | Some m =>
      let '(a0, a1, a2) := a in
      (a0 + m ^ 2 / h ^ 2, a1 + - 2 * m / h ^ 2, a2 + 1 / h ^ 2)
  end.

(** The coefficients (a0, a1, a2): start at (-1/s^2, 0, 0) and add every
    axis. *)
Definition quadratic (g : Grid R) (index : Index) (speed : R)
           (grid_spacing : list R) : R * R * R :=
  fold_left
    (fun a (axis : nat * R) =>
       add_axis a (minimum (frozen_face_values g index (fst axis))) (snd axis))
    (axes_of index grid_spacing)
    (- 1 / speed ^ 2, 0, 0).

(** The minimum of an axis, or the sentinel when the axis has none. *)
Definition value_or_max (m : option R) : R :=
  match m with Some m => m | None => real_max end.

(** [u] is a root of a2 u^2 + a1 u + a0 = 0; [u] is the larger root. *)
Definition is_root (a : R * R * R) (u : R) : Prop :=
  let '(a0, a1, a2) := a in a2 * u ^ 2 + a1 * u + a0 = 0.

Definition larger_root (a : R * R * R) (u : R) : Prop :=
  is_root a u /\ forall v, is_root a v -> v <= u.

Definition discriminant (a : R * R * R) : R :=
  let '(a0, a1, a2) := a in a1 ^ 2 - 4 * a2 * a0.
End EikonalSpec.


(** ** Example inputs of the signed driver *)

Module SignedExamples.
Local Open Scope float_scope.

(** The ring of seeds around (3, 3) on a 7 x 7 grid, all at distance 0, with
    unit speed and spacing: what [SignedDistance] returns, and what the
    driver of the specification returns. *)
Definition ring_distance : list float :=
  Eval vm_compute in
    match SignedDistance 200 [7%Z; 7%Z] [1; 1] 1 (Examples.ring 3 3)
                         (repeat 0 8) with
    | Ok distance_buffer => distance_buffer
    | Err _ => []
    end.

Definition ring_distance_spec : list float :=
  Eval vm_compute in
    match SignedDistance_spec 200 [7%Z; 7%Z] [1; 1] 1 (Examples.ring 3 3)
                              (repeat 0 8) with
    | Ok distance_buffer => distance_buffer
    | Err _ => []
    end.
End SignedExamples.

(** ** Auxiliary definitions for the flood fill *)

(** Number of cells of a label buffer that are still [kForeground]. *)
Definition foreground_count (cells : list LabelCell.t) : nat :=
  length (filter (fun c => LabelCell.eqb c LabelCell.kForeground) cells).

(** The state of the flood fill of [ConnectedComponents] on a grid of size
    [size] whose foreground cells were the indices [D]: the stack holds cells
    of the component, the component holds exactly the labelled cells, and
    every cell of the component that has left the stack has no foreground
    neighbour any more. *)
Record flood_inv (size : Size) (offsets : list Index) (D : list Index)
       (label_grid : Grid LabelCell.t) (component stack : list Index)
  : Prop := {
  flood_wf : WfGrid label_grid;
  flood_size : size_ label_grid = size;
  flood_stack : forall x, In x stack -> In x component;
  flood_labelled :
    forall x, In x component ->
              wf_index size x /\ Cell label_grid x = Ok LabelCell.kLabelled;
  flood_component :
    forall y, wf_index size y ->
              Cell label_grid y = Ok LabelCell.kLabelled -> In y component;
  flood_done :
    forall x, In x component -> ~ In x stack ->
              forall o, In o offsets -> wf_index size (add_index x o) ->
                        Cell label_grid (add_index x o)
                        <> Ok LabelCell.kForeground;
  flood_domain :
    forall y, wf_index size y ->
              (In y D <-> Cell label_grid y <> Ok LabelCell.kBackground)
}.

(** The component a flood fill builds: it starts as [[start]], and each
    further cell is a cell of the component moved by one of the offsets. *)
Inductive reached (offsets : list Index) (start : Index)
  : list Index -> Prop :=
| reached_start : reached offsets start [start]
| reached_step component x o :
    reached offsets start component ->
    In x component -> In o offsets ->
    reached offsets start (component ++ [add_index x o]).

(** The state of a flood fill of [ConnectedComponents] that began at [start]
    on the label grid [label_grid0]: the cells of the component were
    [kForeground] there and are [kLabelled] now, every other cell is as it
    was, and every cell of the component that has left the stack has no
    [kForeground] neighbour any more. *)
Record flood_state (size : Size) (offsets : list Index)
       (label_grid0 : Grid LabelCell.t) (start : Index)
       (label_grid : Grid LabelCell.t) (component stack : list Index)
  : Prop := {
  state_wf : WfGrid label_grid;
  state_size : size_ label_grid = size;
  state_stack : forall x, In x stack -> In x component;
  state_cells :
    forall x, In x component ->
              wf_index size x /\
              Cell label_grid x = Ok LabelCell.kLabelled /\
              Cell label_grid0 x = Ok LabelCell.kForeground;
  state_others :
    forall y, wf_index size y -> ~ In y component ->
              Cell label_grid y = Cell label_grid0 y;
  state_done :
    forall x, In x component -> ~ In x stack ->
              forall o, In o offsets -> wf_index size (add_index x o) ->
                        Cell label_grid (add_index x o)
                        <> Ok LabelCell.kForeground;
  state_reached : reached offsets start component
}.

(** Every offset has its opposite among the offsets. *)
Definition symmetric_offsets (N : nat) (offsets : list Index) : Prop :=
  forall o, In o offsets -> length o = N /\ In (map Z.opp o) offsets.

(** A connected component of the indices [D]: its cells are indices of [D]
    in the grid, every index of [D] that an offset reaches from one of its
    cells is one of its cells, and its cells were reached one from another,
    from the first one on. *)
Definition component_of (size : Size) (offsets : list Index) (D : list Index)
           (component : list Index) : Prop :=
  (forall x, In x component -> wf_index size x /\ In x D) /\
  (forall x o, In x component -> In o offsets ->
               wf_index size (add_index x o) -> In (add_index x o) D ->
               In (add_index x o) component) /\
  exists start, reached offsets start component.

(** The state of the loop of [ConnectedComponents] over the indices: the
    cells of [D] are the cells that are not [kBackground], the labelled
    cells are the cells of the components found so far, no labelled cell
    has a [kForeground] neighbour, and no cell is in two components. *)
Record components_inv (size : Size) (offsets : list Index) (D : list Index)
       (label_grid : Grid LabelCell.t)
       (connected_components : list (list Index)) : Prop := {
  comps_wf : WfGrid label_grid;
  comps_size : size_ label_grid = size;
  comps_domain :
    forall y, wf_index size y ->
              (In y D <-> Cell label_grid y <> Ok LabelCell.kBackground);
  comps_labelled :
    forall y, wf_index size y ->
              (Cell label_grid y = Ok LabelCell.kLabelled <->
               exists c, In c connected_components /\ In y c);
  comps_closed :
    forall x o, wf_index size x ->
                Cell label_grid x = Ok LabelCell.kLabelled ->
                In o offsets -> wf_index size (add_index x o) ->
                Cell label_grid (add_index x o) <> Ok LabelCell.kForeground;
  comps_components :
    forall c, In c connected_components -> component_of size offsets D c;
  comps_disjoint :
    forall i j c1 c2 x,
      nth_error connected_components i = Some c1 ->
      nth_error connected_components j = Some c2 ->
      In x c1 -> In x c2 -> i = j
}.

(** ** Auxiliary definitions for the label grid of the signed driver *)

(** [k] is the linear offset of a seed. *)
Definition seed_offset (frozen_indices : list Index) (grid_size : Size)
           (k : nat) : Prop :=
  exists seed, In seed frozen_indices /\
               Z.to_nat (GridLinearIndex seed (GridStrides grid_size)) = k.

(** The offsets of the seeds, and no others, carry the label [kFrozen]. *)
Definition seed_labels (frozen_indices : list Index) (grid_size : Size)
           (g : Grid NarrowBandCell.t) : Prop :=
  strides_ g = GridStrides grid_size /\
  forall k, nth_error (cells_ g) k = Some NarrowBandCell.kFrozen <->
            seed_offset frozen_indices grid_size k.

(** Every cell with the label [kNarrowBand] is the cell of an index of
    [marked]. *)
Definition band_labels (grid_size : Size) (g : Grid NarrowBandCell.t)
           (marked : list Index) : Prop :=
  forall k, nth_error (cells_ g) k = Some NarrowBandCell.kNarrowBand ->
            exists x, In x marked /\ wf_index grid_size x /\
                      Z.to_nat (GridLinearIndex x (GridStrides grid_size)) = k.

(** The state of the loops of [InitialSignedNarrowBands]: a well-formed
    label grid in which exactly the cells of the seeds are [kFrozen] and
    every [kNarrowBand] cell is the cell of an index of [marked]. *)
Definition labels_ok (frozen_indices : list Index) (grid_size : Size)
           (g : Grid NarrowBandCell.t) (marked : list Index) : Prop :=
  WfGrid g /\ size_ g = grid_size /\
  seed_labels frozen_indices grid_size g /\
  band_labels grid_size g marked.

(** Descending order of the pairs (band number, area). *)
Definition descending_areas (areas : list (Z * Z)) : Prop :=
  StronglySorted (fun a b : Z * Z => snd b <= snd a) areas.

(** ** Auxiliary definitions for the vertex offsets *)

(** An index of the iterator: [N] digits in base 3; its value, first digit
    most significant. *)
Definition digits (index : list Z) : Prop := Forall (fun d => 0 <= d <= 2) index.

Fixpoint odometer_value (index : list Z) : Z :=
  match index with
  | [] => 0
  | d :: index' => d * 3 ^ Z.of_nat (length index') + odometer_value index'
  end.

Definition offset_of (index : list Z) : Index := map (fun d => d - 1) index.

Definition is_origin (offset : Index) : bool := forallb (fun i => i =? 0) offset.

(** An offset of the shell around a cell in dimension [N]. *)
Definition shell_offset (N : nat) (o : Index) : Prop :=
  length o = N /\ Forall (fun d => -1 <= d <= 1) o /\ is_origin o = false.

(** Every component of the offset is -1, 0 or 1. *)
Definition unit_box (o : Index) : Prop := Forall (fun d => -1 <= d <= 1) o.

(** How far the offset is from the corner (1, ..., 1). *)
Fixpoint deficit (o : Index) : Z :=
  match o with
  | [] => 0
  | d :: o' => (1 - d) + deficit o'
  end.

(** ** Auxiliary definitions for the order of the seeds *)

Section SeedOrder.
Context {T : Type} `{Scalar T}.
Variable eikonal_solver : Index -> Grid T -> Result T.

(** What the loop of [SetBoundaryCondition] does for one seed. *)
Definition SetBoundaryCondition_step (seed : Index * T) (multiplier : T)
           (distance_predicate : T -> bool) (distance_grid : Grid T)
  : Result (Grid T) :=
  if negb (Inside (fst seed) (size_ distance_grid))
  then Err FrozenIndexOutsideGrid
  else if negb (distance_predicate (snd seed))
  then Err InvalidFrozenDistance
  else
    distance_cell <- Cell distance_grid (fst seed) ;;
    if frozen distance_cell then Err DuplicateFrozenIndex
    else SetCell distance_grid (fst seed) (multiplier * snd seed)%S.

(** The cells [InitialUnsignedNarrowBand] looks at for one seed, in the
    order of its two inner loops. *)
Definition seed_neighbors (frozen_index : Index) : list Index :=
  map (fun s : nat * Z => add_at frozen_index (fst s) (snd s))
      (face_steps (length frozen_index)).

(** What the inner loops of [InitialUnsignedNarrowBand] do for one
    [neighbor_index]. *)
Definition narrow_band_visit_cell (neighbor_index : Index)
           (distance_grid : Grid T)
           (narrow_band_grid : Grid NarrowBandCell.t)
           (narrow_band : NarrowBandStore)
  : Result (Grid NarrowBandCell.t * NarrowBandStore) :=
  if Inside neighbor_index (size_ narrow_band_grid) then
    neighbor_cell <- Cell narrow_band_grid neighbor_index ;;
    if NarrowBandCell.eqb neighbor_cell NarrowBandCell.kBackground then
      distance <- eikonal_solver neighbor_index distance_grid ;;
      narrow_band_grid' <-
        SetCell narrow_band_grid neighbor_index NarrowBandCell.kNarrowBand ;;
      Ok (narrow_band_grid', Push (distance, neighbor_index) narrow_band)
    else Ok (narrow_band_grid, narrow_band)
  else Ok (narrow_band_grid, narrow_band).

Fixpoint narrow_band_visit (cells : list Index) (distance_grid : Grid T)
         (narrow_band_grid : Grid NarrowBandCell.t)
         (narrow_band : NarrowBandStore)
  : Result (Grid NarrowBandCell.t * NarrowBandStore) :=
  match cells with
  | [] => Ok (narrow_band_grid, narrow_band)
  | neighbor_index :: cells' =>
      '(narrow_band_grid', narrow_band') <-
        narrow_band_visit_cell neighbor_index distance_grid narrow_band_grid
                               narrow_band ;;
      narrow_band_visit cells' distance_grid narrow_band_grid' narrow_band'
  end.

(** The entry [e] leaves the heap before the entry [x] whatever the order
    among entries of equal distance is. *)
Definition strictly_before (e x : ValueType) : Prop :=
  (fst e <? fst x)%S = true /\ (fst x <? fst e)%S = false.

(** No two different entries of the narrow band tie for the smallest
    distance: every entry is the one [Pop] returns or comes strictly after
    it. *)
Definition no_tie (narrow_band : NarrowBandStore) : Prop :=
  match Pop narrow_band with
  | Some (e, _) => Forall (fun x => x = e \/ strictly_before e x) narrow_band
  | None => True
  end.

(** No iteration of the loop of [MarchNarrowBand] meets a tie. *)
Fixpoint MarchNarrowBand_no_ties (fuel : nat) (narrow_band : NarrowBandStore)
         (distance_grid : Grid T) : Prop :=
  match fuel with
  | O => True
  | S fuel' =>
      if empty narrow_band then True
      else
        no_tie narrow_band /\
        match MarchNarrowBand_body eikonal_solver narrow_band distance_grid with
        | Ok (narrow_band', distance_grid') =>
            MarchNarrowBand_no_ties fuel' narrow_band' distance_grid'
        | Err _ => True
        end
  end.

(** The march of [UnsignedDistance] on these seeds meets no tie. *)
Definition UnsignedDistance_no_ties (fuel : nat) (grid_size : Size)
           (frozen_indices : list Index) (frozen_distances : list T) : Prop :=
  match make_Grid grid_size (repeat smax (Z.to_nat (LinearSize grid_size))) with
  | Ok distance_grid =>
      let '(distance_grid1, _) :=
        SetBoundaryCondition frozen_indices frozen_distances (s_of_Z 1)
          unsigned_distance_predicate distance_grid in
      match InitialUnsignedNarrowBand eikonal_solver frozen_indices
                                      distance_grid1 with
      | Ok narrow_band =>
          MarchNarrowBand_no_ties fuel narrow_band distance_grid1
      | Err _ => True
      end
  | Err _ => True
  end.
End SeedOrder.

(** The list [l] reordered by the positions [pi]: entry [k] of the result is
    entry [pi k] of [l]. *)
Definition reorder {A : Type} (pi : list nat) (l : list A) : list A :=
  flat_map (fun k => match nth_error l k with
                     | Some a => [a]
                     | None => []
                     end) pi.

(** Solvers of the examples for the order of the seeds (binary64). *)
Module SeedOrderExamples.
Local Open Scope float_scope.

(** First order, unit speed, spacing (1, 1.5) and (1, 0.75). *)
Definition solver_wide : Index -> Grid float -> Result float :=
  fun index distance_grid => SolveEikonal index distance_grid 1 [1; 1.5].

Definition solver_narrow : Index -> Grid float -> Result float :=
  fun index distance_grid => SolveEikonal index distance_grid 1 [1; 0.75].

(** High accuracy, unit speed, unit spacing. *)
Definition solver_high : Index -> Grid float -> Result float :=
  fun index distance_grid =>
    HighAccuracySolveEikonal index distance_grid 1 [1; 1].

(** The 3 x 3 grid with the seeds (0, 0) at 0.25 and (2, 2) at 0.5, and the
    initial narrow band [InitialUnsignedNarrowBand] builds on it with
    [solver_narrow]. *)
Definition seeded : Grid float :=
  Examples.grid3x3 [0.25; smax; smax; smax; smax; smax; smax; smax; 0.5].

Definition band : list (float * Index) :=
  Eval vm_compute in
    match InitialUnsignedNarrowBand solver_narrow [[0%Z; 0%Z]; [2%Z; 2%Z]]
                                    seeded with
    | Ok narrow_band => narrow_band
    | Err _ => []
    end.
End SeedOrderExamples.

(** ** Auxiliary definitions for the index iterator and the bounding box *)

(** The position of [index] in the order of [IndexIterator]: the last axis
    varies fastest. *)
Fixpoint iterator_value (index size : list Z) : Z :=
  match index, size with
  | x :: index', s :: size' =>
      x * size_product size' + iterator_value index' size'
  | _, _ => 0
  end.

(** ** Auxiliary definitions for the end of the march *)

Section MarchEnd.
Context {T : Type} `{Scalar T}.

(** Every face neighbour, inside the grid, of a frozen cell is frozen or has
    an entry in the narrow band. *)
Definition band_covers (narrow_band : NarrowBandStore (T:=T))
           (distance_grid : Grid T) : Prop :=
  forall x v i o,
    wf_index (size_ distance_grid) x ->
    Cell distance_grid x = Ok v -> frozen v = true ->
    In (i, o) (face_steps (length x)) ->
    Inside (add_at x i o) (size_ distance_grid) = true ->
    (exists w, Cell distance_grid (add_at x i o) = Ok w /\ frozen w = true) \/
    In (add_at x i o) (map snd narrow_band).

(** The assertion of the loop body holds in every iteration of the march of
    [UnsignedDistance] on these seeds. *)
Definition UnsignedDistance_assertions
           (eikonal_solver : Index -> Grid T -> Result T)
           (fuel : nat) (grid_size : Size)
           (frozen_indices : list Index) (frozen_distances : list T) : bool :=
  match make_Grid grid_size (repeat smax (Z.to_nat (LinearSize grid_size))) with
  | Ok distance_grid =>
      let '(distance_grid1, _) :=
        SetBoundaryCondition frozen_indices frozen_distances (s_of_Z 1)
          unsigned_distance_predicate distance_grid in
      match InitialUnsignedNarrowBand eikonal_solver frozen_indices
                                      distance_grid1 with
      | Ok narrow_band =>
          MarchNarrowBand_assertions eikonal_solver fuel narrow_band
                                     distance_grid1
      | Err _ => true
      end
  | Err _ => true
  end.
End MarchEnd.

(** The index whose row-major offset is [k]. *)
Fixpoint index_of (size : Size) (k : Z) : Index :=
  match size with
  | [] => []
  | s :: size' => (k mod s) :: index_of size' (k / s)
  end.

(** * Theorems *)


(** ** Lists and buffers *)

Section Buffers.
Context {C : Type}.

Lemma update_nth_length (k : nat) (v : C) l :
  length (update_nth k v l) = length l.
Proof.
  revert k; induction l as [|c l IH]; intros [|k]; simpl; auto.
Qed.

Lemma nth_error_update_nth_eq (k : nat) (v : C) l :
  (k < length l)%nat -> nth_error (update_nth k v l) k = Some v.
Proof.
  revert k; induction l as [|c l IH]; intros [|k] Hk; simpl in *;
    try lia; auto.
  apply IH. lia.
Qed.

Lemma nth_error_update_nth_neq (k j : nat) (v : C) l :
  j <> k -> nth_error (update_nth k v l) j = nth_error l j.
Proof.
  revert k j; induction l as [|c l IH]; intros [|k] [|j] Hjk; simpl;
    auto; try congruence.
Qed.

Lemma SetCell_inv (g g' : Grid C) index v :
  SetCell g index v = Ok g' ->
  GridLinearIndex index (strides_ g) < Z.of_nat (length (cells_ g)) /\
  size_ g' = size_ g /\ strides_ g' = strides_ g /\
  cells_ g' = update_nth (Z.to_nat (GridLinearIndex index (strides_ g))) v
                         (cells_ g).
Proof.
  unfold SetCell. intros Hset.
  destruct (GridLinearIndex index (strides_ g) <? Z.of_nat (length (cells_ g)))
    eqn:E; [|discriminate].
  apply Z.ltb_lt in E. inversion Hset; subst; simpl. auto.
Qed.

Lemma Cell_inv (g : Grid C) index c :
  Cell g index = Ok c ->
  GridLinearIndex index (strides_ g) < Z.of_nat (length (cells_ g)) /\
  nth_error (cells_ g) (Z.to_nat (GridLinearIndex index (strides_ g))) = Some c.
Proof.
  unfold Cell. intros Hc.
  destruct (GridLinearIndex index (strides_ g) <? Z.of_nat (length (cells_ g)))
    eqn:E; [|discriminate].
  apply Z.ltb_lt in E.
  destruct (nth_error (cells_ g) (Z.to_nat (GridLinearIndex index (strides_ g))))
    eqn:En; inversion Hc; subst; auto.
Qed.

Lemma GridLinearIndex_nonneg index strides : 0 <= GridLinearIndex index strides.
Proof.
  unfold GridLinearIndex. destruct index as [|i rest]; [lia|].
  assert (Hw : forall z, 0 <= wrap64 z).
  { intros z. unfold wrap64. apply Z.mod_pos_bound. reflexivity. }
  generalize (Hw i). generalize (wrap64 i).
  induction (combine rest strides) as [|p l IH]; intros k Hk; simpl; auto.
Qed.

Lemma Cell_of_nth (g : Grid C) index c :
  nth_error (cells_ g) (Z.to_nat (GridLinearIndex index (strides_ g))) = Some c ->
  Cell g index = Ok c.
Proof.
  intros Hn. unfold Cell.
  assert (Hlt : (Z.to_nat (GridLinearIndex index (strides_ g))
                 < length (cells_ g))%nat).
  { apply nth_error_Some. congruence. }
  pose proof (GridLinearIndex_nonneg index (strides_ g)).
  destruct (Z.ltb_spec (GridLinearIndex index (strides_ g))
                       (Z.of_nat (length (cells_ g)))); [|lia].
  now rewrite Hn.
Qed.

(** A write is seen by a read of the same index and by no read of an
    index with another offset. *)
Lemma Cell_SetCell_same (g g' : Grid C) index v :
  SetCell g index v = Ok g' -> Cell g' index = Ok v.
Proof.
  intros Hset. destruct (SetCell_inv _ _ _ _ Hset) as (Hk & _ & Hst & Hc).
  pose proof (GridLinearIndex_nonneg index (strides_ g)).
  apply Cell_of_nth. rewrite Hst, Hc.
  apply nth_error_update_nth_eq. lia.
Qed.
End Buffers.


Section GridArithmetic.

Lemma wrap64_small z : 0 <= z < size_t_modulus -> wrap64 z = z.
Proof. intros Hz. unfold wrap64. now apply Z.mod_small. Qed.

Lemma size_t_modulus_pos : 0 < size_t_modulus.
Proof. reflexivity. Qed.

Lemma size_product_pos a : all_positive a -> 0 < size_product a.
Proof.
  induction 1 as [|s a Hs _ IH]; simpl; [lia|].
  fold (size_product a). nia.
Qed.

Lemma Inside_cons i index s size :
  Inside (i :: index) (s :: size) = true <->
  (0 <= i < s) /\ Inside index size = true.
Proof.
  simpl. destruct (0 <=? i) eqn:E1; destruct (i <? s) eqn:E2; simpl;
    rewrite ?Z.leb_le, ?Z.ltb_lt, ?Z.leb_gt, ?Z.ltb_ge in *;
    split; intros; try discriminate; try tauto; lia.
Qed.

(** Without overflow, the product computed in [size_t] is the product. *)
Lemma LinearSize_from acc a :
  all_positive a -> 0 <= acc -> acc * size_product a < size_t_modulus ->
  fold_left (fun acc x => wrap64 (acc * x)) a acc = acc * size_product a.
Proof.
  intros Hpos. revert acc.
  induction Hpos as [|s a Hs Hpos IH]; intros acc Hacc Hlt; simpl.
  - lia.
  - simpl size_product in Hlt.
    pose proof (size_product_pos a Hpos) as Hp.
    assert (Hs1 : acc * s <= acc * (s * size_product a)) by nia.
    assert (Hs0 : 0 <= acc * s) by (apply Z.mul_nonneg_nonneg; lia).
    rewrite wrap64_small by lia.
    rewrite IH; [ring | lia | ].
    now replace (acc * s * size_product a) with (acc * (s * size_product a)) by ring.
Qed.

Lemma LinearSize_exact a :
  all_positive a -> size_product a < size_t_modulus ->
  LinearSize a = size_product a.
Proof.
  intros Hpos Hlt. unfold LinearSize.
  rewrite LinearSize_from; auto; lia.
Qed.

Lemma mixed_radix_bounds index size :
  all_positive size -> length index = length size ->
  Inside index size = true ->
  0 <= mixed_radix index size < size_product size.
Proof.
  intros Hpos. revert index.
  induction Hpos as [|s size Hs Hpos IH]; intros [|i index] Hlen Hin;
    simpl in Hlen; try discriminate; simpl mixed_radix; simpl size_product.
  - lia.
  - fold (size_product size).
    apply Inside_cons in Hin. destruct Hin as [Hi Hin].
    specialize (IH index ltac:(lia) Hin). nia.
Qed.

(** The loop of [GridLinearIndex] against the strides of [GridStrides],
    started in the middle: [b] is the stride so far, [k] the offset so far. *)
Lemma GridLinearIndex_from size : forall index b s k,
  all_positive size -> length index = length size ->
  Inside index size = true ->
  0 < b -> 0 < s -> 0 <= k < b * s ->
  b * s * size_product size < size_t_modulus ->
  fold_left (fun k (p : Z * Z) => wrap64 (k + wrap64 (wrap64 (fst p) * snd p)))
            (combine index (GridStrides_from b (s :: size))) k
  = k + b * s * mixed_radix index size.
Proof.
  induction size as [|s1 size IH]; intros index b s k Hpos Hlen Hin Hb Hs Hk Hlt.
  - destruct index; simpl in *; try discriminate. lia.
  - destruct index as [|i1 index]; simpl in Hlen; try discriminate.
    inversion Hpos as [|? ? Hs1 Hpos']; subst.
    apply Inside_cons in Hin. destruct Hin as [Hi1 Hin].
    pose proof (size_product_pos size Hpos') as Hp.
    simpl size_product in Hlt. fold (size_product size) in Hlt.
    assert (Hbs : b * s * s1 <= b * s * (s1 * size_product size)) by nia.
    assert (Hbs' : b * s <= b * s * s1) by nia.
    change (GridStrides_from b (s :: s1 :: size))
      with (wrap64 (b * s) :: GridStrides_from (wrap64 (b * s)) (s1 :: size)).
    rewrite (wrap64_small (b * s)) by nia.
    cbn [combine fold_left fst snd].
    rewrite (wrap64_small i1) by nia.
    rewrite (wrap64_small (i1 * (b * s))) by nia.
    rewrite (wrap64_small (k + i1 * (b * s))) by nia.
    rewrite IH; auto; try nia.
    simpl mixed_radix. ring.
Qed.

(** Without overflow [GridLinearIndex] is the mixed-radix value of the
    index, first axis fastest. *)
Lemma GridLinearIndex_exact index size :
  all_positive size -> size_product size < size_t_modulus ->
  length index = length size -> Inside index size = true ->
  GridLinearIndex index (GridStrides size) = mixed_radix index size.
Proof.
  intros Hpos Hlt Hlen Hin.
  destruct size as [|s size]; destruct index as [|i index];
    simpl in Hlen; try discriminate; [reflexivity|].
  inversion Hpos as [|? ? Hs Hpos']; subst.
  apply Inside_cons in Hin. destruct Hin as [Hi Hin].
  pose proof (size_product_pos size Hpos') as Hp.
  simpl size_product in Hlt. fold (size_product size) in Hlt.
  unfold GridLinearIndex, GridStrides.
  rewrite (wrap64_small i) by nia.
  rewrite GridLinearIndex_from; auto; try lia.
  simpl mixed_radix. ring.
Qed.

Lemma mixed_radix_inj size : forall index index',
  all_positive size ->
  length index = length size -> length index' = length size ->
  Inside index size = true -> Inside index' size = true ->
  mixed_radix index size = mixed_radix index' size -> index = index'.
Proof.
  induction size as [|s size IH]; intros [|i index] [|i' index'] Hpos Hl Hl' Hin Hin' Heq;
    simpl in Hl, Hl'; try discriminate; auto.
  inversion Hpos as [|? ? Hs Hpos']; subst.
  apply Inside_cons in Hin. destruct Hin as [Hi Hin].
  apply Inside_cons in Hin'. destruct Hin' as [Hi' Hin'].
  simpl in Heq.
  assert (Hm : mixed_radix index size = mixed_radix index' size) by nia.
  assert (i = i') by nia. subst.
  f_equal. apply IH; auto.
Qed.

End GridArithmetic.

(** C10 (as stated, refuted).  With sizes [2^32, 2^32] the linear size wraps
    to 0, so the offset of the in-bounds index (0, 0) is not below it; with
    sizes [2^63, 4] the distinct in-bounds indices (0, 0) and (0, 2) have the
    same offset. *)
Lemma GridLinearIndex_overflow_counterexample :
  (all_positive [2 ^ 32; 2 ^ 32] /\
   Inside [0; 0] [2 ^ 32; 2 ^ 32] = true /\
   ~ GridLinearIndex [0; 0] (GridStrides [2 ^ 32; 2 ^ 32])
     < LinearSize [2 ^ 32; 2 ^ 32]) /\
  (all_positive [2 ^ 63; 4] /\
   Inside [0; 0] [2 ^ 63; 4] = true /\ Inside [0; 2] [2 ^ 63; 4] = true /\
   [0; 0] <> [0; 2] /\
   GridLinearIndex [0; 0] (GridStrides [2 ^ 63; 4])
   = GridLinearIndex [0; 2] (GridStrides [2 ^ 63; 4])).
Proof.
  repeat split; try (repeat constructor; fail); try reflexivity.
  - vm_compute. intros H; discriminate H.
  - discriminate.
Qed.

(** C10 (amended).  When the product of the sizes fits [size_t], every
    in-bounds index is mapped below [LinearSize], and distinct in-bounds
    indices are mapped to distinct offsets. *)
Theorem GridLinearIndex_in_bounds_injective (size : Size) (index index' : Index) :
  all_positive size -> size_product size < size_t_modulus ->
  length index = length size -> length index' = length size ->
  Inside index size = true -> Inside index' size = true ->
  0 <= GridLinearIndex index (GridStrides size) < LinearSize size /\
  (GridLinearIndex index (GridStrides size)
   = GridLinearIndex index' (GridStrides size) -> index = index').
Proof.
  intros Hpos Hlt Hl Hl' Hin Hin'.
  rewrite !GridLinearIndex_exact, LinearSize_exact by assumption.
  split.
  - now apply mixed_radix_bounds.
  - now apply mixed_radix_inj.
Qed.

Lemma GridLinearIndex_in_bounds_injective_witness :
  0 <= GridLinearIndex [2; 1; 3] (GridStrides [3; 4; 5]) < LinearSize [3; 4; 5] /\
  (GridLinearIndex [2; 1; 3] (GridStrides [3; 4; 5])
   = GridLinearIndex [0; 2; 3] (GridStrides [3; 4; 5]) -> [2; 1; 3] = [0; 2; 3]).
Proof.
  apply (GridLinearIndex_in_bounds_injective [3; 4; 5] [2; 1; 3] [0; 2; 3]);
    try reflexivity.
  repeat constructor.
Defined.


(** ** Well-formed grids *)

Section WellFormedGrids.
Context {C : Type}.

(** Every index inside a well-formed grid can be read. *)
Lemma Cell_inside_ok (g : Grid C) index :
  WfGrid g -> length index = length (size_ g) ->
  Inside index (size_ g) = true ->
  exists c, Cell g index = Ok c.
Proof.
  intros [Hpos Hov Hst Hcells] Hlen Hin.
  pose proof (GridLinearIndex_exact index (size_ g) Hpos Hov Hlen Hin) as Hk.
  pose proof (mixed_radix_bounds index (size_ g) Hpos Hlen Hin) as Hb.
  rewrite <- (LinearSize_exact _ Hpos Hov), <- Hcells in Hb.
  destruct (nth_error (cells_ g) (Z.to_nat (mixed_radix index (size_ g))))
    as [c|] eqn:En.
  - exists c. apply Cell_of_nth. rewrite Hst, Hk. exact En.
  - apply nth_error_None in En. lia.
Qed.
End WellFormedGrids.


(** ** Reading and writing a well-formed grid by index *)

Section GridByIndex.
Context {C : Type}.

Lemma wf_index_linear (g : Grid C) x :
  WfGrid g -> wf_index (size_ g) x ->
  GridLinearIndex x (strides_ g) = mixed_radix x (size_ g) /\
  0 <= mixed_radix x (size_ g) < Z.of_nat (length (cells_ g)).
Proof.
  intros [Hpos Hov Hst Hcells] (Hlen & Hin).
  rewrite Hst, (GridLinearIndex_exact x (size_ g) Hpos Hov Hlen Hin).
  split; [reflexivity|].
  rewrite Hcells, (LinearSize_exact _ Hpos Hov).
  now apply mixed_radix_bounds.
Qed.

Lemma wf_index_linear_inj (g : Grid C) x y :
  WfGrid g -> wf_index (size_ g) x -> wf_index (size_ g) y ->
  GridLinearIndex x (strides_ g) = GridLinearIndex y (strides_ g) -> x = y.
Proof.
  intros Hwf Hx Hy Heq.
  destruct (wf_index_linear g x Hwf Hx) as (Ex & _).
  destruct (wf_index_linear g y Hwf Hy) as (Ey & _).
  rewrite Ex, Ey in Heq. destruct Hwf as [Hpos _ _ _].
  destruct Hx as (Hlx & Hix). destruct Hy as (Hly & Hiy).
  eapply mixed_radix_inj; eauto.
Qed.

Lemma Cell_wf (g : Grid C) x :
  WfGrid g -> wf_index (size_ g) x -> exists c, Cell g x = Ok c.
Proof. intros Hwf (Hlen & Hin). now apply Cell_inside_ok. Qed.

Lemma SetCell_wf (g : Grid C) x v :
  WfGrid g -> wf_index (size_ g) x ->
  exists g', SetCell g x v = Ok g'.
Proof.
  intros Hwf Hx. destruct (wf_index_linear g x Hwf Hx) as (Ex & Hb).
  unfold SetCell. rewrite Ex.
  destruct (Z.ltb_spec (mixed_radix x (size_ g)) (Z.of_nat (length (cells_ g))));
    [eauto | lia].
Qed.

Lemma SetCell_WfGrid (g g' : Grid C) x v :
  SetCell g x v = Ok g' -> WfGrid g -> WfGrid g'.
Proof.
  intros Hs [Hpos Hov Hst Hcells].
  destruct (SetCell_inv _ _ _ _ Hs) as (_ & Hsz & Hst' & Hc).
  constructor; rewrite ?Hsz, ?Hst', ?Hc, ?update_nth_length; auto.
Qed.

Lemma Cell_SetCell_other (g g' : Grid C) x y v :
  SetCell g x v = Ok g' -> WfGrid g ->
  wf_index (size_ g) x -> wf_index (size_ g) y -> x <> y ->
  Cell g' y = Cell g y.
Proof.
  intros Hs Hwf Hx Hy Hne.
  destruct (SetCell_inv _ _ _ _ Hs) as (_ & Hsz & Hst & Hc).
  destruct (wf_index_linear g x Hwf Hx) as (Ex & Hbx).
  destruct (wf_index_linear g y Hwf Hy) as (Ey & Hby).
  assert (Hk : Z.to_nat (mixed_radix y (size_ g))
               <> Z.to_nat (mixed_radix x (size_ g))).
  { intros Heq. apply Hne. apply (wf_index_linear_inj g); auto.
    rewrite Ex, Ey. lia. }
  unfold Cell. rewrite Hst, Hc, update_nth_length, Ey, Ex.
  now rewrite nth_error_update_nth_neq.
Qed.

(** A fresh buffer under the constructor of [Grid]. *)
Lemma make_Grid_fresh (size : Size) (c : C) :
  all_positive size -> size_product size < size_t_modulus ->
  exists g,
    make_Grid size (repeat c (Z.to_nat (LinearSize size))) = Ok g /\
    WfGrid g /\ size_ g = size /\
    cells_ g = repeat c (Z.to_nat (LinearSize size)).
Proof.
  intros Hpos Hov. unfold make_Grid, ThrowIfZeroElementInGridSize,
    ThrowIfInvalidCellBufferSize.
  assert (Hz : existsb (fun x => x =? 0) size = false).
  { clear Hov. induction Hpos as [|s size Hs Hpos IH]; simpl; auto.
    rewrite IH. destruct (Z.eqb_spec s 0); auto. lia. }
  rewrite Hz. cbn [bind].
  pose proof (size_product_pos size Hpos) as Hp.
  rewrite repeat_length, (LinearSize_exact _ Hpos Hov), Z2Nat.id by lia.
  rewrite Z.eqb_refl. cbn [negb bind].
  eexists. split; [reflexivity|]. split; [|auto].
  constructor; simpl; auto.
  rewrite repeat_length, (LinearSize_exact _ Hpos Hov), Z2Nat.id by lia.
  reflexivity.
Qed.

Lemma Cell_repeat (g : Grid C) c x :
  WfGrid g -> cells_ g = repeat c (length (cells_ g)) ->
  wf_index (size_ g) x -> Cell g x = Ok c.
Proof.
  intros Hwf Hrep Hx. destruct (Cell_wf g x Hwf Hx) as (c' & Hc).
  destruct (Cell_inv _ _ _ Hc) as (_ & Hn).
  rewrite Hrep in Hn. apply nth_error_In, repeat_spec in Hn. congruence.
Qed.
End GridByIndex.


(** ** The narrow band *)

Section NarrowBandFacts.
Context {T : Type} `{Scalar T}.

Lemma top_position_bound (rest : list (ValueType (T:=T))) :
  forall best best_pos pos,
    (best_pos < pos)%nat ->
    (top_position best best_pos pos rest < pos + length rest)%nat.
Proof.
  induction rest as [|v rest IH]; intros best bp pos Hlt; simpl.
  - lia.
  - destruct (HeapComparison_ best v).
    + specialize (IH v pos (S pos)). lia.
    + specialize (IH best bp (S pos)). lia.
Qed.

Lemma remove_nth_length {A} (l : list A) :
  forall k, (k < length l)%nat -> length l = S (length (remove_nth k l)).
Proof.
  induction l as [|a l IH]; intros [|k] Hk; simpl in *; try lia.
  rewrite <- IH; lia.
Qed.

Lemma remove_nth_incl {A} (l : list A) :
  forall k x, In x (remove_nth k l) -> In x l.
Proof.
  induction l as [|a l IH]; intros [|k] x Hx; simpl in *; auto.
  destruct Hx as [Hx|Hx]; eauto.
Qed.

Lemma Pop_inv (nb nb' : NarrowBandStore (T:=T)) e :
  Pop nb = Some (e, nb') ->
  In e nb /\ length nb = S (length nb') /\ (forall x, In x nb' -> In x nb).
Proof.
  unfold Pop. destruct nb as [|v rest]; [discriminate|].
  destruct (nth_error (v :: rest) (top_position v 0 1 rest)) eqn:En;
    [|discriminate].
  intros Heq. inversion Heq; subst. split; [|split].
  - eapply nth_error_In; eauto.
  - apply remove_nth_length. apply nth_error_Some. congruence.
  - apply remove_nth_incl.
Qed.

Lemma Pop_nonempty (nb : NarrowBandStore (T:=T)) :
  empty nb = false -> exists e nb', Pop nb = Some (e, nb').
Proof.
  destruct nb as [|v rest]; [discriminate|]. intros _. unfold Pop.
  pose proof (top_position_bound rest v 0%nat 1%nat ltac:(lia)) as Hb.
  destruct (nth_error (v :: rest) (top_position v 0 1 rest)) eqn:En.
  - eauto.
  - apply nth_error_None in En. simpl in En. lia.
Qed.

Lemma Push_length (v : ValueType (T:=T)) nb :
  length (Push v nb) = S (length nb).
Proof. unfold Push. rewrite length_app. simpl. lia. Qed.

Lemma Push_In (v x : ValueType (T:=T)) nb :
  In x (Push v nb) -> x = v \/ In x nb.
Proof.
  unfold Push. intros Hx. apply in_app_or in Hx. simpl in Hx. intuition.
Qed.
End NarrowBandFacts.

(** ** One iteration of the march *)

Section MarchStep.
Context {T : Type} `{Scalar T}.
Variable eikonal_solver : Index -> Grid T -> Result T.

(** The cases of the loop body. *)
Lemma MarchNarrowBand_body_inv nb g nb' g' :
  MarchNarrowBand_body eikonal_solver nb g = Ok (nb', g') ->
  exists distance index nb1 distance_cell,
    Pop nb = Some ((distance, index), nb1) /\
    Cell g index = Ok distance_cell /\
    ((frozen distance_cell = true /\ nb' = nb1 /\ g' = g) \/
     (frozen distance_cell = false /\
      SetCell g index distance = Ok g' /\
      UpdateNeighbors eikonal_solver index g' nb1 = Ok nb')).
Proof.
  unfold MarchNarrowBand_body.
  destruct (Pop nb) as [[[distance index] nb1]|] eqn:EP; [|discriminate].
  destruct (Cell g index) as [dc|] eqn:EC; simpl; [|discriminate].
  destruct (frozen dc) eqn:EF; simpl.
  - intros Heq; inversion Heq; subst.
    exists distance, index, nb', dc.
    split; [auto|]. split; [auto|]. left. auto.
  - destruct (SetCell g index distance) as [g1|] eqn:ES; simpl; [|discriminate].
    destruct (UpdateNeighbors eikonal_solver index g1 nb1) as [nb2|] eqn:EU;
      simpl; [|discriminate].
    intros Heq; inversion Heq; subst.
    exists distance, index, nb1, dc.
    split; [auto|]. split; [auto|]. right. auto.
Qed.

(** An iteration writes at most one cell, and only a cell that is not
    frozen. *)
Lemma MarchNarrowBand_body_frozen nb g nb' g' :
  MarchNarrowBand_body eikonal_solver nb g = Ok (nb', g') ->
  size_ g' = size_ g /\ strides_ g' = strides_ g /\
  length (cells_ g') = length (cells_ g) /\
  forall k v, nth_error (cells_ g) k = Some v -> frozen v = true ->
              nth_error (cells_ g') k = Some v.
Proof.
  intros Hb.
  destruct (MarchNarrowBand_body_inv _ _ _ _ Hb)
    as (d & index & nb1 & dc & HP & HC & [(HF & -> & ->)|(HF & HS & HU)]).
  - auto.
  - destruct (SetCell_inv _ _ _ _ HS) as (Hk & Hsz & Hst & Hc).
    destruct (Cell_inv _ _ _ HC) as (_ & Hn).
    repeat split; auto.
    + rewrite Hc. apply update_nth_length.
    + intros k v Hkv Hfv. rewrite Hc.
      destruct (Nat.eq_dec k (Z.to_nat (GridLinearIndex index (strides_ g))))
        as [->|Hne].
      * rewrite Hn in Hkv. inversion Hkv; subst. congruence.
      * rewrite nth_error_update_nth_neq; auto.
Qed.

Lemma MarchNarrowBand_iterate_frozen n : forall nb g nb' g',
  MarchNarrowBand_iterate eikonal_solver n nb g = Ok (nb', g') ->
  strides_ g' = strides_ g /\
  forall k v, nth_error (cells_ g) k = Some v -> frozen v = true ->
              nth_error (cells_ g') k = Some v.
Proof.
  induction n as [|n IH]; intros nb g nb' g' Hit; simpl in Hit.
  - inversion Hit; subst. auto.
  - destruct (empty nb).
    + inversion Hit; subst. auto.
    + destruct (MarchNarrowBand_body eikonal_solver nb g) as [[nb1 g1]|] eqn:EB;
        simpl in Hit; [|discriminate].
      destruct (MarchNarrowBand_body_frozen _ _ _ _ EB) as (_ & Hst & _ & Hfr).
      destruct (IH _ _ _ _ Hit) as (Hst' & Hfr').
      split; [congruence|]. intros k v Hk Hv. apply Hfr'; auto.
Qed.

Lemma MarchNarrowBand_loop_frozen fuel : forall it nb g g' n,
  MarchNarrowBand_loop eikonal_solver fuel it nb g = Ok (g', n) ->
  strides_ g' = strides_ g /\
  forall k v, nth_error (cells_ g) k = Some v -> frozen v = true ->
              nth_error (cells_ g') k = Some v.
Proof.
  induction fuel as [|fuel IH]; intros it nb g g' n Hl; simpl in Hl.
  - destruct (empty nb); [|discriminate]. inversion Hl; subst. auto.
  - destruct (empty nb).
    + inversion Hl; subst. auto.
    + destruct (MarchNarrowBand_body eikonal_solver nb g) as [[nb1 g1]|] eqn:EB;
        simpl in Hl; [|discriminate].
      destruct (MarchNarrowBand_body_frozen _ _ _ _ EB) as (_ & Hst & _ & Hfr).
      destruct (IH _ _ _ _ _ Hl) as (Hst' & Hfr').
      split; [congruence|]. intros k v Hk Hv. apply Hfr'; auto.
Qed.

Lemma Cell_preserved (g g' : Grid T) index v :
  strides_ g' = strides_ g ->
  (forall k v, nth_error (cells_ g) k = Some v -> frozen v = true ->
               nth_error (cells_ g') k = Some v) ->
  Cell g index = Ok v -> frozen v = true -> Cell g' index = Ok v.
Proof.
  intros Hst Hfr HC Hv. destruct (Cell_inv _ _ _ HC) as (_ & Hn).
  apply Cell_of_nth. rewrite Hst. auto.
Qed.
End MarchStep.

(** C5.  A cell that holds a frozen value keeps it through any number of
    further iterations of the marching loop and through the whole of
    [MarchNarrowBand]; an iteration that pops an entry for such a cell leaves
    the grid as it is and only removes the entry. *)
Theorem MarchNarrowBand_frozen_is_final {T : Type} `{Scalar T}
        (eikonal_solver : Index -> Grid T -> Result T)
        (narrow_band : NarrowBandStore) (distance_grid : Grid T)
        (x : Index) (v : T) :
  Cell distance_grid x = Ok v -> frozen v = true ->
  (forall n narrow_band' distance_grid',
      MarchNarrowBand_iterate eikonal_solver n narrow_band distance_grid
      = Ok (narrow_band', distance_grid') ->
      Cell distance_grid' x = Ok v) /\
  (forall fuel distance_grid',
      MarchNarrowBand eikonal_solver fuel narrow_band distance_grid
      = Ok distance_grid' ->
      Cell distance_grid' x = Ok v) /\
  (forall distance narrow_band',
      Pop narrow_band = Some ((distance, x), narrow_band') ->
      MarchNarrowBand_body eikonal_solver narrow_band distance_grid
      = Ok (narrow_band', distance_grid)).
Proof.
  intros HC Hv. split; [|split].
  - intros n nb' g' Hit.
    destruct (MarchNarrowBand_iterate_frozen _ _ _ _ _ _ Hit) as (Hst & Hfr).
    eapply Cell_preserved; eauto.
  - intros fuel g' Hm. unfold MarchNarrowBand in Hm.
    destruct (MarchNarrowBand_loop eikonal_solver fuel 0 narrow_band distance_grid)
      as [[g1 n]|] eqn:EL; simpl in Hm; [|discriminate].
    inversion Hm; subst.
    destruct (MarchNarrowBand_loop_frozen _ _ _ _ _ _ _ EL) as (Hst & Hfr).
    eapply Cell_preserved; eauto.
  - intros d nb' HP. unfold MarchNarrowBand_body. rewrite HP, HC. simpl.
    now rewrite Hv.
Qed.


(** ** Errors of the solvers *)

Section SolverErrors.
Context {T : Type} `{Scalar T}.

Lemma Cell_error {C} (g : Grid C) index e :
  Cell g index = Err e -> e = OutOfBounds.
Proof.
  unfold Cell. destruct (_ <? _); [|congruence].
  destruct (nth_error _ _); congruence.
Qed.

Lemma neighbor_min_error offsets : forall index i g m e,
  neighbor_min offsets index i g m = Err e -> e = OutOfBounds.
Proof.
  induction offsets as [|off offsets IH]; intros index i g m e Hn;
    simpl in Hn; [discriminate|].
  destruct (Inside (add_at index i off) (size_ g)); eauto.
  destruct (Cell g (add_at index i off)) as [d|e'] eqn:EC; simpl in Hn.
  - destruct (sltb d m); eauto.
  - inversion Hn; subst. eapply Cell_error; eauto.
Qed.

Lemma SolveEikonal_axes_error axes : forall index g q e,
  SolveEikonal_axes axes index g q = Err e -> e = OutOfBounds.
Proof.
  induction axes as [|[i h] axes IH]; intros index g q e Hs;
    cbn [SolveEikonal_axes] in Hs; [discriminate|].
  destruct (neighbor_min kNeighborOffsets index i g smax) as [m|e'] eqn:EN;
    cbn [bind] in Hs.
  - eauto.
  - inversion Hs; subst. eapply neighbor_min_error; eauto.
Qed.

Lemma SolveEikonalQuadratic_error q e :
  SolveEikonalQuadratic q = Err e ->
  e = NegativeDiscriminant \/ e = NegativeDistance.
Proof.
  destruct q as [[q0 q1] q2]. unfold SolveEikonalQuadratic.
  destruct (sltb _ _); [intros Heq; inversion Heq; auto|].
  destruct (sltb _ _); intros Heq; inversion Heq; auto.
Qed.

Lemma SolveEikonal_error index g speed grid_spacing e :
  SolveEikonal index g speed grid_spacing = Err e ->
  e = OutOfBounds \/ e = NegativeDiscriminant \/ e = NegativeDistance.
Proof.
  unfold SolveEikonal, SolveEikonal_coefficients.
  destruct (SolveEikonal_axes _ _ _ _) as [q|e'] eqn:EA; simpl; intros Hs.
  - right. eapply SolveEikonalQuadratic_error; eauto.
  - inversion Hs; subst. left. eapply SolveEikonal_axes_error; eauto.
Qed.

Lemma SolveEikonal_no_fuel index g speed grid_spacing :
  SolveEikonal index g speed grid_spacing <> Err OutOfFuel.
Proof.
  intros Hs. apply SolveEikonal_error in Hs.
  destruct Hs as [Hs|[Hs|Hs]]; discriminate Hs.
Qed.
End SolverErrors.


(** ** Termination of the march *)

Section MarchTermination.
Context {T : Type} `{Scalar T}.
Variable eikonal_solver : Index -> Grid T -> Result T.
Variable N : nat.

Lemma add_at_length index : forall i offset,
  length (add_at index i offset) = length index.
Proof.
  induction index as [|x index IH]; intros [|i] offset; simpl; auto.
Qed.

Lemma face_steps_length n : length (face_steps n) = (2 * n)%nat.
Proof.
  unfold face_steps.
  assert (Hgen : forall l : list nat,
             length (flat_map (fun i => map (fun o => (i, o)) kNeighborOffsets) l)
             = (2 * length l)%nat).
  { induction l as [|a l IH]; [reflexivity|].
    cbn [flat_map length]. rewrite length_app, IH. simpl. lia. }
  rewrite Hgen, length_seq. reflexivity.
Qed.

Lemma band_ok_Push (e : ValueType (T:=T)) nb :
  length (snd e) = N -> band_ok N nb -> band_ok N (Push e nb).
Proof.
  intros Hl Hnb. unfold band_ok, Push. apply Forall_app. split; auto.
Qed.

Lemma UpdateNeighbors_steps_band steps : forall index g nb nb',
  UpdateNeighbors_steps eikonal_solver steps index g nb = Ok nb' ->
  length index = N -> band_ok N nb ->
  band_ok N nb' /\ (length nb' <= length nb + length steps)%nat.
Proof.
  induction steps as [|[i off] steps IH]; intros index g nb nb' HU Hlen Hnb;
    simpl in HU.
  - inversion HU; subst. split; auto. simpl. lia.
  - simpl length.
    destruct (Inside (add_at index i off) (size_ g)).
    + destruct (Cell g (add_at index i off)) as [dc|]; simpl in HU;
        [|discriminate].
      destruct (frozen dc); simpl in HU.
      * destruct (IH _ _ _ _ HU Hlen Hnb). split; auto. lia.
      * destruct (eikonal_solver (add_at index i off) g) as [d|] eqn:ES;
          simpl in HU; [|discriminate].
        assert (Hok : band_ok N (Push (d, add_at index i off) nb)).
        { apply band_ok_Push; simpl; auto. now rewrite add_at_length. }
        destruct (IH _ _ _ _ HU Hlen Hok) as (Hb & Hl).
        rewrite Push_length in Hl. split; auto. lia.
    + destruct (IH _ _ _ _ HU Hlen Hnb). split; auto. lia.
Qed.

Lemma unfrozen_count_update (cells : list T) : forall k c d,
  nth_error cells k = Some c -> frozen c = false -> frozen d = true ->
  S (unfrozen_count (update_nth k d cells)) = unfrozen_count cells.
Proof.
  unfold unfrozen_count.
  induction cells as [|a cells IH]; intros [|k] c d Hn Hc Hd; simpl in *;
    try discriminate.
  - inversion Hn; subst. rewrite Hc, Hd. reflexivity.
  - destruct (frozen a); simpl; erewrite <- IH; eauto.
Qed.

(** Every iteration lowers [|band| + 2 N * (unfrozen cells)]. *)
Lemma MarchNarrowBand_body_measure nb g nb' g' :
  MarchNarrowBand_body eikonal_solver nb g = Ok (nb', g') ->
  MarchNarrowBand_assertion nb g = true ->
  band_ok N nb ->
  band_ok N nb' /\
  (S (length nb' + 2 * N * unfrozen_count (cells_ g'))
   <= length nb + 2 * N * unfrozen_count (cells_ g))%nat.
Proof.
  intros Hb Has Hnb.
  destruct (MarchNarrowBand_body_inv _ _ _ _ _ Hb)
    as (d & index & nb1 & dc & HP & HC & Hcase).
  destruct (Pop_inv _ _ _ HP) as (Hin & Hlen & Hincl).
  assert (Hnb1 : band_ok N nb1).
  { unfold band_ok in *. rewrite Forall_forall in *. auto. }
  assert (Hidx : length index = N).
  { unfold band_ok in Hnb. rewrite Forall_forall in Hnb.
    apply (Hnb _ Hin). }
  unfold MarchNarrowBand_assertion in Has. rewrite HP, HC in Has.
  destruct Hcase as [(HF & -> & ->)|(HF & HS & HU)].
  - split; auto. lia.
  - assert (Hd : frozen d = true) by (rewrite HF in Has; exact Has).
    destruct (SetCell_inv _ _ _ _ HS) as (Hk & Hsz & Hst & Hc).
    destruct (Cell_inv _ _ _ HC) as (_ & Hn).
    unfold UpdateNeighbors in HU.
    destruct (UpdateNeighbors_steps_band _ _ _ _ _ HU Hidx Hnb1) as (Hb' & Hl).
    rewrite face_steps_length, Hidx in Hl.
    split; auto.
    rewrite Hc. rewrite <- (unfrozen_count_update (cells_ g) _ dc d Hn HF Hd).
    nia.
Qed.

Hypothesis solver_no_fuel :
  forall index g, eikonal_solver index g <> Err OutOfFuel.

Lemma UpdateNeighbors_steps_no_fuel steps : forall index g nb,
  UpdateNeighbors_steps eikonal_solver steps index g nb <> Err OutOfFuel.
Proof.
  induction steps as [|[i off] steps IH]; intros index g nb; simpl.
  - discriminate.
  - destruct (Inside (add_at index i off) (size_ g)); auto.
    unfold Cell.
    destruct (_ <? _); simpl; [|discriminate].
    destruct (nth_error _ _) as [dc|]; simpl; [|discriminate].
    destruct (frozen dc); simpl; auto.
    destruct (eikonal_solver (add_at index i off) g) as [d|e] eqn:ES; simpl; auto.
    intros Heq. inversion Heq; subst. apply (solver_no_fuel _ _ ES).
Qed.

Lemma MarchNarrowBand_body_no_fuel nb g :
  empty nb = false ->
  MarchNarrowBand_body eikonal_solver nb g <> Err OutOfFuel.
Proof.
  intros Hne. unfold MarchNarrowBand_body.
  destruct (Pop_nonempty nb Hne) as ([d index] & nb1 & ->).
  unfold Cell at 1.
  destruct (_ <? _); simpl; [|discriminate].
  destruct (nth_error _ _) as [dc|]; simpl; [|discriminate].
  destruct (frozen dc); simpl; [discriminate|].
  unfold SetCell. destruct (_ <? _); simpl; [|discriminate].
  match goal with
  | |- context [UpdateNeighbors ?s ?i ?g ?b] =>
      pose proof (UpdateNeighbors_steps_no_fuel (face_steps (length i)) i g b) as Hu;
      unfold UpdateNeighbors; destruct (UpdateNeighbors_steps s _ i g b); simpl
  end; [discriminate | congruence].
Qed.

Lemma MarchNarrowBand_loop_terminates fuel : forall it nb g,
  band_ok N nb ->
  MarchNarrowBand_assertions eikonal_solver fuel nb g = true ->
  (length nb + 2 * N * unfrozen_count (cells_ g) <= fuel)%nat ->
  MarchNarrowBand_loop eikonal_solver fuel it nb g <> Err OutOfFuel /\
  forall g' n,
    MarchNarrowBand_loop eikonal_solver fuel it nb g = Ok (g', n) ->
    (n <= it + (length nb + 2 * N * unfrozen_count (cells_ g)))%nat.
Proof.
  induction fuel as [|fuel IH]; intros it nb g Hnb Has Hfuel.
  - destruct nb as [|e nb]; simpl in Hfuel |- *; [|lia].
    split; [discriminate|]. intros g' n Heq. inversion Heq; subst. lia.
  - simpl in Has |- *. destruct (empty nb) eqn:Hne.
    + split; [discriminate|]. intros g' n Heq. inversion Heq; subst. lia.
    + pose proof (MarchNarrowBand_body_no_fuel nb g Hne) as Hnf.
      apply andb_true_iff in Has. destruct Has as (Has1 & Has).
      destruct (MarchNarrowBand_body eikonal_solver nb g) as [[nb1 g1]|e] eqn:EB;
        simpl.
      * destruct (MarchNarrowBand_body_measure _ _ _ _ EB Has1 Hnb) as (Hnb1 & Hm).
        destruct (IH (S it) nb1 g1 Hnb1 Has ltac:(lia)) as (Hno & Hbound).
        split; auto. intros g' n Heq. specialize (Hbound _ _ Heq). lia.
      * split; [congruence | discriminate].
Qed.
End MarchTermination.

Section MarchFailure.
Context {T : Type} `{Scalar T}.
Variable eikonal_solver : Index -> Grid T -> Result T.

Lemma UpdateNeighbors_steps_app pre : forall post index g nb,
  UpdateNeighbors_steps eikonal_solver (pre ++ post) index g nb
  = (nb' <- UpdateNeighbors_steps eikonal_solver pre index g nb ;;
     UpdateNeighbors_steps eikonal_solver post index g nb').
Proof.
  induction pre as [|[i off] pre IH]; intros post index g nb; simpl.
  - reflexivity.
  - destruct (Inside (add_at index i off) (size_ g)); auto.
    destruct (Cell g (add_at index i off)) as [dc|]; simpl; auto.
    destruct (frozen dc); simpl; auto.
    destruct (eikonal_solver (add_at index i off) g); simpl; auto.
Qed.

(** A failure of the loop body after [n] iterations is the result of the
    loop. *)
Lemma MarchNarrowBand_loop_fails n : forall fuel it nb0 g0 nb g e,
  MarchNarrowBand_iterate eikonal_solver n nb0 g0 = Ok (nb, g) ->
  empty nb = false ->
  MarchNarrowBand_body eikonal_solver nb g = Err e ->
  (n < fuel)%nat ->
  MarchNarrowBand_loop eikonal_solver fuel it nb0 g0 = Err e.
Proof.
  induction n as [|n IH]; intros fuel it nb0 g0 nb g e Hit Hne Hbody Hfuel.
  - simpl in Hit. inversion Hit; subst.
    destruct fuel as [|fuel]; [lia|]. simpl. now rewrite Hne, Hbody.
  - simpl in Hit. destruct fuel as [|fuel]; [lia|]. simpl.
    destruct (empty nb0) eqn:He0.
    + inversion Hit; subst. congruence.
    + destruct (MarchNarrowBand_body eikonal_solver nb0 g0)
        as [[nb1 g1]|e'] eqn:Hb0; [|discriminate].
      cbn [bind] in *. eapply IH; eauto. lia.
Qed.
End MarchFailure.

(** C3 (as stated, refuted).  On the 3 x 3 grid with seeds (0, 0) at distance 0
    and (2, 2) at distance 100 the initial narrow band is built, and the march
    stops with "negative discriminant" while it relaxes a neighbour: it does
    not go on, and the unsigned driver returns no buffer. *)
Lemma march_failure_counterexample :
  exists narrow_band,
    InitialUnsignedNarrowBand Examples.solver_2d [[0; 0]; [2; 2]]
                              Examples.far_seeds = Ok narrow_band /\
    MarchNarrowBand Examples.solver_2d 100 narrow_band Examples.far_seeds
    = Err NegativeDiscriminant /\
    UnsignedDistance Examples.solver_2d 100 [3; 3] [[0; 0]; [2; 2]]
                     [0%float; 100%float] = Err NegativeDiscriminant.
Proof.
  eexists. split; [vm_compute; reflexivity|].
  split; vm_compute; reflexivity.
Qed.

(** C3 (amended).  When the solver fails for a neighbour that
    [UpdateNeighbors] relaxes (in the grid, not frozen, reached after the
    steps [pre] went through) in some iteration of the march, the failure is
    not localized: [UpdateNeighbors], the iteration and [MarchNarrowBand]
    stop with the solver's error, so nothing is pushed for that neighbour and
    no further entry is popped; and an unsigned driver whose march this is
    returns the error and no distance buffer. *)
Theorem solver_failure_stops_march {T : Type} `{Scalar T}
        (eikonal_solver : Index -> Grid T -> Result T) (fuel n : nat)
        (narrow_band0 narrow_band narrow_band1 narrow_band2 : NarrowBandStore)
        (distance_grid0 distance_grid distance_grid1 : Grid T)
        (distance distance_cell neighbor_cell : T) (index : Index)
        (pre post : list (nat * Z)) (i : nat) (neighbor_offset : Z) (e : Error) :
  MarchNarrowBand_iterate eikonal_solver n narrow_band0 distance_grid0
  = Ok (narrow_band, distance_grid) ->
  (n < fuel)%nat ->
  Pop narrow_band = Some ((distance, index), narrow_band1) ->
  Cell distance_grid index = Ok distance_cell ->
  frozen distance_cell = false ->
  SetCell distance_grid index distance = Ok distance_grid1 ->
  face_steps (length index) = pre ++ (i, neighbor_offset) :: post ->
  UpdateNeighbors_steps eikonal_solver pre index distance_grid1 narrow_band1
  = Ok narrow_band2 ->
  Inside (add_at index i neighbor_offset) (size_ distance_grid1) = true ->
  Cell distance_grid1 (add_at index i neighbor_offset) = Ok neighbor_cell ->
  frozen neighbor_cell = false ->
  eikonal_solver (add_at index i neighbor_offset) distance_grid1 = Err e ->
  UpdateNeighbors eikonal_solver index distance_grid1 narrow_band1 = Err e /\
  MarchNarrowBand_body eikonal_solver narrow_band distance_grid = Err e /\
  MarchNarrowBand eikonal_solver fuel narrow_band0 distance_grid0 = Err e /\
  (forall grid_size frozen_indices frozen_distances fresh_grid,
      make_Grid grid_size (repeat smax (Z.to_nat (LinearSize grid_size)))
      = Ok fresh_grid ->
      SetBoundaryCondition frozen_indices frozen_distances (s_of_Z 1)
        unsigned_distance_predicate fresh_grid = (distance_grid0, Ok tt) ->
      InitialUnsignedNarrowBand eikonal_solver frozen_indices distance_grid0
      = Ok narrow_band0 ->
      UnsignedDistance eikonal_solver fuel grid_size frozen_indices
                       frozen_distances = Err e).
Proof.
  intros Hit Hfuel HP HC HF HS Hsteps Hpre Hin HC' HF' Hsolve.
  assert (HU : UpdateNeighbors eikonal_solver index distance_grid1 narrow_band1
               = Err e).
  { unfold UpdateNeighbors. rewrite Hsteps, UpdateNeighbors_steps_app, Hpre.
    simpl. rewrite Hin, HC'. simpl. rewrite HF'. simpl. now rewrite Hsolve. }
  assert (HB : MarchNarrowBand_body eikonal_solver narrow_band distance_grid
               = Err e).
  { unfold MarchNarrowBand_body.
    rewrite HP, HC. simpl. rewrite HF. simpl. rewrite HS. simpl.
    now rewrite HU. }
  assert (Hne : empty narrow_band = false).
  { destruct narrow_band; [discriminate HP | reflexivity]. }
  assert (HM : MarchNarrowBand eikonal_solver fuel narrow_band0 distance_grid0
               = Err e).
  { unfold MarchNarrowBand.
    now rewrite (MarchNarrowBand_loop_fails eikonal_solver n fuel 0%nat
                   narrow_band0 distance_grid0 narrow_band distance_grid e
                   Hit Hne HB Hfuel). }
  split; [exact HU|]. split; [exact HB|]. split; [exact HM|].
  intros grid_size frozen_indices frozen_distances fresh_grid Hmk Hsbc Hnb.
  unfold UnsignedDistance. rewrite Hmk. cbn [bind]. rewrite Hsbc.
  cbn [bind]. rewrite Hnb. cbn [bind]. now rewrite HM.
Qed.

Lemma solver_failure_stops_march_witness :
  MarchNarrowBand Examples.solver_2d 100
    [(1%float, [1; 0]); (1%float, [0; 1]); (101%float, [1; 2]);
     (101%float, [2; 1])] Examples.far_seeds = Err NegativeDiscriminant /\
  UnsignedDistance Examples.solver_2d 100 [3; 3] [[0; 0]; [2; 2]]
                   [0%float; 100%float] = Err NegativeDiscriminant.
Proof.
  destruct (solver_failure_stops_march Examples.solver_2d 100 2
              [(1%float, [1; 0]); (1%float, [0; 1]); (101%float, [1; 2]);
               (101%float, [2; 1])]
              [(101%float, [1; 2]); (101%float, [2; 1]); (2%float, [2; 0]);
               (2%float, [1; 1]); (0x1.b504f333f9de6p+0%float, [1; 1]);
               (2%float, [0; 2])]
              [(101%float, [1; 2]); (101%float, [2; 1]); (2%float, [2; 0]);
               (2%float, [1; 1]); (2%float, [0; 2])]
              [(101%float, [1; 2]); (101%float, [2; 1]); (2%float, [2; 0]);
               (2%float, [1; 1]); (2%float, [0; 2])]
              Examples.far_seeds
              (Examples.grid3x3 [0; 1; smax; 1; smax; smax; smax; smax;
                                 100]%float)
              (Examples.grid3x3 [0; 1; smax; 1; 0x1.b504f333f9de6p+0; smax;
                                 smax; smax; 100]%float)
              0x1.b504f333f9de6p+0%float smax smax [1; 1]
              [(0%nat, -1)] [(1%nat, -1); (1%nat, 1)] 0%nat 1
              NegativeDiscriminant)
    as (_ & _ & Hmarch & Hdriver).
  - vm_compute. reflexivity.
  - lia.
  - vm_compute. reflexivity.
  - reflexivity.
  - reflexivity.
  - reflexivity.
  - reflexivity.
  - vm_compute. reflexivity.
  - reflexivity.
  - reflexivity.
  - reflexivity.
  - vm_compute. reflexivity.
  - split; [exact Hmarch|].
    apply (Hdriver [3; 3] [[0; 0]; [2; 2]] [0%float; 100%float]
                   Examples.fresh3x3).
    + reflexivity.
    + vm_compute. reflexivity.
    + vm_compute. reflexivity.
Defined.

(** C5 witness: the seed of a line keeps its value through the march. *)
Lemma MarchNarrowBand_frozen_is_final_witness :
  (forall n narrow_band' distance_grid',
      MarchNarrowBand_iterate Examples.solver_1d n
        [(7%float, [0]); (1%float, [1])] (Examples.line3 0%float smax smax)
      = Ok (narrow_band', distance_grid') ->
      Cell distance_grid' [0] = Ok 0%float) /\
  (forall fuel distance_grid',
      MarchNarrowBand Examples.solver_1d fuel
        [(7%float, [0]); (1%float, [1])] (Examples.line3 0%float smax smax)
      = Ok distance_grid' ->
      Cell distance_grid' [0] = Ok 0%float) /\
  (forall distance narrow_band',
      Pop [(7%float, [0]); (1%float, [1])]
      = Some ((distance, [0]), narrow_band') ->
      MarchNarrowBand_body Examples.solver_1d
        [(7%float, [0]); (1%float, [1])] (Examples.line3 0%float smax smax)
      = Ok (narrow_band', Examples.line3 0%float smax smax)).
Proof.
  apply (MarchNarrowBand_frozen_is_final Examples.solver_1d
           [(7%float, [0]); (1%float, [1])]
           (Examples.line3 0%float smax smax) [0] 0%float);
    reflexivity.
Defined.

(** C6 (as stated, refuted).  On the 3 x 3 grid with the seed (0, 0) the loop
    of [MarchNarrowBand] runs 12 times, more than the 9 cells of the grid:
    entries for cells that were frozen in the meantime are popped and
    discarded, and each costs an iteration. *)
Lemma MarchNarrowBand_iterations_counterexample :
  exists narrow_band distance_grid',
    InitialUnsignedNarrowBand Examples.solver_2d [[0; 0]] Examples.corner_seed
    = Ok narrow_band /\
    MarchNarrowBand_loop Examples.solver_2d 100 0 narrow_band
                         Examples.corner_seed = Ok (distance_grid', 12%nat) /\
    LinearSize (size_ Examples.corner_seed) = 9.
Proof.
  do 2 eexists. split; [vm_compute; reflexivity|].
  split; vm_compute; reflexivity.
Qed.

(** C6 (amended).  When the assertion of the loop body holds in every
    iteration (a value that is written is below the sentinel), the loop of
    [MarchNarrowBand] ends within [|band| + 2 N u] iterations, where [N] is the
    dimension and [u] the number of cells that are not frozen at the start:
    an iteration either discards an entry or freezes a cell and pushes at most
    [2 N] entries. *)
Theorem MarchNarrowBand_terminates {T : Type} `{Scalar T}
        (eikonal_solver : Index -> Grid T -> Result T) (N fuel : nat)
        (narrow_band : NarrowBandStore) (distance_grid : Grid T) :
  (forall index g, eikonal_solver index g <> Err OutOfFuel) ->
  Forall (fun entry => length (snd entry) = N) narrow_band ->
  (length narrow_band + 2 * N * unfrozen_count (cells_ distance_grid)
   <= fuel)%nat ->
  MarchNarrowBand_assertions eikonal_solver fuel narrow_band distance_grid
  = true ->
  MarchNarrowBand eikonal_solver fuel narrow_band distance_grid
  <> Err OutOfFuel /\
  forall distance_grid' iterations,
    MarchNarrowBand_loop eikonal_solver fuel 0 narrow_band distance_grid
    = Ok (distance_grid', iterations) ->
    (iterations
     <= length narrow_band
        + 2 * N * unfrozen_count (cells_ distance_grid))%nat.
Proof.
  intros Hnf Hband Hfuel Has.
  destruct (MarchNarrowBand_loop_terminates eikonal_solver N Hnf fuel 0
              narrow_band distance_grid Hband Has Hfuel) as (Hno & Hbound).
  split.
  - unfold MarchNarrowBand.
    destruct (MarchNarrowBand_loop eikonal_solver fuel 0 narrow_band
                                   distance_grid) as [[g' n]|e];
      simpl; [discriminate | congruence].
  - intros g' n Heq. specialize (Hbound _ _ Heq). lia.
Qed.

Lemma MarchNarrowBand_terminates_witness :
  MarchNarrowBand Examples.solver_2d 34
    [(1%float, [1; 0]); (1%float, [0; 1])] Examples.corner_seed
  <> Err OutOfFuel /\
  forall distance_grid' iterations,
    MarchNarrowBand_loop Examples.solver_2d 34 0
      [(1%float, [1; 0]); (1%float, [0; 1])] Examples.corner_seed
    = Ok (distance_grid', iterations) ->
    (iterations
     <= length [(1%float, [1; 0]); (1%float, [0; 1])]
        + 2 * 2 * unfrozen_count (cells_ Examples.corner_seed))%nat.
Proof.
  apply (MarchNarrowBand_terminates Examples.solver_2d 2 34
           [(1%float, [1; 0]); (1%float, [0; 1])] Examples.corner_seed).
  - intros index g. apply SolveEikonal_no_fuel.
  - repeat constructor.
  - vm_compute. lia.
  - vm_compute. reflexivity.
Defined.


(** C2 (the code departs from the claim).  At cell 2 of [Examples.line5] the
    smallest one-step neighbour is the right one (4); the cell two steps to
    the right is not frozen, so the claim asks for the first-order terms.
    [HighAccuracySolveEikonal] keeps in [neighbor_min_distance2] the value 4.5
    it read two steps to the left while it examined the left neighbour (5),
    and contributes the second-order terms with m1 = 4 and m2 = 4.5 > m1. *)
Theorem HighAccuracySolveEikonal_stale_two_step :
  Cell Examples.line5 [3] = Ok 4%float /\
  Cell Examples.line5 [1] = Ok 5%float /\
  Cell Examples.line5 [4] = Ok smax /\ frozen (T:=float) smax = false /\
  HighAccuracySolveEikonal_coefficients [2] Examples.line5 1%float [1%float]
  = Ok (second_order_update (initial_quadratic 1%float) 4%float 4.5%float
                            1%float) /\
  second_order_update (initial_quadratic 1%float) 4%float 4.5%float 1%float
  = (32.0625%float, (-17.25)%float, 2.25%float) /\
  first_order_update (initial_quadratic 1%float) 4%float 1%float
  = (15%float, (-8)%float, 1%float) /\
  HighAccuracySolveEikonal [2] Examples.line5 1%float [1%float] = Ok 4.5%float /\
  SolveEikonalQuadratic
    (first_order_update (initial_quadratic 1%float) 4%float 1%float)
  = Ok 5%float.
Proof.
  repeat split; vm_compute; reflexivity.
Qed.

(** ** The boundary condition *)

Section BoundaryCondition.
Context {T : Type} `{Scalar T}.

Lemma SetCell_size (g g' : Grid T) index v :
  SetCell g index v = Ok g' -> size_ g' = size_ g.
Proof. intros Hs. now destruct (SetCell_inv _ _ _ _ Hs) as (_ & ? & _). Qed.

Lemma install_seeds_size seeds : forall multiplier (g : Grid T),
  size_ (install_seeds seeds multiplier g) = size_ g.
Proof.
  induction seeds as [|[index d] seeds IH]; intros m g; simpl; auto.
  destruct (SetCell g index (m * d)%S) eqn:ES; auto.
  rewrite IH. eapply SetCell_size; eauto.
Qed.

(** The loop leaves the grid with a prefix of the seeds written. *)
Lemma SetBoundaryCondition_loop_prefix seeds : forall multiplier pred g g' r,
  SetBoundaryCondition_loop seeds multiplier pred g = (g', r) ->
  match r with
  | Ok _ => g' = install_seeds seeds multiplier g
  | Err e =>
      exists n index distance,
        nth_error seeds n = Some (index, distance) /\
        g' = install_seeds (firstn n seeds) multiplier g /\
        match e with
        | FrozenIndexOutsideGrid => Inside index (size_ g) = false
        | InvalidFrozenDistance => pred distance = false
        | DuplicateFrozenIndex =>
            exists distance_cell,
              Cell g' index = Ok distance_cell /\ frozen distance_cell = true
        | OutOfBounds => True
        | _ => False
        end
  end.
Proof.
  induction seeds as [|[index d] seeds IH]; intros m pred g g' r Hl;
    simpl in Hl.
  - inversion Hl; subst. reflexivity.
  - destruct (Inside index (size_ g)) eqn:EI; simpl in Hl.
    2:{ inversion Hl; subst. exists 0%nat, index, d. simpl. auto. }
    destruct (pred d) eqn:EP; simpl in Hl.
    2:{ inversion Hl; subst. exists 0%nat, index, d. simpl. auto. }
    destruct (Cell g index) as [dc|e] eqn:EC.
    2:{ inversion Hl; subst. exists 0%nat, index, d. simpl.
        rewrite (Cell_error _ _ _ EC). auto. }
    destruct (frozen dc) eqn:EF.
    { inversion Hl; subst. exists 0%nat, index, d. simpl.
      split; auto. split; auto. exists dc. auto. }
    destruct (SetCell g index (m * d)%S) as [g1|e] eqn:ES.
    2:{ inversion Hl; subst. exists 0%nat, index, d. simpl.
        unfold SetCell in ES. destruct (_ <? _); inversion ES. auto. }
    specialize (IH _ _ _ _ _ Hl). destruct r as [u|e].
    + simpl. now rewrite ES.
    + destruct IH as (n & index' & d' & Hn & Hg & He).
      exists (S n), index', d'. simpl. rewrite ES.
      split; auto. split; auto.
      destruct e; auto. now rewrite <- (SetCell_size _ _ _ _ ES).
Qed.

Lemma Index_eqb_eq (a b : Index) : Index_eqb a b = true <-> a = b.
Proof.
  unfold Index_eqb. destruct (list_eq_dec Z.eq_dec a b); split; intros;
    congruence.
Qed.

Lemma last_written_app earlier (seed : Index * T) multiplier index :
  last_written (earlier ++ [seed]) multiplier index
  = if Index_eqb (fst seed) index then Some (multiplier * snd seed)%S
    else last_written earlier multiplier index.
Proof. unfold last_written. now rewrite fold_left_app. Qed.

Lemma holds_seeds_fresh (g : Grid T) multiplier :
  WfGrid g -> cells_ g = repeat smax (length (cells_ g)) ->
  holds_seeds [] multiplier g.
Proof.
  intros Hwf Hc. split; auto. intros x Hx. simpl.
  now apply Cell_repeat.
Qed.

(** The loop accepts a seed that the classification accepts, and writes
    it. *)
Lemma SetBoundaryCondition_accepts earlier multiplier pred (g : Grid T)
      index distance :
  frozen (smax : T) = false ->
  holds_seeds earlier multiplier g ->
  length index = length (size_ g) ->
  seed_refusal (size_ g) multiplier pred earlier (index, distance) = None ->
  exists g',
    SetCell g index (multiplier * distance)%S = Ok g' /\
    Inside index (size_ g) = true /\ pred distance = true /\
    (exists c, Cell g index = Ok c /\ frozen c = false) /\
    holds_seeds (earlier ++ [(index, distance)]) multiplier g'.
Proof.
  intros Hmax (Hwf & Hcells) Hlen Hacc.
  unfold seed_refusal in Hacc. cbn [fst snd] in Hacc.
  destruct (Inside index (size_ g)) eqn:EI; [|discriminate].
  destruct (pred distance) eqn:EP; [|discriminate].
  cbn [negb] in Hacc.
  assert (Hx : wf_index (size_ g) index) by (split; auto).
  destruct (SetCell_wf g index (multiplier * distance)%S Hwf Hx) as (g' & Hs).
  exists g'. split; [exact Hs|]. split; [reflexivity|].
  split; [reflexivity|]. split.
  - eexists. split; [apply Hcells; exact Hx|].
    destruct (last_written earlier multiplier index) as [w|]; auto.
    destruct (frozen w); [discriminate | reflexivity].
  - split; [eapply SetCell_WfGrid; eauto|].
    intros y Hy. rewrite (SetCell_size _ _ _ _ Hs) in Hy.
    rewrite last_written_app. cbn [fst snd].
    destruct (Index_eqb index y) eqn:Ey.
    + apply Index_eqb_eq in Ey. subst y.
      eapply Cell_SetCell_same; eauto.
    + rewrite (Cell_SetCell_other g g' index y _ Hs Hwf Hx Hy).
      * now apply Hcells.
      * intros ->. rewrite (proj2 (Index_eqb_eq y y) eq_refl) in Ey.
        discriminate.
Qed.

(** The loop against the classification of the seeds: it stops at the
    first seed that is refused, with the seeds before it written, and
    writes them all when none is refused. *)
Lemma SetBoundaryCondition_loop_classified multiplier pred seeds :
  forall earlier (g : Grid T),
  frozen (smax : T) = false ->
  holds_seeds earlier multiplier g ->
  Forall (fun seed => length (fst seed) = length (size_ g)) seeds ->
  (forall n seed e,
      nth_error seeds n = Some seed ->
      (forall k s, (k < n)%nat -> nth_error seeds k = Some s ->
                   seed_refusal (size_ g) multiplier pred
                                (earlier ++ firstn k seeds) s = None) ->
      seed_refusal (size_ g) multiplier pred (earlier ++ firstn n seeds) seed
      = Some e ->
      SetBoundaryCondition_loop seeds multiplier pred g
      = (install_seeds (firstn n seeds) multiplier g, Err e)) /\
  ((forall k s, nth_error seeds k = Some s ->
                seed_refusal (size_ g) multiplier pred
                             (earlier ++ firstn k seeds) s = None) ->
   SetBoundaryCondition_loop seeds multiplier pred g
   = (install_seeds seeds multiplier g, Ok tt) /\
   holds_seeds (earlier ++ seeds) multiplier
               (install_seeds seeds multiplier g)).
Proof.
  induction seeds as [|[index d] seeds IH]; intros earlier g Hmax Hg Hlen.
  - split.
    + intros [|n] seed e Hn; discriminate Hn.
    + intros _. simpl. rewrite app_nil_r. auto.
  - inversion Hlen as [|? ? Hl0 Hlen']; subst. cbn [fst] in Hl0.
    assert (Hstep : seed_refusal (size_ g) multiplier pred earlier (index, d)
                    = None ->
                    exists g',
                      SetCell g index (multiplier * d)%S = Ok g' /\
                      size_ g' = size_ g /\
                      holds_seeds (earlier ++ [(index, d)]) multiplier g' /\
                      forall rest,
                        SetBoundaryCondition_loop ((index, d) :: rest)
                                                  multiplier pred g
                        = SetBoundaryCondition_loop rest multiplier pred g').
    { intros Hacc.
      destruct (SetBoundaryCondition_accepts earlier multiplier pred g index d
                  Hmax Hg Hl0 Hacc)
        as (g' & Hs & HI & HP & (c & Hc & Hf) & Hg').
      exists g'. split; [exact Hs|].
      split; [eapply SetCell_size; eauto|]. split; [exact Hg'|].
      intros rest. cbn [SetBoundaryCondition_loop].
      now rewrite HI, HP, Hc, Hf, Hs. }
    split.
    + intros [|n] seed e Hn Hbefore Href.
      * cbn [nth_error] in Hn. inversion Hn; subst seed. clear Hn.
        cbn [firstn install_seeds]. rewrite app_nil_r in Href.
        cbn [SetBoundaryCondition_loop].
        unfold seed_refusal in Href. cbn [fst snd] in Href.
        destruct (Inside index (size_ g)) eqn:EI; cbn [negb] in *.
        2:{ inversion Href; subst. reflexivity. }
        destruct (pred d) eqn:EP; cbn [negb] in *.
        2:{ inversion Href; subst. reflexivity. }
        destruct Hg as (Hwf & Hcells).
        rewrite (Hcells index (conj Hl0 EI)).
        destruct (last_written earlier multiplier index) as [w|];
          [|discriminate].
        destruct (frozen w); [|discriminate].
        inversion Href; subst. reflexivity.
      * cbn [nth_error] in Hn.
        destruct Hstep as (g' & Hs & Hsz & Hg' & Hloop).
        { specialize (Hbefore 0%nat (index, d) ltac:(lia) eq_refl).
          cbn [firstn] in Hbefore. now rewrite app_nil_r in Hbefore. }
        rewrite Hloop. cbn [firstn install_seeds]. rewrite Hs.
        rewrite <- Hsz in Hlen'.
        destruct (IH (earlier ++ [(index, d)]) g' Hmax Hg' Hlen') as (IH1 & _).
        apply (IH1 n seed e Hn).
        -- intros k s Hk Hks. rewrite Hsz, <- app_assoc.
           apply (Hbefore (S k) s); [lia | exact Hks].
        -- rewrite Hsz, <- app_assoc. exact Href.
    + intros Hall.
      destruct Hstep as (g' & Hs & Hsz & Hg' & Hloop).
      { specialize (Hall 0%nat (index, d) eq_refl).
        cbn [firstn] in Hall. now rewrite app_nil_r in Hall. }
      rewrite Hloop. cbn [install_seeds]. rewrite Hs.
      rewrite <- Hsz in Hlen'.
      destruct (IH (earlier ++ [(index, d)]) g' Hmax Hg' Hlen') as (_ & IH2).
      destruct IH2 as (Hrun & Hheld).
      { intros k s Hks. rewrite Hsz, <- app_assoc.
        apply (Hall (S k) s). exact Hks. }
      split; [exact Hrun|].
      replace (earlier ++ (index, d) :: seeds)
        with ((earlier ++ [(index, d)]) ++ seeds)
        by (now rewrite <- app_assoc).
      exact Hheld.
Qed.

(** [SetBoundaryCondition] on the fresh grid of a driver, against the
    classification of the seeds. *)
Lemma SetBoundaryCondition_classified multiplier pred grid_size
      (indices : list Index) (distances : list T) (g : Grid T) :
  all_positive grid_size -> size_product grid_size < size_t_modulus ->
  frozen (smax : T) = false ->
  Forall (fun index => length index = length grid_size) indices ->
  make_Grid grid_size (repeat smax (Z.to_nat (LinearSize grid_size))) = Ok g ->
  (indices = [] ->
   SetBoundaryCondition indices distances multiplier pred g
   = (g, Err EmptyFrozenIndices)) /\
  (indices <> [] -> length indices <> length distances ->
   SetBoundaryCondition indices distances multiplier pred g
   = (g, Err SizeMismatch)) /\
  (indices <> [] -> length indices = length distances ->
   forall n seed e,
     nth_error (combine indices distances) n = Some seed ->
     (forall k s, (k < n)%nat ->
                  nth_error (combine indices distances) k = Some s ->
                  seed_refusal grid_size multiplier pred
                               (firstn k (combine indices distances)) s
                  = None) ->
     seed_refusal grid_size multiplier pred
                  (firstn n (combine indices distances)) seed = Some e ->
     SetBoundaryCondition indices distances multiplier pred g
     = (install_seeds (firstn n (combine indices distances)) multiplier g,
        Err e)) /\
  (indices <> [] -> length indices = length distances ->
   (forall k s, nth_error (combine indices distances) k = Some s ->
                seed_refusal grid_size multiplier pred
                             (firstn k (combine indices distances)) s
                = None) ->
   SetBoundaryCondition indices distances multiplier pred g
   = (install_seeds (combine indices distances) multiplier g,
      if Z.of_nat (length indices) =? LinearSize grid_size
      then Err WholeGridFrozen else Ok tt)).
Proof.
  intros Hpos Hov Hmax Hlen Hmk.
  destruct (make_Grid_fresh grid_size (smax : T) Hpos Hov)
    as (g0 & Hmk0 & Hwf & Hsz & Hcells).
  rewrite Hmk in Hmk0. inversion Hmk0; subst g0. clear Hmk0.
  assert (Hfresh : holds_seeds [] multiplier g).
  { apply holds_seeds_fresh; auto.
    rewrite Hcells at 1. now rewrite Hcells, repeat_length. }
  assert (Hlens : Forall (fun seed : Index * T =>
                            length (fst seed) = length (size_ g))
                         (combine indices distances)).
  { rewrite Hsz. rewrite Forall_forall in Hlen |- *.
    intros [index d] Hin. apply Hlen. eapply in_combine_l; eauto. }
  destruct (SetBoundaryCondition_loop_classified multiplier pred
              (combine indices distances) [] g Hmax Hfresh Hlens)
    as (Hrefused & Haccepted).
  rewrite Hsz in Hrefused, Haccepted. cbn [app] in Hrefused, Haccepted.
  split; [|split; [|split]].
  - intros ->. reflexivity.
  - intros Hne Hl. unfold SetBoundaryCondition.
    destruct indices as [|index0 indices]; [congruence|].
    apply Nat.eqb_neq in Hl. now rewrite Hl.
  - intros Hne Hl n seed e Hn Hbefore Href. unfold SetBoundaryCondition.
    destruct indices as [|index0 indices]; [congruence|].
    rewrite (proj2 (Nat.eqb_eq _ _) Hl). cbn [negb].
    now rewrite (Hrefused n seed e Hn Hbefore Href).
  - intros Hne Hl Hall. unfold SetBoundaryCondition.
    destruct indices as [|index0 indices]; [congruence|].
    rewrite (proj2 (Nat.eqb_eq _ _) Hl). cbn [negb].
    destruct (Haccepted Hall) as (Hrun & _). rewrite Hrun.
    rewrite install_seeds_size, Hsz.
    destruct (Z.of_nat (length (index0 :: indices)) =? LinearSize grid_size);
      reflexivity.
Qed.
End BoundaryCondition.

(** C4 (as stated, refuted).  With the seeds (0, 0) and (5, 5) on a 3 x 3
    grid, "frozen index outside grid" is reported for the second seed after
    the first seed has been written: cell (0, 0) of the grid has changed. *)
Lemma SetBoundaryCondition_partial_write_counterexample :
  exists distance_grid',
    SetBoundaryCondition [[0; 0]; [5; 5]] [0%float; 1%float] 1%float
      unsigned_distance_predicate Examples.fresh3x3
    = (distance_grid', Err FrozenIndexOutsideGrid) /\
    Cell Examples.fresh3x3 [0; 0] = Ok smax /\
    Cell distance_grid' [0; 0] = Ok 0%float /\
    cells_ distance_grid' <> cells_ Examples.fresh3x3.
Proof.
  eexists. split; [vm_compute; reflexivity|].
  split; [reflexivity|]. split; [reflexivity|].
  vm_compute. intros Heq. discriminate Heq.
Qed.

(** C4 (amended).  Every invalid seed input to the unsigned driver is
    reported with its error by [SetBoundaryCondition], and the driver returns
    no buffer.  An empty seed list and a length mismatch are reported with
    the grid untouched.  The seeds are checked while they are written one at
    a time: the first seed that is refused (index outside the grid, distance
    rejected by the predicate, or index at which an earlier seed has left a
    value below the sentinel) is reported when the seeds before it have been
    written.  When no seed is refused and the seeds are as many as the cells
    of the grid, "whole grid frozen" is reported after all seeds have been
    written; otherwise the call succeeds. *)
Theorem SetBoundaryCondition_failure {T : Type} `{Scalar T}
        (eikonal_solver : Index -> Grid T -> Result T) (fuel : nat)
        (grid_size : Size) (frozen_indices : list Index)
        (frozen_distances : list T) (distance_grid : Grid T) :
  all_positive grid_size -> size_product grid_size < size_t_modulus ->
  frozen (smax : T) = false ->
  Forall (fun index => length index = length grid_size) frozen_indices ->
  make_Grid grid_size (repeat smax (Z.to_nat (LinearSize grid_size)))
  = Ok distance_grid ->
  (frozen_indices = [] ->
   SetBoundaryCondition frozen_indices frozen_distances (s_of_Z 1)
     unsigned_distance_predicate distance_grid
   = (distance_grid, Err EmptyFrozenIndices) /\
   UnsignedDistance eikonal_solver fuel grid_size frozen_indices
                    frozen_distances = Err EmptyFrozenIndices) /\
  (frozen_indices <> [] -> length frozen_indices <> length frozen_distances ->
   SetBoundaryCondition frozen_indices frozen_distances (s_of_Z 1)
     unsigned_distance_predicate distance_grid
   = (distance_grid, Err SizeMismatch) /\
   UnsignedDistance eikonal_solver fuel grid_size frozen_indices
                    frozen_distances = Err SizeMismatch) /\
  (frozen_indices <> [] -> length frozen_indices = length frozen_distances ->
   forall n seed e,
     nth_error (combine frozen_indices frozen_distances) n = Some seed ->
     (forall k s, (k < n)%nat ->
                  nth_error (combine frozen_indices frozen_distances) k
                  = Some s ->
                  seed_refusal grid_size (s_of_Z 1) unsigned_distance_predicate
                    (firstn k (combine frozen_indices frozen_distances)) s
                  = None) ->
     seed_refusal grid_size (s_of_Z 1) unsigned_distance_predicate
       (firstn n (combine frozen_indices frozen_distances)) seed = Some e ->
     SetBoundaryCondition frozen_indices frozen_distances (s_of_Z 1)
       unsigned_distance_predicate distance_grid
     = (install_seeds (firstn n (combine frozen_indices frozen_distances))
                      (s_of_Z 1) distance_grid, Err e) /\
     UnsignedDistance eikonal_solver fuel grid_size frozen_indices
                      frozen_distances = Err e) /\
  (frozen_indices <> [] -> length frozen_indices = length frozen_distances ->
   (forall k s, nth_error (combine frozen_indices frozen_distances) k
                = Some s ->
                seed_refusal grid_size (s_of_Z 1) unsigned_distance_predicate
                  (firstn k (combine frozen_indices frozen_distances)) s
                = None) ->
   SetBoundaryCondition frozen_indices frozen_distances (s_of_Z 1)
     unsigned_distance_predicate distance_grid
   = (install_seeds (combine frozen_indices frozen_distances) (s_of_Z 1)
                    distance_grid,
      if Z.of_nat (length frozen_indices) =? LinearSize grid_size
      then Err WholeGridFrozen else Ok tt) /\
   (Z.of_nat (length frozen_indices) = LinearSize grid_size ->
    UnsignedDistance eikonal_solver fuel grid_size frozen_indices
                     frozen_distances = Err WholeGridFrozen)).
Proof.
  intros Hpos Hov Hmax Hlen Hmk.
  destruct (SetBoundaryCondition_classified (s_of_Z 1)
              unsigned_distance_predicate grid_size frozen_indices
              frozen_distances distance_grid Hpos Hov Hmax Hlen Hmk)
    as (Hempty & Hmismatch & Hrefused & Haccepted).
  assert (Hdriver : forall g' e,
             SetBoundaryCondition frozen_indices frozen_distances (s_of_Z 1)
               unsigned_distance_predicate distance_grid = (g', Err e) ->
             UnsignedDistance eikonal_solver fuel grid_size frozen_indices
                              frozen_distances = Err e).
  { intros g' e Hs. unfold UnsignedDistance. rewrite Hmk. cbn [bind].
    now rewrite Hs. }
  split; [|split; [|split]].
  - intros He. split; [now apply Hempty|].
    apply (Hdriver distance_grid). now apply Hempty.
  - intros Hne Hl. split; [now apply Hmismatch|].
    apply (Hdriver distance_grid). now apply Hmismatch.
  - intros Hne Hl n seed e Hn Hbefore Href.
    split; [exact (Hrefused Hne Hl n seed e Hn Hbefore Href)|].
    eapply Hdriver. apply (Hrefused Hne Hl n seed e Hn Hbefore Href).
  - intros Hne Hl Hall. split; [exact (Haccepted Hne Hl Hall)|].
    intros Hwhole. eapply Hdriver. rewrite (Haccepted Hne Hl Hall).
    now rewrite (proj2 (Z.eqb_eq _ _) Hwhole).
Qed.

Lemma SetBoundaryCondition_failure_witness :
  SetBoundaryCondition [[0; 0]; [1; 1]; [0; 0]] [0%float; 2%float; 1%float]
    (s_of_Z 1) unsigned_distance_predicate Examples.fresh3x3
  = (install_seeds
       (firstn 2 (combine [[0; 0]; [1; 1]; [0; 0]]
                          [0%float; 2%float; 1%float]))
       (s_of_Z 1) Examples.fresh3x3,
     Err DuplicateFrozenIndex) /\
  UnsignedDistance Examples.solver_2d 100 [3; 3] [[0; 0]; [1; 1]; [0; 0]]
                   [0%float; 2%float; 1%float] = Err DuplicateFrozenIndex.
Proof.
  refine (proj1 (proj2 (proj2
            (SetBoundaryCondition_failure Examples.solver_2d 100 [3; 3]
               [[0; 0]; [1; 1]; [0; 0]] [0%float; 2%float; 1%float]
               Examples.fresh3x3 _ _ _ _ _)))
            _ _ 2%nat ([0; 0], 1%float) DuplicateFrozenIndex _ _ _).
  - repeat constructor.
  - reflexivity.
  - reflexivity.
  - repeat constructor.
  - reflexivity.
  - discriminate.
  - reflexivity.
  - reflexivity.
  - intros [|[|k]] s Hk Hs; [| |simpl in Hk; lia];
      simpl in Hs; inversion Hs; subst; reflexivity.
  - reflexivity.
Defined.


(** ** The first-order update in exact arithmetic *)

Section RealSolver.
Local Open Scope R_scope.
Import EikonalSpec.

Lemma Rltb_true x y : Rltb x y = true <-> x < y.
Proof. unfold Rltb. destruct (Rlt_dec x y); split; intros; auto; discriminate. Qed.

Lemma Rltb_false x y : Rltb x y = false <-> ~ x < y.
Proof.
  unfold Rltb. destruct (Rlt_dec x y); split; intros; auto;
    try discriminate; contradiction.
Qed.

Ltac prop_of_Rltb H :=
  first [apply Rltb_true in H | apply Rltb_false in H].

(** The inner loop of [SolveEikonal] finds the minimum frozen face value of
    the axis, or leaves the sentinel when there is none. *)
Lemma neighbor_min_minimum (g : Grid R) index i :
  WfGrid g -> length index = length (size_ g) ->
  neighbor_min kNeighborOffsets index i g smax
  = Ok (value_or_max (minimum (frozen_face_values g index i))) /\
  (forall m, minimum (frozen_face_values g index i) = Some m -> m < real_max).
Proof.
  intros Hwf Hlen.
  unfold kNeighborOffsets, frozen_face_values, face_neighbors.
  cbn [neighbor_min flat_map].
  assert (Hcell : forall off, Inside (add_at index i off) (size_ g) = true ->
                              exists v, Cell g (add_at index i off) = Ok v).
  { intros off Hin. apply Cell_inside_ok; auto.
    now rewrite add_at_length. }
  destruct (Inside (add_at index i (-1)) (size_ g)) eqn:E1;
    [destruct (Hcell _ E1) as (v1 & ->)|];
    (destruct (Inside (add_at index i 1) (size_ g)) eqn:E2;
     [destruct (Hcell _ E2) as (v2 & ->)|]);
    cbn [bind app]; unfold frozen; cbn [sltb smax real_Scalar].
  - destruct (Rltb v1 real_max) eqn:F1; destruct (Rltb v2 real_max) eqn:F2;
      cbn [app minimum fold_left value_or_max];
      prop_of_Rltb F1; prop_of_Rltb F2.
    + destruct (Rltb v2 v1) eqn:F3; prop_of_Rltb F3;
        unfold Rmin; destruct (Rle_dec v1 v2);
        (split; [f_equal; lra | intros m Hm; inversion Hm; subst; lra]).
    + destruct (Rltb v2 v1) eqn:F3; prop_of_Rltb F3.
      * exfalso; lra.
      * split; [reflexivity | intros m Hm; inversion Hm; subst; lra].
    + split; [reflexivity | intros m Hm; inversion Hm; subst; lra].
    + split; [reflexivity | discriminate].
  - destruct (Rltb v1 real_max) eqn:F1;
      cbn [app minimum fold_left value_or_max];
      prop_of_Rltb F1;
      (split; [reflexivity | intros m Hm; inversion Hm; subst; lra]).
  - destruct (Rltb v2 real_max) eqn:F2;
      cbn [app minimum fold_left value_or_max];
      prop_of_Rltb F2;
      (split; [reflexivity | intros m Hm; inversion Hm; subst; lra]).
  - cbn. split; [reflexivity | discriminate].
Qed.

Lemma first_order_update_add_axis (q : R * R * R) m h :
  0 < h -> first_order_update q m h = add_axis q (Some m) h.
Proof.
  intros Hh. destruct q as [[q0 q1] q2].
  unfold first_order_update, add_axis, InverseSquared, Squared.
  cbn [sadd smul sdiv s_of_Z real_Scalar].
  f_equal; [f_equal|]; field; lra.
Qed.

(** The outer loop of [SolveEikonal] computes the coefficients of the
    specification. *)
Lemma SolveEikonal_axes_quadratic (g : Grid R) index :
  WfGrid g -> length index = length (size_ g) ->
  forall axes q,
    Forall (fun axis : nat * R => 0 < snd axis) axes ->
    SolveEikonal_axes axes index g q
    = Ok (fold_left
            (fun a (axis : nat * R) =>
               add_axis a (minimum (frozen_face_values g index (fst axis)))
                        (snd axis))
            axes q).
Proof.
  intros Hwf Hlen axes.
  induction axes as [|[i h] axes IH]; intros q Hpos; [reflexivity|].
  inversion Hpos as [|? ? Hh Hpos']; subst. simpl in Hh.
  cbn [SolveEikonal_axes fold_left fst snd].
  destruct (neighbor_min_minimum g index i Hwf Hlen) as (-> & Hlt).
  cbn [bind]. rewrite IH by assumption. f_equal. f_equal.
  destruct (minimum (frozen_face_values g index i)) as [m|];
    cbn [value_or_max sltb smax real_Scalar].
  - assert (Hm : Rltb m real_max = true) by (apply Rltb_true; auto).
    rewrite Hm. now apply first_order_update_add_axis.
  - assert (Hm : Rltb real_max real_max = false) by (apply Rltb_false; lra).
    rewrite Hm. reflexivity.
Qed.

Lemma axes_of_positive index (grid_spacing : list R) :
  Forall (fun h => 0 < h) grid_spacing ->
  Forall (fun axis : nat * R => 0 < snd axis) (axes_of index grid_spacing).
Proof.
  intros Hpos. unfold axes_of. generalize (seq 0 (length index)).
  induction Hpos as [|h hs Hh Hpos IH]; intros [|i l]; simpl; constructor; auto.
Qed.

(** The coefficient a2 is a sum of the terms 1/h^2 of the axes that have a
    frozen face neighbour. *)
Lemma quadratic_a2 (g : Grid R) index axes : forall a,
  Forall (fun axis : nat * R => 0 < snd axis) axes ->
  let a' := fold_left
              (fun a (axis : nat * R) =>
                 add_axis a (minimum (frozen_face_values g index (fst axis)))
                          (snd axis))
              axes a in
  snd a <= snd a' /\
  ((exists axis, In axis axes /\ frozen_face_values g index (fst axis) <> []) ->
   snd a < snd a').
Proof.
  induction axes as [|[i h] axes IH]; intros a Hpos; cbn zeta.
  - simpl. split; [lra|]. intros (axis & [] & _).
  - inversion Hpos as [|? ? Hh Hpos']; subst. simpl in Hh.
    cbn [fold_left fst snd].
    specialize (IH (add_axis a (minimum (frozen_face_values g index i)) h) Hpos').
    cbn zeta in IH. destruct IH as (Hle & Hlt).
    assert (Hinv : 0 < 1 / h ^ 2).
    { apply Rdiv_lt_0_compat; [lra|]. apply pow_lt. exact Hh. }
    assert (Hstep : snd a <= snd (add_axis a (minimum (frozen_face_values g index i)) h)
                    /\ (frozen_face_values g index i <> [] ->
                        snd a < snd (add_axis a (minimum (frozen_face_values g index i)) h))).
    { destruct (frozen_face_values g index i) as [|v vs]; cbn [minimum add_axis].
      - split; [lra|]. intros Hne; contradiction Hne; reflexivity.
      - destruct a as [[a0 a1] a2]. cbn [snd]. split; intros; lra. }
    destruct Hstep as (Hs1 & Hs2). split; [lra|].
    intros (axis & [Heq|Hin] & Hne).
    + subst axis. cbn [fst] in Hne. specialize (Hs2 Hne). lra.
    + assert (Hex : exists axis, In axis axes /\
                                 frozen_face_values g index (fst axis) <> [])
        by eauto.
      specialize (Hlt Hex). lra.
Qed.

(** In exact arithmetic [SolveEikonalQuadratic] returns the larger root when
    the parabola opens upwards, the discriminant is not negative and that root
    is not negative. *)
Lemma SolveEikonalQuadratic_real (a0 a1 a2 : R) :
  0 < a2 ->
  match SolveEikonalQuadratic (a0, a1, a2) with
  | Ok u => 0 <= u /\ larger_root (a0, a1, a2) u
  | Err e =>
      (e = NegativeDiscriminant /\ discriminant (a0, a1, a2) < 0) \/
      (e = NegativeDistance /\ 0 <= discriminant (a0, a1, a2) /\
       forall v, is_root (a0, a1, a2) v -> v < 0)
  end.
Proof.
  intros Ha2. unfold SolveEikonalQuadratic, discriminant, larger_root.
  cbn [sadd ssub smul sdiv sopp ssqrt sltb s_of_Z real_Scalar].
  set (d := a1 * a1 - 4 * a2 * a0).
  assert (Hd : a1 ^ 2 - 4 * a2 * a0 = d) by (unfold d; ring).
  rewrite Hd.
  destruct (Rltb d 0) eqn:Ed; prop_of_Rltb Ed.
  { left. auto. }
  assert (Hd0 : 0 <= d) by lra.
  pose proof (sqrt_pos d) as Hs0.
  pose proof (sqrt_sqrt d Hd0) as Hss.
  set (sd := sqrt d) in *.
  set (r := (- a1 + sd) / (2 * a2)).
  assert (Hr : 2 * a2 * r = - a1 + sd) by (unfold r; field; lra).
  assert (Hroot : a2 * r ^ 2 + a1 * r + a0 = 0).
  { assert (H4 : 4 * a2 * (a2 * r ^ 2 + a1 * r + a0) = 0).
    { replace (4 * a2 * (a2 * r ^ 2 + a1 * r + a0))
        with ((2 * a2 * r) ^ 2 + 2 * a1 * (2 * a2 * r) + 4 * a2 * a0) by ring.
      rewrite Hr. unfold d in Hss. nra. }
    nra. }
  assert (Hmax : forall v, a2 * v ^ 2 + a1 * v + a0 = 0 -> v <= r).
  { intros v Hv.
    assert (Hsq : (2 * a2 * v + a1) ^ 2 = sd * sd).
    { rewrite Hss. unfold d. nra. }
    assert (Hle : 2 * a2 * v + a1 <= sd) by nra.
    nra. }
  destruct (Rltb r 0) eqn:Er; prop_of_Rltb Er.
  - right. split; [reflexivity|]. split; [lra|].
    intros v Hv. specialize (Hmax v Hv). lra.
  - split; [lra|]. split; assumption.
Qed.
(** [SolveEikonal] accumulates the coefficients of the specification. *)
Lemma SolveEikonal_coefficients_real (g : Grid R) index speed grid_spacing :
  WfGrid g -> length index = length (size_ g) ->
  0 < speed -> Forall (fun h => 0 < h) grid_spacing ->
  SolveEikonal_coefficients index g speed grid_spacing
  = Ok (quadratic g index speed grid_spacing).
Proof.
  intros Hwf Hlen Hspeed Hpos.
  unfold SolveEikonal_coefficients.
  rewrite SolveEikonal_axes_quadratic
    by (try apply axes_of_positive; assumption).
  unfold quadratic, initial_quadratic, Squared.
  cbn [sdiv smul s_of_Z real_Scalar].
  do 2 f_equal. f_equal. f_equal. field. lra.
Qed.
End RealSolver.

Section RealSolverExamples.
Local Open Scope R_scope.
Import EikonalSpec.

Lemma real_max_large : 1000 < real_max.
Proof. unfold real_max, real_max_Z. lra. Qed.

Lemma WfGrid_real_corner_neighbors a b :
  WfGrid (Examples.real_corner_neighbors a b).
Proof.
  constructor; try reflexivity. repeat constructor.
Qed.

Lemma frozen_small (v : R) : v < 1000 -> frozen v = true.
Proof.
  intros Hv. unfold frozen. cbn [sltb smax real_Scalar].
  apply Rltb_true. pose proof real_max_large. lra.
Qed.

Lemma frozen_real_max : frozen real_max = false.
Proof.
  unfold frozen. cbn [sltb smax real_Scalar]. apply Rltb_false. lra.
Qed.

(** The coefficients at the corner of [Examples.real_corner_neighbors a b]
    with unit speed and spacing. *)
Lemma quadratic_corner (a b : R) :
  a < 1000 -> b < 1000 ->
  quadratic (Examples.real_corner_neighbors a b) [0%Z; 0%Z] 1 [1; 1]
  = (- 1 / 1 ^ 2 + a ^ 2 / 1 ^ 2 + b ^ 2 / 1 ^ 2,
     0 + - 2 * a / 1 ^ 2 + - 2 * b / 1 ^ 2,
     0 + 1 / 1 ^ 2 + 1 / 1 ^ 2).
Proof.
  intros Ha Hb. unfold quadratic, axes_of, frozen_face_values, face_neighbors.
  cbv - [frozen real_Scalar Rmin pow Rdiv Rplus Rmult Ropp Rminus IZR real_max].
  rewrite (frozen_small a Ha), (frozen_small b Hb).
  reflexivity.
Qed.
End RealSolverExamples.





(** ** The odometer of [IndexIterator] over {0, 1, 2}^N *)

Section Odometer.

Lemma odometer_value_bounds index :
  digits index -> 0 <= odometer_value index < 3 ^ Z.of_nat (length index).
Proof.
  induction 1 as [|d index Hd _ IH]; simpl odometer_value.
  - simpl. lia.
  - change (length (d :: index)) with (S (length index)).
    rewrite Nat2Z.inj_succ, Z.pow_succ_r by lia.
    assert (0 < 3 ^ Z.of_nat (length index)) by (apply Z.pow_pos_nonneg; lia).
    nia.
Qed.

Lemma odometer_value_inj index : forall index',
  digits index -> digits index' -> length index = length index' ->
  odometer_value index = odometer_value index' -> index = index'.
Proof.
  induction index as [|d index IH]; intros [|d' index'] Hd Hd' Hlen Hv;
    simpl in Hlen; try discriminate; auto.
  inversion Hd as [|? ? Hd0 Hds]; subst.
  inversion Hd' as [|? ? Hd0' Hds']; subst.
  simpl in Hv. injection Hlen as Hlen. rewrite <- Hlen in Hv.
  pose proof (odometer_value_bounds index Hds) as Hb.
  pose proof (odometer_value_bounds index' Hds') as Hb'.
  rewrite <- Hlen in Hb'.
  assert (d = d') by nia. subst d'.
  f_equal. apply IH; auto. lia.
Qed.

Lemma odometer_value_zeros n : odometer_value (repeat 0 n) = 0.
Proof. induction n as [|n IH]; simpl; auto. Qed.

Lemma digits_zeros n : digits (repeat 0 n).
Proof. apply Forall_forall. intros d Hd. apply repeat_spec in Hd. lia. Qed.

(** [Next] adds one to the value, and reports the wrap-around. *)
Lemma IndexIterator_Next_spec index :
  digits index ->
  let n := length index in
  let '(advanced, index') := IndexIterator_Next (repeat 3 n) index in
  length index' = n /\ digits index' /\
  if advanced
  then odometer_value index' = odometer_value index + 1
  else odometer_value index = 3 ^ Z.of_nat n - 1 /\ index' = repeat 0 n.
Proof.
  induction 1 as [|d index Hd Hds IH]; cbn zeta.
  - simpl. repeat split; auto. constructor.
  - cbn zeta in IH. cbn [length repeat IndexIterator_Next].
    destruct (IndexIterator_Next (repeat 3 (length index)) index)
      as [advanced index'].
    destruct IH as (Hlen & Hdig & Hadv).
    assert (Hp : 0 < 3 ^ Z.of_nat (length index))
      by (apply Z.pow_pos_nonneg; lia).
    destruct advanced.
    + simpl. rewrite Hlen. repeat split; auto; [constructor; auto | ].
      rewrite Hadv. ring.
    + destruct Hadv as (Hv & ->).
      unfold wrap64, size_t_modulus.
      rewrite (Z.mod_small d) by lia. rewrite (Z.mod_small (3 - 1)) by lia.
      destruct (Z.ltb_spec d (3 - 1)).
      * simpl. rewrite repeat_length, odometer_value_zeros.
        repeat split; auto; [constructor; [lia | apply digits_zeros] | ].
        rewrite Hv. ring.
      * assert (d = 2) by lia. subst d.
        simpl length. rewrite repeat_length.
        repeat split; auto.
        -- constructor; [lia | apply digits_zeros].
        -- cbn [odometer_value]. rewrite Hv.
           rewrite Nat2Z.inj_succ, Z.pow_succ_r by lia. lia.
Qed.
End Odometer.

(** ** The vertex offsets are the shell {-1, 0, 1}^N without the origin *)

Section VertexOffsets.

Lemma offset_of_inj index index' :
  offset_of index = offset_of index' -> index = index'.
Proof.
  revert index'. induction index as [|d index IH]; intros [|d' index'] Heq;
    simpl in Heq; try discriminate; auto.
  inversion Heq. f_equal; [lia | auto].
Qed.

Lemma static_pow_exact n :
  3 ^ Z.of_nat n < size_t_modulus -> static_pow 3 n = 3 ^ Z.of_nat n.
Proof.
  induction n as [|n IH]; intros Hlt; [reflexivity|].
  rewrite Nat2Z.inj_succ, Z.pow_succ_r in * by lia.
  assert (0 < 3 ^ Z.of_nat n) by (apply Z.pow_pos_nonneg; lia).
  cbn [static_pow]. rewrite IH by lia. apply wrap64_small. lia.
Qed.

Variable N : nat.

Lemma loop_step fuel index :
  VertexNeighborOffsets_loop (S fuel) (repeat 3 N) index
  = (if is_origin (offset_of index) then [] else [offset_of index])
    ++ (let '(valid_index, index') := IndexIterator_Next (repeat 3 N) index in
        if valid_index
        then VertexNeighborOffsets_loop fuel (repeat 3 N) index'
        else []).
Proof.
  cbn [VertexNeighborOffsets_loop]. fold (offset_of index).
  fold (is_origin (offset_of index)).
  destruct (IndexIterator_Next (repeat 3 N) index) as [[|] index'];
    [reflexivity | now rewrite app_nil_r].
Qed.

Lemma loop_sound fuel : forall index o,
  digits index -> length index = N ->
  In o (VertexNeighborOffsets_loop fuel (repeat 3 N) index) ->
  exists idx, digits idx /\ length idx = N /\
              odometer_value index <= odometer_value idx /\
              o = offset_of idx /\ is_origin o = false.
Proof.
  induction fuel as [|fuel IH]; intros index o Hd Hlen Hin; [contradiction|].
  rewrite loop_step in Hin. apply in_app_or in Hin.
  destruct Hin as [Hin|Hin].
  - destruct (is_origin (offset_of index)) eqn:E; [contradiction|].
    destruct Hin as [<-|[]]. exists index. repeat split; auto. lia.
  - pose proof (IndexIterator_Next_spec index Hd) as Hn. cbn zeta in Hn.
    rewrite Hlen in Hn.
    destruct (IndexIterator_Next (repeat 3 N) index) as [[|] index'];
      [|contradiction].
    destruct Hn as (Hlen' & Hd' & Hv).
    destruct (IH _ _ Hd' Hlen' Hin) as (idx & H1 & H2 & H3 & H4 & H5).
    exists idx. repeat split; auto. lia.
Qed.

Lemma loop_complete fuel : forall index idx,
  digits index -> length index = N ->
  3 ^ Z.of_nat N <= odometer_value index + Z.of_nat fuel ->
  digits idx -> length idx = N ->
  odometer_value index <= odometer_value idx ->
  is_origin (offset_of idx) = false ->
  In (offset_of idx) (VertexNeighborOffsets_loop fuel (repeat 3 N) index).
Proof.
  induction fuel as [|fuel IH]; intros index idx Hd Hlen Hfuel Hd' Hlen' Hle Hnz.
  - pose proof (odometer_value_bounds index Hd). rewrite Hlen in *. lia.
  - rewrite loop_step. apply in_or_app.
    destruct (Z.eq_dec (odometer_value index) (odometer_value idx)) as [Heq|Hne].
    + left. assert (index = idx)
        by (apply odometer_value_inj; auto; congruence).
      subst idx. rewrite Hnz. left. reflexivity.
    + right.
      pose proof (IndexIterator_Next_spec index Hd) as Hn. cbn zeta in Hn.
      rewrite Hlen in Hn.
      pose proof (odometer_value_bounds idx Hd') as Hb. rewrite Hlen' in Hb.
      destruct (IndexIterator_Next (repeat 3 N) index) as [[|] index'].
      * destruct Hn as (Hl1 & Hd1 & Hv). apply IH; auto; lia.
      * destruct Hn as (_ & _ & Hv & _). lia.
Qed.

Lemma loop_NoDup fuel : forall index,
  digits index -> length index = N ->
  NoDup (VertexNeighborOffsets_loop fuel (repeat 3 N) index).
Proof.
  induction fuel as [|fuel IH]; intros index Hd Hlen; [constructor|].
  rewrite loop_step.
  pose proof (IndexIterator_Next_spec index Hd) as Hn. cbn zeta in Hn.
  rewrite Hlen in Hn.
  destruct (IndexIterator_Next (repeat 3 N) index) as [[|] index'].
  - destruct Hn as (Hl1 & Hd1 & Hv).
    destruct (is_origin (offset_of index)); simpl; [apply IH; auto|].
    constructor; [|apply IH; auto].
    intros Hin.
    destruct (loop_sound _ _ _ Hd1 Hl1 Hin) as (idx & _ & _ & Hle & Heq & _).
    apply offset_of_inj in Heq. subst idx. lia.
  - destruct (is_origin (offset_of index)); simpl; repeat constructor.
    intros [].
Qed.

Lemma offset_of_shell idx :
  digits idx -> length idx = N -> is_origin (offset_of idx) = false ->
  shell_offset N (offset_of idx).
Proof.
  intros Hd Hlen Hnz. unfold shell_offset, offset_of. rewrite length_map.
  repeat split; auto. apply Forall_map.
  eapply Forall_impl; [|exact Hd]. simpl. intros; lia.
Qed.

(** [VertexNeighborOffsets] lists every offset of the shell once. *)
Lemma VertexNeighborOffsets_spec :
  3 ^ Z.of_nat N < size_t_modulus ->
  NoDup (VertexNeighborOffsets N) /\
  forall o, In o (VertexNeighborOffsets N) <-> shell_offset N o.
Proof.
  intros Hlt. unfold VertexNeighborOffsets. rewrite (static_pow_exact N Hlt).
  pose proof (digits_zeros N) as Hz. pose proof (repeat_length 0 N) as Hl.
  assert (Hp : 0 < 3 ^ Z.of_nat N) by (apply Z.pow_pos_nonneg; lia).
  split; [apply loop_NoDup; auto|].
  intros o. split.
  - intros Hin.
    destruct (loop_sound _ _ _ Hz Hl Hin) as (idx & Hd & Hlen & _ & -> & Hnz).
    now apply offset_of_shell.
  - intros (Hlen & Hrange & Hnz).
    assert (Ho : o = offset_of (map (fun d => d + 1) o)).
    { unfold offset_of. rewrite map_map. rewrite <- (map_id o) at 1.
      apply map_ext. intros; lia. }
    rewrite Ho. apply loop_complete; auto.
    + rewrite odometer_value_zeros, Z2Nat.id; lia.
    + apply Forall_map. eapply Forall_impl; [|exact Hrange]. simpl; intros; lia.
    + now rewrite length_map.
    + rewrite odometer_value_zeros.
      apply odometer_value_bounds.
      apply Forall_map. eapply Forall_impl; [|exact Hrange]. simpl; intros; lia.
    + now rewrite <- Ho.
Qed.
End VertexOffsets.


(** ** The flood fill of [ConnectedComponents] *)

Section FloodFill.
Variable size : Size.
Variable offsets : list Index.
Variable D : list Index.

Lemma add_index_length x : forall o, length (add_index x o) = length x.
Proof.
  induction x as [|a x IH]; intros [|b o]; simpl; auto.
Qed.

Lemma wf_index_add_index x o :
  wf_index size x -> Inside (add_index x o) size = true ->
  wf_index size (add_index x o).
Proof.
  intros (Hlen & _) Hin. split; auto. now rewrite add_index_length.
Qed.

Lemma foreground_count_update (cells : list LabelCell.t) : forall k,
  nth_error cells k = Some LabelCell.kForeground ->
  S (foreground_count (update_nth k LabelCell.kLabelled cells))
  = foreground_count cells.
Proof.
  unfold foreground_count.
  induction cells as [|a cells IH]; intros [|k] Hn; simpl in *;
    try discriminate.
  - inversion Hn; subst. reflexivity.
  - destruct (LabelCell.eqb a LabelCell.kForeground); simpl;
      erewrite <- IH; eauto.
Qed.

Lemma LabelCell_eqb_eq a b : LabelCell.eqb a b = true <-> a = b.
Proof. destruct a, b; simpl; split; intros; congruence. Qed.

(** The loop over the offsets labels the foreground neighbours of [top],
    appends them to the component and pushes them on the stack. *)
Lemma flood_offsets_spec os : forall top lg C stack,
  WfGrid lg -> size_ lg = size -> wf_index size top ->
  exists lg' new,
    flood_offsets os top lg C stack = Ok (lg', C ++ new, rev new ++ stack) /\
    WfGrid lg' /\ size_ lg' = size /\
    (forall y, In y new ->
               wf_index size y /\ Cell lg y = Ok LabelCell.kForeground /\
               Cell lg' y = Ok LabelCell.kLabelled) /\
    (forall y, wf_index size y -> ~ In y new -> Cell lg' y = Cell lg y) /\
    (forall o, In o os -> wf_index size (add_index top o) ->
               Cell lg' (add_index top o) <> Ok LabelCell.kForeground) /\
    (foreground_count (cells_ lg') + length new
     = foreground_count (cells_ lg))%nat.
Proof.
  induction os as [|o os IH]; intros top lg C stack Hwf Hsz Htop.
  - exists lg, []. simpl. rewrite app_nil_r.
    split; [reflexivity|]. split; [assumption|]. split; [assumption|].
    split; [intros y []|]. split; [reflexivity|].
    split; [intros o []|]. lia.
  - cbn [flood_offsets]. rewrite Hsz.
    destruct (Inside (add_index top o) size) eqn:Hin.
    + assert (Hn : wf_index size (add_index top o))
        by (apply wf_index_add_index; auto).
      rewrite <- Hsz in Hn.
      destruct (Cell_wf lg _ Hwf Hn) as (c & Hc). rewrite Hc. cbn [bind].
      destruct (LabelCell.eqb c LabelCell.kForeground) eqn:Ec.
      * apply LabelCell_eqb_eq in Ec. subst c.
        destruct (SetCell_wf lg _ LabelCell.kLabelled Hwf Hn) as (lg1 & Hs).
        rewrite Hs. cbn [bind].
        pose proof (SetCell_WfGrid _ _ _ _ Hs Hwf) as Hwf1.
        pose proof (SetCell_size _ _ _ _ Hs) as Hsz1.
        destruct (IH top lg1 (C ++ [add_index top o])
                     (add_index top o :: stack) Hwf1 ltac:(congruence) Htop)
          as (lg' & new & Hf & Hwf' & Hsz' & Hnew & Hold & Hos & Hcount).
        exists lg', (add_index top o :: new).
        rewrite Hf. split.
        { f_equal. f_equal; [f_equal; now rewrite <- app_assoc|].
          simpl. now rewrite <- app_assoc. }
        split; auto. split; auto.
        assert (Hsame : Cell lg1 (add_index top o) = Ok LabelCell.kLabelled)
          by (eapply Cell_SetCell_same; eauto).
        assert (Hother : forall y, wf_index size y -> y <> add_index top o ->
                                   Cell lg1 y = Cell lg y).
        { intros y Hy Hne. eapply Cell_SetCell_other; eauto.
          now rewrite Hsz. }
        assert (Hkeep : forall y, wf_index size y ->
                          Cell lg1 y = Ok LabelCell.kLabelled ->
                          Cell lg' y = Ok LabelCell.kLabelled).
        { intros y Hy Hl.
          destruct (in_dec (list_eq_dec Z.eq_dec) y new) as [Hi|Hni].
          - now apply Hnew.
          - rewrite (Hold y Hy Hni). exact Hl. }
        rewrite Hsz in Hn.
        split; [|split; [|split]].
        -- intros y [<-|Hy].
           ++ split; auto.
           ++ destruct (Hnew y Hy) as (Hy1 & Hy2 & Hy3).
              split; auto. split; auto.
              rewrite <- Hy2. symmetry. apply Hother; auto.
              intros ->. rewrite Hsame in Hy2. discriminate.
        -- intros y Hy Hni. rewrite Hold; auto.
           ++ apply Hother; auto. intros ->. apply Hni. left. reflexivity.
           ++ intros Hi. apply Hni. right. exact Hi.
        -- intros o' [<-|Ho'] Hwo.
           ++ rewrite (Hkeep _ Hn Hsame). discriminate.
           ++ now apply Hos.
        -- destruct (SetCell_inv _ _ _ _ Hs) as (_ & _ & _ & Hcells).
           destruct (Cell_inv _ _ _ Hc) as (_ & Hnth).
           rewrite Hcells in Hcount.
           rewrite <- (foreground_count_update (cells_ lg) _ Hnth).
           simpl. lia.
      * destruct (IH top lg C stack Hwf Hsz Htop)
          as (lg' & new & Hf & Hwf' & Hsz' & Hnew & Hold & Hos & Hcount).
        exists lg', new. rewrite Hf.
        split; [reflexivity|]. split; [assumption|]. split; [assumption|].
        split; [exact Hnew|]. split; [exact Hold|]. split; [|exact Hcount].
        -- intros o' [<-|Ho'] Hwo; [|now apply Hos].
           rewrite Hsz in Hn.
           destruct (in_dec (list_eq_dec Z.eq_dec) (add_index top o) new)
             as [Hi|Hni].
           ++ destruct (Hnew _ Hi) as (_ & _ & ->). discriminate.
           ++ rewrite (Hold _ Hn Hni), Hc. intros Heq. inversion Heq; subst.
              discriminate.
    + destruct (IH top lg C stack Hwf Hsz Htop)
        as (lg' & new & Hf & Hwf' & Hsz' & Hnew & Hold & Hos & Hcount).
      exists lg', new. rewrite Hf.
      split; [reflexivity|]. split; [assumption|]. split; [assumption|].
      split; [exact Hnew|]. split; [exact Hold|]. split; [|exact Hcount].
      intros o' [<-|Ho'] Hwo; [|now apply Hos].
      destruct Hwo as (_ & Hwo). congruence.
Qed.
(** With one unit of fuel per stack entry and per foreground cell, the flood
    fill runs until the stack is empty and keeps its invariant. *)
Lemma flood_fill_spec fuel : forall lg C stack,
  flood_inv size offsets D lg C stack ->
  (foreground_count (cells_ lg) + length stack <= fuel)%nat ->
  exists lg' C',
    flood_fill fuel offsets lg C stack = Ok (lg', C') /\
    flood_inv size offsets D lg' C' [] /\
    (forall x, In x C -> In x C') /\
    (foreground_count (cells_ lg') + length C'
     = foreground_count (cells_ lg) + length C)%nat.
Proof.
  induction fuel as [|fuel IH]; intros lg C stack Hinv Hfuel.
  - destruct stack as [|top rest]; simpl in Hfuel; [|lia].
    exists lg, C. simpl. auto.
  - destruct stack as [|top rest].
    { exists lg, C. simpl. auto. }
    destruct Hinv as [Hwf Hsz Hstack Hlab Hcomp Hdone Hdom].
    assert (Htop : wf_index size top)
      by (apply Hlab, Hstack; left; reflexivity).
    destruct (flood_offsets_spec offsets top lg C rest Hwf Hsz Htop)
      as (lg1 & new & Hf & Hwf1 & Hsz1 & Hnew & Hold & Hos & Hcount).
    cbn [flood_fill]. rewrite Hf. cbn [bind].
    assert (Hcell : forall y, wf_index size y ->
                      Cell lg1 y = Ok LabelCell.kLabelled \/
                      Cell lg1 y = Cell lg y).
    { intros y Hy.
      destruct (in_dec (list_eq_dec Z.eq_dec) y new) as [Hi|Hni].
      - left. now apply Hnew.
      - right. now apply Hold. }
    assert (Hinv1 : flood_inv size offsets D lg1 (C ++ new) (rev new ++ rest)).
    { constructor; auto.
      - intros x Hx. apply in_or_app. apply in_app_or in Hx.
        destruct Hx as [Hx|Hx].
        + right. rewrite <- in_rev in Hx. exact Hx.
        + left. apply Hstack. right. exact Hx.
      - intros x Hx. apply in_app_or in Hx. destruct Hx as [Hx|Hx].
        + destruct (Hlab x Hx) as (Hwx & Hcx). split; auto.
          destruct (Hcell x Hwx) as [Hl|He]; [exact Hl | congruence].
        + destruct (Hnew x Hx) as (Hwx & _ & Hcx). auto.
      - intros y Hy Hcy. apply in_or_app.
        destruct (in_dec (list_eq_dec Z.eq_dec) y new) as [Hi|Hni]; auto.
        left. apply Hcomp; auto. rewrite <- (Hold y Hy Hni). exact Hcy.
      - intros x Hx Hnx o Ho Hwo.
        assert (Hxnew : ~ In x new).
        { intros Hi. apply Hnx. apply in_or_app. left. rewrite <- in_rev. exact Hi. }
        assert (Hxrest : ~ In x rest).
        { intros Hi. apply Hnx. apply in_or_app. right. exact Hi. }
        apply in_app_or in Hx. destruct Hx as [Hx|Hx]; [|contradiction].
        destruct (list_eq_dec Z.eq_dec x top) as [->|Hne].
        + now apply Hos.
        + assert (Hns : ~ In x (top :: rest)).
          { intros [Heq|Hi]; [congruence | contradiction]. }
          pose proof (Hdone x Hx Hns o Ho Hwo) as Hd.
          destruct (Hcell _ Hwo) as [Hl|He]; [rewrite Hl; discriminate|].
          now rewrite He.
      - intros y Hy. rewrite (Hdom y Hy).
        destruct (in_dec (list_eq_dec Z.eq_dec) y new) as [Hi|Hni].
        + destruct (Hnew y Hi) as (_ & Hfg & Hl). rewrite Hfg, Hl.
          split; intros _; discriminate.
        + now rewrite (Hold y Hy Hni). }
    assert (Hfuel1 : (foreground_count (cells_ lg1)
                      + length (rev new ++ rest) <= fuel)%nat).
    { rewrite length_app, length_rev. simpl in Hfuel. lia. }
    destruct (IH _ _ _ Hinv1 Hfuel1) as (lg' & C' & Hff & Hinv' & Hsub & Hcnt).
    exists lg', C'. split; auto. split; auto. split.
    + intros x Hx. apply Hsub. apply in_or_app. auto.
    + rewrite Hcnt, length_app. lia.
Qed.

(** When the flood fill has ended, the component is closed under the
    offsets within the foreground. *)
Lemma flood_inv_closed lg C :
  flood_inv size offsets D lg C [] ->
  (forall x, In x C -> wf_index size x /\ In x D) /\
  (forall x o, In x C -> In o offsets -> wf_index size (add_index x o) ->
               In (add_index x o) D -> In (add_index x o) C).
Proof.
  intros [Hwf Hsz Hstack Hlab Hcomp Hdone Hdom]. split.
  - intros x Hx. destruct (Hlab x Hx) as (Hwx & Hcx). split; auto.
    apply (Hdom x Hwx). rewrite Hcx. discriminate.
  - intros x o Hx Ho Hwo HD.
    apply Hcomp; auto.
    pose proof (Hdone x Hx (fun H => H) o Ho Hwo) as Hnf.
    apply (Hdom _ Hwo) in HD.
    rewrite <- Hsz in Hwo. destruct (Cell_wf lg _ Hwf Hwo) as (c & Hc).
    rewrite Hc in *. destruct c; congruence.
Qed.
End FloodFill.


(** ** Writing one value to a list of cells *)

Section SetCells.
Context {C : Type}.

Lemma set_cells_spec idxs (v : C) : forall g,
  WfGrid g -> (forall x, In x idxs -> wf_index (size_ g) x) ->
  exists g',
    set_cells idxs v g = Ok g' /\ WfGrid g' /\ size_ g' = size_ g /\
    (forall y, In y idxs -> Cell g' y = Ok v) /\
    (forall y, wf_index (size_ g) y -> ~ In y idxs -> Cell g' y = Cell g y).
Proof.
  induction idxs as [|x idxs IH]; intros g Hwf Hidx.
  - exists g. simpl. split; [reflexivity|]. split; [assumption|].
    split; [reflexivity|]. split; [intros y []|reflexivity].
  - assert (Hx : wf_index (size_ g) x) by (apply Hidx; left; reflexivity).
    destruct (SetCell_wf g x v Hwf Hx) as (g1 & Hs).
    pose proof (SetCell_WfGrid _ _ _ _ Hs Hwf) as Hwf1.
    pose proof (SetCell_size _ _ _ _ Hs) as Hsz1.
    destruct (IH g1 Hwf1) as (g' & Hset & Hwf' & Hsz' & Hin & Hout).
    { intros y Hy. rewrite Hsz1. apply Hidx. right. exact Hy. }
    exists g'. cbn [set_cells]. rewrite Hs. cbn [bind].
    split; [exact Hset|]. split; [exact Hwf'|].
    split; [congruence|]. split.
    + intros y [<-|Hy]; [|now apply Hin].
      destruct (in_dec (list_eq_dec Z.eq_dec) x idxs) as [Hi|Hni];
        [now apply Hin|].
      rewrite Hout; [|now rewrite Hsz1|exact Hni].
      eapply Cell_SetCell_same; eauto.
    + intros y Hy Hni.
      rewrite Hout; [|now rewrite Hsz1|].
      * eapply Cell_SetCell_other; eauto.
        intros ->. apply Hni. left. reflexivity.
      * intros Hi. apply Hni. right. exact Hi.
Qed.
End SetCells.

(** ** Connected components of a connected foreground *)

Lemma foreground_count_le cells :
  (foreground_count cells <= length cells)%nat.
Proof. unfold foreground_count. apply filter_length_le. Qed.

Lemma foreground_count_set (cells : list LabelCell.t) v : forall k,
  (foreground_count (update_nth k v cells) <= S (foreground_count cells))%nat.
Proof.
  unfold foreground_count.
  induction cells as [|a cells IH]; intros [|k]; simpl; auto.
  - destruct (LabelCell.eqb v _), (LabelCell.eqb a _); simpl; lia.
  - specialize (IH k). destruct (LabelCell.eqb a _); simpl; lia.
Qed.

Lemma set_cells_foreground_count idxs v : forall g g',
  set_cells idxs v g = Ok g' ->
  (foreground_count (cells_ g') <= foreground_count (cells_ g) + length idxs)%nat
  /\ length (cells_ g') = length (cells_ g).
Proof.
  induction idxs as [|x idxs IH]; intros g g' Hset; cbn [set_cells] in Hset.
  - inversion Hset; subst. simpl. lia.
  - destruct (SetCell g x v) as [g1|e] eqn:Hs; [|discriminate].
    cbn [bind] in Hset. destruct (IH _ _ Hset) as (Hc & Hl).
    destruct (SetCell_inv _ _ _ _ Hs) as (_ & _ & _ & Hcells).
    rewrite Hcells, ?update_nth_length in *.
    pose proof (foreground_count_set (cells_ g) v
                  (Z.to_nat (GridLinearIndex x (strides_ g)))).
    simpl. split; lia.
Qed.

Lemma foreground_count_repeat n :
  foreground_count (repeat LabelCell.kBackground n) = 0%nat.
Proof. unfold foreground_count. induction n; simpl; auto. Qed.

Section Components.
Variable size : Size.
Variable offsets : list Index.
Hypothesis Hpos : all_positive size.
Hypothesis Hov : size_product size < size_t_modulus.

(** Indices whose cells are already labelled start no component. *)
Lemma ConnectedComponents_loop_labelled idxs : forall lg acc,
  (forall x, In x idxs -> Cell lg x = Ok LabelCell.kLabelled) ->
  ConnectedComponents_loop idxs offsets lg acc = Ok acc.
Proof.
  induction idxs as [|x idxs IH]; intros lg acc Hl; simpl; auto.
  rewrite (Hl x (or_introl eq_refl)). cbn [bind LabelCell.eqb].
  apply IH. intros y Hy. apply Hl. right. exact Hy.
Qed.

(** A foreground that the offsets connect is one component. *)
Lemma ConnectedComponents_connected d0 D :
  (forall x, In x (d0 :: D) -> wf_index size x) ->
  (forall C : list Index,
      In d0 C ->
      (forall x o, In x C -> In o offsets ->
                   wf_index size (add_index x o) ->
                   In (add_index x o) (d0 :: D) -> In (add_index x o) C) ->
      forall x, In x (d0 :: D) -> In x C) ->
  exists C,
    ConnectedComponents (d0 :: D) size offsets = Ok [C] /\
    (forall x, In x C <-> In x (d0 :: D)) /\
    (length C <= length (d0 :: D))%nat.
Proof.
  intros Hwf Hconn.
  destruct (make_Grid_fresh size LabelCell.kBackground Hpos Hov)
    as (lg0 & Hmk & Hwf0 & Hsz0 & Hcells0).
  destruct (set_cells_spec (d0 :: D) LabelCell.kForeground lg0 Hwf0)
    as (lg & Hset & Hwfl & Hszl & Hin & Hout).
  { intros x Hx. rewrite Hsz0. now apply Hwf. }
  destruct (set_cells_foreground_count _ _ _ _ Hset) as (Hcnt & Hlen).
  rewrite Hcells0, foreground_count_repeat in Hcnt.
  unfold ConnectedComponents. rewrite Hmk. cbn [bind]. rewrite Hset.
  cbn [bind ConnectedComponents_loop].
  assert (Hd0 : In d0 (d0 :: D)) by (left; reflexivity).
  rewrite (Hin d0 Hd0). cbn [bind LabelCell.eqb].
  assert (Hwd0 : wf_index (size_ lg) d0).
  { rewrite Hszl, Hsz0. now apply Hwf. }
  destruct (SetCell_wf lg d0 LabelCell.kLabelled Hwfl Hwd0) as (lg1 & Hs).
  rewrite Hs. cbn [bind].
  pose proof (SetCell_WfGrid _ _ _ _ Hs Hwfl) as Hwf1.
  pose proof (SetCell_size _ _ _ _ Hs) as Hsz1.
  assert (Hsize1 : size_ lg1 = size) by congruence.
  assert (Hbg : forall y, wf_index size y -> ~ In y (d0 :: D) ->
                          Cell lg y = Ok LabelCell.kBackground).
  { intros y Hy Hni. rewrite Hout; auto; [|now rewrite Hsz0].
    apply Cell_repeat; auto; [|now rewrite Hsz0].
    rewrite Hcells0 at 1. now rewrite Hcells0, repeat_length. }
  assert (Hinv : flood_inv size offsets (d0 :: D) lg1 [d0] [d0]).
  { constructor.
    - exact Hwf1.
    - exact Hsize1.
    - intros x Hx. exact Hx.
    - intros x [<-|[]]. split; [now apply Hwf|].
      eapply Cell_SetCell_same; eauto.
    - intros y Hy Hc.
      destruct (list_eq_dec Z.eq_dec y d0) as [->|Hne]; [left; reflexivity|].
      exfalso.
      rewrite (Cell_SetCell_other _ _ _ _ _ Hs Hwfl Hwd0) in Hc; auto;
        [|now rewrite Hszl, Hsz0].
      destruct (in_dec (list_eq_dec Z.eq_dec) y (d0 :: D)) as [Hi|Hni].
      + rewrite (Hin y Hi) in Hc. discriminate.
      + rewrite (Hbg y Hy Hni) in Hc. discriminate.
    - intros x Hx Hnx. contradiction.
    - intros y Hy.
      destruct (list_eq_dec Z.eq_dec y d0) as [->|Hne].
      + rewrite (Cell_SetCell_same _ _ _ _ Hs).
        split; [discriminate | auto].
      + rewrite (Cell_SetCell_other _ _ _ _ _ Hs Hwfl Hwd0); auto;
          [|now rewrite Hszl, Hsz0].
        destruct (in_dec (list_eq_dec Z.eq_dec) y (d0 :: D)) as [Hi|Hni].
        * rewrite (Hin y Hi). split; [discriminate | auto].
        * rewrite (Hbg y Hy Hni). split; [contradiction | congruence]. }
  destruct (SetCell_inv _ _ _ _ Hs) as (_ & _ & _ & Hcells1).
  destruct (Cell_inv _ _ _ (Hin d0 Hd0)) as (_ & Hnth).
  pose proof (foreground_count_update (cells_ lg) _ Hnth) as Hupd.
  rewrite <- Hcells1 in Hupd.
  pose proof (foreground_count_le (cells_ lg)) as Hle.
  destruct (flood_fill_spec size offsets (d0 :: D) (S (length (cells_ lg)))
              lg1 [d0] [d0] Hinv) as (lg2 & C & Hff & Hinv2 & Hsub & Hcount).
  { simpl. lia. }
  rewrite Hff. cbn [bind].
  destruct (flood_inv_closed size offsets (d0 :: D) lg2 C Hinv2)
    as (HCD & Hclosed).
  assert (HDC : forall x, In x (d0 :: D) -> In x C).
  { apply Hconn; [apply Hsub; left; reflexivity | exact Hclosed]. }
  rewrite ConnectedComponents_loop_labelled.
  - exists C. split; [reflexivity|]. split.
    + intros x. split; [apply HCD | apply HDC].
    + simpl in Hcount, Hcnt |- *. lia.
  - intros x Hx. destruct Hinv2 as [_ _ _ Hlab _ _ _].
    apply Hlab, HDC. right. exact Hx.
Qed.

(** A single foreground cell is a component by itself. *)
Lemma ConnectedComponents_single p :
  wf_index size p -> ConnectedComponents [p] size offsets = Ok [[p]].
Proof.
  intros Hp.
  destruct (ConnectedComponents_connected p []) as (C & HC & Hiff & Hlen).
  - intros x [<-|[]]. exact Hp.
  - intros C Hd _ x [<-|[]]. exact Hd.
  - rewrite HC. destruct C as [|c [|c' C]]; simpl in Hlen; try lia.
    + exfalso. apply (proj2 (Hiff p)). left. reflexivity.
    + destruct (proj1 (Hiff c) (or_introl eq_refl)) as [<-|[]]. reflexivity.
Qed.
End Components.


(** ** The components of [ConnectedComponents], whatever the foreground *)

Lemma reached_app offsets start new : forall component,
  reached offsets start component ->
  (forall y, In y new ->
             exists x o, In x component /\ In o offsets /\ y = add_index x o) ->
  reached offsets start (component ++ new).
Proof.
  induction new as [|y new IH]; intros component Hr Hnew.
  - now rewrite app_nil_r.
  - change (y :: new) with ([y] ++ new). rewrite app_assoc. apply IH.
    + destruct (Hnew y (or_introl eq_refl)) as (x & o & Hx & Ho & ->).
      now apply reached_step.
    + intros z Hz. destruct (Hnew z (or_intror Hz)) as (x & o & Hx & Ho & ->).
      exists x, o. split; [apply in_or_app; now left | auto].
Qed.

Lemma reached_start_In offsets start component :
  reached offsets start component -> In start component.
Proof.
  induction 1; [left; reflexivity | apply in_or_app; now left].
Qed.

(** A cell of the component other than the first was reached from a cell of
    the component. *)
Lemma reached_from offsets start component :
  reached offsets start component ->
  forall y, In y component -> y <> start ->
            exists x o, In x component /\ In o offsets /\ y = add_index x o.
Proof.
  induction 1 as [|component x o Hr IH Hx Ho]; intros y Hy Hne.
  - destruct Hy as [<-|[]]. congruence.
  - apply in_app_or in Hy. destruct Hy as [Hy|[<-|[]]].
    + destruct (IH y Hy Hne) as (x' & o' & Hx' & Ho' & ->).
      exists x', o'. split; [apply in_or_app; now left | auto].
    + exists x, o. split; [apply in_or_app; now left | auto].
Qed.

(** When no offset leads from the first cell to a cell that may be in the
    component, the component is that cell alone. *)
Lemma reached_alone offsets start (P : Index -> Prop) component :
  reached offsets start component ->
  (forall o, In o offsets -> ~ P (add_index start o)) ->
  (forall y, In y component -> P y) ->
  component = [start].
Proof.
  intros Hr Hiso. induction Hr as [|component x o Hr IH Hx Ho]; intros HP.
  - reflexivity.
  - exfalso.
    assert (Hc : component = [start]).
    { apply IH. intros y Hy. apply HP. apply in_or_app. now left. }
    subst component. destruct Hx as [<-|[]].
    apply (Hiso o Ho). apply HP. apply in_or_app. right. left. reflexivity.
Qed.

Lemma add_index_opp x : forall o,
  length o = length x -> add_index (add_index x o) (map Z.opp o) = x.
Proof.
  induction x as [|a x IH]; intros [|b o] Hl; simpl in *; try discriminate;
    auto.
  f_equal; [lia | apply IH; lia].
Qed.

(** What the loop over the offsets appends was reached from [top]. *)
Lemma flood_offsets_reached os : forall top lg C stack lg' C' stack',
  flood_offsets os top lg C stack = Ok (lg', C', stack') ->
  exists new, C' = C ++ new /\
              forall y, In y new -> exists o, In o os /\ y = add_index top o.
Proof.
  induction os as [|o os IH]; intros top lg C stack lg' C' stack' Hf.
  - simpl in Hf. inversion Hf; subst. exists []. rewrite app_nil_r.
    split; [reflexivity | intros y []].
  - cbn [flood_offsets] in Hf.
    assert (Hskip : forall lg0 C0 stack0,
               flood_offsets os top lg0 C0 stack0 = Ok (lg', C', stack') ->
               C0 = C ->
               exists new, C' = C ++ new /\
                 forall y, In y new ->
                           exists o', In o' (o :: os) /\ y = add_index top o').
    { intros lg0 C0 stack0 Hf0 ->.
      destruct (IH _ _ _ _ _ _ _ Hf0) as (new & -> & Hnew).
      exists new. split; [reflexivity|]. intros y Hy.
      destruct (Hnew y Hy) as (o' & Ho' & ->). exists o'. split; auto.
      now right. }
    destruct (Inside (add_index top o) (size_ lg)); [|eapply Hskip; eauto].
    destruct (Cell lg (add_index top o)) as [c|e]; [|discriminate].
    cbn [bind] in Hf.
    destruct (LabelCell.eqb c LabelCell.kForeground); [|eapply Hskip; eauto].
    destruct (SetCell lg (add_index top o) LabelCell.kLabelled) as [lg1|e];
      [|discriminate].
    cbn [bind] in Hf.
    destruct (IH _ _ _ _ _ _ _ Hf) as (new & -> & Hnew).
    exists (add_index top o :: new). rewrite <- app_assoc.
    split; [reflexivity|]. intros y [<-|Hy].
    + exists o. split; [now left | reflexivity].
    + destruct (Hnew y Hy) as (o' & Ho' & ->). exists o'. split; auto.
      now right.
Qed.

Section Partition.
Variable size : Size.
Variable offsets : list Index.
Hypothesis Hpos : all_positive size.
Hypothesis Hov : size_product size < size_t_modulus.

(** With one unit of fuel per stack entry and per foreground cell, the flood
    fill runs until the stack is empty and keeps its state. *)
Lemma flood_fill_state lg0 start fuel : forall lg C stack,
  flood_state size offsets lg0 start lg C stack ->
  (foreground_count (cells_ lg) + length stack <= fuel)%nat ->
  exists lg' C',
    flood_fill fuel offsets lg C stack = Ok (lg', C') /\
    flood_state size offsets lg0 start lg' C' [].
Proof.
  induction fuel as [|fuel IH]; intros lg C stack Hst Hfuel.
  - destruct stack as [|top rest]; simpl in Hfuel; [|lia].
    exists lg, C. simpl. auto.
  - destruct stack as [|top rest].
    { exists lg, C. simpl. auto. }
    destruct Hst as [Hwf Hsz Hstack Hcells Hothers Hdone Hreached].
    assert (Htop : wf_index size top)
      by (apply Hcells, Hstack; left; reflexivity).
    destruct (flood_offsets_spec size offsets top lg C rest Hwf Hsz Htop)
      as (lg1 & new & Hf & Hwf1 & Hsz1 & Hnew & Hold & Hos & Hcount).
    cbn [flood_fill]. rewrite Hf. cbn [bind].
    destruct (flood_offsets_reached _ _ _ _ _ _ _ _ Hf) as (new' & Hnew' & Hr).
    apply app_inv_head in Hnew'. subst new'.
    assert (Hcell : forall y, wf_index size y ->
                      Cell lg1 y = Ok LabelCell.kLabelled \/
                      Cell lg1 y = Cell lg y).
    { intros y Hy.
      destruct (in_dec (list_eq_dec Z.eq_dec) y new) as [Hi|Hni].
      - left. now apply Hnew.
      - right. now apply Hold. }
    assert (Hfresh : forall y, In y new -> ~ In y C).
    { intros y Hy Hc. destruct (Hnew y Hy) as (_ & Hfg & _).
      destruct (Hcells y Hc) as (_ & Hl & _). congruence. }
    assert (Hst1 : flood_state size offsets lg0 start lg1 (C ++ new)
                               (rev new ++ rest)).
    { constructor; auto.
      - intros x Hx. apply in_or_app. apply in_app_or in Hx.
        destruct Hx as [Hx|Hx].
        + right. rewrite <- in_rev in Hx. exact Hx.
        + left. apply Hstack. right. exact Hx.
      - intros x Hx. apply in_app_or in Hx. destruct Hx as [Hx|Hx].
        + destruct (Hcells x Hx) as (Hwx & Hcx & Hc0). split; auto.
          split; auto.
          destruct (Hcell x Hwx) as [Hl|He]; [exact Hl | congruence].
        + destruct (Hnew x Hx) as (Hwx & Hfg & Hcx). split; auto.
          split; auto. rewrite <- Hfg. symmetry. apply Hothers; auto.
      - intros y Hy Hni. rewrite Hold; auto.
        + apply Hothers; auto. intros Hi. apply Hni. apply in_or_app. now left.
        + intros Hi. apply Hni. apply in_or_app. now right.
      - intros x Hx Hnx o Ho Hwo.
        assert (Hxnew : ~ In x new).
        { intros Hi. apply Hnx. apply in_or_app. left. rewrite <- in_rev.
          exact Hi. }
        assert (Hxrest : ~ In x rest).
        { intros Hi. apply Hnx. apply in_or_app. right. exact Hi. }
        apply in_app_or in Hx. destruct Hx as [Hx|Hx]; [|contradiction].
        destruct (list_eq_dec Z.eq_dec x top) as [->|Hne].
        + now apply Hos.
        + assert (Hns : ~ In x (top :: rest)).
          { intros [Heq|Hi]; [congruence | contradiction]. }
          pose proof (Hdone x Hx Hns o Ho Hwo) as Hd.
          destruct (Hcell _ Hwo) as [Hl|He]; [rewrite Hl; discriminate|].
          now rewrite He.
      - apply reached_app; auto. intros y Hy.
        destruct (Hr y Hy) as (o & Ho & ->). exists top, o.
        split; [apply Hstack; now left | auto]. }
    assert (Hfuel1 : (foreground_count (cells_ lg1)
                      + length (rev new ++ rest) <= fuel)%nat).
    { rewrite length_app, length_rev. simpl in Hfuel. lia. }
    destruct (IH _ _ _ Hst1 Hfuel1) as (lg' & C' & Hff & Hst').
    exists lg', C'. split; auto.
Qed.

Variable D : list Index.
Hypothesis Hsym : symmetric_offsets (length size) offsets.

(** One iteration of the loop over the indices: a new component, or nothing
    when the index is labelled already. *)
Lemma ConnectedComponents_step lg acc index :
  components_inv size offsets D lg acc ->
  wf_index size index -> In index D ->
  (Cell lg index = Ok LabelCell.kLabelled) \/
  (exists lg1 lg2 component,
      Cell lg index = Ok LabelCell.kForeground /\
      SetCell lg index LabelCell.kLabelled = Ok lg1 /\
      flood_fill (S (length (cells_ lg))) offsets lg1 [index] [index]
      = Ok (lg2, component) /\
      components_inv size offsets D lg2 (acc ++ [component]) /\
      reached offsets index component).
Proof.
  intros [Hwf Hsz Hdom Hlab Hclosed Hcomps Hdisj] Hindex HD.
  assert (Hwi : wf_index (size_ lg) index) by now rewrite Hsz.
  destruct (Cell_wf lg index Hwf Hwi) as (c & Hc).
  pose proof (proj1 (Hdom index Hindex) HD) as Hnb.
  destruct c; [congruence | | now left]. right.
  destruct (SetCell_wf lg index LabelCell.kLabelled Hwf Hwi) as (lg1 & Hs).
  pose proof (SetCell_WfGrid _ _ _ _ Hs Hwf) as Hwf1.
  pose proof (SetCell_size _ _ _ _ Hs) as Hsz1.
  assert (Hother : forall y, wf_index size y -> y <> index ->
                             Cell lg1 y = Cell lg y).
  { intros y Hy Hne. eapply Cell_SetCell_other; eauto. now rewrite Hsz. }
  assert (Hsame : Cell lg1 index = Ok LabelCell.kLabelled)
    by (eapply Cell_SetCell_same; eauto).
  assert (Hst : flood_state size offsets lg index lg1 [index] [index]).
  { constructor.
    - exact Hwf1.
    - congruence.
    - auto.
    - intros x [<-|[]]. auto.
    - intros y Hy Hni. apply Hother; auto. intros ->. apply Hni. now left.
    - intros x Hx Hnx. contradiction.
    - constructor. }
  destruct (SetCell_inv _ _ _ _ Hs) as (_ & _ & _ & Hcells1).
  destruct (Cell_inv _ _ _ Hc) as (_ & Hnth).
  pose proof (foreground_count_update (cells_ lg) _ Hnth) as Hupd.
  rewrite <- Hcells1 in Hupd.
  pose proof (foreground_count_le (cells_ lg)) as Hle.
  destruct (flood_fill_state lg index (S (length (cells_ lg))) lg1 [index]
              [index] Hst) as (lg2 & C & Hff & Hst2).
  { simpl. lia. }
  exists lg1, lg2, C. split; [exact Hc|]. split; [exact Hs|].
  split; [exact Hff|].
  destruct Hst2 as [Hwf2 Hsz2 _ Hcells2 Hothers2 Hdone2 Hreached2].
  split; [|exact Hreached2].
  assert (Hdec : forall y, In y C \/ ~ In y C).
  { intros y. destruct (in_dec (list_eq_dec Z.eq_dec) y C); auto. }
  assert (HCD : forall x, In x C -> wf_index size x /\ In x D).
  { intros x Hx. destruct (Hcells2 x Hx) as (Hwx & _ & Hfg). split; auto.
    apply (Hdom x Hwx). rewrite Hfg. discriminate. }
  constructor; auto.
  - intros y Hy. destruct (Hdec y) as [Hi|Hni].
    + destruct (Hcells2 y Hi) as (_ & Hl & _). rewrite Hl.
      split; [discriminate | intros _; now apply HCD].
    + rewrite (Hothers2 y Hy Hni). now apply Hdom.
  - intros y Hy. destruct (Hdec y) as [Hi|Hni].
    + destruct (Hcells2 y Hi) as (_ & Hl & _). rewrite Hl.
      split; [|reflexivity]. intros _. exists C.
      split; [apply in_or_app; right; now left | exact Hi].
    + rewrite (Hothers2 y Hy Hni), (Hlab y Hy). split.
      * intros (c0 & Hc0 & Hyc). exists c0.
        split; [apply in_or_app; now left | exact Hyc].
      * intros (c0 & Hc0 & Hyc). apply in_app_or in Hc0.
        destruct Hc0 as [Hc0|[<-|[]]]; [eauto | contradiction].
  - intros x o Hx Hl Ho Hwo. destruct (Hdec x) as [Hi|Hni].
    + now apply (Hdone2 x Hi (fun H => H)).
    + rewrite (Hothers2 x Hx Hni) in Hl.
      destruct (Hdec (add_index x o)) as [Hj|Hnj].
      * destruct (Hcells2 _ Hj) as (_ & Hlj & _). rewrite Hlj. discriminate.
      * rewrite (Hothers2 _ Hwo Hnj). now apply Hclosed.
  - intros c0 Hc0. apply in_app_or in Hc0.
    destruct Hc0 as [Hc0|[<-|[]]]; [now apply Hcomps|].
    split; [exact HCD|]. split; [|exists index; exact Hreached2].
    intros x o Hx Ho Hwo HDo.
    destruct (Hdec (add_index x o)) as [Hj|Hnj]; [exact Hj|]. exfalso.
    pose proof (Hdone2 x Hx (fun H => H) o Ho Hwo) as Hnf.
    rewrite (Hothers2 _ Hwo Hnj) in Hnf.
    pose proof (proj1 (Hdom _ Hwo) HDo) as Hnb'.
    assert (Hwo' : wf_index (size_ lg) (add_index x o)) by now rewrite Hsz.
    destruct (Cell_wf lg _ Hwf Hwo') as (c1 & Hc1).
    rewrite Hc1 in Hnf, Hnb'.
    destruct c1; [congruence | congruence |].
    destruct (Hcells2 x Hx) as (Hwx & _ & Hfg).
    destruct (Hsym o Ho) as (Hlo & Hopp).
    apply (Hclosed (add_index x o) (map Z.opp o) Hwo Hc1 Hopp).
    + rewrite add_index_opp; [exact Hwx|]. rewrite Hlo. symmetry. apply Hwx.
    + rewrite add_index_opp; [exact Hfg|]. rewrite Hlo. symmetry. apply Hwx.
  - assert (Hnew : forall c1 x, In c1 acc -> In x c1 -> In x C -> False).
    { intros c1 x Hc1 Hx1 HxC.
      destruct (Hcomps c1 Hc1) as (Hc1D & _).
      destruct (Hc1D x Hx1) as (Hwx & _).
      destruct (Hcells2 x HxC) as (_ & _ & Hfg).
      assert (Hl : Cell lg x = Ok LabelCell.kLabelled)
        by (apply (Hlab x Hwx); eauto).
      congruence. }
    intros i j c1 c2 x Hi Hj Hx1 Hx2.
    destruct (Nat.lt_ge_cases i (length acc)) as [Hli|Hli],
             (Nat.lt_ge_cases j (length acc)) as [Hlj|Hlj].
    + rewrite nth_error_app1 in Hi, Hj by assumption. eauto.
    + rewrite nth_error_app1 in Hi by assumption.
      rewrite nth_error_app2 in Hj by assumption.
      destruct (j - length acc)%nat as [|k]; simpl in Hj;
        [|destruct k; discriminate].
      inversion Hj; subst c2. exfalso.
      apply (Hnew c1 x); auto. eapply nth_error_In; eauto.
    + rewrite nth_error_app2 in Hi by assumption.
      rewrite nth_error_app1 in Hj by assumption.
      destruct (i - length acc)%nat as [|k]; simpl in Hi;
        [|destruct k; discriminate].
      inversion Hi; subst c1. exfalso.
      apply (Hnew c2 x); auto. eapply nth_error_In; eauto.
    + rewrite nth_error_app2 in Hi, Hj by assumption.
      destruct (i - length acc)%nat as [|k] eqn:Ei; simpl in Hi;
        [|destruct k; discriminate].
      destruct (j - length acc)%nat as [|k] eqn:Ej; simpl in Hj;
        [|destruct k; discriminate].
      lia.
Qed.

(** The loop over the indices ends with every index in a component. *)
Lemma ConnectedComponents_loop_partition indices : forall lg acc,
  components_inv size offsets D lg acc ->
  (forall x, In x indices -> wf_index size x /\ In x D) ->
  exists lg' comps,
    ConnectedComponents_loop indices offsets lg acc = Ok comps /\
    components_inv size offsets D lg' comps /\
    (exists new, comps = acc ++ new) /\
    (forall x, In x indices -> exists c, In c comps /\ In x c).
Proof.
  induction indices as [|index indices IH]; intros lg acc Hinv Hidx.
  - exists lg, acc. simpl. split; [reflexivity|]. split; [exact Hinv|].
    split; [exists []; now rewrite app_nil_r | intros x []].
  - destruct (Hidx index (or_introl eq_refl)) as (Hwi & HDi).
    cbn [ConnectedComponents_loop].
    destruct (ConnectedComponents_step lg acc index Hinv Hwi HDi)
      as [Hl|(lg1 & lg2 & C & Hc & Hs & Hff & Hinv2 & Hreached)].
    + rewrite Hl. cbn [bind LabelCell.eqb].
      destruct (IH lg acc Hinv)
        as (lg' & comps & Hloop & Hinv' & (new & Hacc) & Hall).
      { intros x Hx. apply Hidx. now right. }
      exists lg', comps. split; [exact Hloop|]. split; [exact Hinv'|].
      split; [exists new; exact Hacc|]. intros x [<-|Hx]; [|now apply Hall].
      destruct (proj1 (comps_labelled _ _ _ _ _ Hinv index Hwi) Hl)
        as (c & Hc & Hxc).
      exists c. split; [rewrite Hacc; apply in_or_app; now left | exact Hxc].
    + rewrite Hc. cbn [bind LabelCell.eqb]. rewrite Hs. cbn [bind].
      rewrite Hff. cbn [bind].
      destruct (IH lg2 (acc ++ [C]) Hinv2)
        as (lg' & comps & Hloop & Hinv' & (new & Hacc) & Hall).
      { intros x Hx. apply Hidx. now right. }
      exists lg', comps. split; [exact Hloop|]. split; [exact Hinv'|].
      split; [exists (C :: new); now rewrite Hacc, <- app_assoc|].
      intros x [<-|Hx]; [|now apply Hall].
      exists C. split.
      * rewrite Hacc. apply in_or_app. left. apply in_or_app. right. now left.
      * now apply (reached_start_In offsets).
Qed.

(** [ConnectedComponents] returns components that cover the indices; each
    is closed under the offsets within the indices. *)
Lemma ConnectedComponents_partition :
  (forall x, In x D -> wf_index size x) ->
  exists comps,
    ConnectedComponents D size offsets = Ok comps /\
    (forall c, In c comps -> component_of size offsets D c) /\
    (forall x, In x D -> exists c, In c comps /\ In x c) /\
    (forall d0 D0, D = d0 :: D0 ->
                   exists c0 rest, comps = c0 :: rest /\
                                   reached offsets d0 c0) /\
    (forall i j c1 c2 x,
        nth_error comps i = Some c1 -> nth_error comps j = Some c2 ->
        In x c1 -> In x c2 -> i = j).
Proof.
  intros HD. unfold ConnectedComponents.
  destruct D as [|d0 D0] eqn:ED.
  { exists []. split; [reflexivity|]. split; [intros c []|].
    split; [intros x []|]. split; [discriminate|].
    intros [|i] j c1 c2 x Hi; discriminate. }
  rewrite <- ED in *.
  destruct (make_Grid_fresh size LabelCell.kBackground Hpos Hov)
    as (lg0 & Hmk & Hwf0 & Hsz0 & Hcells0).
  destruct (set_cells_spec D LabelCell.kForeground lg0 Hwf0)
    as (lg & Hset & Hwfl & Hszl & Hin & Hout).
  { intros x Hx. rewrite Hsz0. now apply HD. }
  rewrite Hmk. cbn [bind]. rewrite Hset. cbn [bind].
  assert (Hbg : forall y, wf_index size y -> ~ In y D ->
                          Cell lg y = Ok LabelCell.kBackground).
  { intros y Hy Hni. rewrite Hout; auto; [|now rewrite Hsz0].
    apply Cell_repeat; auto; [|now rewrite Hsz0].
    rewrite Hcells0 at 1. now rewrite Hcells0, repeat_length. }
  assert (Hdec : forall y, In y D \/ ~ In y D).
  { intros y. destruct (in_dec (list_eq_dec Z.eq_dec) y D); auto. }
  assert (Hinv : components_inv size offsets D lg []).
  { constructor; auto.
    - congruence.
    - intros y Hy. destruct (Hdec y) as [Hi|Hni].
      + rewrite (Hin y Hi). split; [discriminate | auto].
      + rewrite (Hbg y Hy Hni). split; [contradiction | congruence].
    - intros y Hy. split.
      + intros Hl. destruct (Hdec y) as [Hi|Hni].
        * rewrite (Hin y Hi) in Hl. discriminate.
        * rewrite (Hbg y Hy Hni) in Hl. discriminate.
      + intros (c & [] & _).
    - intros x o Hx Hl. destruct (Hdec x) as [Hi|Hni].
      + rewrite (Hin x Hi) in Hl. discriminate.
      + rewrite (Hbg x Hx Hni) in Hl. discriminate.
    - intros c [].
    - intros [|i] j c1 c2 x Hi; discriminate. }
  destruct (ConnectedComponents_loop_partition D lg [] Hinv)
    as (lg' & comps & Hloop & Hinv' & _ & Hall).
  { intros x Hx. split; [now apply HD | exact Hx]. }
  exists comps. split; [exact Hloop|].
  split; [apply (comps_components _ _ _ _ _ Hinv')|]. split; [exact Hall|].
  split; [|apply (comps_disjoint _ _ _ _ _ Hinv')].
  intros d1 D1 E. rewrite E in ED. inversion ED; subst d1 D1. clear ED.
  rewrite E in Hloop. cbn [ConnectedComponents_loop] in Hloop.
  assert (Hd0 : In d0 D) by (rewrite E; now left).
  destruct (ConnectedComponents_step lg [] d0 Hinv (HD d0 Hd0) Hd0)
    as [Hl|(lg1 & lg2 & C & Hc & Hs & Hff & Hinv2 & Hreached)].
  { rewrite (Hin d0 Hd0) in Hl. discriminate. }
  rewrite Hc in Hloop. cbn [bind LabelCell.eqb] in Hloop.
  rewrite Hs in Hloop. cbn [bind] in Hloop. rewrite Hff in Hloop.
  cbn [bind] in Hloop.
  destruct (ConnectedComponents_loop_partition D0 lg2 ([] ++ [C]) Hinv2)
    as (lg3 & comps3 & Hloop3 & _ & (new & Hnew) & _).
  { intros x Hx. assert (In x D) by (rewrite E; now right).
    split; [now apply HD | assumption]. }
  assert (Heq : comps = comps3) by congruence.
  exists C, new. split; [rewrite Heq; exact Hnew | exact Hreached].
Qed.
End Partition.


(** ** What every cell of a component inherits from the given indices *)

Section ComponentCells.
Variable P : Index -> Prop.
Hypothesis P_add_index : forall x o, P x -> P (add_index x o).

Lemma flood_offsets_Forall os : forall top lg C stack lg' C' stack',
  flood_offsets os top lg C stack = Ok (lg', C', stack') ->
  P top -> Forall P C -> Forall P stack ->
  Forall P C' /\ Forall P stack'.
Proof.
  induction os as [|o os IH]; intros top lg C stack lg' C' stack' Hf Ht HC Hs.
  - simpl in Hf. inversion Hf; subst. auto.
  - cbn [flood_offsets] in Hf.
    destruct (Inside (add_index top o) (size_ lg)); [|eapply IH; eauto].
    destruct (Cell lg (add_index top o)) as [c|e]; [|discriminate].
    cbn [bind] in Hf.
    destruct (LabelCell.eqb c LabelCell.kForeground); [|eapply IH; eauto].
    destruct (SetCell lg (add_index top o) LabelCell.kLabelled) as [lg1|e];
      [|discriminate].
    cbn [bind] in Hf.
    apply (IH top lg1 (C ++ [add_index top o]) (add_index top o :: stack)
              lg' C' stack' Hf Ht).
    + apply Forall_app. split; auto.
    + constructor; auto.
Qed.

Lemma flood_fill_Forall fuel os : forall lg C stack lg' C',
  flood_fill fuel os lg C stack = Ok (lg', C') ->
  Forall P C -> Forall P stack -> Forall P C'.
Proof.
  induction fuel as [|fuel IH]; intros lg C stack lg' C' Hf HC Hs.
  - destruct stack; simpl in Hf; [|discriminate]. inversion Hf; subst. auto.
  - destruct stack as [|top rest]; simpl in Hf.
    + inversion Hf; subst. auto.
    + destruct (flood_offsets os top lg C rest) as [[[lg1 C1] stack1]|e] eqn:Ho;
        [|discriminate].
      cbn [bind] in Hf. inversion Hs; subst.
      destruct (flood_offsets_Forall _ _ _ _ _ _ _ _ Ho) as (HC1 & Hs1); auto.
      eapply IH; eauto.
Qed.

Lemma ConnectedComponents_loop_Forall os indices : forall lg acc comps,
  ConnectedComponents_loop indices os lg acc = Ok comps ->
  Forall P indices -> Forall (Forall P) acc -> Forall (Forall P) comps.
Proof.
  induction indices as [|x indices IH]; intros lg acc comps Hl Hi Ha.
  - simpl in Hl. inversion Hl; subst. auto.
  - cbn [ConnectedComponents_loop] in Hl. inversion Hi; subst.
    destruct (Cell lg x) as [c|e]; [|discriminate]. cbn [bind] in Hl.
    destruct (LabelCell.eqb c LabelCell.kForeground); [|eapply IH; eauto].
    destruct (SetCell lg x LabelCell.kLabelled) as [lg1|e]; [|discriminate].
    cbn [bind] in Hl.
    destruct (flood_fill (S (length (cells_ lg))) os lg1 [x] [x])
      as [[lg2 C]|e] eqn:Hf; [|discriminate].
    cbn [bind] in Hl.
    apply (IH lg2 (acc ++ [C]) comps Hl); auto.
    apply Forall_app. split; auto. constructor; auto.
    eapply flood_fill_Forall; eauto.
Qed.

Lemma ConnectedComponents_Forall indices size os comps :
  ConnectedComponents indices size os = Ok comps ->
  Forall P indices -> Forall (Forall P) comps.
Proof.
  unfold ConnectedComponents. destruct indices as [|x indices].
  - intros Hc _. inversion Hc; subst. constructor.
  - intros Hc Hi.
    destruct (make_Grid size _) as [lg|e]; [|discriminate]. cbn [bind] in Hc.
    destruct (set_cells (x :: indices) LabelCell.kForeground lg) as [lg'|e];
      [|discriminate].
    cbn [bind] in Hc. eapply ConnectedComponents_loop_Forall; eauto.
Qed.

Lemma dilate_offsets_Forall os : forall x g acc g' acc',
  dilate_offsets os x g acc = Ok (g', acc') ->
  P x -> Forall P acc -> Forall P acc'.
Proof.
  induction os as [|o os IH]; intros x g acc g' acc' Hd Hx Ha.
  - simpl in Hd. inversion Hd; subst. auto.
  - cbn [dilate_offsets] in Hd.
    destruct (Cell g (add_index x o)) as [c|e]; [|discriminate].
    cbn [bind] in Hd.
    destruct (DilationCell.eqb c DilationCell.kBackground);
      [|eapply IH; eauto].
    destruct (SetCell g (add_index x o) DilationCell.kDilated) as [g1|e];
      [|discriminate].
    cbn [bind] in Hd.
    apply (IH x g1 (acc ++ [add_index x o]) g' acc' Hd Hx).
    apply Forall_app. split; auto.
Qed.
End ComponentCells.

Lemma dilate_loop_lengths N os indices : forall g acc g' acc',
  dilate_loop indices os g acc = Ok (g', acc') ->
  Forall (fun x => length x = N) indices ->
  Forall (fun x => length x = N) acc ->
  Forall (fun x => length x = N) acc'.
Proof.
  induction indices as [|x indices IH]; intros g acc g' acc' Hd Hi Ha.
  - simpl in Hd. inversion Hd; subst. auto.
  - cbn [dilate_loop] in Hd.
    pose proof (Forall_inv Hi) as Hx. pose proof (Forall_inv_tail Hi) as Hi'.
    cbv beta in Hx.
    destruct (dilate_offsets os (map (fun d => d + 1) x) g acc)
      as [[g1 acc1]|e] eqn:Ho; [|discriminate].
    cbn [bind] in Hd. apply (IH g1 acc1 g' acc' Hd); auto.
    assert (Hadd : forall y o : Index,
               length y = N -> length (add_index y o) = N)
      by (intros y o Hy; now rewrite add_index_length).
    apply (dilate_offsets_Forall (fun x => length x = N) Hadd
             os _ _ _ _ _ Ho); auto.
    now rewrite length_map.
Qed.

(** The bands that [unpad_bands] keeps are not empty and lie in the grid. *)
Lemma unpad_bands_cells comps size band :
  In band (unpad_bands comps size) ->
  band <> [] /\
  exists comp, In comp comps /\
    forall x, In x band ->
              Inside x size = true /\
              exists y, In y comp /\ x = map (fun d => d - 1) y.
Proof.
  induction comps as [|comp comps IH]; simpl; [intros []|].
  set (b := filter (fun grid_index => Inside grid_index size)
                   (map (map (fun d => d - 1)) comp)).
  assert (Hb : forall x, In x b ->
                 Inside x size = true /\
                 exists y, In y comp /\ x = map (fun d => d - 1) y).
  { intros x Hx. unfold b in Hx. apply filter_In in Hx.
    destruct Hx as (Hx & Hin). split; auto.
    apply in_map_iff in Hx. destruct Hx as (y & <- & Hy). eauto. }
  destruct b as [|x0 b'] eqn:Eb.
  - intros Hin. destruct (IH Hin) as (Hne & comp' & Hc & Hall).
    split; auto. exists comp'. auto.
  - intros [<-|Hin].
    + split; [discriminate|]. exists comp. split; auto.
    + destruct (IH Hin) as (Hne & comp' & Hc & Hall).
      split; auto. exists comp'. auto.
Qed.

(** The cells of the dilation bands of indices with [N] components lie in
    the grid and have [N] components; no band is empty. *)
Lemma DilationBands_cells (size : Size) (c : list Index)
      (bands : list (list Index)) :
  Forall (fun x => length x = length size) c ->
  DilationBands c size = Ok bands ->
  forall band, In band bands ->
    band <> [] /\ forall x, In x band -> wf_index size x.
Proof.
  intros Hc Hd band Hin. unfold DilationBands in Hd.
  destruct c as [|x0 c]; [inversion Hd; subst; destruct Hin|].
  destruct (make_Grid _ _) as [g|e]; [|discriminate]. cbn [bind] in Hd.
  destruct (set_cells _ _ g) as [g1|e]; [|discriminate]. cbn [bind] in Hd.
  destruct (dilate_loop (x0 :: c) _ g1 []) as [[g2 dil]|e] eqn:Hdl;
    [|discriminate].
  cbn [bind] in Hd.
  destruct (ConnectedComponents dil _ _) as [comps|e] eqn:Hcc; [|discriminate].
  cbn [bind] in Hd. inversion Hd; subst bands. clear Hd.
  destruct (unpad_bands_cells _ _ _ Hin) as (Hne & comp & Hcomp & Hall).
  split; auto. intros x Hx. destruct (Hall x Hx) as (Hi & y & Hy & ->).
  split; auto. rewrite length_map.
  assert (Hdil : Forall (fun x => length x = length size) dil).
  { eapply dilate_loop_lengths; eauto. }
  assert (Hadd : forall z o : Index,
             length z = length size -> length (add_index z o) = length size)
    by (intros z o Hz; now rewrite add_index_length).
  pose proof (ConnectedComponents_Forall (fun x => length x = length size)
                Hadd _ _ _ _ Hcc Hdil) as Hcomps.
  rewrite Forall_forall in Hcomps. specialize (Hcomps comp Hcomp).
  rewrite Forall_forall in Hcomps. now apply Hcomps.
Qed.


(** ** Offsets added to an index *)

Section Offsets.

Lemma add_index_zeros x : forall n, add_index x (repeat 0 n) = x.
Proof.
  induction x as [|a x IH]; intros [|n]; simpl; auto.
  now rewrite Z.add_0_r, IH.
Qed.

Lemma add_index_inj q : forall o o',
  length o = length q -> length o' = length q ->
  add_index q o = add_index q o' -> o = o'.
Proof.
  induction q as [|a q IH]; intros [|b o] [|b' o'] Hl Hl' Heq;
    simpl in *; try discriminate; auto.
  inversion Heq. f_equal; [lia | apply IH; auto; lia].
Qed.

Lemma add_index_fixed q : forall o,
  length o = length q -> add_index q o = q -> is_origin o = true.
Proof.
  induction q as [|a q IH]; intros [|b o] Hl Heq;
    simpl in *; try discriminate; auto.
  inversion Heq as [[Hb Hq]].
  assert (b = 0) by lia. subst b.
  unfold is_origin in *. simpl. apply IH; [lia | exact Hq].
Qed.

Lemma add_at_add_index q : forall o i v,
  length o = length q ->
  add_at (add_index q o) i v = add_index q (add_at o i v).
Proof.
  induction q as [|a q IH]; intros [|b o] [|i] v Hl;
    simpl in *; try discriminate; auto.
  - f_equal. lia.
  - f_equal. apply IH. lia.
Qed.

Lemma add_index_no_unit x : forall s k v,
  (k < s)%nat ->
  add_index x (map (fun j => if (j =? k)%nat then v else 0)
                   (seq s (length x))) = x.
Proof.
  induction x as [|a x IH]; intros s k v Hk; simpl; auto.
  destruct (Nat.eqb_spec s k); [lia|].
  rewrite Z.add_0_r, IH; auto.
Qed.

Lemma add_index_unit_from x : forall s i v,
  add_index x (map (fun j => if (j =? s + i)%nat then v else 0)
                   (seq s (length x))) = add_at x i v.
Proof.
  induction x as [|a x IH]; intros s [|i] v; simpl; auto.
  - rewrite Nat.add_0_r, Nat.eqb_refl. f_equal.
    apply add_index_no_unit. lia.
  - destruct (Nat.eqb_spec s (s + S i)); [lia|].
    rewrite Z.add_0_r. f_equal.
    replace (s + S i)%nat with (S s + i)%nat by lia. apply IH.
Qed.

Lemma add_index_unit_offset x i v :
  add_index x (unit_offset (length x) i v) = add_at x i v.
Proof. unfold unit_offset. apply (add_index_unit_from x 0%nat i v). Qed.

Lemma unit_offset_face N i :
  (i < N)%nat ->
  In (unit_offset N i 1) (FaceNeighborOffsets N) /\
  In (unit_offset N i (-1)) (FaceNeighborOffsets N).
Proof.
  intros Hi. unfold FaceNeighborOffsets.
  split; apply in_flat_map; exists i; (split; [apply in_seq; lia|]);
    simpl; auto.
Qed.

Lemma nth_add_at o : forall i j v,
  nth j (add_at o i v) 0 = if (j =? i)%nat then
                             if (j <? length o)%nat then nth j o 0 + v else 0
                           else nth j o 0.
Proof.
  induction o as [|a o IH]; intros [|i] [|j] v; simpl; auto;
    try (destruct (j =? i)%nat; reflexivity).
Qed.

Lemma add_at_back o : forall i v,
  add_at (add_at o i v) i (- v) = o.
Proof.
  induction o as [|a o IH]; intros [|i] v; simpl; auto.
  - f_equal. lia.
  - f_equal. apply IH.
Qed.

Lemma is_origin_nth o :
  is_origin o = true -> forall j, nth j o 0 = 0.
Proof.
  unfold is_origin.
  induction o as [|a o IH]; intros Ho [|j]; simpl in *; auto;
    apply andb_prop in Ho; destruct Ho as (Ha & Ho); [lia | auto].
Qed.

Lemma unit_box_add_at o : forall i,
  unit_box o -> nth i o 0 <= 0 -> unit_box (add_at o i 1).
Proof.
  unfold unit_box.
  induction o as [|a o IH]; intros [|i] Hu Hn; simpl in *; auto;
    inversion Hu; subst; constructor; auto; lia.
Qed.

Lemma deficit_add_at o : forall i,
  (i < length o)%nat -> deficit (add_at o i 1) = deficit o - 1.
Proof.
  induction o as [|a o IH]; intros [|i] Hi; cbn [add_at deficit length] in *;
    try lia.
  specialize (IH i ltac:(lia)). lia.
Qed.

Lemma deficit_nonneg o : unit_box o -> 0 <= deficit o.
Proof.
  induction 1 as [|a o Ha _ IH]; cbn [deficit]; lia.
Qed.

Lemma deficit_zero o :
  unit_box o -> deficit o = 0 -> o = repeat 1 (length o).
Proof.
  induction 1 as [|a o Ha Hu IH]; cbn [deficit length repeat]; intros Hd; auto.
  pose proof (deficit_nonneg o Hu).
  assert (a = 1) by lia. subst. f_equal. apply IH. lia.
Qed.

Lemma deficit_positive o :
  unit_box o -> 0 < deficit o -> exists d, In d o /\ d <= 0.
Proof.
  induction 1 as [|a o Ha Hu IH]; cbn [deficit]; intros Hd; [lia|].
  destruct (Z_le_gt_dec a 0) as [Hle|Hgt].
  - exists a. split; [left; reflexivity | exact Hle].
  - destruct IH as (d & Hin & Hd0); [lia|]. exists d.
    split; [right; exact Hin | exact Hd0].
Qed.

(** From an offset of the shell that is not the corner (1, ..., 1), one
    component can be raised by one without passing through the origin. *)
Lemma shell_step N o :
  (2 <= N)%nat -> shell_offset N o -> 0 < deficit o ->
  exists i, (i < N)%nat /\ nth i o 0 <= 0 /\ shell_offset N (add_at o i 1).
Proof.
  intros HN (Hlen & Hu & Hno) Hd.
  assert (Hshell : forall i, (i < N)%nat -> nth i o 0 <= 0 ->
                     (exists j, nth j (add_at o i 1) 0 <> 0) ->
                     shell_offset N (add_at o i 1)).
  { intros i Hi Hle (j & Hj). split; [|split].
    - now rewrite add_at_length.
    - now apply unit_box_add_at.
    - destruct (is_origin (add_at o i 1)) eqn:E; auto.
      exfalso. apply Hj. now apply is_origin_nth. }
  destruct (in_dec Z.eq_dec 0 o) as [Hz|Hnz].
  - destruct (In_nth o 0 0 Hz) as (i & Hi & Hn).
    exists i. split; [lia|]. split; [lia|].
    apply Hshell; [lia | lia |].
    exists i. rewrite nth_add_at, Nat.eqb_refl.
    destruct (Nat.ltb_spec i (length o)); lia.
  - destruct (deficit_positive o Hu Hd) as (d & Hin & Hd0).
    destruct (In_nth o d 0 Hin) as (i & Hi & Hn).
    exists i. split; [lia|]. split; [lia|].
    apply Hshell; [lia | lia |].
    exists (if (i =? 0)%nat then 1%nat else 0%nat).
    rewrite nth_add_at.
    destruct (Nat.eqb_spec i 0) as [->|Hi0].
    + simpl. intros H0. apply Hnz. rewrite <- H0. apply nth_In. lia.
    + destruct (Nat.eqb_spec 0 i); [lia|].
      intros H0. apply Hnz. rewrite <- H0. apply nth_In. lia.
Qed.
End Offsets.

(** ** The padded grid of [DilationBands] *)

Section Padding.

Lemma all_positive_padded size :
  all_positive size -> all_positive (map (fun d => d + 2) size).
Proof.
  unfold all_positive. intros Hpos. apply Forall_map.
  eapply Forall_impl; [|exact Hpos]. simpl. intros; lia.
Qed.

Lemma size_product_padded size :
  all_positive size ->
  size_product size <= size_product (map (fun d => d + 2) size) /\
  3 ^ Z.of_nat (length size) <= size_product (map (fun d => d + 2) size).
Proof.
  induction 1 as [|s size Hs Hpos IH].
  - simpl. lia.
  - pose proof (size_product_pos size Hpos) as Hp.
    cbn [map length]. rewrite Nat2Z.inj_succ, Z.pow_succ_r by lia.
    change (size_product (s :: size)) with (s * size_product size).
    change (size_product (s + 2 :: map (fun d => d + 2) size))
      with ((s + 2) * size_product (map (fun d => d + 2) size)).
    assert (0 < 3 ^ Z.of_nat (length size)) by (apply Z.pow_pos_nonneg; lia).
    nia.
Qed.

Lemma element_le_size_product size d :
  all_positive size -> In d size -> d <= size_product size.
Proof.
  induction 1 as [|s size Hs Hpos IH]; [intros []|intros [<-|Hin]].
  - pose proof (size_product_pos size Hpos).
    change (size_product (s :: size)) with (s * size_product size). nia.
  - pose proof (size_product_pos size Hpos). specialize (IH Hin).
    change (size_product (s :: size)) with (s * size_product size). nia.
Qed.

(** Without overflow the sizes of the padded grid are the sizes plus two. *)
Lemma padded_size_exact size :
  all_positive size ->
  size_product (map (fun d => d + 2) size) < size_t_modulus ->
  map (fun d => wrap64 (d + 2)) size = map (fun d => d + 2) size.
Proof.
  intros Hpos Hov. apply map_ext_in. intros d Hd.
  apply wrap64_small.
  pose proof (element_le_size_product _ (d + 2) (all_positive_padded _ Hpos)
                (in_map (fun d => d + 2) size d Hd)).
  unfold all_positive in Hpos. rewrite Forall_forall in Hpos.
  specialize (Hpos d Hd). simpl in Hpos. lia.
Qed.

(** The padded image of a cell, moved by an offset of the unit box, lies in
    the padded grid. *)
Lemma Inside_padded size : forall p o,
  length p = length size -> length o = length size ->
  Inside p size = true -> unit_box o ->
  Inside (add_index (map (fun d => d + 1) p) o) (map (fun d => d + 2) size)
  = true.
Proof.
  induction size as [|s size IH]; intros [|a p] [|b o] Hlp Hlo Hin Hu;
    simpl in Hlp, Hlo; try discriminate; auto.
  apply Inside_cons in Hin. destruct Hin as (Ha & Hin).
  inversion Hu; subst.
  cbn [map add_index]. apply Inside_cons. split; [lia|].
  apply IH; auto.
Qed.

Lemma wf_index_padded size p o :
  wf_index size p -> length o = length size -> unit_box o ->
  wf_index (map (fun d => d + 2) size)
           (add_index (map (fun d => d + 1) p) o).
Proof.
  intros (Hlp & Hin) Hlo Hu. split.
  - now rewrite add_index_length, !length_map.
  - now apply Inside_padded.
Qed.

Lemma unpad_add_index p : forall o,
  map (fun d => d - 1) (add_index (map (fun d => d + 1) p) o)
  = add_index p o.
Proof.
  induction p as [|a p IH]; intros [|b o]; simpl; auto.
  - f_equal; [lia|]. specialize (IH []). destruct p; simpl in *; auto.
  - f_equal; [lia | apply IH].
Qed.

(** Unless the grid is a single cell, some cell of the shell around a cell of
    the grid is in the grid. *)
Lemma shell_meets_grid size : forall p,
  all_positive size -> size_product size <> 1 ->
  length p = length size -> Inside p size = true ->
  exists o, length o = length size /\ unit_box o /\ is_origin o = false /\
            Inside (add_index p o) size = true.
Proof.
  induction size as [|s size IH]; intros [|a p] Hpos Hne Hlen Hin;
    simpl in Hlen; try discriminate.
  - exfalso. apply Hne. reflexivity.
  - inversion Hpos as [|? ? Hs Hpos']; subst.
    apply Inside_cons in Hin. destruct Hin as (Ha & Hin).
    change (size_product (s :: size)) with (s * size_product size) in Hne.
    assert (Hz : Inside (add_index p (repeat 0 (length size))) size = true)
      by now rewrite add_index_zeros.
    assert (Hzu : unit_box (repeat 0 (length size))).
    { apply Forall_forall. intros d Hd. apply repeat_spec in Hd. lia. }
    destruct (Z.eq_dec s 1) as [->|Hs1].
    + destruct (IH p Hpos') as (o & Hlo & Hu & Hno & Hio); auto; try lia.
      exists (0 :: o). cbn [length add_index]. split; [lia|].
      split; [constructor; [lia | exact Hu]|].
      split; [exact Hno|]. apply Inside_cons. split; [lia | exact Hio].
    + destruct (Z_lt_ge_dec (a + 1) s) as [Hlt|Hge].
      * exists (1 :: repeat 0 (length size)).
        cbn [length add_index]. rewrite repeat_length.
        split; [reflexivity|].
        split; [constructor; [lia | exact Hzu]|].
        split; [reflexivity|]. apply Inside_cons. split; [lia | exact Hz].
      * exists (-1 :: repeat 0 (length size)).
        cbn [length add_index]. rewrite repeat_length.
        split; [reflexivity|].
        split; [constructor; [lia | exact Hzu]|].
        split; [reflexivity|]. apply Inside_cons. split; [lia | exact Hz].
Qed.
End Padding.

(** ** The dilation of a single cell *)

Section SingleCell.
Variable size : Size.
Variable p : Index.
Hypothesis Hpos : all_positive size.
Hypothesis Hov : size_product (map (fun d => d + 2) size) < size_t_modulus.
Hypothesis HN : (2 <= length size)%nat.
Hypothesis Hp : wf_index size p.

Local Abbreviation N := (length size).
Local Abbreviation padded := (map (fun d => d + 2) size).
Local Abbreviation q := (map (fun d => d + 1) p).
Local Abbreviation V := (VertexNeighborOffsets (length size)).
Local Abbreviation F := (FaceNeighborOffsets (length size)).

Lemma padded_positive : all_positive padded.
Proof. now apply all_positive_padded. Qed.

Lemma size_no_overflow : size_product size < size_t_modulus.
Proof. pose proof (size_product_padded size Hpos). lia. Qed.

Lemma vertex_offsets_shell :
  NoDup V /\ forall o, In o V <-> shell_offset N o.
Proof.
  apply VertexNeighborOffsets_spec.
  pose proof (size_product_padded size Hpos). lia.
Qed.

Lemma length_q : length q = N.
Proof. rewrite length_map. apply Hp. Qed.

Lemma shell_wf o : shell_offset N o -> wf_index padded (add_index q o).
Proof.
  intros (Hl & Hu & _). now apply wf_index_padded.
Qed.

Lemma corner_shell : shell_offset N (repeat 1 N).
Proof.
  split; [apply repeat_length|]. split.
  - apply Forall_forall. intros d Hd. apply repeat_spec in Hd. lia.
  - destruct size as [|s size']; simpl in HN; [lia | reflexivity].
Qed.

(** The loop over the vertex offsets marks every cell of the shell. *)
Lemma dilate_offsets_fresh os : forall g acc,
  WfGrid g -> size_ g = padded -> NoDup os ->
  (forall o, In o os -> shell_offset N o) ->
  (forall o, In o os ->
             Cell g (add_index q o) = Ok DilationCell.kBackground) ->
  exists g',
    dilate_offsets os q g acc = Ok (g', acc ++ map (add_index q) os).
Proof.
  induction os as [|o os IH]; intros g acc Hwf Hsz Hnd Hsh Hbg.
  - exists g. simpl. now rewrite app_nil_r.
  - cbn [dilate_offsets]. rewrite (Hbg o (or_introl eq_refl)).
    cbn [bind DilationCell.eqb].
    assert (Ho : wf_index (size_ g) (add_index q o)).
    { rewrite Hsz. apply shell_wf, Hsh. left. reflexivity. }
    destruct (SetCell_wf g _ DilationCell.kDilated Hwf Ho) as (g1 & Hs).
    rewrite Hs. cbn [bind].
    inversion Hnd as [|? ? Hni Hnd']; subst.
    destruct (IH g1 (acc ++ [add_index q o])) as (g' & Hg').
    + eapply SetCell_WfGrid; eauto.
    + rewrite (SetCell_size _ _ _ _ Hs). exact Hsz.
    + exact Hnd'.
    + intros o' Ho'. apply Hsh. right. exact Ho'.
    + intros o' Ho'.
      rewrite (Cell_SetCell_other _ _ _ _ _ Hs Hwf Ho).
      * apply Hbg. right. exact Ho'.
      * rewrite Hsz. apply shell_wf, Hsh. right. exact Ho'.
      * intros Heq. apply Hni.
        assert (o = o'); [|now subst].
        apply (add_index_inj q); auto.
        -- rewrite length_q. apply (Hsh o). left. reflexivity.
        -- rewrite length_q. apply (Hsh o'). right. exact Ho'.
    + exists g'. rewrite Hg'. f_equal. f_equal.
      rewrite <- app_assoc. reflexivity.
Qed.

(** The face offsets connect the shell: whatever is closed under them and
    holds one cell of the shell holds the corner cell. *)
Lemma shell_connected (C : list Index) :
  (forall x o, In x C -> In o F ->
               wf_index padded (add_index x o) ->
               In (add_index x o) (map (add_index q) V) ->
               In (add_index x o) C) ->
  forall n o, shell_offset N o -> deficit o = Z.of_nat n ->
              (In (add_index q o) C <-> In (add_index q (repeat 1 N)) C).
Proof.
  intros Hclosed.
  destruct vertex_offsets_shell as (_ & HV).
  induction n as [|n IH]; intros o Hsh Hd.
  - destruct Hsh as (Hl & Hu & _).
    rewrite (deficit_zero o Hu Hd), Hl. reflexivity.
  - destruct (shell_step N o HN Hsh) as (i & Hi & Hle & Hsh'); [lia|].
    rewrite <- (IH (add_at o i 1) Hsh').
    2:{ rewrite deficit_add_at; [lia|]. destruct Hsh as (-> & _). exact Hi. }
    assert (Hlo : length o = length q).
    { rewrite length_q. apply Hsh. }
    assert (Hlq : length (add_index q o) = N).
    { rewrite add_index_length. apply length_q. }
    assert (Hlq' : length (add_index q (add_at o i 1)) = N).
    { rewrite add_index_length. apply length_q. }
    split; intros Hin.
    + rewrite <- add_at_add_index by exact Hlo.
      rewrite <- add_index_unit_offset, Hlq.
      apply Hclosed; auto.
      * now apply unit_offset_face.
      * rewrite <- Hlq at 1. rewrite add_index_unit_offset, add_at_add_index by exact Hlo.
        now apply shell_wf.
      * rewrite <- Hlq at 1. rewrite add_index_unit_offset, add_at_add_index by exact Hlo.
        apply in_map, HV. exact Hsh'.
    + replace (add_index q o)
        with (add_index (add_index q (add_at o i 1)) (unit_offset N i (-1))).
      * apply Hclosed; auto.
        -- now apply unit_offset_face.
        -- rewrite <- Hlq' at 1.
           rewrite add_index_unit_offset, add_at_add_index, add_at_back;
             [now apply shell_wf | now rewrite add_at_length].
        -- rewrite <- Hlq' at 1.
           rewrite add_index_unit_offset, add_at_add_index, add_at_back;
             [apply in_map, HV; exact Hsh | now rewrite add_at_length].
      * rewrite <- Hlq' at 1.
        rewrite add_index_unit_offset, add_at_add_index, add_at_back;
          [reflexivity | now rewrite add_at_length].
Qed.

(** The cells of the shell form one component of the padded grid. *)
Lemma dilation_components :
  exists C,
    ConnectedComponents (map (add_index q) V) padded F = Ok [C] /\
    (forall x, In x C <-> In x (map (add_index q) V)).
Proof.
  destruct vertex_offsets_shell as (_ & HV).
  assert (Hcorner : In (add_index q (repeat 1 N)) (map (add_index q) V)).
  { apply in_map, HV, corner_shell. }
  assert (HD : exists d0 D, map (add_index q) V = d0 :: D).
  { destruct (map (add_index q) V) as [|d0 D]; [destruct Hcorner | eauto]. }
  destruct HD as (d0 & D & HD).
  assert (Hshell : forall x, In x (d0 :: D) ->
                     exists o, shell_offset N o /\ x = add_index q o).
  { intros x Hx. rewrite <- HD in Hx. apply in_map_iff in Hx.
    destruct Hx as (o & <- & Ho). exists o. split; [now apply HV | reflexivity]. }
  destruct (ConnectedComponents_connected padded F padded_positive Hov d0 D)
    as (C & HC & Hiff & _).
  - intros x Hx. destruct (Hshell x Hx) as (o & Ho & ->). now apply shell_wf.
  - intros C Hd0 Hclosed x Hx.
    rewrite <- HD in Hclosed.
    destruct (Hshell x Hx) as (o & Ho & ->).
    destruct (Hshell d0 (or_introl eq_refl)) as (o0 & Ho0 & Hd0').
    rewrite Hd0' in Hd0.
    pose proof (deficit_nonneg o (proj1 (proj2 Ho))) as Hdo.
    pose proof (deficit_nonneg o0 (proj1 (proj2 Ho0))) as Hdo0.
    apply (shell_connected C Hclosed (Z.to_nat (deficit o)) o Ho);
      [lia|].
    apply (shell_connected C Hclosed (Z.to_nat (deficit o0)) o0 Ho0);
      [lia | exact Hd0].
  - exists C. rewrite HD. split; [exact HC | exact Hiff].
Qed.

(** The dilation of a single cell is a single band. *)
Lemma DilationBands_single :
  size_product size <> 1 ->
  exists band, DilationBands [p] size = Ok [band].
Proof.
  intros Hne.
  destruct vertex_offsets_shell as (Hnd & HV).
  unfold DilationBands. rewrite (padded_size_exact size Hpos Hov).
  destruct (make_Grid_fresh padded DilationCell.kBackground
              padded_positive Hov) as (g0 & Hmk & Hwf0 & Hsz0 & Hcells0).
  rewrite Hmk. cbn [bind map].
  assert (Hq : wf_index padded q).
  { rewrite <- (add_index_zeros q N).
    apply wf_index_padded; auto; [apply repeat_length|].
    apply Forall_forall. intros d Hd. apply repeat_spec in Hd. lia. }
  destruct (set_cells_spec [q] DilationCell.kForeground g0 Hwf0)
    as (g1 & Hset & Hwf1 & Hsz1 & Hin1 & Hout1).
  { intros x [<-|[]]. now rewrite Hsz0. }
  rewrite Hset. cbn [bind dilate_loop].
  destruct (dilate_offsets_fresh V g1 [] Hwf1) as (g2 & Hdil).
  - congruence.
  - exact Hnd.
  - intros o Ho. now apply HV.
  - intros o Ho. apply HV in Ho.
    rewrite Hout1.
    + apply Cell_repeat; auto.
      * rewrite Hcells0 at 1. now rewrite Hcells0, repeat_length.
      * rewrite Hsz0. now apply shell_wf.
    + rewrite Hsz0. now apply shell_wf.
    + intros [Heq|[]].
      destruct Ho as (Hl & _ & Hno).
      rewrite (add_index_fixed q o) in Hno; [discriminate | | auto].
      now rewrite length_q.
  - rewrite Hdil. cbn [bind app].
    destruct dilation_components as (C & HC & Hiff).
    rewrite HC. cbn [bind unpad_bands].
    destruct Hp as (Hlp & Hip).
    destruct (shell_meets_grid size p Hpos Hne Hlp Hip)
      as (o & Hlo & Hu & Hno & Hio).
    assert (Hband : In (add_index p o)
                       (filter (fun grid_index => Inside grid_index size)
                               (map (map (fun d => d - 1)) C))).
    { apply filter_In. split; [|exact Hio].
      rewrite <- unpad_add_index. apply in_map, Hiff, in_map, HV.
      split; [exact Hlo|]. split; [exact Hu | exact Hno]. }
    destruct (filter _ _) as [|b band]; [destruct Hband|].
    eexists. reflexivity.
Qed.

(** A component that is a single cell is reported as open. *)
Lemma component_step_single st :
  size_product size <> 1 ->
  component_step size [p] st = Err OpenConnectedComponent.
Proof.
  intros Hne. destruct (DilationBands_single Hne) as (band & Hb).
  unfold component_step. destruct st as ((g & inside) & outside).
  rewrite Hb. reflexivity.
Qed.

Lemma InitialSignedNarrowBands_single :
  size_product size <> 1 ->
  InitialSignedNarrowBands [p] size = Err OpenConnectedComponent.
Proof.
  intros Hne. unfold InitialSignedNarrowBands.
  rewrite (ConnectedComponents_single size V Hpos size_no_overflow p Hp).
  cbn [bind].
  destruct (make_Grid_fresh size NarrowBandCell.kBackground Hpos
              size_no_overflow) as (g & Hmk & Hwf & Hsz & _).
  rewrite Hmk. cbn [bind].
  destruct (set_cells_spec [p] NarrowBandCell.kFrozen g Hwf)
    as (g' & Hset & _).
  { intros x [<-|[]]. now rewrite Hsz. }
  rewrite Hset. cbn [bind components_loop].
  rewrite (component_step_single _ Hne). reflexivity.
Qed.
End SingleCell.


(** ** The two families of offsets are symmetric *)

Lemma unit_offset_opp N i v :
  map Z.opp (unit_offset N i v) = unit_offset N i (- v).
Proof.
  unfold unit_offset. rewrite map_map. apply map_ext. intros j.
  now destruct (j =? i)%nat.
Qed.

Lemma unit_offset_length N i v : length (unit_offset N i v) = N.
Proof. unfold unit_offset. now rewrite length_map, length_seq. Qed.

Lemma FaceNeighborOffsets_symmetric N :
  symmetric_offsets N (FaceNeighborOffsets N).
Proof.
  intros o Ho. unfold FaceNeighborOffsets in Ho. apply in_flat_map in Ho.
  destruct Ho as (i & Hi & Ho). apply in_seq in Hi.
  destruct (unit_offset_face N i ltac:(lia)) as (Hplus & Hminus).
  destruct Ho as [<-|[<-|[]]]; rewrite unit_offset_opp, unit_offset_length;
    split; auto.
Qed.

Lemma is_origin_opp o : is_origin (map Z.opp o) = is_origin o.
Proof.
  unfold is_origin. induction o as [|d o IH]; simpl; auto.
  rewrite IH. f_equal. destruct (Z.eqb_spec d 0), (Z.eqb_spec (- d) 0); lia.
Qed.

Lemma VertexNeighborOffsets_symmetric N :
  3 ^ Z.of_nat N < size_t_modulus ->
  symmetric_offsets N (VertexNeighborOffsets N).
Proof.
  intros Hlt o Ho.
  destruct (VertexNeighborOffsets_spec N Hlt) as (_ & Hshell).
  apply Hshell in Ho. destruct Ho as (Hl & Hu & Hno).
  split; [exact Hl|]. apply Hshell. split; [now rewrite length_map|].
  split; [|now rewrite is_origin_opp].
  apply Forall_map. eapply Forall_impl; [|exact Hu]. simpl. intros; lia.
Qed.

(** ** The cells that [DilationBands] collects around a component *)

Lemma pad_add_index y : forall o,
  map (fun d => d + 1) (add_index y o) = add_index (map (fun d => d + 1) y) o.
Proof.
  induction y as [|a y IH]; intros [|b o]; simpl; auto.
  f_equal; [lia | apply IH].
Qed.

Lemma pad_unpad (z : Index) :
  map (fun d => d + 1) (map (fun d => d - 1) z) = z.
Proof.
  rewrite map_map. rewrite <- (map_id z) at 2. apply map_ext. intros; lia.
Qed.

Lemma unpad_pad (z : Index) :
  map (fun d => d - 1) (map (fun d => d + 1) z) = z.
Proof.
  rewrite map_map. rewrite <- (map_id z) at 2. apply map_ext. intros; lia.
Qed.

(** A cell of a component of the padded grid that lies in the grid is kept
    in a band. *)
Lemma unpad_bands_keeps size z : forall comps comp,
  In comp comps -> In z comp ->
  Inside (map (fun d => d - 1) z) size = true ->
  exists band, In band (unpad_bands comps size) /\
               In (map (fun d => d - 1) z) band.
Proof.
  induction comps as [|comp0 comps IH]; intros comp Hcomp Hz Hin;
    [destruct Hcomp|].
  cbn [unpad_bands].
  set (b := filter (fun grid_index => Inside grid_index size)
                   (map (map (fun d => d - 1)) comp0)).
  destruct Hcomp as [->|Hcomp].
  - assert (Hb : In (map (fun d => d - 1) z) b).
    { unfold b. apply filter_In. split; [now apply in_map | exact Hin]. }
    destruct b as [|x0 b']; [destruct Hb|].
    eexists. split; [left; reflexivity | exact Hb].
  - destruct (IH comp Hcomp Hz Hin) as (band & Hband & Hx).
    exists band. split; [|exact Hx].
    destruct b; [exact Hband | right; exact Hband].
Qed.

Section Dilation.
Variable size : Size.
Variable c : list Index.
Hypothesis Hpos : all_positive size.
Hypothesis Hov : size_product (map (fun d => d + 2) size) < size_t_modulus.
Hypothesis Hc : forall y, In y c -> wf_index size y.

Local Abbreviation N := (length size).
Local Abbreviation padded := (map (fun d => d + 2) size).
Local Abbreviation pad := (map (fun d => d + 1)).
Local Abbreviation V := (VertexNeighborOffsets (length size)).

(** The dilation grid while the dilated cells are collected: the cells of
    the component, and no others, are [kForeground]; the cells collected,
    and no others, are [kDilated]; each of them is a vertex neighbour of a
    cell of the component. *)
Local Abbreviation collecting g acc :=
  (WfGrid g /\ size_ g = padded /\
   (forall y, In y c -> Cell g (pad y) = Ok DilationCell.kForeground) /\
   (forall z, wf_index padded z -> Cell g z = Ok DilationCell.kForeground ->
              exists y, In y c /\ z = pad y) /\
   (forall z, wf_index padded z -> Cell g z = Ok DilationCell.kDilated ->
              In z acc) /\
   (forall z, In z acc ->
              Cell g z = Ok DilationCell.kDilated /\
              wf_index padded z /\
              exists y o, In y c /\ In o V /\ z = add_index (pad y) o)).

Lemma vertex_shell : forall o, In o V <-> shell_offset N o.
Proof.
  apply VertexNeighborOffsets_spec.
  pose proof (size_product_padded size Hpos). lia.
Qed.

Lemma pad_wf y : wf_index size y -> wf_index padded (pad y).
Proof.
  intros Hy.
  rewrite <- (add_index_zeros (pad y) N).
  apply wf_index_padded; auto.
  - apply repeat_length.
  - apply Forall_forall. intros d Hd. apply repeat_spec in Hd. lia.
Qed.

(** The loop over the vertex offsets of one cell of the component collects
    every neighbour that is not collected yet and is not a cell of the
    component. *)
Lemma dilate_offsets_collecting os : forall y g acc,
  (forall o, In o os -> In o V) -> In y c ->
  collecting g acc ->
  exists g' acc',
    dilate_offsets os (pad y) g acc = Ok (g', acc') /\
    collecting g' acc' /\
    (forall z, In z acc -> In z acc') /\
    (forall o, In o os ->
               In (add_index (pad y) o) acc' \/
               exists y', In y' c /\ add_index (pad y) o = pad y').
Proof.
  induction os as [|o os IH]; intros y g acc Hos Hy Hinv.
  - exists g, acc. simpl. split; [reflexivity|]. split; [exact Hinv|].
    split; [auto | intros o []].
  - cbn [dilate_offsets].
    destruct Hinv as (Hwf & Hsz & Hfg & Hfg' & Hdil' & Hacc).
    assert (Ho : In o V) by (apply Hos; now left).
    assert (Hos' : forall o', In o' os -> In o' V)
      by (intros o' Ho'; apply Hos; now right).
    assert (Hwn : wf_index padded (add_index (pad y) o)).
    { apply vertex_shell in Ho. destruct Ho as (Hl & Hu & _).
      apply wf_index_padded; auto. }
    assert (Hwn' : wf_index (size_ g) (add_index (pad y) o))
      by now rewrite Hsz.
    destruct (Cell_wf g _ Hwf Hwn') as (c0 & Hc0). rewrite Hc0. cbn [bind].
    destruct c0; cbn [DilationCell.eqb].
    + destruct (SetCell_wf g _ DilationCell.kDilated Hwf Hwn') as (g1 & Hs).
      rewrite Hs. cbn [bind].
      pose proof (SetCell_WfGrid _ _ _ _ Hs Hwf) as Hwf1.
      pose proof (SetCell_size _ _ _ _ Hs) as Hsz1.
      assert (Hsame : Cell g1 (add_index (pad y) o)
                      = Ok DilationCell.kDilated)
        by (eapply Cell_SetCell_same; eauto).
      assert (Hother : forall z, wf_index padded z ->
                                 z <> add_index (pad y) o ->
                                 Cell g1 z = Cell g z).
      { intros z Hz Hne. eapply Cell_SetCell_other; eauto;
          rewrite Hsz; auto. }
      assert (Hcase : forall z, wf_index padded z ->
                        (z = add_index (pad y) o /\
                         Cell g1 z = Ok DilationCell.kDilated) \/
                        (z <> add_index (pad y) o /\ Cell g1 z = Cell g z)).
      { intros z Hz.
        destruct (list_eq_dec Z.eq_dec z (add_index (pad y) o)) as [->|Hne];
          [left | right]; auto. }
      destruct (IH y g1 (acc ++ [add_index (pad y) o]) Hos' Hy)
        as (g' & acc' & Hd & Hinv' & Hsub & Hvis).
      { split; [exact Hwf1|]. split; [congruence|].
        split; [|split; [|split]].
        - intros y' Hy'. rewrite Hother; auto.
          + apply pad_wf; auto.
          + intros Heq. specialize (Hfg y' Hy'). rewrite Heq, Hc0 in Hfg.
            discriminate.
        - intros z Hz Hcz. destruct (Hcase z Hz) as [(-> & Hd1)|(Hne & He)].
          + rewrite Hd1 in Hcz. discriminate.
          + rewrite He in Hcz. auto.
        - intros z Hz Hcz. apply in_or_app.
          destruct (Hcase z Hz) as [(-> & Hd1)|(Hne & He)].
          + right. now left.
          + rewrite He in Hcz. left. auto.
        - intros z Hz. apply in_app_or in Hz. destruct Hz as [Hz|[<-|[]]].
          + destruct (Hacc z Hz) as (Hd0 & Hwz & Hex).
            split; [|split; auto]. rewrite Hother; auto.
            intros Heq. rewrite Heq, Hc0 in Hd0. discriminate.
          + split; [exact Hsame|]. split; auto. exists y, o. auto. }
      exists g', acc'. split; [exact Hd|]. split; [exact Hinv'|]. split.
      * intros z Hz. apply Hsub. apply in_or_app. now left.
      * intros o' [<-|Ho']; [|now apply Hvis].
        left. apply Hsub. apply in_or_app. right. now left.
    + destruct (IH y g acc Hos' Hy) as (g' & acc' & Hd & Hinv' & Hsub & Hvis).
      { repeat (split; [assumption|]). assumption. }
      exists g', acc'. split; [exact Hd|]. split; [exact Hinv'|].
      split; [exact Hsub|].
      intros o' [<-|Ho']; [|now apply Hvis].
      right. destruct (Hfg' _ Hwn Hc0) as (y' & Hy' & Heq). eauto.
    + destruct (IH y g acc Hos' Hy) as (g' & acc' & Hd & Hinv' & Hsub & Hvis).
      { repeat (split; [assumption|]). assumption. }
      exists g', acc'. split; [exact Hd|]. split; [exact Hinv'|].
      split; [exact Hsub|].
      intros o' [<-|Ho']; [|now apply Hvis].
      left. apply Hsub. now apply Hdil'.
Qed.

Lemma dilate_loop_collecting indices : forall g acc,
  (forall y, In y indices -> In y c) ->
  collecting g acc ->
  exists g' acc',
    dilate_loop indices V g acc = Ok (g', acc') /\
    collecting g' acc' /\
    (forall z, In z acc -> In z acc') /\
    (forall y o, In y indices -> In o V ->
                 In (add_index (pad y) o) acc' \/
                 exists y', In y' c /\ add_index (pad y) o = pad y').
Proof.
  induction indices as [|y indices IH]; intros g acc Hin Hinv.
  - exists g, acc. simpl. split; [reflexivity|]. split; [exact Hinv|].
    split; [auto | intros y o []].
  - cbn [dilate_loop].
    destruct (dilate_offsets_collecting V y g acc)
      as (g1 & acc1 & Ho & Hinv1 & Hsub1 & Hvis1); auto.
    { apply Hin. now left. }
    rewrite Ho. cbn [bind].
    destruct (IH g1 acc1) as (g' & acc' & Hd & Hinv' & Hsub & Hvis); auto.
    { intros y' Hy'. apply Hin. now right. }
    exists g', acc'. split; [exact Hd|]. split; [exact Hinv'|]. split.
    + intros z Hz. apply Hsub, Hsub1, Hz.
    + intros y' o [<-|Hy'] Ho'; [|now apply Hvis].
      destruct (Hvis1 o Ho') as [Hi|Hex]; [left; now apply Hsub | now right].
Qed.
End Dilation.

(** [DilationBands] returns; its bands lie in the grid and hold, between
    them, the vertex neighbours in the grid of the cells of the component
    that are not cells of the component, and nothing else. *)
Lemma DilationBands_shell size c :
  all_positive size ->
  size_product (map (fun d => d + 2) size) < size_t_modulus ->
  (forall y, In y c -> wf_index size y) ->
  exists bands,
    DilationBands c size = Ok bands /\
    (forall band x, In band bands -> In x band ->
       ~ In x c /\
       exists y o, In y c /\ In o (VertexNeighborOffsets (length size)) /\
                   x = add_index y o) /\
    (forall y o, In y c -> In o (VertexNeighborOffsets (length size)) ->
                 Inside (add_index y o) size = true ->
                 ~ In (add_index y o) c ->
                 exists band, In band bands /\ In (add_index y o) band).
Proof.
  intros Hpos Hov Hc. unfold DilationBands.
  destruct c as [|y0 c0] eqn:Ec.
  { exists []. split; [reflexivity|]. split; [intros band x []|].
    intros y o []. }
  rewrite <- Ec in *. cbv zeta.
  rewrite (padded_size_exact size Hpos Hov).
  destruct (make_Grid_fresh (map (fun d => d + 2) size)
              DilationCell.kBackground (all_positive_padded _ Hpos) Hov)
    as (g0 & Hmk & Hwf0 & Hsz0 & Hcells0).
  rewrite Hmk. cbn [bind].
  destruct (set_cells_spec (map (map (fun d => d + 1)) c)
              DilationCell.kForeground g0 Hwf0)
    as (g1 & Hset & Hwf1 & Hsz1 & Hin1 & Hout1).
  { intros z Hz. apply in_map_iff in Hz. destruct Hz as (y & <- & Hy).
    rewrite Hsz0. apply pad_wf; auto. }
  rewrite Hset. cbn [bind].
  assert (Hbg : forall z, wf_index (map (fun d => d + 2) size) z ->
                  ~ In z (map (map (fun d => d + 1)) c) ->
                  Cell g1 z = Ok DilationCell.kBackground).
  { intros z Hz Hni. rewrite Hout1; auto; [|now rewrite Hsz0].
    apply Cell_repeat; auto; [|now rewrite Hsz0].
    rewrite Hcells0 at 1. now rewrite Hcells0, repeat_length. }
  assert (Hdec : forall z, In z (map (map (fun d => d + 1)) c) \/
                           ~ In z (map (map (fun d => d + 1)) c)).
  { intros z.
    destruct (in_dec (list_eq_dec Z.eq_dec) z
                     (map (map (fun d => d + 1)) c)); auto. }
  destruct (dilate_loop_collecting size c Hpos Hov Hc c g1 [])
    as (g2 & dil & Hdl & (Hwf2 & Hsz2 & Hfg & Hfg' & Hdil' & Hdil) & _ & Hvis);
    auto.
  { split; [exact Hwf1|]. split; [congruence|]. split; [|split; [|split]].
    - intros y Hy. apply Hin1. now apply in_map.
    - intros z Hz Hcz. destruct (Hdec z) as [Hi|Hni].
      + apply in_map_iff in Hi. destruct Hi as (y & <- & Hy). eauto.
      + rewrite (Hbg z Hz Hni) in Hcz. discriminate.
    - intros z Hz Hcz. destruct (Hdec z) as [Hi|Hni].
      + rewrite (Hin1 z Hi) in Hcz. discriminate.
      + rewrite (Hbg z Hz Hni) in Hcz. discriminate.
    - intros z []. }
  rewrite Hdl. cbn [bind].
  destruct (ConnectedComponents_partition (map (fun d => d + 2) size)
              (FaceNeighborOffsets (length size))
              (all_positive_padded _ Hpos) Hov dil)
    as (comps & Hcc & Hcomps & Hall & _).
  { rewrite length_map. apply FaceNeighborOffsets_symmetric. }
  { intros z Hz. now apply Hdil. }
  rewrite Hcc. cbn [bind].
  exists (unpad_bands comps size). split; [reflexivity|]. split.
  - intros band x Hband Hx.
    destruct (unpad_bands_cells _ _ _ Hband) as (_ & comp & Hcomp & Hallc).
    destruct (Hallc x Hx) as (_ & z & Hz & ->).
    destruct (Hcomps comp Hcomp) as (HcompD & _).
    destruct (HcompD z Hz) as (_ & HzD).
    destruct (Hdil z HzD) as (Hdz & _ & y & o & Hy & Ho & ->).
    split.
    + intros Hi. specialize (Hfg _ Hi). rewrite pad_unpad in Hfg.
      rewrite Hdz in Hfg. discriminate.
    + exists y, o. split; auto. split; auto. apply unpad_add_index.
  - intros y o Hy Ho Hin Hnc.
    destruct (Hvis y o Hy Ho) as [Hi|(y' & Hy' & Heq)].
    + destruct (Hall _ Hi) as (comp & Hcomp & Hz).
      rewrite <- (unpad_add_index y o).
      apply (unpad_bands_keeps size _ comps comp Hcomp Hz).
      now rewrite unpad_add_index.
    + exfalso. apply Hnc.
      rewrite <- (unpad_add_index y o), Heq, unpad_pad. exact Hy'.
Qed.

(** ** No cell of a dilation band is a seed *)

Lemma dilation_bands_off_seeds frozen_indices grid_size :
  all_positive grid_size ->
  size_product (map (fun d => d + 2) grid_size) < size_t_modulus ->
  (forall seed, In seed frozen_indices -> wf_index grid_size seed) ->
  dilation_off_seeds frozen_indices grid_size.
Proof.
  intros Hpos Hov Hseeds comps c bands band x Hcc Hc Hbands Hband Hx Hseed.
  pose proof (size_product_padded grid_size Hpos) as (Hle & H3).
  destruct (ConnectedComponents_partition grid_size
              (VertexNeighborOffsets (length grid_size)) Hpos ltac:(lia)
              frozen_indices) as (comps' & Hcc' & Hcomps & _).
  { apply VertexNeighborOffsets_symmetric. lia. }
  { exact Hseeds. }
  rewrite Hcc in Hcc'. inversion Hcc'; subst comps'. clear Hcc'.
  destruct (Hcomps c Hc) as (HcD & Hclosed & _).
  destruct (DilationBands_shell grid_size c Hpos Hov
              (fun y Hy => proj1 (HcD y Hy)))
    as (bands' & Hbands' & Hshell & _).
  rewrite Hbands in Hbands'. inversion Hbands'; subst bands'. clear Hbands'.
  destruct (Hshell band x Hband Hx) as (Hnot & y & o & Hy & Ho & ->).
  apply Hnot. apply Hclosed; auto.
Qed.


(** ** Bounding boxes and their volume *)

Section Boxes.
Variable N : nat.

Lemma BoundingBox_step_nth (bbox : list (Z * Z)) (index : Index) i :
  length bbox = N -> length index = N -> (i < N)%nat ->
  nth i (map (fun p : (Z * Z) * Z =>
                (Z.min (fst (fst p)) (snd p), Z.max (snd (fst p)) (snd p)))
             (combine bbox index)) (0, 0)
  = (Z.min (fst (nth i bbox (0, 0))) (nth i index 0),
     Z.max (snd (nth i bbox (0, 0))) (nth i index 0)).
Proof.
  revert N bbox index. induction i as [|i IH]; intros n bbox index Hb Hx Hi;
    destruct bbox as [|b bbox]; destruct index as [|x index];
    simpl in Hb, Hx; try lia; simpl; auto.
  apply (IH (length bbox)); auto; lia.
Qed.

Lemma BoundingBox_fold (indices : list Index) : forall bbox,
  length bbox = N -> Forall (fun index => length index = N) indices ->
  let box :=
    fold_left
      (fun bbox index =>
         map (fun p : (Z * Z) * Z =>
                (Z.min (fst (fst p)) (snd p), Z.max (snd (fst p)) (snd p)))
             (combine bbox index))
      indices bbox in
  length box = N /\
  forall i, (i < N)%nat ->
    fst (nth i box (0, 0)) <= fst (nth i bbox (0, 0)) /\
    snd (nth i bbox (0, 0)) <= snd (nth i box (0, 0)) /\
    (forall index, In index indices ->
       fst (nth i box (0, 0)) <= nth i index 0 <= snd (nth i box (0, 0))) /\
    (fst (nth i box (0, 0)) = fst (nth i bbox (0, 0)) \/
     exists index, In index indices /\
                   nth i index 0 = fst (nth i box (0, 0))) /\
    (snd (nth i box (0, 0)) = snd (nth i bbox (0, 0)) \/
     exists index, In index indices /\
                   nth i index 0 = snd (nth i box (0, 0))).
Proof.
  induction indices as [|x indices IH]; intros bbox Hb Hlen; cbn zeta.
  - simpl. split; [exact Hb|]. intros i Hi.
    split; [lia|]. split; [lia|]. split; [intros index []|].
    split; left; reflexivity.
  - pose proof (Forall_inv Hlen) as Hx. cbv beta in Hx.
    pose proof (Forall_inv_tail Hlen) as Hlen'.
    cbn [fold_left].
    set (bbox1 := map (fun p : (Z * Z) * Z =>
                         (Z.min (fst (fst p)) (snd p),
                          Z.max (snd (fst p)) (snd p)))
                      (combine bbox x)).
    assert (Hb1 : length bbox1 = N).
    { unfold bbox1. rewrite length_map, length_combine. lia. }
    destruct (IH bbox1 Hb1 Hlen') as (Hl & Hall). cbn zeta in Hl, Hall.
    split; [exact Hl|]. intros i Hi.
    destruct (Hall i Hi) as (Hlo & Hhi & Hin & Hmin & Hmax).
    assert (Hn1 : nth i bbox1 (0, 0)
                  = (Z.min (fst (nth i bbox (0, 0))) (nth i x 0),
                     Z.max (snd (nth i bbox (0, 0))) (nth i x 0)))
      by (apply BoundingBox_step_nth; auto).
    rewrite Hn1 in Hlo, Hhi, Hmin, Hmax.
    cbn [fst snd] in Hlo, Hhi, Hmin, Hmax.
    split; [lia|]. split; [lia|]. split; [|split].
    + intros index [<-|Hi']; [lia | now apply Hin].
    + destruct Hmin as [Hmin|(index & Hi' & Hv)].
      * destruct (Z.min_spec (fst (nth i bbox (0, 0))) (nth i x 0))
          as [(_ & Hm)|(_ & Hm)]; rewrite Hm in Hmin.
        -- left. exact Hmin.
        -- right. exists x. split; [left; reflexivity | now symmetry].
      * right. exists index. split; [right; exact Hi' | exact Hv].
    + destruct Hmax as [Hmax|(index & Hi' & Hv)].
      * destruct (Z.max_spec (snd (nth i bbox (0, 0))) (nth i x 0))
          as [(_ & Hm)|(_ & Hm)]; rewrite Hm in Hmax.
        -- right. exists x. split; [left; reflexivity | now symmetry].
        -- left. exact Hmax.
      * right. exists index. split; [right; exact Hi' | exact Hv].
Qed.

Lemma BoundingBox_tight (indices : list Index) :
  indices <> [] ->
  Forall (fun index => length index = N /\
                       Forall (fun x => int32_min <= x <= int32_max) index)
         indices ->
  BoundingBox N [] = Err EmptyBoundingBox /\
  exists bbox,
    BoundingBox N indices = Ok bbox /\ length bbox = N /\
    forall i, (i < N)%nat ->
      (forall index, In index indices ->
         fst (nth i bbox (0, 0)) <= nth i index 0 <= snd (nth i bbox (0, 0)))
      /\ (exists index, In index indices /\
                        nth i index 0 = fst (nth i bbox (0, 0)))
      /\ (exists index, In index indices /\
                        nth i index 0 = snd (nth i bbox (0, 0))).
Proof.
  intros Hne Hall. split; [reflexivity|].
  destruct indices as [|x0 rest]; [congruence|].
  assert (Hlen : Forall (fun index => length index = N) (x0 :: rest)).
  { eapply Forall_impl; [|exact Hall]. simpl. tauto. }
  destruct (BoundingBox_fold (x0 :: rest) (repeat (int32_max, int32_min) N)
              (repeat_length _ N) Hlen) as (Hl & Hbox).
  cbn zeta in Hl, Hbox. unfold BoundingBox.
  eexists. split; [reflexivity|].
  split; [exact Hl|]. intros i Hi.
  destruct (Hbox i Hi) as (_ & _ & Hin & Hmin & Hmax).
  split; [exact Hin|].
  assert (Hx0 : In x0 (x0 :: rest)) by (left; reflexivity).
  assert (Hrange : int32_min <= nth i x0 0 <= int32_max).
  { rewrite Forall_forall in Hall. destruct (Hall x0 Hx0) as (Hl0 & Hr).
    rewrite Forall_forall in Hr. apply Hr, nth_In. lia. }
  assert (Hinit : nth i (repeat (int32_max, int32_min) N) (0, 0)
                  = (int32_max, int32_min)).
  { apply (repeat_spec N). apply nth_In. now rewrite repeat_length. }
  rewrite Hinit in Hmin, Hmax. cbn [fst snd] in Hmin, Hmax.
  specialize (Hin x0 Hx0). split.
  - destruct Hmin as [Hmin|Hmin]; [|exact Hmin].
    exists x0. split; [exact Hx0 | lia].
  - destruct Hmax as [Hmax|Hmax]; [|exact Hmax].
    exists x0. split; [exact Hx0 | lia].
Qed.

(** [BoundingBox] fails on an empty list.  On a non-empty list of indices
    with components in the range of [int32_t] it returns, for every axis,
    the smallest and the largest component found on that axis. *)
Theorem BoundingBox_is_tight (indices : list Index) :
  indices <> [] ->
  Forall (fun index => length index = N /\
                       Forall (fun x => int32_min <= x <= int32_max) index)
         indices ->
  BoundingBox N [] = Err EmptyBoundingBox /\
  exists bbox,
    BoundingBox N indices = Ok bbox /\ length bbox = N /\
    forall i, (i < N)%nat ->
      (forall index, In index indices ->
         fst (nth i bbox (0, 0)) <= nth i index 0 <= snd (nth i bbox (0, 0)))
      /\ (exists index, In index indices /\
                        nth i index 0 = fst (nth i bbox (0, 0)))
      /\ (exists index, In index indices /\
                        nth i index 0 = snd (nth i bbox (0, 0))).
Proof. apply BoundingBox_tight. Qed.
End Boxes.

Lemma BoundingBox_is_tight_witness :
  BoundingBox 2 [] = Err EmptyBoundingBox /\
  exists bbox,
    BoundingBox 2 [[3; 1]; [0; 4]; [2; 2]] = Ok bbox /\
    length bbox = 2%nat /\
    forall i, (i < 2)%nat ->
      (forall index, In index [[3; 1]; [0; 4]; [2; 2]] ->
         fst (nth i bbox (0, 0)) <= nth i index 0 <= snd (nth i bbox (0, 0)))
      /\ (exists index, In index [[3; 1]; [0; 4]; [2; 2]] /\
                        nth i index 0 = fst (nth i bbox (0, 0)))
      /\ (exists index, In index [[3; 1]; [0; 4]; [2; 2]] /\
                        nth i index 0 = snd (nth i bbox (0, 0))).
Proof.
  apply (BoundingBox_is_tight 2 [[3; 1]; [0; 4]; [2; 2]]).
  - discriminate.
  - repeat constructor; vm_compute; discriminate.
Defined.

Lemma wrap_int32_small z : - 2 ^ 31 <= z < 2 ^ 31 -> wrap_int32 z = z.
Proof.
  intros Hz. unfold wrap_int32. rewrite Z.mod_small; lia.
Qed.

Lemma HyperVolume_product (bbox : list (Z * Z)) :
  Forall (fun b : Z * Z => fst b <= snd b /\ snd b - fst b + 1 <= int32_max)
         bbox ->
  fold_right (fun (b : Z * Z) acc => (snd b - fst b + 1) * acc) 1 bbox
  < size_t_modulus ->
  HyperVolume bbox
  = fold_right (fun (b : Z * Z) acc => (snd b - fst b + 1) * acc) 1 bbox.
Proof.
  unfold HyperVolume.
  assert (Hgen : forall acc,
             0 < acc ->
             Forall (fun b : Z * Z =>
                       fst b <= snd b /\ snd b - fst b + 1 <= int32_max)
                    bbox ->
             acc * fold_right (fun (b : Z * Z) a => (snd b - fst b + 1) * a)
                              1 bbox < size_t_modulus ->
             fold_left (fun hyper_volume (b : Z * Z) =>
                          wrap64 (hyper_volume
                                  * wrap64 (wrap_int32
                                              (wrap_int32 (snd b - fst b) + 1))))
                       bbox acc
             = acc * fold_right (fun (b : Z * Z) a =>
                                   (snd b - fst b + 1) * a) 1 bbox).
  { induction bbox as [|b bbox IH]; intros acc Hacc Hall Hlt.
    - simpl. lia.
    - inversion Hall as [|? ? [Hb Hb32] Hall']; subst.
      cbn [fold_left fold_right] in *.
      set (rest := fold_right (fun (b : Z * Z) a => (snd b - fst b + 1) * a)
                              1 bbox) in *.
      assert (Hrest : 0 < rest).
      { unfold rest. clear - Hall'.
        induction Hall' as [|c l [Hc _] _ IHl]; simpl; [lia|]. nia. }
      assert (He : 0 < snd b - fst b + 1) by lia.
      assert (H1 : snd b - fst b + 1 <= (snd b - fst b + 1) * rest) by nia.
      assert (H2 : (snd b - fst b + 1) * rest
                   <= acc * ((snd b - fst b + 1) * rest)) by nia.
      assert (H3 : acc * (snd b - fst b + 1)
                   <= acc * ((snd b - fst b + 1) * rest)) by nia.
      unfold int32_max in Hb32.
      rewrite (wrap_int32_small (snd b - fst b)) by lia.
      rewrite (wrap_int32_small (snd b - fst b + 1)) by lia.
      rewrite (wrap64_small (snd b - fst b + 1)) by lia.
      rewrite (wrap64_small (acc * (snd b - fst b + 1))) by nia.
      rewrite IH; auto; [ring | nia |].
      replace (acc * (snd b - fst b + 1) * rest)
        with (acc * ((snd b - fst b + 1) * rest)) by ring.
      exact Hlt. }
  intros Hall Hlt. rewrite Hgen; auto; lia.
Qed.

(** When every extent [max - min + 1] is positive and fits [std::int32_t],
    and the product of the extents fits [size_t], [HyperVolume] is the
    product of the extents. *)
Theorem HyperVolume_is_product (bbox : list (Z * Z)) :
  Forall (fun b : Z * Z => fst b <= snd b /\ snd b - fst b + 1 <= int32_max)
         bbox ->
  fold_right (fun (b : Z * Z) acc => (snd b - fst b + 1) * acc) 1 bbox
  < size_t_modulus ->
  HyperVolume bbox
  = fold_right (fun (b : Z * Z) acc => (snd b - fst b + 1) * acc) 1 bbox.
Proof. apply HyperVolume_product. Qed.

Lemma HyperVolume_is_product_witness :
  HyperVolume [(0, 3); (1, 4)]
  = fold_right (fun (b : Z * Z) acc => (snd b - fst b + 1) * acc) 1
               [(0, 3); (1, 4)].
Proof.
  apply (HyperVolume_is_product [(0, 3); (1, 4)]).
  - repeat constructor; simpl; unfold int32_max; lia.
  - reflexivity.
Defined.


(** ** The sort of the band areas *)

Lemma insert_by_area_Permutation x : forall sorted,
  Permutation (x :: sorted) (insert_by_area x sorted).
Proof.
  induction sorted as [|y sorted IH]; simpl; [apply Permutation_refl|].
  destruct (snd y <? snd x); [apply Permutation_refl|].
  eapply perm_trans; [apply perm_swap|]. now apply perm_skip.
Qed.

Lemma sort_by_area_fold areas : forall acc,
  Permutation (areas ++ acc)
              (fold_left (fun sorted x => insert_by_area x sorted) areas acc).
Proof.
  induction areas as [|x areas IH]; intros acc; simpl;
    [apply Permutation_refl|].
  eapply perm_trans; [|apply IH].
  eapply perm_trans; [apply Permutation_middle|].
  apply Permutation_app_head. apply insert_by_area_Permutation.
Qed.

Lemma sort_by_area_Permutation areas :
  Permutation areas (sort_by_area areas).
Proof.
  unfold sort_by_area. rewrite <- (app_nil_r areas) at 1.
  apply sort_by_area_fold.
Qed.

Lemma insert_by_area_descending x : forall sorted,
  descending_areas sorted -> descending_areas (insert_by_area x sorted).
Proof.
  unfold descending_areas.
  induction sorted as [|y sorted IH]; intros Hs; simpl.
  - constructor; constructor.
  - apply StronglySorted_inv in Hs. destruct Hs as (Hs & Hy).
    destruct (Z.ltb_spec (snd y) (snd x)).
    + constructor; [constructor; auto|].
      constructor; [lia|].
      eapply Forall_impl; [|exact Hy]. intros b Hb. simpl in Hb. lia.
    + constructor; [now apply IH|].
      eapply Permutation_Forall; [apply insert_by_area_Permutation|].
      constructor; auto.
Qed.

Lemma sort_by_area_descending areas : descending_areas (sort_by_area areas).
Proof.
  unfold sort_by_area.
  assert (Hgen : forall acc,
             descending_areas acc ->
             descending_areas
               (fold_left (fun sorted x => insert_by_area x sorted) areas acc)).
  { induction areas as [|x areas IH]; intros acc Hacc; simpl; auto.
    apply IH. now apply insert_by_area_descending. }
  apply Hgen. constructor.
Qed.

(** The first pair of the sorted list has the largest area. *)
Lemma sort_by_area_head areas first k pair :
  nth_error (sort_by_area areas) 0 = Some first ->
  nth_error (sort_by_area areas) k = Some pair ->
  snd pair <= snd first.
Proof.
  pose proof (sort_by_area_descending areas) as Hd.
  unfold descending_areas in Hd.
  destruct (sort_by_area areas) as [|h t]; [discriminate|].
  intros H0 Hk. simpl in H0. inversion H0; subst h.
  apply StronglySorted_inv in Hd. destruct Hd as (_ & Hall).
  destruct k as [|k]; simpl in Hk.
  - inversion Hk; subst. lia.
  - rewrite Forall_forall in Hall. apply Hall. eapply nth_error_In; eauto.
Qed.

(** ** The areas of the bands *)

Lemma band_areas_spec N bands : forall i areas,
  band_areas N i bands = Ok areas ->
  length areas = length bands /\
  map fst areas = map (fun k => i + Z.of_nat k) (seq 0 (length bands)) /\
  forall k band, nth_error bands k = Some band ->
    exists bbox, BoundingBox N band = Ok bbox /\
                 nth_error areas k = Some (i + Z.of_nat k, HyperVolume bbox).
Proof.
  induction bands as [|band0 bands IH]; intros i areas Ha; simpl in Ha.
  - inversion Ha; subst. split; [reflexivity|]. split; [reflexivity|].
    intros [|k] band Hk; discriminate.
  - destruct (BoundingBox N band0) as [bbox0|e] eqn:Hb; [|discriminate].
    cbn [bind] in Ha.
    destruct (band_areas N (i + 1) bands) as [rest|e] eqn:Hr; [|discriminate].
    cbn [bind] in Ha. inversion Ha; subst areas. clear Ha.
    destruct (IH _ _ Hr) as (Hlen & Hfst & Hall).
    split; [simpl; now rewrite Hlen|]. split.
    + cbn [map length seq fst]. f_equal; [lia|].
      rewrite Hfst, <- seq_shift, map_map.
      apply map_ext. intros k. lia.
    + intros [|k] band Hk; simpl in Hk.
      * inversion Hk; subst. exists bbox0. split; auto. simpl.
        do 2 f_equal. lia.
      * destruct (Hall k band Hk) as (bbox & Hbb & Hn).
        exists bbox. split; auto. simpl. rewrite Hn. do 2 f_equal. lia.
Qed.

(** ** The area the code computes is the cell count of the bounding box *)

Lemma fold_min_spec (values : list Z) lo :
  (forall v, In v values -> lo <= v) -> In lo values ->
  fold_right Z.min (hd 0 values) values = lo.
Proof.
  intros Hle Hin.
  assert (Hgen : forall init, lo <= init ->
             fold_right Z.min init values = lo).
  { induction values as [|v values IH]; [destruct Hin|].
    intros init Hinit. simpl.
    destruct (in_dec Z.eq_dec lo values) as [Hi|Hni].
    - rewrite IH; auto.
      + apply Z.min_r. apply Hle. left. reflexivity.
      + intros w Hw. apply Hle. right. exact Hw.
    - destruct Hin as [->|Hin]; [|contradiction].
      apply Z.min_l.
      clear IH Hni. induction values as [|w values IHv]; simpl; [lia|].
      apply Z.min_glb.
      + apply Hle. right. left. reflexivity.
      + apply IHv. intros u [<-|Hu]; apply Hle; [left|right; right]; auto. }
  apply Hgen. destruct values as [|v values]; [destruct Hin|].
  simpl. apply Hle. left. reflexivity.
Qed.

Lemma fold_max_spec (values : list Z) hi :
  (forall v, In v values -> v <= hi) -> In hi values ->
  fold_right Z.max (hd 0 values) values = hi.
Proof.
  intros Hle Hin.
  assert (Hgen : forall init, init <= hi ->
             fold_right Z.max init values = hi).
  { induction values as [|v values IH]; [destruct Hin|].
    intros init Hinit. simpl.
    destruct (in_dec Z.eq_dec hi values) as [Hi|Hni].
    - rewrite IH; auto.
      + apply Z.max_r. apply Hle. left. reflexivity.
      + intros w Hw. apply Hle. right. exact Hw.
    - destruct Hin as [->|Hin]; [|contradiction].
      apply Z.max_l.
      clear IH Hni. induction values as [|w values IHv]; simpl; [lia|].
      apply Z.max_lub.
      + apply Hle. right. left. reflexivity.
      + apply IHv. intros u [<-|Hu]; apply Hle; [left|right; right]; auto. }
  apply Hgen. destruct values as [|v values]; [destruct Hin|].
  simpl. apply Hle. left. reflexivity.
Qed.

Lemma Inside_nth : forall (size : Size) (x : Index) i,
  length x = length size -> Inside x size = true -> (i < length size)%nat ->
  0 <= nth i x 0 < nth i size 0.
Proof.
  induction size as [|s size IH]; intros [|a x] i Hl Hin Hi; simpl in *;
    try lia.
  destruct (Z.leb_spec 0 a); simpl in Hin; [|discriminate].
  destruct (Z.ltb_spec a s); simpl in Hin; [|discriminate].
  destruct i as [|i]; [lia|]. apply IH; auto; lia.
Qed.

Lemma product_le (extents sizes : list Z) :
  Forall2 (fun e s => 0 < e <= s) extents sizes ->
  0 < fold_right Z.mul 1 extents <= fold_right Z.mul 1 sizes.
Proof.
  induction 1 as [|e s extents sizes Hes _ IH]; simpl; [lia|]. nia.
Qed.

Section BoxOfBand.
Variable size : Size.
Hypothesis Hpos : all_positive size.
Hypothesis Hov : size_product size < size_t_modulus.
Hypothesis H32 : Forall (fun s => s <= int32_max) size.

(** On a band of cells of the grid the area that [HyperVolume] and
    [BoundingBox] compute is the number of cells of the bounding box. *)
Lemma band_area_spec (band : list Index) bbox :
  band <> [] -> (forall x, In x band -> wf_index size x) ->
  BoundingBox (length size) band = Ok bbox ->
  HyperVolume bbox = bounding_box_cells (length size) band.
Proof.
  intros Hne Hwf Hbb.
  set (N := length size) in *.
  assert (Hrange : forall x i, In x band -> (i < N)%nat ->
                     0 <= nth i x 0 < nth i size 0).
  { intros x i Hx Hi. destruct (Hwf x Hx) as (Hl & Hin).
    now apply Inside_nth. }
  assert (Hsize32 : forall i, (i < N)%nat -> nth i size 0 <= int32_max).
  { intros i Hi. rewrite Forall_forall in H32. apply H32.
    apply nth_In. exact Hi. }
  destruct (BoundingBox_tight N band Hne) as (_ & bbox' & Hbb' & Hlen & Hbox).
  { rewrite Forall_forall. intros x Hx. destruct (Hwf x Hx) as (Hl & Hin).
    split; [exact Hl|]. rewrite Forall_forall. intros v Hv.
    destruct (In_nth x v 0 Hv) as (i & Hi & <-).
    rewrite Hl in Hi. specialize (Hrange x i Hx Hi).
    specialize (Hsize32 i Hi). unfold int32_min, int32_max in *. lia. }
  rewrite Hbb in Hbb'. inversion Hbb'; subst bbox'. clear Hbb'.
  assert (Hext : forall i, (i < N)%nat ->
             fst (nth i bbox (0, 0)) <= snd (nth i bbox (0, 0)) /\
             snd (nth i bbox (0, 0)) - fst (nth i bbox (0, 0)) + 1
             = axis_extent band i /\
             0 < axis_extent band i <= nth i size 0).
  { intros i Hi. destruct (Hbox i Hi) as (Hin & (xl & Hxl & Hlo) & (xh & Hxh & Hhi)).
    assert (Hmin : fold_right Z.min (hd 0 (map (fun x => nth i x 0) band))
                              (map (fun x => nth i x 0) band)
                   = fst (nth i bbox (0, 0))).
    { apply fold_min_spec.
      - intros v Hv. apply in_map_iff in Hv. destruct Hv as (x & <- & Hx).
        apply (Hin x Hx).
      - apply in_map_iff. exists xl. auto. }
    assert (Hmax : fold_right Z.max (hd 0 (map (fun x => nth i x 0) band))
                              (map (fun x => nth i x 0) band)
                   = snd (nth i bbox (0, 0))).
    { apply fold_max_spec.
      - intros v Hv. apply in_map_iff in Hv. destruct Hv as (x & <- & Hx).
        apply (Hin x Hx).
      - apply in_map_iff. exists xh. auto. }
    unfold axis_extent. cbv zeta. rewrite Hmin, Hmax.
    pose proof (Hin xl Hxl) as Hb1.
    pose proof (Hrange xl i Hxl Hi) as Hr1.
    pose proof (Hrange xh i Hxh Hi) as Hr2.
    lia. }
  assert (Hbbox : bbox = map (fun i => nth i bbox (0, 0)) (seq 0 N)).
  { rewrite <- Hlen. clear. induction bbox as [|b bbox IH]; simpl; auto.
    f_equal. rewrite <- seq_shift, map_map. exact IH. }
  assert (Hprod : fold_right (fun (b : Z * Z) acc =>
                                (snd b - fst b + 1) * acc) 1 bbox
                  = bounding_box_cells N band).
  { unfold bounding_box_cells. rewrite Hbbox at 1.
    assert (Hgen : forall l, (forall i, In i l -> (i < N)%nat) ->
               fold_right (fun (b : Z * Z) acc => (snd b - fst b + 1) * acc)
                          1 (map (fun i => nth i bbox (0, 0)) l)
               = fold_right Z.mul 1 (map (axis_extent band) l)).
    { induction l as [|i l IH]; intros Hl; simpl; auto.
      destruct (Hext i (Hl i (or_introl eq_refl))) as (_ & -> & _).
      rewrite IH; auto. intros j Hj. apply Hl. right. exact Hj. }
    apply Hgen. intros i Hi. apply in_seq in Hi. lia. }
  assert (Hbound : 0 < bounding_box_cells N band <= size_product size).
  { unfold bounding_box_cells, size_product.
    assert (Hs : size = map (fun i => nth i size 0) (seq 0 N)).
    { unfold N. clear. induction size as [|s l IH]; simpl; auto.
      f_equal. rewrite <- seq_shift, map_map. exact IH. }
    rewrite Hs at 1. apply product_le.
    assert (Hgen : forall l, (forall i, In i l -> (i < N)%nat) ->
               Forall2 (fun e s => 0 < e <= s) (map (axis_extent band) l)
                       (map (fun i => nth i size 0) l)).
    { induction l as [|i l IH]; intros Hl; simpl; constructor.
      - destruct (Hext i (Hl i (or_introl eq_refl))) as (_ & _ & He). exact He.
      - apply IH. intros j Hj. apply Hl. right. exact Hj. }
    apply Hgen. intros i Hi. apply in_seq in Hi. lia. }
  rewrite <- Hprod. apply HyperVolume_product.
  - rewrite Hbbox. rewrite Forall_forall. intros b Hb.
    apply in_map_iff in Hb. destruct Hb as (i & <- & Hi).
    apply in_seq in Hi.
    destruct (Hext i ltac:(lia)) as (Hle & Heq & He).
    split; [exact Hle|]. rewrite Heq.
    specialize (Hsize32 i ltac:(lia)). lia.
  - rewrite Hprod. lia.
Qed.
End BoxOfBand.


(** ** Sequencing *)

Lemma bind_Ok {A B : Type} (r : Result A) (k : A -> Result B) (b : B) :
  bind r k = Ok b -> exists a, r = Ok a /\ k a = Ok b.
Proof. destruct r as [a|e]; simpl; [eauto | discriminate]. Qed.

Ltac inv_bind H :=
  let a := fresh "a" in
  let Ha := fresh "Ha" in
  apply bind_Ok in H; destruct H as (a & Ha & H).

Ltac inv_bind_as H a Ha :=
  apply bind_Ok in H; destruct H as (a & Ha & H).

(** ** The label grid of [InitialSignedNarrowBands] *)

Section LabelGrid.
Variable frozen_indices : list Index.
Variable grid_size : Size.
Hypothesis Hpos : all_positive grid_size.
Hypothesis Hov : size_product grid_size < size_t_modulus.
Hypothesis Hseeds : forall seed, In seed frozen_indices ->
                                 wf_index grid_size seed.

Local Abbreviation N := (length grid_size).
Local Abbreviation offset_of_index x :=
  (Z.to_nat (GridLinearIndex x (GridStrides grid_size))).
Local Abbreviation ok := (labels_ok frozen_indices grid_size).
Local Abbreviation touches := (touches_seed frozen_indices grid_size).

Lemma set_cells_labels {C} (indices : list Index) (v : C) : forall g g',
  set_cells indices v g = Ok g' ->
  strides_ g' = strides_ g /\
  forall k c, nth_error (cells_ g') k = Some c ->
              nth_error (cells_ g) k = Some c \/
              (c = v /\ exists x, In x indices /\
                                  Z.to_nat (GridLinearIndex x (strides_ g)) = k).
Proof.
  induction indices as [|x indices IH]; intros g g' Hs; simpl in Hs.
  - inversion Hs; subst. auto.
  - inv_bind Hs. destruct (SetCell_inv _ _ _ _ Ha) as (Hk & _ & Hst & Hc).
    destruct (IH _ _ Hs) as (Hst' & Hcells). split; [congruence|].
    intros k c Hn. destruct (Hcells k c Hn) as [Hold|(-> & y & Hy & Hky)].
    + rewrite Hc in Hold.
      destruct (Nat.eq_dec k (Z.to_nat (GridLinearIndex x (strides_ g))))
        as [->|Hne].
      * rewrite nth_error_update_nth_eq in Hold
          by (pose proof (GridLinearIndex_nonneg x (strides_ g)); lia).
        inversion Hold; subst. right. split; auto. exists x. simpl. auto.
      * rewrite nth_error_update_nth_neq in Hold by assumption. auto.
    + right. split; auto. exists y. simpl. rewrite <- Hst. auto.
Qed.

(** Two indices of the grid with the same offset are the same index. *)
Lemma offset_inj x y :
  wf_index grid_size x -> wf_index grid_size y ->
  offset_of_index x = offset_of_index y -> x = y.
Proof.
  intros (Hlx & Hix) (Hly & Hiy) Heq.
  rewrite (GridLinearIndex_exact x grid_size Hpos Hov Hlx Hix) in Heq.
  rewrite (GridLinearIndex_exact y grid_size Hpos Hov Hly Hiy) in Heq.
  pose proof (mixed_radix_bounds x grid_size Hpos Hlx Hix).
  pose proof (mixed_radix_bounds y grid_size Hpos Hly Hiy).
  eapply mixed_radix_inj; eauto. lia.
Qed.

(** After the seeds have been labelled nothing else is. *)
Lemma labels_ok_initial g0 g1 :
  make_Grid grid_size
    (repeat NarrowBandCell.kBackground (Z.to_nat (LinearSize grid_size)))
  = Ok g0 ->
  set_cells frozen_indices NarrowBandCell.kFrozen g0 = Ok g1 ->
  ok g1 [].
Proof.
  intros Hg Hs.
  destruct (make_Grid_fresh grid_size NarrowBandCell.kBackground Hpos Hov)
    as (g0' & Hg' & Hwf0 & Hsz0 & Hcells0).
  rewrite Hg in Hg'. inversion Hg'; subst g0'. clear Hg'.
  destruct (set_cells_spec frozen_indices NarrowBandCell.kFrozen g0 Hwf0)
    as (g1' & Hs' & Hwf1 & Hsz1 & Hin & _).
  { intros x Hx. rewrite Hsz0. now apply Hseeds. }
  rewrite Hs in Hs'. inversion Hs'; subst g1'. clear Hs'.
  destruct (set_cells_labels _ _ _ _ Hs) as (Hst & Hcells).
  assert (Hstr : strides_ g1 = GridStrides grid_size).
  { destruct Hwf0 as [_ _ Hst0 _]. now rewrite Hst, Hst0, Hsz0. }
  split; [exact Hwf1|]. split; [congruence|]. split; [split|].
  - exact Hstr.
  - intros k. split.
    + intros Hk. destruct (Hcells k _ Hk) as [Hold|(_ & x & Hx & Hkx)].
      * rewrite Hcells0 in Hold. apply nth_error_In, repeat_spec in Hold.
        discriminate.
      * exists x. split; auto.
        destruct Hwf0 as [_ _ Hst0 _]. now rewrite <- Hsz0, <- Hst0.
    + intros (seed & Hseed & <-).
      destruct (Cell_inv _ _ _ (Hin seed Hseed)) as (_ & Hn).
      now rewrite Hstr in Hn.
  - intros k Hk. destruct (Hcells k _ Hk) as [Hold|(Hv & _)];
      [|discriminate].
    rewrite Hcells0 in Hold. apply nth_error_In, repeat_spec in Hold.
    discriminate.
Qed.

Lemma labels_ok_incl g marked marked' :
  ok g marked -> incl marked marked' -> ok g marked'.
Proof.
  intros (Hwf & Hsz & Hl & Hb) Hincl. split; auto. split; auto.
  split; auto. intros k Hk. destruct (Hb k Hk) as (x & Hx & Hw & Ho).
  exists x. auto.
Qed.

(** What a cell of the grid holds, read by its offset. *)
Lemma Cell_offset g x c :
  ok g [] \/ (exists marked, ok g marked) ->
  Cell g x = Ok c -> nth_error (cells_ g) (offset_of_index x) = Some c.
Proof.
  intros Hok Hc.
  assert (Hst : strides_ g = GridStrides grid_size).
  { destruct Hok as [(_ & _ & (Hst & _) & _)|(m & _ & _ & (Hst & _) & _)];
      exact Hst. }
  destruct (Cell_inv _ _ _ Hc) as (_ & Hn). now rewrite Hst in Hn.
Qed.

(** Marking a cell that is not frozen keeps the state. *)
Lemma labels_ok_mark g g' marked x c :
  ok g marked -> wf_index grid_size x ->
  Cell g x = Ok c -> c <> NarrowBandCell.kFrozen ->
  SetCell g x NarrowBandCell.kNarrowBand = Ok g' ->
  ok g' (marked ++ [x]).
Proof.
  intros (Hwf & Hsz & (Hst & Hl) & Hb) Hx Hc Hne Hs.
  destruct (SetCell_inv _ _ _ _ Hs) as (Hk & Hsz' & Hst' & Hcells).
  rewrite Hst in Hk, Hcells.
  pose proof (GridLinearIndex_nonneg x (GridStrides grid_size)) as Hnn.
  destruct (Cell_inv _ _ _ Hc) as (_ & Hn). rewrite Hst in Hn.
  split; [eapply SetCell_WfGrid; eauto|]. split; [congruence|].
  split; [split; [congruence|]|].
  - intros k. rewrite Hcells.
    destruct (Nat.eq_dec k (offset_of_index x)) as [->|Hneq].
    + rewrite nth_error_update_nth_eq by lia. split; [discriminate|].
      intros Hso. apply Hl in Hso. rewrite Hn in Hso.
      inversion Hso; subst. contradiction.
    + rewrite nth_error_update_nth_neq by assumption. apply Hl.
  - intros k. rewrite Hcells.
    destruct (Nat.eq_dec k (offset_of_index x)) as [->|Hneq].
    + intros _. exists x. split; [apply in_or_app; right; left; auto|].
      split; auto.
    + rewrite nth_error_update_nth_neq by assumption. intros Hk'.
      destruct (Hb k Hk') as (y & Hy & Hw & Ho). exists y.
      split; [apply in_or_app; left; exact Hy|]. auto.
Qed.

(** The search for a frozen face neighbour finds one exactly when the cell
    touches a seed. *)
Lemma frozen_neighbor_found_touches steps : forall x g marked,
  frozen_neighbor_found steps x g = Ok true ->
  ok g marked ->
  exists i neighbor_offset seed,
    In (i, neighbor_offset) steps /\ In seed frozen_indices /\
    GridLinearIndex (add_at x i neighbor_offset) (GridStrides grid_size)
    = GridLinearIndex seed (GridStrides grid_size).
Proof.
  induction steps as [|[i off] steps IH]; intros x g marked Hf Hok;
    simpl in Hf; [discriminate|].
  inv_bind Hf.
  destruct (NarrowBandCell.eqb a NarrowBandCell.kFrozen) eqn:Ea.
  - destruct a; try discriminate.
    destruct Hok as (_ & _ & (Hst & Hl) & _).
    destruct (Cell_inv _ _ _ Ha) as (_ & Hn). rewrite Hst in Hn.
    apply Hl in Hn. destruct Hn as (seed & Hseed & Hk).
    exists i, off, seed. split; [left; reflexivity|]. split; auto.
    pose proof (GridLinearIndex_nonneg seed (GridStrides grid_size)).
    pose proof (GridLinearIndex_nonneg (add_at x i off) (GridStrides grid_size)).
    lia.
  - destruct (IH _ _ _ Hf Hok) as (i' & off' & seed & Hin & Hseed & Heq).
    exists i', off', seed. split; [right; assumption|]. auto.
Qed.

Lemma frozen_neighbor_found_complete steps : forall x g marked b,
  frozen_neighbor_found steps x g = Ok b ->
  ok g marked ->
  (exists i neighbor_offset seed,
      In (i, neighbor_offset) steps /\ In seed frozen_indices /\
      GridLinearIndex (add_at x i neighbor_offset) (GridStrides grid_size)
      = GridLinearIndex seed (GridStrides grid_size)) ->
  b = true.
Proof.
  induction steps as [|[i off] steps IH]; intros x g marked b Hf Hok Ht;
    simpl in Hf.
  - destruct Ht as (? & ? & ? & [] & _).
  - inv_bind Hf.
    destruct (NarrowBandCell.eqb a NarrowBandCell.kFrozen) eqn:Ea;
      [congruence|].
    destruct Ht as (i' & off' & seed & [Heq|Hin] & Hseed & Hoff).
    + inversion Heq; subst i' off'. exfalso.
      destruct Hok as (_ & _ & (Hst & Hl) & _).
      destruct (Cell_inv _ _ _ Ha) as (_ & Hn). rewrite Hst, Hoff in Hn.
      assert (Hfrozen : nth_error (cells_ g) (offset_of_index seed)
                        = Some NarrowBandCell.kFrozen).
      { apply Hl. exists seed. auto. }
      rewrite Hn in Hfrozen. inversion Hfrozen; subst. discriminate.
    + eapply IH; eauto. exists i', off', seed. auto.
Qed.

(** The loop over a band appends, in order, the cells of the band that
    touch a seed; the loop over an outer band leaves out the cells that
    are marked already. *)
Lemma band_loop_spec check_background band : forall g acc g' acc' marked,
  band_loop check_background N band g acc = Ok (g', acc') ->
  ok g marked ->
  (forall x, In x band -> wf_index grid_size x /\ ~ In x frozen_indices) ->
  exists l,
    acc' = acc ++ l /\ ok g' (marked ++ l) /\
    (forall x, In x l -> In x band /\ touches x) /\
    (forall x, In x band -> touches x ->
               In x l \/ (check_background = true /\ In x marked)).
Proof.
  induction band as [|x band IH]; intros g acc g' acc' marked Hb Hok Hband;
    cbn [band_loop] in Hb.
  - inversion Hb; subst. exists []. rewrite !app_nil_r.
    split; auto. split; auto. split; [intros x []|intros x []].
  - destruct (Hband x (or_introl eq_refl)) as (Hx & Hnx).
    assert (Hband' : forall y, In y band ->
              wf_index grid_size y /\ ~ In y frozen_indices).
    { intros y Hy. apply Hband. right. exact Hy. }
    (* what the rest of the loop gives, from a state that has appended [l0] *)
    assert (Hrest : forall g1 l0,
               ok g1 (marked ++ l0) ->
               (forall y, In y l0 -> y = x /\ touches x) ->
               (touches x -> In x l0 \/ (check_background = true /\
                                          In x marked)) ->
               band_loop check_background N band g1 (acc ++ l0)
               = Ok (g', acc') ->
               exists l,
                 acc' = acc ++ l /\ ok g' (marked ++ l) /\
                 (forall y, In y l -> In y (x :: band) /\ touches y) /\
                 (forall y, In y (x :: band) -> touches y ->
                            In y l \/ (check_background = true /\
                                       In y marked))).
    { intros g1 l0 Hok1 Hl0 Hx0 Hb1.
      destruct (IH _ _ _ _ _ Hb1 Hok1 Hband') as (l & -> & Hok' & Hsound & Hcompl).
      exists (l0 ++ l). rewrite !app_assoc. split; [reflexivity|].
      split; [exact Hok'|]. split.
      - intros y Hy. apply in_app_or in Hy. destruct Hy as [Hy|Hy].
        + destruct (Hl0 y Hy) as (-> & Ht). split; [left; reflexivity|exact Ht].
        + destruct (Hsound y Hy) as (Hyb & Ht). split; [right; exact Hyb|].
          exact Ht.
      - intros y [<-|Hy] Ht.
        + destruct (Hx0 Ht) as [Hi|Hm]; [left; apply in_or_app; left; exact Hi|].
          right. exact Hm.
        + destruct (Hcompl y Hy Ht) as [Hi|(Hcb & Hm)].
          * left. apply in_or_app. right. exact Hi.
          * apply in_app_or in Hm. destruct Hm as [Hm|Hm].
            -- right. auto.
            -- left. apply in_or_app. left. exact Hm. }
    destruct Hok as (Hwf & Hsz & Hlab & Hbl).
    assert (Hok : ok g marked) by (split; auto).
    assert (Hxg : wf_index (size_ g) x) by now rewrite Hsz.
    destruct (Cell_wf g x Hwf Hxg) as (c & Hc).
    assert (Hcn : nth_error (cells_ g) (offset_of_index x) = Some c).
    { destruct Hlab as (Hst & _). destruct (Cell_inv _ _ _ Hc) as (_ & Hn).
      now rewrite Hst in Hn. }
    assert (Hnotfrozen : c <> NarrowBandCell.kFrozen).
    { intros ->. destruct Hlab as (_ & Hl). apply Hl in Hcn.
      destruct Hcn as (seed & Hseed & Hoff).
      apply Hnx. replace x with seed; auto.
      apply offset_inj; auto. }
    assert (Hskip : forall b,
               (if check_background
                then c0 <- Cell g x ;;
                     Ok (negb (NarrowBandCell.eqb c0 NarrowBandCell.kBackground))
                else Ok false) = Ok b ->
               b = true ->
               check_background = true /\ In x marked).
    { intros b Hb0 ->. destruct check_background; [|discriminate].
      rewrite Hc in Hb0. cbn [bind] in Hb0. inversion Hb0 as [Hneg].
      split; auto. destruct c; try discriminate; [contradiction|].
      destruct (Hbl _ Hcn) as (y & Hy & Hwy & Hoy).
      replace x with y; auto. apply offset_inj; auto. }
    inv_bind_as Hb skip Hsk. destruct skip.
    + apply (Hrest g []); rewrite ?app_nil_r; auto.
      * intros y [].
      * intros _. right. now apply (Hskip true).
    + inv_bind_as Hb found Hfound. destruct found.
      * inv_bind_as Hb g1 Hg1.
        apply (Hrest g1 [x]).
        -- eapply labels_ok_mark; eauto.
        -- intros y [<-|[]]. split; auto.
           destruct (frozen_neighbor_found_touches _ _ _ _ Hfound Hok)
             as (i & off & seed & Hin & Hseed & Heq).
           exists i, off, seed. auto.
        -- intros _. left. left. reflexivity.
        -- exact Hb.
      * apply (Hrest g []); rewrite ?app_nil_r; auto.
        -- intros y [].
        -- intros Ht. exfalso.
           assert (Htrue : false = true).
           { eapply frozen_neighbor_found_complete; eauto. }
           discriminate.
Qed.
End LabelGrid.

(** ** The bands of a component, in the order of the loops *)

Section Schedule.
Variable grid_size : Size.
Hypothesis Hpos : all_positive grid_size.
Hypothesis Hov : size_product grid_size < size_t_modulus.
Hypothesis H32 : Forall (fun s => s <= int32_max) grid_size.
Variable bands : list (list Index).
Hypothesis Hbands : forall band, In band bands ->
  band <> [] /\ forall x, In x band -> wf_index grid_size x.
Variable areas : list (Z * Z).
Hypothesis Hareas : band_areas (length grid_size) 0 bands = Ok areas.

Local Abbreviation N := (length grid_size).
Local Abbreviation sorted := (sort_by_area areas).

Lemma areas_nth k band :
  nth_error bands k = Some band ->
  nth_error areas k = Some (Z.of_nat k, bounding_box_cells N band).
Proof.
  intros Hk. destruct (band_areas_spec _ _ _ _ Hareas) as (_ & _ & Hall).
  destruct (Hall k band Hk) as (bbox & Hbb & Hn).
  change (0 + Z.of_nat k) with (Z.of_nat k) in Hn.
  rewrite Hn. do 2 f_equal.
  destruct (Hbands band (nth_error_In _ _ Hk)) as (Hne & Hwf).
  apply (band_area_spec grid_size Hov H32); auto.
Qed.

Lemma areas_In pair :
  In pair areas ->
  exists k band, nth_error bands k = Some band /\
                 pair = (Z.of_nat k, bounding_box_cells N band).
Proof.
  intros Hin. destruct (In_nth_error _ _ Hin) as (k & Hk).
  destruct (band_areas_spec _ _ _ _ Hareas) as (Hlen & _ & _).
  assert (Hlt : (k < length bands)%nat).
  { rewrite <- Hlen. apply nth_error_Some. congruence. }
  destruct (nth_error bands k) as [band|] eqn:Hb;
    [|apply nth_error_None in Hb; lia].
  exists k, band. split; auto.
  rewrite (areas_nth _ _ Hb) in Hk. now inversion Hk.
Qed.

Lemma sorted_length : length sorted = length bands.
Proof.
  destruct (band_areas_spec _ _ _ _ Hareas) as (Hlen & _ & _).
  rewrite <- Hlen. symmetry. apply Permutation_length.
  apply sort_by_area_Permutation.
Qed.

Lemma sorted_NoDup : NoDup (map fst sorted).
Proof.
  eapply Permutation_NoDup;
    [apply Permutation_map, sort_by_area_Permutation|].
  destruct (band_areas_spec _ _ _ _ Hareas) as (_ & Hfst & _).
  rewrite Hfst. apply Finite.Injective_map_NoDup; [|apply seq_NoDup].
  intros a b Hab. lia.
Qed.

(** The band at a position of the sorted list. *)
Lemma band_at_sorted p band :
  band_at bands sorted p = Ok band ->
  exists k, nth_error sorted p = Some (Z.of_nat k, bounding_box_cells N band) /\
            nth_error bands k = Some band.
Proof.
  unfold band_at. intros Hb.
  destruct (nth_error sorted p) as [[j a]|] eqn:Hp; [|discriminate].
  destruct (nth_error bands (Z.to_nat j)) as [band'|] eqn:Hj; [|discriminate].
  inversion Hb; subst band'. clear Hb.
  assert (Hin : In (j, a) areas).
  { eapply Permutation_in;
      [apply Permutation_sym, sort_by_area_Permutation|].
    eapply nth_error_In; eauto. }
  destruct (areas_In _ Hin) as (k & band' & Hk & Heq).
  inversion Heq; subst j a. rewrite Nat2Z.id in Hj.
  rewrite Hk in Hj. inversion Hj; subst band'. eauto.
Qed.

Lemma sorted_position k band :
  nth_error bands k = Some band ->
  exists p, nth_error sorted p
            = Some (Z.of_nat k, bounding_box_cells N band) /\
            band_at bands sorted p = Ok band.
Proof.
  intros Hk.
  assert (Hin : In (Z.of_nat k, bounding_box_cells N band) sorted).
  { eapply Permutation_in; [apply sort_by_area_Permutation|].
    eapply nth_error_In. now apply areas_nth. }
  destruct (In_nth_error _ _ Hin) as (p & Hp). exists p. split; auto.
  unfold band_at. rewrite Hp, Nat2Z.id, Hk. reflexivity.
Qed.

Lemma sorted_positions_differ p q k band band' :
  nth_error sorted p = Some (Z.of_nat k, band) ->
  nth_error sorted q = Some (Z.of_nat k, band') -> p = q.
Proof.
  intros Hp Hq. pose proof sorted_NoDup as Hnd.
  rewrite NoDup_nth_error in Hnd. apply Hnd.
  - rewrite length_map. apply nth_error_Some. congruence.
  - rewrite !nth_error_map, Hp, Hq. reflexivity.
Qed.

(** The band the loops treat as the outer one has a largest bounding box;
    the strictly largest band is the outer one. *)
Lemma outer_band_largest outer :
  band_at bands sorted 0 = Ok outer ->
  exists o, nth_error bands o = Some outer /\
            nth_error sorted 0
            = Some (Z.of_nat o, bounding_box_cells N outer) /\
            largest_band N bands o.
Proof.
  intros Hb. destruct (band_at_sorted _ _ Hb) as (o & Hs & Ho).
  exists o. split; auto. split; auto. exists outer. split; auto.
  intros k band' Hk. destruct (sorted_position _ _ Hk) as (p & Hp & _).
  apply (sort_by_area_head areas _ p _ Hs Hp).
Qed.

Lemma inner_band_surpassed p band :
  (1 <= p)%nat -> band_at bands sorted p = Ok band ->
  exists j, nth_error bands j = Some band /\ surpassed_band N bands j.
Proof.
  intros Hp Hb. destruct (band_at_sorted _ _ Hb) as (j & Hs & Hj).
  exists j. split; auto.
  destruct (nth_error sorted 0) as [[o a]|] eqn:H0.
  2:{ apply nth_error_None in H0.
      assert (p < length sorted)%nat by (apply nth_error_Some; congruence).
      lia. }
  assert (Hin : In (o, a) areas).
  { eapply Permutation_in;
      [apply Permutation_sym, sort_by_area_Permutation|].
    eapply nth_error_In; eauto. }
  destruct (areas_In _ Hin) as (k & band' & Hk & Heq).
  inversion Heq; subst o a.
  exists band, k, band'. split; auto. split.
  - intros ->. pose proof (sorted_positions_differ _ _ _ _ _ H0 Hs). lia.
  - split; auto. apply (sort_by_area_head areas _ p _ H0 Hs).
Qed.

Lemma strictly_surpassed_inner j band :
  nth_error bands j = Some band -> strictly_surpassed_band N bands j ->
  exists p, In p (seq 1 (length bands - 1)) /\
            band_at bands sorted p = Ok band.
Proof.
  intros Hj (band0 & k & band' & Hj' & Hk & Hlt).
  rewrite Hj in Hj'. inversion Hj'; subst band0. clear Hj'.
  destruct (sorted_position _ _ Hj) as (p & Hp & Hb).
  exists p. split; auto. apply in_seq.
  assert (Hlen : (p < length bands)%nat).
  { rewrite <- sorted_length. apply nth_error_Some. congruence. }
  destruct p as [|p]; [|lia]. exfalso.
  destruct (sorted_position _ _ Hk) as (q & Hq & _).
  pose proof (sort_by_area_head areas _ q _ Hp Hq) as Hle.
  simpl in Hle. lia.
Qed.

Lemma strictly_largest_outer j band outer :
  nth_error bands j = Some band -> strictly_largest_band N bands j ->
  band_at bands sorted 0 = Ok outer -> outer = band.
Proof.
  intros Hj (band0 & Hj' & Hall) Hb.
  rewrite Hj in Hj'. inversion Hj'; subst band0. clear Hj'.
  destruct (band_at_sorted _ _ Hb) as (o & Hs & Ho).
  destruct (Nat.eq_dec o j) as [->|Hne]; [congruence|].
  exfalso. pose proof (Hall o outer Hne Ho) as Hlt.
  destruct (sorted_position _ _ Hj) as (p & Hp & _).
  pose proof (sort_by_area_head areas _ p _ Hs Hp) as Hle.
  simpl in Hle. lia.
Qed.
End Schedule.

(** ** The loops over the bands and over the components *)

Section BandClassification.
Variable frozen_indices : list Index.
Variable grid_size : Size.
Hypothesis Hpos : all_positive grid_size.
Hypothesis Hov : size_product grid_size < size_t_modulus.
Hypothesis H32 : Forall (fun s => s <= int32_max) grid_size.
Hypothesis Hseeds : forall seed, In seed frozen_indices ->
                                 wf_index grid_size seed.

Local Abbreviation N := (length grid_size).
Local Abbreviation ok := (labels_ok frozen_indices grid_size).
Local Abbreviation touches := (touches_seed frozen_indices grid_size).

Lemma inner_bands_loop_spec bands sorted ks : forall g acc g' acc' marked,
  inner_bands_loop ks N bands sorted g acc = Ok (g', acc') ->
  ok g marked ->
  (forall k band x, In k ks -> band_at bands sorted k = Ok band ->
                    In x band ->
                    wf_index grid_size x /\ ~ In x frozen_indices) ->
  exists l,
    acc' = acc ++ l /\ ok g' (marked ++ l) /\
    (forall x, In x l ->
               exists k band, In k ks /\
                              band_at bands sorted k = Ok band /\
                              In x band /\ touches x) /\
    (forall k band x, In k ks -> band_at bands sorted k = Ok band ->
                      In x band -> touches x -> In x l).
Proof.
  induction ks as [|k ks IH]; intros g acc g' acc' marked Hb Hok Hcells;
    cbn [inner_bands_loop] in Hb.
  - inversion Hb; subst. exists []. rewrite !app_nil_r.
    split; auto. split; auto.
    split; [intros x [] | intros k band x []].
  - inv_bind_as Hb band Hband. inv_bind_as Hb st Hloop.
    destruct st as [g1 acc1].
    destruct (band_loop_spec frozen_indices grid_size Hpos Hov Hseeds false band
                g acc g1 acc1 marked Hloop Hok)
      as (l1 & -> & Hok1 & Hsound1 & Hcompl1).
    { intros x Hx. apply (Hcells k band x); auto. left. reflexivity. }
    destruct (IH _ _ _ _ _ Hb Hok1) as (l & -> & Hok' & Hsound & Hcompl).
    { intros k' band' x Hk'. apply Hcells. right. exact Hk'. }
    exists (l1 ++ l). rewrite !app_assoc. split; [reflexivity|].
    split; [exact Hok'|]. split.
    + intros x Hx. apply in_app_or in Hx. destruct Hx as [Hx|Hx].
      * destruct (Hsound1 x Hx) as (Hxb & Ht).
        exists k, band. split; [left; reflexivity|]. auto.
      * destruct (Hsound x Hx) as (k' & band' & Hk' & Hb' & Hxb & Ht).
        exists k', band'. split; [right; exact Hk'|]. auto.
    + intros k' band' x [<-|Hk'] Hb' Hx Ht.
      * rewrite Hband in Hb'. inversion Hb'; subst band'.
        destruct (Hcompl1 x Hx Ht) as [Hi|(Hcb & _)]; [|discriminate].
        apply in_or_app. left. exact Hi.
      * apply in_or_app. right. eapply Hcompl; eauto.
Qed.

(** One component: the cells appended to the outer list are cells of a
    band with a largest bounding box, the cells appended to the inner
    list are cells of bands that another band is at least as large as, all
    of them touch a seed; and none that touches a seed is left out. *)
Lemma component_step_spec c g ins outs g' ins' outs' :
  component_step grid_size c (g, ins, outs) = Ok (g', ins', outs') ->
  ok g (ins ++ outs) ->
  Forall (fun x => length x = N) c ->
  (forall bands band x,
      DilationBands c grid_size = Ok bands -> In band bands -> In x band ->
      ~ In x frozen_indices) ->
  exists li lo,
    ins' = ins ++ li /\ outs' = outs ++ lo /\ ok g' (ins' ++ outs') /\
    (forall x, In x li ->
               component_band_cell grid_size surpassed_band c x /\
               touches x) /\
    (forall x, In x lo ->
               component_band_cell grid_size largest_band c x /\
               touches x) /\
    (forall x, component_band_cell grid_size strictly_surpassed_band c x ->
               touches x -> In x li) /\
    (forall x, component_band_cell grid_size strictly_largest_band c x ->
               touches x -> In x lo \/ In x (ins ++ outs)).
Proof.
  unfold component_step. intros Hc Hok Hlen Hoff.
  inv_bind_as Hc bands Hbands.
  destruct (length bands =? 1)%nat; [discriminate|].
  inv_bind_as Hc areas Hareas.
  inv_bind_as Hc outer Houter.
  inv_bind_as Hc st1 Hloop1. destruct st1 as [g1 outs1].
  inv_bind_as Hc st2 Hloop2. destruct st2 as [g2 ins2].
  inversion Hc; subst g2 ins2 outs1. clear Hc.
  pose proof (DilationBands_cells grid_size c bands Hlen Hbands) as Hcells.
  assert (Hband_cells : forall band x, In band bands -> In x band ->
            wf_index grid_size x /\ ~ In x frozen_indices).
  { intros band x Hb Hx. split.
    - now apply (proj2 (Hcells band Hb)).
    - eapply Hoff; eauto. }
  destruct (outer_band_largest grid_size Hov H32 bands Hcells areas
              Hareas outer Houter) as (o & Ho & Hso & Hlargest).
  destruct (band_loop_spec frozen_indices grid_size Hpos Hov Hseeds true outer
              g outs g1 outs' (ins ++ outs) Hloop1 Hok)
    as (lo & -> & Hok1 & Hsound1 & Hcompl1).
  { intros x Hx. apply (Hband_cells outer); auto.
    eapply nth_error_In; eauto. }
  destruct (inner_bands_loop_spec bands (sort_by_area areas)
              (seq 1 (length bands - 1)) g1 ins g' ins'
              ((ins ++ outs) ++ lo) Hloop2 Hok1)
    as (li & -> & Hok2 & Hsound2 & Hcompl2).
  { intros k band x Hk Hb Hx.
    destruct (band_at_sorted grid_size Hov H32 bands Hcells areas Hareas
                k band Hb) as (j & _ & Hj).
    apply (Hband_cells band); auto. eapply nth_error_In; eauto. }
  exists li, lo. split; [reflexivity|]. split; [reflexivity|]. split.
  { eapply labels_ok_incl; [exact Hok2|].
    intros x Hx. rewrite ?in_app_iff in *. tauto. }
  split; [|split; [|split]].
  - intros x Hx.
    destruct (Hsound2 x Hx) as (k & band & Hk & Hb & Hxb & Ht).
    split; auto. apply in_seq in Hk.
    destruct (inner_band_surpassed grid_size Hov H32 bands Hcells areas
                Hareas k band ltac:(lia) Hb) as (j & Hj & Hsurp).
    exists bands, j, band. auto.
  - intros x Hx. destruct (Hsound1 x Hx) as (Hxb & Ht). split; auto.
    exists bands, o, outer. auto.
  - intros x (bands' & j & band & Hb' & Hclass & Hj & Hx) Ht.
    rewrite Hbands in Hb'. inversion Hb'; subst bands'. clear Hb'.
    destruct (strictly_surpassed_inner grid_size Hov H32 bands Hcells
                areas Hareas j band Hj Hclass) as (p & Hp & Hb).
    eapply Hcompl2; eauto.
  - intros x (bands' & j & band & Hb' & Hclass & Hj & Hx) Ht.
    rewrite Hbands in Hb'. inversion Hb'; subst bands'. clear Hb'.
    pose proof (strictly_largest_outer grid_size Hov H32 bands Hcells
                  areas Hareas j band outer Hj Hclass Houter) as ->.
    destruct (Hcompl1 x Hx Ht) as [Hi|(_ & Hm)]; auto.
Qed.

Lemma components_loop_spec comps : forall g ins outs g' ins' outs',
  components_loop grid_size comps (g, ins, outs) = Ok (g', ins', outs') ->
  ok g (ins ++ outs) ->
  Forall (Forall (fun x => length x = N)) comps ->
  (forall c bands band x,
      In c comps -> DilationBands c grid_size = Ok bands ->
      In band bands -> In x band -> ~ In x frozen_indices) ->
  exists li lo,
    ins' = ins ++ li /\ outs' = outs ++ lo /\
    (forall x, In x li ->
               (exists c, In c comps /\
                          component_band_cell grid_size surpassed_band c x) /\
               touches x) /\
    (forall x, In x lo ->
               (exists c, In c comps /\
                          component_band_cell grid_size largest_band c x) /\
               touches x) /\
    (forall c x, In c comps ->
                 component_band_cell grid_size strictly_surpassed_band c x ->
                 touches x -> In x li) /\
    (forall c x, In c comps ->
                 component_band_cell grid_size strictly_largest_band c x ->
                 touches x -> In x (ins' ++ outs')).
Proof.
  induction comps as [|c comps IH];
    intros g ins outs g' ins' outs' Hc Hok Hlen Hoff; cbn [components_loop] in Hc.
  - inversion Hc; subst. exists [], []. rewrite !app_nil_r.
    split; auto. split; auto.
    split; [intros x []|]. split; [intros x []|].
    split; intros c x [].
  - inv_bind_as Hc st Hstep. destruct st as [[g1 ins1] outs1].
    inversion Hlen as [|? ? Hlc Hlen']; subst.
    destruct (component_step_spec c g ins outs g1 ins1 outs1 Hstep Hok Hlc)
      as (li1 & lo1 & -> & -> & Hok1 & Hs_in & Hs_out & Hc_in & Hc_out).
    { intros bands band x. apply Hoff. left. reflexivity. }
    destruct (IH _ _ _ _ _ _ Hc Hok1 Hlen')
      as (li & lo & -> & -> & HS_in & HS_out & HC_in & HC_out).
    { intros c' bands band x Hc'. apply Hoff. right. exact Hc'. }
    exists (li1 ++ li), (lo1 ++ lo). rewrite !app_assoc.
    split; [reflexivity|]. split; [reflexivity|].
    split; [|split; [|split]].
    + intros x Hx. apply in_app_or in Hx. destruct Hx as [Hx|Hx].
      * destruct (Hs_in x Hx) as (Hcell & Ht). split; auto.
        exists c. split; [left; reflexivity | exact Hcell].
      * destruct (HS_in x Hx) as ((c' & Hc' & Hcell) & Ht). split; auto.
        exists c'. split; [right; exact Hc' | exact Hcell].
    + intros x Hx. apply in_app_or in Hx. destruct Hx as [Hx|Hx].
      * destruct (Hs_out x Hx) as (Hcell & Ht). split; auto.
        exists c. split; [left; reflexivity | exact Hcell].
      * destruct (HS_out x Hx) as ((c' & Hc' & Hcell) & Ht). split; auto.
        exists c'. split; [right; exact Hc' | exact Hcell].
    + intros c' x [<-|Hc'] Hcell Ht.
      * apply in_or_app. left. now apply Hc_in.
      * apply in_or_app. right. eapply HC_in; eauto.
    + intros c' x [<-|Hc'] Hcell Ht.
      * destruct (Hc_out x Hcell Ht) as [Hi|Hi];
          rewrite ?in_app_iff in *; tauto.
      * specialize (HC_out c' x Hc' Hcell Ht).
        rewrite ?in_app_iff in *. tauto.
Qed.

(** The two lists of [InitialSignedNarrowBands]. *)
Lemma InitialSignedNarrowBands_lists inside outside :
  Forall (fun x => length x = N) frozen_indices ->
  dilation_off_seeds frozen_indices grid_size ->
  InitialSignedNarrowBands frozen_indices grid_size = Ok (inside, outside) ->
  (forall x, In x inside ->
             band_cell frozen_indices grid_size surpassed_band x /\
             touches x) /\
  (forall x, In x outside ->
             band_cell frozen_indices grid_size largest_band x /\
             touches x) /\
  (forall x, band_cell frozen_indices grid_size strictly_surpassed_band x ->
             touches x -> In x inside) /\
  (forall x, band_cell frozen_indices grid_size strictly_largest_band x ->
             touches x -> In x outside \/ In x inside).
Proof.
  unfold InitialSignedNarrowBands. intros Hlen Hoff Hi.
  inv_bind_as Hi comps Hcc. inv_bind_as Hi g0 Hg0. inv_bind_as Hi g1 Hg1.
  inv_bind_as Hi st Hloop. destruct st as [[g ins] outs].
  inversion Hi; subst ins outs. clear Hi.
  pose proof (labels_ok_initial frozen_indices grid_size Hpos Hov Hseeds
                g0 g1 Hg0 Hg1) as Hok.
  assert (Hadd : forall z o : Index,
             length z = N -> length (add_index z o) = N)
    by (intros z o Hz; now rewrite add_index_length).
  pose proof (ConnectedComponents_Forall (fun x => length x = N) Hadd
                _ _ _ _ Hcc Hlen) as Hcomps.
  destruct (components_loop_spec comps g1 [] [] g inside outside Hloop Hok
              Hcomps)
    as (li & lo & Hli & Hlo & HS_in & HS_out & HC_in & HC_out).
  { intros c bands band x Hc Hb Hband Hx. eapply Hoff; eauto. }
  simpl in Hli, Hlo. subst li lo.
  split; [|split; [|split]].
  - intros x Hx. destruct (HS_in x Hx) as ((c & Hc & Hcell) & Ht).
    split; auto. exists comps, c. auto.
  - intros x Hx. destruct (HS_out x Hx) as ((c & Hc & Hcell) & Ht).
    split; auto. exists comps, c. auto.
  - intros x (comps' & c & Hcc' & Hc & Hcell) Ht.
    rewrite Hcc in Hcc'. inversion Hcc'; subst comps'.
    eapply HC_in; eauto.
  - intros x (comps' & c & Hcc' & Hc & Hcell) Ht.
    rewrite Hcc in Hcc'. inversion Hcc'; subst comps'.
    specialize (HC_out c x Hc Hcell Ht).
    apply in_app_or in HC_out. tauto.
Qed.
End BandClassification.

Section SignedDriver.
Context {T : Type} `{Scalar T}.

(** [InitializeNarrowBand] pushes one entry per index, in order. *)
Lemma InitializeNarrowBand_indices indices :
  forall solver g (nb nb' : NarrowBandStore (T:=T)),
  InitializeNarrowBand indices solver g nb = Ok nb' ->
  map snd nb' = map snd nb ++ indices.
Proof.
  induction indices as [|x indices IH]; intros solver g nb nb' Hi; simpl in Hi.
  - inversion Hi; subst. now rewrite app_nil_r.
  - inv_bind Hi. rewrite (IH _ _ _ _ Hi). unfold Push.
    rewrite map_app. simpl. now rewrite <- app_assoc.
Qed.
End SignedDriver.

(** The seeds that pass [ThrowIfIndexOutsideGrid] are inside the grid. *)
Lemma ThrowIfIndexOutsideGrid_Ok frozen_indices grid_size :
  Forall (fun x => length x = length grid_size) frozen_indices ->
  ThrowIfIndexOutsideGrid frozen_indices grid_size = Ok tt ->
  forall seed, In seed frozen_indices -> wf_index grid_size seed.
Proof.
  unfold ThrowIfIndexOutsideGrid. intros Hlen Hc seed Hs.
  destruct (forallb (fun index => Inside index grid_size) frozen_indices)
    eqn:E; [|discriminate].
  rewrite forallb_forall in E. rewrite Forall_forall in Hlen.
  split; auto.
Qed.





(** ** Open connected components *)

Lemma no_zero_size size :
  all_positive size -> ThrowIfZeroElementInGridSize size = Ok tt.
Proof.
  intros Hpos. unfold ThrowIfZeroElementInGridSize.
  assert (Hz : existsb (fun x => x =? 0) size = false).
  { induction Hpos as [|s size Hs Hpos IH]; simpl; auto.
    rewrite IH. destruct (Z.eqb_spec s 0); auto. lia. }
  now rewrite Hz.
Qed.

(** The loop over the components stops with the error at the first
    component whose dilation is a single band. *)
Lemma components_loop_open size c band cs2 : forall cs1 st st1,
  components_loop size cs1 st = Ok st1 ->
  DilationBands c size = Ok [band] ->
  components_loop size (cs1 ++ c :: cs2) st = Err OpenConnectedComponent.
Proof.
  induction cs1 as [|c1 cs1 IH]; intros st st1 Hloop Hband.
  - cbn [app components_loop]. unfold component_step.
    destruct st as ((g & inside) & outside). rewrite Hband. reflexivity.
  - cbn [app components_loop] in *.
    destruct (component_step size c1 st) as [st'|e]; [|discriminate].
    cbn [bind] in *. eapply IH; eauto.
Qed.

Section SingleSeed.
Context {T : Type} `{Scalar T}.

(** The boundary condition of a single valid seed is written. *)
Lemma SetBoundaryCondition_single size p (d : T) multiplier g :
  WfGrid g -> size_ g = size ->
  cells_ g = repeat smax (length (cells_ g)) ->
  wf_index size p -> LinearSize size <> 1 ->
  sisnan d = false -> frozen (smax : T) = false ->
  exists g',
    SetBoundaryCondition [p] [d] multiplier signed_distance_predicate g
    = (g', Ok tt).
Proof.
  intros Hwf Hsz Hcells Hp Hne Hd Hmax.
  unfold SetBoundaryCondition. cbn [length Nat.eqb negb combine].
  cbn [SetBoundaryCondition_loop]. rewrite Hsz.
  rewrite (proj2 Hp). cbn [negb].
  unfold signed_distance_predicate at 1. rewrite Hd. cbn [negb].
  rewrite <- Hsz in Hp.
  rewrite (Cell_repeat g smax p Hwf Hcells Hp), Hmax.
  destruct (SetCell_wf g p (multiplier * d)%S Hwf Hp) as (g' & Hs).
  rewrite Hs, (SetCell_size _ _ _ _ Hs), Hsz.
  destruct (Z.eqb_spec (Z.of_nat 1) (LinearSize size)) as [E|_].
  - exfalso. apply Hne. rewrite <- E. reflexivity.
  - eauto.
Qed.
End SingleSeed.

(** Whatever the state, the loop over the components fails when one of them
    has a dilation of a single band. *)
Lemma components_loop_fails size c band : forall comps st,
  In c comps ->
  DilationBands c size = Ok [band] ->
  exists e, components_loop size comps st = Err e.
Proof.
  induction comps as [|c1 comps IH]; intros st Hin Hband; [destruct Hin|].
  cbn [components_loop].
  destruct (component_step size c1 st) as [st'|e] eqn:Hstep;
    [|exists e; reflexivity].
  cbn [bind]. destruct Hin as [->|Hin]; [|now apply IH].
  unfold component_step in Hstep. destruct st as ((g & inside) & outside).
  rewrite Hband in Hstep. discriminate.
Qed.

(** *** The errors of the loop over the components *)

Lemma SetCell_error {C} (g : Grid C) index v e :
  SetCell g index v = Err e -> e = OutOfBounds.
Proof. unfold SetCell. destruct (_ <? _); congruence. Qed.

Lemma frozen_neighbor_found_error steps : forall x g e,
  frozen_neighbor_found steps x g = Err e -> e = OutOfBounds.
Proof.
  induction steps as [|[i o] steps IH]; intros x g e Hf; simpl in Hf;
    [discriminate|].
  destruct (Cell g (add_at x i o)) as [c|e'] eqn:Hc.
  - cbn [bind] in Hf.
    destruct (NarrowBandCell.eqb c NarrowBandCell.kFrozen);
      [discriminate | eauto].
  - cbn [bind] in Hf. inversion Hf; subst. eapply Cell_error; eauto.
Qed.

Lemma band_loop_error check_background N band : forall g acc e,
  band_loop check_background N band g acc = Err e -> e = OutOfBounds.
Proof.
  induction band as [|x band IH]; intros g acc e Hb; cbn [band_loop] in Hb;
    [discriminate|].
  assert (Hrest :
            bind (frozen_neighbor_found (face_steps N) x g)
              (fun found : bool =>
                 if found then
                   bind (SetCell g x NarrowBandCell.kNarrowBand)
                     (fun g' =>
                        band_loop check_background N band g' (acc ++ [x]))
                 else band_loop check_background N band g acc)
            = Err e -> e = OutOfBounds).
  { intros Hrun.
    destruct (frozen_neighbor_found (face_steps N) x g) as [found|e'] eqn:Hf;
      cbn [bind] in Hrun.
    - destruct found; [|eauto].
      destruct (SetCell g x NarrowBandCell.kNarrowBand) as [g'|e'] eqn:Hs;
        cbn [bind] in Hrun; [eauto|].
      inversion Hrun; subst. eapply SetCell_error; eauto.
    - inversion Hrun; subst. eapply frozen_neighbor_found_error; eauto. }
  destruct check_background.
  - destruct (Cell g x) as [c|e'] eqn:Hc; cbn [bind] in Hb.
    + destruct (negb (NarrowBandCell.eqb c NarrowBandCell.kBackground));
        eauto.
    + inversion Hb; subst. eapply Cell_error; eauto.
  - cbn [bind] in Hb. auto.
Qed.

Lemma inner_bands_loop_error N bands areas ks : forall g acc e,
  inner_bands_loop ks N bands areas g acc = Err e -> e = OutOfBounds.
Proof.
  induction ks as [|k ks IH]; intros g acc e Hl; cbn [inner_bands_loop] in Hl;
    [discriminate|].
  destruct (band_at bands areas k) as [band|e'] eqn:Hb; cbn [bind] in Hl.
  - destruct (band_loop false N band g acc) as [[g1 acc1]|e'] eqn:Hbl;
      cbn [bind] in Hl; [eauto|].
    inversion Hl; subst. eapply band_loop_error; eauto.
  - inversion Hl; subst. unfold band_at in Hb.
    destruct (nth_error areas k) as [[i a]|]; [|congruence].
    destruct (nth_error bands (Z.to_nat i)); congruence.
Qed.

Lemma band_areas_error N bands : forall i e,
  band_areas N i bands = Err e -> In [] bands.
Proof.
  induction bands as [|band bands IH]; intros i e Ha; simpl in Ha;
    [discriminate|].
  destruct band as [|x band]; [now left|]. cbn [BoundingBox bind] in Ha.
  destruct (band_areas N (i + 1) bands) as [rest|e'] eqn:Hr; cbn [bind] in Ha;
    [discriminate|].
  right. eauto.
Qed.

(** For components inside the grid, the loop over the components ends with
    its result, with the open-component error, or with an access outside
    the label buffer. *)
Lemma components_loop_error size comps : forall st e,
  all_positive size ->
  size_product (map (fun d => d + 2) size) < size_t_modulus ->
  (forall c y, In c comps -> In y c -> wf_index size y) ->
  components_loop size comps st = Err e ->
  e = OpenConnectedComponent \/ e = OutOfBounds.
Proof.
  induction comps as [|c comps IH]; intros st e Hpos Hov Hwf Hl;
    cbn [components_loop] in Hl; [discriminate|].
  destruct (component_step size c st) as [st'|e'] eqn:Hstep; cbn [bind] in Hl.
  { apply (IH st' e Hpos Hov); auto. intros c' y Hc'. apply Hwf. now right. }
  inversion Hl; subst e'. clear Hl.
  unfold component_step in Hstep. destruct st as ((g & inside) & outside).
  destruct (DilationBands_shell size c Hpos Hov
              (fun y Hy => Hwf c y (or_introl eq_refl) Hy))
    as (bands & Hbands & _).
  assert (Hlen : Forall (fun x => length x = length size) c).
  { apply Forall_forall. intros y Hy.
    apply (Hwf c y (or_introl eq_refl) Hy). }
  pose proof (DilationBands_cells size c bands Hlen Hbands) as Hcells.
  rewrite Hbands in Hstep. cbn [bind] in Hstep.
  destruct (length bands =? 1)%nat; [left; congruence|].
  destruct (band_areas (length size) 0 bands) as [areas|e'] eqn:Ha;
    cbn [bind] in Hstep.
  2:{ exfalso. apply band_areas_error in Ha.
      now destruct (Hcells [] Ha) as (Hne & _). }
  right.
  destruct (band_at bands (sort_by_area areas) 0) as [outer|e'] eqn:Hb;
    cbn [bind] in Hstep.
  2:{ inversion Hstep; subst. unfold band_at in Hb.
      destruct (nth_error (sort_by_area areas) 0) as [[i a]|]; [|congruence].
      destruct (nth_error bands (Z.to_nat i)); congruence. }
  destruct (band_loop true (length size) outer g outside) as [[g1 outs]|e']
    eqn:Hbl; cbn [bind] in Hstep.
  2:{ inversion Hstep; subst. eapply band_loop_error; eauto. }
  destruct (inner_bands_loop _ _ _ _ g1 inside) as [[g2 ins]|e'] eqn:Hil;
    cbn [bind] in Hstep; [discriminate|].
  inversion Hstep; subst. eapply inner_bands_loop_error; eauto.
Qed.

(** A seed that has no other seed among its vertex neighbours is a
    connected component by itself, the first one when it is the first
    seed. *)
Lemma isolated_seed_component frozen_indices size p :
  all_positive size ->
  size_product (map (fun d => d + 2) size) < size_t_modulus ->
  (forall seed, In seed frozen_indices -> wf_index size seed) ->
  In p frozen_indices ->
  (forall o, shell_offset (length size) o ->
             ~ In (add_index p o) frozen_indices) ->
  exists connected_components,
    ConnectedComponents frozen_indices size
                        (VertexNeighborOffsets (length size))
    = Ok connected_components /\
    In [p] connected_components /\
    (forall rest, frozen_indices = p :: rest ->
                  exists cs, connected_components = [p] :: cs).
Proof.
  intros Hpos Hov Hseeds Hp Hiso.
  pose proof (size_product_padded size Hpos) as (Hle & H3).
  assert (H3' : 3 ^ Z.of_nat (length size) < size_t_modulus) by lia.
  destruct (VertexNeighborOffsets_spec (length size) H3') as (_ & Hshell).
  pose proof (VertexNeighborOffsets_symmetric (length size) H3') as Hsym.
  destruct (ConnectedComponents_partition size
              (VertexNeighborOffsets (length size)) Hpos ltac:(lia)
              frozen_indices Hsym Hseeds)
    as (comps & Hcc & Hcomps & Hall & Hfirst & _).
  assert (Halone : forall c, In c comps ->
             reached (VertexNeighborOffsets (length size)) p c -> c = [p]).
  { intros c Hc Hr. destruct (Hcomps c Hc) as (HcD & _ & _).
    apply (reached_alone (VertexNeighborOffsets (length size)) p
             (fun y => In y frozen_indices) c Hr).
    - intros o Ho. apply Hiso. now apply Hshell.
    - intros y Hy. now apply HcD. }
  exists comps. split; [exact Hcc|]. split.
  - destruct (Hall p Hp) as (c & Hc & Hpc).
    destruct (Hcomps c Hc) as (HcD & _ & start & Hr).
    destruct (list_eq_dec Z.eq_dec p start) as [<-|Hne].
    + now rewrite <- (Halone c Hc Hr).
    + exfalso.
      destruct (reached_from _ _ _ Hr p Hpc Hne) as (x & o & Hx & Ho & Heq).
      destruct (Hsym o Ho) as (Hlo & Hopp).
      destruct (HcD x Hx) as ((Hlx & _) & HxD).
      apply (Hiso (map Z.opp o)); [now apply Hshell|].
      rewrite Heq, add_index_opp; [exact HxD | congruence].
  - intros rest E.
    destruct (Hfirst p rest E) as (c0 & cs & -> & Hr).
    exists cs. f_equal. apply Halone; [now left | exact Hr].
Qed.




(** ** Writes to different cells commute *)

Section WritesCommute.
Context {C : Type}.

Lemma update_nth_comm (l : list C) : forall j k v w,
  j <> k ->
  update_nth j v (update_nth k w l) = update_nth k w (update_nth j v l).
Proof.
  induction l as [|c l IH]; intros [|j] [|k] v w Hjk; simpl; auto;
    try congruence.
  f_equal. apply IH. congruence.
Qed.

Lemma linear_offsets_differ (g : Grid C) a b :
  WfGrid g -> wf_index (size_ g) a -> wf_index (size_ g) b -> a <> b ->
  Z.to_nat (GridLinearIndex a (strides_ g))
  <> Z.to_nat (GridLinearIndex b (strides_ g)).
Proof.
  intros Hwf Ha Hb Hne Heq. apply Hne.
  apply (wf_index_linear_inj g); auto.
  pose proof (GridLinearIndex_nonneg a (strides_ g)).
  pose proof (GridLinearIndex_nonneg b (strides_ g)). lia.
Qed.

Lemma SetCell_comm (g g1 g2 : Grid C) a b va vb :
  WfGrid g -> wf_index (size_ g) a -> wf_index (size_ g) b -> a <> b ->
  SetCell g a va = Ok g1 -> SetCell g1 b vb = Ok g2 ->
  exists g1', SetCell g b vb = Ok g1' /\ SetCell g1' a va = Ok g2.
Proof.
  intros Hwf Ha Hb Hne H1 H2.
  destruct (SetCell_wf g b vb Hwf Hb) as (g1' & H1').
  pose proof (SetCell_WfGrid _ _ _ _ H1' Hwf) as Hwf1'.
  destruct (SetCell_inv _ _ _ _ H1) as (_ & Hs1 & Ht1 & Hc1).
  destruct (SetCell_inv _ _ _ _ H2) as (_ & Hs2 & Ht2 & Hc2).
  destruct (SetCell_inv _ _ _ _ H1') as (_ & Hs1' & Ht1' & Hc1').
  assert (Ha' : wf_index (size_ g1') a) by now rewrite Hs1'.
  destruct (SetCell_wf g1' a va Hwf1' Ha') as (g2' & H2').
  destruct (SetCell_inv _ _ _ _ H2') as (_ & Hs2' & Ht2' & Hc2').
  exists g1'. split; [exact H1'|]. rewrite H2'. f_equal.
  destruct g2 as [s2 t2 c2], g2' as [s2' t2' c2']. simpl in *.
  f_equal; try congruence.
  rewrite Hc2, Hc2', Hc1, Hc1', Ht1, Ht1'.
  apply update_nth_comm. now apply linear_offsets_differ.
Qed.
End WritesCommute.

(** ** The boundary condition does not depend on the order of the seeds *)

Section BoundaryOrder.
Context {T : Type} `{Scalar T}.
Variable multiplier : T.
Variable distance_predicate : T -> bool.

Lemma SetBoundaryCondition_loop_cons seed seeds (g : Grid T) :
  SetBoundaryCondition_loop (seed :: seeds) multiplier distance_predicate g
  = match SetBoundaryCondition_step seed multiplier distance_predicate g with
    | Ok g' =>
        SetBoundaryCondition_loop seeds multiplier distance_predicate g'
    | Err e => (g, Err e)
    end.
Proof.
  destruct seed as [index distance].
  unfold SetBoundaryCondition_step. cbn [SetBoundaryCondition_loop fst snd].
  destruct (negb (Inside index (size_ g))); [reflexivity|].
  destruct (negb (distance_predicate distance)); [reflexivity|].
  destruct (Cell g index) as [c|e]; [|reflexivity]. cbn [bind].
  destruct (frozen c); [reflexivity|].
  destruct (SetCell g index (multiplier * distance)%S); reflexivity.
Qed.

Lemma SetBoundaryCondition_step_inv seed (g g' : Grid T) :
  SetBoundaryCondition_step seed multiplier distance_predicate g = Ok g' ->
  Inside (fst seed) (size_ g) = true /\
  distance_predicate (snd seed) = true /\
  (exists c, Cell g (fst seed) = Ok c /\ frozen c = false) /\
  SetCell g (fst seed) (multiplier * snd seed)%S = Ok g'.
Proof.
  unfold SetBoundaryCondition_step.
  destruct (Inside (fst seed) (size_ g)); [|discriminate].
  destruct (distance_predicate (snd seed)); [|discriminate].
  cbn [negb]. destruct (Cell g (fst seed)) as [c|e]; [|discriminate].
  cbn [bind]. destruct (frozen c) eqn:Ef; [discriminate|].
  intros Hs. split; [reflexivity|]. split; [reflexivity|].
  split; [eauto | exact Hs].
Qed.

Lemma SetBoundaryCondition_step_intro seed (g g' : Grid T) c :
  Inside (fst seed) (size_ g) = true ->
  distance_predicate (snd seed) = true ->
  Cell g (fst seed) = Ok c -> frozen c = false ->
  SetCell g (fst seed) (multiplier * snd seed)%S = Ok g' ->
  SetBoundaryCondition_step seed multiplier distance_predicate g = Ok g'.
Proof.
  intros Hi Hp Hc Hf Hs. unfold SetBoundaryCondition_step.
  rewrite Hi, Hp, Hc. cbn [negb bind]. rewrite Hf. exact Hs.
Qed.

Lemma SetBoundaryCondition_step_swap a b (g g1 g2 : Grid T) :
  WfGrid g ->
  length (fst a) = length (size_ g) -> length (fst b) = length (size_ g) ->
  fst a <> fst b ->
  SetBoundaryCondition_step a multiplier distance_predicate g = Ok g1 ->
  SetBoundaryCondition_step b multiplier distance_predicate g1 = Ok g2 ->
  exists g1',
    SetBoundaryCondition_step b multiplier distance_predicate g = Ok g1' /\
    SetBoundaryCondition_step a multiplier distance_predicate g1' = Ok g2.
Proof.
  intros Hwf Hla Hlb Hne Ha Hb.
  destruct (SetBoundaryCondition_step_inv _ _ _ Ha)
    as (Hia & Hpa & (ca & Hca & Hfa) & Hsa).
  destruct (SetBoundaryCondition_step_inv _ _ _ Hb)
    as (Hib & Hpb & (cb & Hcb & Hfb) & Hsb).
  pose proof (SetCell_size _ _ _ _ Hsa) as Hs1.
  rewrite Hs1 in Hib.
  assert (Hwa : wf_index (size_ g) (fst a)) by (split; assumption).
  assert (Hwb : wf_index (size_ g) (fst b)) by (split; assumption).
  destruct (SetCell_comm g g1 g2 _ _ _ _ Hwf Hwa Hwb Hne Hsa Hsb)
    as (g1' & Hsb' & Hsa').
  pose proof (SetCell_size _ _ _ _ Hsb') as Hs1'.
  exists g1'. split.
  - apply (SetBoundaryCondition_step_intro b g g1' cb); auto.
    rewrite <- Hcb. symmetry.
    apply (Cell_SetCell_other g g1 (fst a) (fst b) _ Hsa Hwf Hwa Hwb Hne).
  - apply (SetBoundaryCondition_step_intro a g1' g2 ca); auto.
    + now rewrite Hs1'.
    + rewrite <- Hca.
      apply (Cell_SetCell_other g g1' (fst b) (fst a) _ Hsb' Hwf Hwb Hwa).
      congruence.
Qed.

Lemma SetBoundaryCondition_loop_perm seeds seeds' :
  Permutation seeds seeds' ->
  forall (g g1 : Grid T),
    WfGrid g -> NoDup (map fst seeds) ->
    Forall (fun s => length (fst s) = length (size_ g)) seeds ->
    SetBoundaryCondition_loop seeds multiplier distance_predicate g
    = (g1, Ok tt) ->
    SetBoundaryCondition_loop seeds' multiplier distance_predicate g
    = (g1, Ok tt).
Proof.
  induction 1 as [|x l l' Hperm IH|x y l|l l' l'' Hp1 IH1 Hp2 IH2];
    intros g g1 Hwf Hnd Hlen Hrun.
  - exact Hrun.
  - rewrite SetBoundaryCondition_loop_cons in *.
    destruct (SetBoundaryCondition_step x multiplier distance_predicate g)
      as [g'|e] eqn:Hx; [|inversion Hrun].
    destruct (SetBoundaryCondition_step_inv _ _ _ Hx) as (_ & _ & _ & Hs).
    inversion Hnd; subst. inversion Hlen; subst.
    apply IH; auto.
    + eapply SetCell_WfGrid; eauto.
    + now rewrite (SetCell_size _ _ _ _ Hs).
  - rewrite SetBoundaryCondition_loop_cons in Hrun.
    destruct (SetBoundaryCondition_step y multiplier distance_predicate g)
      as [g'|e] eqn:Hy; [|inversion Hrun].
    rewrite SetBoundaryCondition_loop_cons in Hrun.
    destruct (SetBoundaryCondition_step x multiplier distance_predicate g')
      as [g''|e] eqn:Hx; [|inversion Hrun].
    inversion Hnd as [|? ? Hni Hnd']; subst.
    inversion Hlen as [|? ? Hly Hlen']; subst.
    inversion Hlen' as [|? ? Hlx _]; subst.
    destruct (SetBoundaryCondition_step_swap y x g g' g'' Hwf Hly Hlx)
      as (g1' & Hx' & Hy'); auto.
    { intros Heq. apply Hni. left. symmetry. exact Heq. }
    rewrite SetBoundaryCondition_loop_cons, Hx'.
    rewrite SetBoundaryCondition_loop_cons, Hy'. exact Hrun.
  - apply IH2; auto.
    + eapply Permutation_NoDup; [|exact Hnd]. now apply Permutation_map.
    + eapply Permutation_Forall; eauto.
Qed.
Lemma SetBoundaryCondition_Ok_inv indices distances (g g1 : Grid T) :
  SetBoundaryCondition indices distances multiplier distance_predicate g
  = (g1, Ok tt) ->
  indices <> [] /\ length indices = length distances /\
  SetBoundaryCondition_loop (combine indices distances) multiplier
                            distance_predicate g = (g1, Ok tt) /\
  (Z.of_nat (length indices) =? LinearSize (size_ g1)) = false.
Proof.
  unfold SetBoundaryCondition.
  destruct indices as [|i indices]; [discriminate|].
  destruct (Nat.eqb_spec (length (i :: indices)) (length distances))
    as [Hl|_]; cbn [negb]; [|discriminate].
  destruct (SetBoundaryCondition_loop (combine (i :: indices) distances)
              multiplier distance_predicate g) as [g1' [[]|e]];
    [|discriminate].
  destruct (Z.of_nat (length (i :: indices)) =? LinearSize (size_ g1'))
    eqn:Ew; [discriminate|].
  intros Heq. inversion Heq; subst.
  split; [discriminate|]. split; [exact Hl|]. split; [reflexivity | exact Ew].
Qed.

Lemma SetBoundaryCondition_Ok_intro indices distances (g g1 : Grid T) :
  indices <> [] -> length indices = length distances ->
  SetBoundaryCondition_loop (combine indices distances) multiplier
                            distance_predicate g = (g1, Ok tt) ->
  (Z.of_nat (length indices) =? LinearSize (size_ g1)) = false ->
  SetBoundaryCondition indices distances multiplier distance_predicate g
  = (g1, Ok tt).
Proof.
  intros Hne Hl Hloop Hw. unfold SetBoundaryCondition.
  destruct indices as [|i indices]; [congruence|].
  destruct (Nat.eqb_spec (length (i :: indices)) (length distances))
    as [_|Hn]; [|contradiction].
  cbn [negb]. rewrite Hloop, Hw. reflexivity.
Qed.

Lemma combine_fst {A B} (a : list A) : forall (b : list B),
  length a = length b -> map fst (combine a b) = a.
Proof.
  induction a as [|x a IH]; intros [|y b] Hl; simpl in *; try discriminate;
    auto.
  f_equal. apply IH. lia.
Qed.

(** Reordering the seeds, indices and distances alike, does not change what
    [SetBoundaryCondition] writes. *)
Lemma SetBoundaryCondition_perm indices distances indices' distances'
      (g g1 : Grid T) :
  WfGrid g -> NoDup indices ->
  Forall (fun index => length index = length (size_ g)) indices ->
  length indices' = length distances' ->
  Permutation (combine indices distances) (combine indices' distances') ->
  SetBoundaryCondition indices distances multiplier distance_predicate g
  = (g1, Ok tt) ->
  SetBoundaryCondition indices' distances' multiplier distance_predicate g
  = (g1, Ok tt).
Proof.
  intros Hwf Hnd Hlen Hl' Hperm Hrun.
  destruct (SetBoundaryCondition_Ok_inv _ _ _ _ Hrun)
    as (Hne & Hl & Hloop & Hw).
  assert (Hpi : Permutation indices indices').
  { rewrite <- (combine_fst indices distances Hl).
    rewrite <- (combine_fst indices' distances' Hl').
    now apply Permutation_map. }
  apply SetBoundaryCondition_Ok_intro; auto.
  - intros ->. apply Permutation_sym, Permutation_nil in Hpi. congruence.
  - apply (SetBoundaryCondition_loop_perm _ _ Hperm); auto.
    + now rewrite combine_fst.
    + apply Forall_forall. intros s Hs.
      rewrite Forall_forall in Hlen. apply Hlen.
      rewrite <- (combine_fst indices distances Hl).
      now apply in_map.
  - rewrite <- Hw. do 2 f_equal. symmetry.
    apply (Permutation_length Hpi).
Qed.
End BoundaryOrder.

(** ** The initial narrow band does not depend on the order of the seeds *)

Section InitialBandOrder.
Context {T : Type} `{Scalar T}.
Variable eikonal_solver : Index -> Grid T -> Result T.
Variable distance_grid : Grid T.

(** The inner loops of [InitialUnsignedNarrowBand] visit the neighbours of
    the seed. *)
Lemma InitialUnsignedNarrowBand_steps_visit steps frozen_index :
  forall nbg (nb : NarrowBandStore (T:=T)),
    InitialUnsignedNarrowBand_steps eikonal_solver steps frozen_index
                                    distance_grid nbg nb
    = narrow_band_visit eikonal_solver
        (map (fun s : nat * Z => add_at frozen_index (fst s) (snd s)) steps)
        distance_grid nbg nb.
Proof.
  induction steps as [|[i o] steps IH]; intros nbg nb; [reflexivity|].
  cbn [InitialUnsignedNarrowBand_steps map narrow_band_visit fst snd].
  unfold narrow_band_visit_cell.
  destruct (Inside (add_at frozen_index i o) (size_ nbg)); cbn [bind]; auto.
  destruct (Cell nbg (add_at frozen_index i o)) as [c|e]; cbn [bind]; auto.
  destruct (NarrowBandCell.eqb c NarrowBandCell.kBackground); cbn [bind]; auto.
  destruct (eikonal_solver (add_at frozen_index i o) distance_grid);
    cbn [bind]; auto.
  destruct (SetCell nbg (add_at frozen_index i o) NarrowBandCell.kNarrowBand);
    cbn [bind]; auto.
Qed.

Lemma narrow_band_visit_app cells : forall cells' nbg (nb : NarrowBandStore (T:=T)),
  narrow_band_visit eikonal_solver (cells ++ cells') distance_grid nbg nb
  = ('(nbg1, nb1) <- narrow_band_visit eikonal_solver cells distance_grid
                                       nbg nb ;;
     narrow_band_visit eikonal_solver cells' distance_grid nbg1 nb1).
Proof.
  induction cells as [|c cells IH]; intros cells' nbg nb; [reflexivity|].
  cbn [app narrow_band_visit].
  destruct (narrow_band_visit_cell eikonal_solver c distance_grid nbg nb)
    as [[nbg1 nb1]|e]; cbn [bind]; auto.
Qed.

Lemma InitialUnsignedNarrowBand_loop_visit frozen_indices :
  forall nbg (nb : NarrowBandStore (T:=T)),
    InitialUnsignedNarrowBand_loop eikonal_solver frozen_indices
                                   distance_grid nbg nb
    = ('(_, nb1) <- narrow_band_visit eikonal_solver
                      (flat_map seed_neighbors frozen_indices)
                      distance_grid nbg nb ;;
       Ok nb1).
Proof.
  induction frozen_indices as [|f frozen_indices IH]; intros nbg nb;
    [reflexivity|].
  cbn [InitialUnsignedNarrowBand_loop flat_map].
  rewrite narrow_band_visit_app, InitialUnsignedNarrowBand_steps_visit.
  fold (seed_neighbors f).
  destruct (narrow_band_visit eikonal_solver (seed_neighbors f)
                              distance_grid nbg nb)
    as [[nbg1 nb1]|e]; cbn [bind]; auto.
Qed.

(** What a visit adds to the narrow band does not depend on the band. *)
Lemma narrow_band_visit_cell_band c nbg (nb : NarrowBandStore (T:=T)) nbg1 nb1 :
  narrow_band_visit_cell eikonal_solver c distance_grid nbg nb
  = Ok (nbg1, nb1) ->
  exists new, nb1 = nb ++ new /\
    forall nb', narrow_band_visit_cell eikonal_solver c distance_grid nbg nb'
                = Ok (nbg1, nb' ++ new).
Proof.
  unfold narrow_band_visit_cell, Push.
  destruct (Inside c (size_ nbg)).
  2:{ intros Heq; inversion Heq; subst. exists [].
      split; [now rewrite app_nil_r|]. intros nb'. now rewrite app_nil_r. }
  destruct (Cell nbg c) as [cell|e]; cbn [bind]; [|discriminate].
  destruct (NarrowBandCell.eqb cell NarrowBandCell.kBackground).
  2:{ intros Heq; inversion Heq; subst. exists [].
      split; [now rewrite app_nil_r|]. intros nb'. now rewrite app_nil_r. }
  destruct (eikonal_solver c distance_grid) as [d|e]; cbn [bind];
    [|discriminate].
  destruct (SetCell nbg c NarrowBandCell.kNarrowBand) as [g'|e]; cbn [bind];
    [|discriminate].
  intros Heq; inversion Heq; subst. exists [(d, c)]. split; auto.
Qed.

Lemma narrow_band_visit_band cells :
  forall nbg (nb : NarrowBandStore (T:=T)) nbg1 nb1,
    narrow_band_visit eikonal_solver cells distance_grid nbg nb
    = Ok (nbg1, nb1) ->
    exists new, nb1 = nb ++ new /\
      forall nb', narrow_band_visit eikonal_solver cells distance_grid nbg nb'
                  = Ok (nbg1, nb' ++ new).
Proof.
  induction cells as [|c cells IH]; intros nbg nb nbg1 nb1 Hrun.
  - inversion Hrun; subst. exists [].
    split; [now rewrite app_nil_r|]. intros nb'. simpl. now rewrite app_nil_r.
  - cbn [narrow_band_visit] in *.
    destruct (narrow_band_visit_cell eikonal_solver c distance_grid nbg nb)
      as [[nbg2 nb2]|e] eqn:Hc; [|discriminate].
    cbn [bind] in Hrun.
    destruct (narrow_band_visit_cell_band _ _ _ _ _ Hc) as (new1 & -> & Hc').
    destruct (IH _ _ _ _ Hrun) as (new2 & -> & Hrun').
    exists (new1 ++ new2). split; [now rewrite app_assoc|].
    intros nb'. rewrite Hc'. cbn [bind]. rewrite Hrun'.
    now rewrite app_assoc.
Qed.

Lemma narrow_band_visit_cell_size c nbg (nb : NarrowBandStore (T:=T)) nbg1 nb1 :
  narrow_band_visit_cell eikonal_solver c distance_grid nbg nb
  = Ok (nbg1, nb1) ->
  WfGrid nbg -> WfGrid nbg1 /\ size_ nbg1 = size_ nbg.
Proof.
  unfold narrow_band_visit_cell.
  destruct (Inside c (size_ nbg));
    [|intros Heq; inversion Heq; subst; auto].
  destruct (Cell nbg c) as [cell|e]; cbn [bind]; [|discriminate].
  destruct (NarrowBandCell.eqb cell NarrowBandCell.kBackground);
    [|intros Heq; inversion Heq; subst; auto].
  destruct (eikonal_solver c distance_grid) as [d|e]; cbn [bind];
    [|discriminate].
  destruct (SetCell nbg c NarrowBandCell.kNarrowBand) as [g'|e] eqn:Hs;
    cbn [bind]; [|discriminate].
  intros Heq Hwf; inversion Heq; subst. split.
  - eapply SetCell_WfGrid; eauto.
  - eapply SetCell_size; eauto.
Qed.

(** Two visits of different cells commute. *)
Lemma narrow_band_visit_cell_swap a b nbg nbg_a nbg_ab
      (new_a new_b : NarrowBandStore (T:=T)) :
  WfGrid nbg ->
  length a = length (size_ nbg) -> length b = length (size_ nbg) ->
  a <> b ->
  narrow_band_visit_cell eikonal_solver a distance_grid nbg []
  = Ok (nbg_a, new_a) ->
  narrow_band_visit_cell eikonal_solver b distance_grid nbg_a []
  = Ok (nbg_ab, new_b) ->
  exists nbg_b,
    narrow_band_visit_cell eikonal_solver b distance_grid nbg []
    = Ok (nbg_b, new_b) /\
    narrow_band_visit_cell eikonal_solver a distance_grid nbg_b []
    = Ok (nbg_ab, new_a).
Proof.
  intros Hwf Hla Hlb Hne Ha Hb.
  destruct (narrow_band_visit_cell_size _ _ _ _ _ Ha Hwf) as (Hwfa & Hsa).
  destruct (narrow_band_visit_cell_size _ _ _ _ _ Hb Hwfa) as (Hwfab & Hsab).
  unfold narrow_band_visit_cell in *. rewrite Hsa in Hb.
  destruct (Inside a (size_ nbg)) eqn:Hia.
  2:{ inversion Ha; subst. exists nbg_ab. split; [exact Hb|].
      rewrite Hsab, Hia. reflexivity. }
  assert (Hwa : wf_index (size_ nbg) a) by (split; assumption).
  destruct (Cell nbg a) as [ca|e] eqn:Hca; cbn [bind] in Ha; [|discriminate].
  destruct (Inside b (size_ nbg)) eqn:Hib.
  2:{ inversion Hb; subst. exists nbg. split; [reflexivity|].
      rewrite Hia, Hca. exact Ha. }
  assert (Hwb : wf_index (size_ nbg) b) by (split; assumption).
  destruct (NarrowBandCell.eqb ca NarrowBandCell.kBackground) eqn:Eca.
  - destruct (eikonal_solver a distance_grid) as [da|e]; cbn [bind] in Ha;
      [|discriminate].
    destruct (SetCell nbg a NarrowBandCell.kNarrowBand) as [g1|e] eqn:Hsa';
      cbn [bind] in Ha; [|discriminate].
    inversion Ha; subst g1 new_a. clear Ha.
    rewrite (Cell_SetCell_other nbg nbg_a a b _ Hsa' Hwf Hwa Hwb Hne) in Hb.
    destruct (Cell nbg b) as [cb|e] eqn:Hcb; cbn [bind] in Hb |- *;
      [|discriminate].
    destruct (NarrowBandCell.eqb cb NarrowBandCell.kBackground) eqn:Ecb.
    + destruct (eikonal_solver b distance_grid) as [db|e]; cbn [bind] in Hb |- *;
        [|discriminate].
      destruct (SetCell nbg_a b NarrowBandCell.kNarrowBand) as [g2|e] eqn:Hsb';
        cbn [bind] in Hb; [|discriminate].
      inversion Hb; subst g2 new_b. clear Hb.
      destruct (SetCell_comm nbg nbg_a nbg_ab a b _ _ Hwf Hwa Hwb Hne Hsa' Hsb')
        as (nbg_b & Hsb & Hsa2).
      exists nbg_b. rewrite Hsb. cbn [bind]. split; [reflexivity|].
      rewrite (SetCell_size _ _ _ _ Hsb), Hia.
      rewrite (Cell_SetCell_other nbg nbg_b b a _ Hsb Hwf Hwb Hwa)
        by congruence.
      rewrite Hca. cbn [bind]. rewrite Eca. cbn [bind]. rewrite Hsa2.
      reflexivity.
    + inversion Hb; subst nbg_ab new_b. clear Hb.
      exists nbg. split; [reflexivity|].
      rewrite Hia, Hca. cbn [bind]. rewrite Eca. cbn [bind]. rewrite Hsa'.
      reflexivity.
  - inversion Ha; subst nbg_a new_a. clear Ha.
    exists nbg_ab. split; [exact Hb|].
    rewrite Hsab, Hia.
    destruct (Cell nbg b) as [cb|e] eqn:Hcb; cbn [bind] in Hb;
      [|discriminate].
    destruct (NarrowBandCell.eqb cb NarrowBandCell.kBackground).
    + destruct (eikonal_solver b distance_grid) as [db|e]; cbn [bind] in Hb;
        [|discriminate].
      destruct (SetCell nbg b NarrowBandCell.kNarrowBand) as [g2|e] eqn:Hsb';
        cbn [bind] in Hb; [|discriminate].
      inversion Hb; subst g2 new_b. clear Hb.
      rewrite (Cell_SetCell_other nbg nbg_ab b a _ Hsb' Hwf Hwb Hwa)
        by congruence.
      rewrite Hca. cbn [bind]. rewrite Eca. reflexivity.
    + inversion Hb; subst nbg_ab new_b. clear Hb.
      rewrite Hca. cbn [bind]. rewrite Eca. reflexivity.
Qed.

(** Visiting a permutation of the cells marks the same cells and collects a
    permutation of the entries. *)
Lemma narrow_band_visit_perm cells cells' :
  Permutation cells cells' ->
  forall nbg nbg1 (new : NarrowBandStore (T:=T)),
    WfGrid nbg ->
    Forall (fun c => length c = length (size_ nbg)) cells ->
    narrow_band_visit eikonal_solver cells distance_grid nbg []
    = Ok (nbg1, new) ->
    exists new',
      narrow_band_visit eikonal_solver cells' distance_grid nbg []
      = Ok (nbg1, new') /\ Permutation new new'.
Proof.
  induction 1 as [|x l l' Hperm IH|x y l|l l' l'' Hp1 IH1 Hp2 IH2];
    intros nbg nbg1 new Hwf Hlen Hrun.
  - exists new. split; [exact Hrun | apply Permutation_refl].
  - cbn [narrow_band_visit] in *.
    destruct (narrow_band_visit_cell eikonal_solver x distance_grid nbg [])
      as [[nbg2 new2]|e] eqn:Hx; [|discriminate].
    cbn [bind] in Hrun |- *.
    destruct (narrow_band_visit_cell_size _ _ _ _ _ Hx Hwf) as (Hwf2 & Hs2).
    destruct (narrow_band_visit_band _ _ _ _ _ Hrun) as (rest & -> & Hrest).
    inversion Hlen; subst.
    destruct (IH nbg2 nbg1 rest Hwf2) as (rest' & Hrun' & Hp).
    + now rewrite Hs2.
    + specialize (Hrest []). exact Hrest.
    + destruct (narrow_band_visit_band _ _ _ _ _ Hrun')
        as (rest'' & Heq & Hrest').
      simpl in Heq. subst rest''.
      exists (new2 ++ rest'). split; [apply Hrest'|].
      now apply Permutation_app_head.
  - destruct (list_eq_dec Z.eq_dec x y) as [->|Hne].
    { exists new. split; [exact Hrun | apply Permutation_refl]. }
    cbn [narrow_band_visit] in Hrun.
    destruct (narrow_band_visit_cell eikonal_solver y distance_grid nbg [])
      as [[nbg_y new_y]|e] eqn:Hy; [|discriminate].
    cbn [bind] in Hrun.
    destruct (narrow_band_visit_cell_band _ _ _ _ _ Hy) as (ny & Hny & _).
    simpl in Hny. subst ny.
    destruct (narrow_band_visit_cell eikonal_solver x distance_grid nbg_y new_y)
      as [[nbg_yx new_yx]|e] eqn:Hx; [|discriminate].
    cbn [bind] in Hrun.
    destruct (narrow_band_visit_cell_size _ _ _ _ _ Hy Hwf) as (Hwfy & Hsy).
    assert (Hx0 : exists new_x,
               narrow_band_visit_cell eikonal_solver x distance_grid nbg_y []
               = Ok (nbg_yx, new_x) /\ new_yx = new_y ++ new_x).
    { unfold narrow_band_visit_cell, Push in Hx |- *.
      destruct (Inside x (size_ nbg_y)).
      2:{ inversion Hx; subst. exists []. now rewrite app_nil_r. }
      destruct (Cell nbg_y x) as [c|e]; cbn [bind] in *; [|discriminate].
      destruct (NarrowBandCell.eqb c NarrowBandCell.kBackground).
      2:{ inversion Hx; subst. exists []. now rewrite app_nil_r. }
      destruct (eikonal_solver x distance_grid) as [d|e]; cbn [bind] in *;
        [|discriminate].
      destruct (SetCell nbg_y x NarrowBandCell.kNarrowBand) as [g'|e];
        cbn [bind] in *; [|discriminate].
      inversion Hx; subst. eauto. }
    destruct Hx0 as (new_x & Hx0 & ->).
    inversion Hlen as [|? ? Hly Hlen']; subst.
    inversion Hlen' as [|? ? Hlx _]; subst.
    destruct (narrow_band_visit_cell_swap y x nbg nbg_y nbg_yx new_y new_x
                Hwf Hly Hlx ltac:(congruence) Hy Hx0)
      as (nbg_x & Hx1 & Hy1).
    destruct (narrow_band_visit_band _ _ _ _ _ Hrun) as (rest & -> & Hrest).
    destruct (narrow_band_visit_cell_band _ _ _ _ _ Hy1) as (ny & Hny & Hy2).
    simpl in Hny. subst ny.
    exists ((new_x ++ new_y) ++ rest).
    cbn [narrow_band_visit]. rewrite Hx1. cbn [bind].
    rewrite (Hy2 new_x). cbn [bind]. split; [apply Hrest|].
    apply Permutation_app_tail, Permutation_app_comm.
  - destruct (IH1 nbg nbg1 new Hwf Hlen Hrun) as (new' & Hrun' & Hp).
    destruct (IH2 nbg nbg1 new' Hwf) as (new'' & Hrun'' & Hp'); auto.
    + eapply Permutation_Forall; eauto.
    + exists new''. split; [exact Hrun''|]. eapply Permutation_trans; eauto.
Qed.

Lemma seed_neighbors_length f c : In c (seed_neighbors f) -> length c = length f.
Proof.
  unfold seed_neighbors. intros Hin. apply in_map_iff in Hin.
  destruct Hin as (s & <- & _). apply add_at_length.
Qed.

(** The initial narrow band of a permutation of the seeds is a permutation
    of the initial narrow band. *)
Lemma InitialUnsignedNarrowBand_perm frozen_indices frozen_indices' nb :
  Permutation frozen_indices frozen_indices' ->
  all_positive (size_ distance_grid) ->
  size_product (size_ distance_grid) < size_t_modulus ->
  Forall (fun f => length f = length (size_ distance_grid)) frozen_indices ->
  InitialUnsignedNarrowBand eikonal_solver frozen_indices distance_grid
  = Ok nb ->
  exists nb',
    InitialUnsignedNarrowBand eikonal_solver frozen_indices' distance_grid
    = Ok nb' /\ Permutation nb nb'.
Proof.
  intros Hperm Hpos Hov Hlen. unfold InitialUnsignedNarrowBand.
  destruct (make_Grid_fresh (size_ distance_grid) NarrowBandCell.kBackground
              Hpos Hov) as (nbg & Hmk & Hwf & Hsz & _).
  rewrite Hmk. cbn [bind]. rewrite !InitialUnsignedNarrowBand_loop_visit.
  destruct (narrow_band_visit eikonal_solver
              (flat_map seed_neighbors frozen_indices) distance_grid nbg [])
    as [[nbg1 new]|e] eqn:Hrun; cbn [bind]; [|discriminate].
  intros Heq. inversion Heq; subst new. clear Heq.
  destruct (narrow_band_visit_perm
              (flat_map seed_neighbors frozen_indices)
              (flat_map seed_neighbors frozen_indices')
              (Permutation_flat_map seed_neighbors Hperm)
              nbg nbg1 nb Hwf) as (nb' & Hrun' & Hp); auto.
  - apply Forall_forall. intros c Hc. apply in_flat_map in Hc.
    destruct Hc as (f & Hf & Hc). rewrite (seed_neighbors_length f c Hc).
    rewrite Forall_forall in Hlen. rewrite Hsz. now apply Hlen.
  - rewrite Hrun'. cbn [bind]. eauto.
Qed.
End InitialBandOrder.

(** ** The march does not depend on the order of the narrow band *)

Section MarchOrder.
Context {T : Type} `{Scalar T}.
Variable eikonal_solver : Index -> Grid T -> Result T.

(** Scanning finds an occurrence of the entry that comes strictly before
    all entries different from it. *)
Lemma top_position_no_tie (e : ValueType (T:=T)) rest :
  forall pre best best_pos,
    nth_error (pre ++ rest) best_pos = Some best ->
    (forall x, In x (best :: rest) -> x = e \/ strictly_before e x) ->
    best = e \/ In e rest ->
    nth_error (pre ++ rest) (top_position best best_pos (length pre) rest)
    = Some e.
Proof.
  induction rest as [|v rest IH]; intros pre best bp Hbest Hall He.
  - simpl. destruct He as [->|[]]. exact Hbest.
  - cbn [top_position].
    assert (Hpre : pre ++ v :: rest = (pre ++ [v]) ++ rest)
      by now rewrite <- app_assoc.
    assert (Hlen : S (length pre) = length (pre ++ [v]))
      by (rewrite length_app; simpl; lia).
    destruct (HeapComparison_ best v) eqn:Ecmp; rewrite Hpre, Hlen.
    + apply IH.
      * rewrite <- Hpre, nth_error_app2 by lia.
        now rewrite Nat.sub_diag.
      * intros x Hx. apply Hall. right. exact Hx.
      * destruct He as [->|[->|Hin]]; auto.
        destruct (Hall v (or_intror (or_introl eq_refl))) as [->|(_ & Hf)];
          auto.
        unfold HeapComparison_ in Ecmp. congruence.
    + apply IH.
      * rewrite <- Hpre. exact Hbest.
      * intros x [<-|Hx]; apply Hall; [left | right; right]; auto.
      * destruct He as [->|[->|Hin]]; auto.
        destruct (Hall best (or_introl eq_refl)) as [->|(Ht & _)]; auto.
        unfold HeapComparison_ in Ecmp. congruence.
Qed.

Lemma remove_nth_Permutation {A} (l : list A) : forall k a,
  nth_error l k = Some a -> Permutation l (a :: remove_nth k l).
Proof.
  induction l as [|b l IH]; intros [|k] a Hn; simpl in *; try discriminate.
  - inversion Hn; subst. apply Permutation_refl.
  - eapply Permutation_trans; [|apply perm_swap].
    apply perm_skip. now apply IH.
Qed.

(** Without a tie [Pop] returns the same entry from a permutation of the
    narrow band. *)
Lemma Pop_no_tie_perm (nb nb' : NarrowBandStore (T:=T)) e rest :
  Pop nb = Some (e, rest) -> no_tie nb -> Permutation nb nb' ->
  exists rest', Pop nb' = Some (e, rest') /\ Permutation rest rest'.
Proof.
  intros Hpop Hno Hperm. unfold no_tie in Hno. rewrite Hpop in Hno.
  assert (Hnb : Permutation nb (e :: rest)).
  { unfold Pop in Hpop. destruct nb as [|v r]; [discriminate|].
    destruct (nth_error (v :: r) (top_position v 0 1 r)) eqn:En;
      [|discriminate].
    inversion Hpop; subst. now apply remove_nth_Permutation. }
  assert (Hno' : Forall (fun x => x = e \/ strictly_before e x) nb')
    by (eapply Permutation_Forall; eauto).
  assert (He : In e nb').
  { eapply Permutation_in; [exact Hperm|].
    eapply Permutation_in; [apply Permutation_sym; exact Hnb|].
    left. reflexivity. }
  destruct nb' as [|v r]; [destruct He|].
  rewrite Forall_forall in Hno'.
  pose proof (top_position_no_tie e r [v] v 0%nat eq_refl Hno') as Htop.
  cbn [length app] in Htop.
  assert (He' : v = e \/ In e r).
  { destruct He as [->|Hin]; auto. }
  specialize (Htop He').
  unfold Pop. rewrite Htop.
  eexists. split; [reflexivity|].
  apply (Permutation_cons_inv (a := e)).
  eapply Permutation_trans; [apply Permutation_sym; exact Hnb|].
  eapply Permutation_trans; [exact Hperm|].
  now apply remove_nth_Permutation.
Qed.

(** What [UpdateNeighbors] pushes does not depend on the narrow band. *)
Lemma UpdateNeighbors_steps_pushes steps index (g : Grid T) :
  forall (nb nb1 : NarrowBandStore (T:=T)),
    UpdateNeighbors_steps eikonal_solver steps index g nb = Ok nb1 ->
    exists new, nb1 = nb ++ new /\
      forall nb', UpdateNeighbors_steps eikonal_solver steps index g nb'
                  = Ok (nb' ++ new).
Proof.
  induction steps as [|[i o] steps IH]; intros nb nb1 Hrun.
  - inversion Hrun; subst. exists [].
    split; [now rewrite app_nil_r|]. intros nb'. simpl. now rewrite app_nil_r.
  - cbn [UpdateNeighbors_steps] in *.
    destruct (Inside (add_at index i o) (size_ g)); [|now apply IH].
    destruct (Cell g (add_at index i o)) as [c|e]; cbn [bind] in *;
      [|discriminate].
    destruct (negb (frozen c)); [|now apply IH].
    destruct (eikonal_solver (add_at index i o) g) as [d|e]; cbn [bind] in *;
      [|discriminate].
    destruct (IH _ _ Hrun) as (new & -> & Hnew).
    exists ((d, add_at index i o) :: new). unfold Push.
    split; [now rewrite <- app_assoc|].
    intros nb'. rewrite Hnew. now rewrite <- app_assoc.
Qed.

Lemma MarchNarrowBand_body_perm (nb nb' nb1 : NarrowBandStore (T:=T)) g g1 :
  MarchNarrowBand_body eikonal_solver nb g = Ok (nb1, g1) ->
  no_tie nb -> Permutation nb nb' ->
  exists nb1',
    MarchNarrowBand_body eikonal_solver nb' g = Ok (nb1', g1) /\
    Permutation nb1 nb1'.
Proof.
  intros Hbody Hno Hperm.
  destruct (MarchNarrowBand_body_inv _ _ _ _ _ Hbody)
    as (d & idx & rest & dc & Hpop & Hcell & Hcase).
  destruct (Pop_no_tie_perm nb nb' (d, idx) rest Hpop Hno Hperm)
    as (rest' & Hpop' & Hp).
  unfold MarchNarrowBand_body. rewrite Hpop', Hcell. cbn [bind].
  destruct Hcase as [(Hf & -> & ->)|(Hf & Hset & Hupd)]; rewrite Hf;
    cbn [negb].
  - exists rest'. split; [reflexivity | exact Hp].
  - rewrite Hset. cbn [bind]. unfold UpdateNeighbors in *.
    destruct (UpdateNeighbors_steps_pushes _ _ _ _ _ Hupd) as (new & -> & Hnew).
    rewrite Hnew. cbn [bind]. exists (rest' ++ new).
    split; [reflexivity|]. now apply Permutation_app_tail.
Qed.

Lemma Permutation_empty (nb nb' : NarrowBandStore (T:=T)) :
  Permutation nb nb' -> empty nb' = empty nb.
Proof.
  intros Hp. destruct nb as [|a nb], nb' as [|b nb']; auto.
  - apply Permutation_nil in Hp. discriminate.
  - apply Permutation_sym, Permutation_nil in Hp. discriminate.
Qed.

(** Without ties the loop runs in lockstep on a permutation of the band. *)
Lemma MarchNarrowBand_loop_perm fuel :
  forall iterations (nb nb' : NarrowBandStore (T:=T)) g r,
    MarchNarrowBand_loop eikonal_solver fuel iterations nb g = Ok r ->
    MarchNarrowBand_no_ties eikonal_solver fuel nb g ->
    Permutation nb nb' ->
    MarchNarrowBand_loop eikonal_solver fuel iterations nb' g = Ok r.
Proof.
  induction fuel as [|fuel IH]; intros it nb nb' g r Hrun Hno Hperm.
  - cbn [MarchNarrowBand_loop] in *.
    rewrite (Permutation_empty nb nb' Hperm).
    destruct (empty nb); [exact Hrun | discriminate].
  - cbn [MarchNarrowBand_loop MarchNarrowBand_no_ties] in *.
    rewrite (Permutation_empty nb nb' Hperm).
    destruct (empty nb); [exact Hrun|].
    destruct Hno as (Hno & Hrest).
    destruct (MarchNarrowBand_body eikonal_solver nb g) as [[nb1 g1]|e] eqn:Hb;
      [|discriminate].
    cbn [bind] in Hrun.
    destruct (MarchNarrowBand_body_perm nb nb' nb1 g g1 Hb Hno Hperm)
      as (nb1' & Hb' & Hp).
    rewrite Hb'. cbn [bind]. eapply IH; eauto.
Qed.
End MarchOrder.


(** ** The order of the seeds of the unsigned driver *)

(** C9 (as stated, refuted).  The order of the seeds can change the result
    when entries tie: the entry that [Pop] returns among tied entries
    depends on the order in which they were pushed, the order of the seeds.
    With the first-order solver of unit speed on the 3 x 2 grid with spacing
    (1, 1.5), the seeds (0, 1) and (2, 0), both at distance 0.5, give the
    cells (1, 0) and (1, 1) the same first distance 1.5; the one that is
    frozen second is solved again and gets 1.4999999999999996.  Which one
    that is depends on the order of the seeds.  With the high-accuracy solver
    on the 4 x 4 grid with unit spacing the seeds (3, 1) and (0, 2) at
    distance 0 give buffers that differ in the second decimal. *)
Lemma seed_order_matters :
  exists buffer1 buffer1' buffer2 buffer2',
    UniformSpeedEikonalSolver [1%float; 1.5%float] 1%float
    = Ok SeedOrderExamples.solver_wide /\
    UnsignedDistance SeedOrderExamples.solver_wide 100 [3; 2]
                     [[0; 1]; [2; 0]] [0.5%float; 0.5%float] = Ok buffer1 /\
    UnsignedDistance SeedOrderExamples.solver_wide 100 [3; 2]
                     [[2; 0]; [0; 1]] [0.5%float; 0.5%float] = Ok buffer1' /\
    nth_error buffer1 1 = Some 0x1.7fffffffffffep+0%float /\
    nth_error buffer1' 1 = Some 1.5%float /\
    HighAccuracyUniformSpeedEikonalSolver [1%float; 1%float] 1%float
    = Ok SeedOrderExamples.solver_high /\
    UnsignedDistance SeedOrderExamples.solver_high 100 [4; 4]
                     [[3; 1]; [0; 2]] [0%float; 0%float] = Ok buffer2 /\
    UnsignedDistance SeedOrderExamples.solver_high 100 [4; 4]
                     [[0; 2]; [3; 1]] [0%float; 0%float] = Ok buffer2' /\
    nth_error buffer2 10 = Some 0x1.b504f333f9de6p+0%float /\
    nth_error buffer2' 10 = Some 0x1.c3825d1563ef9p+0%float.
Proof.
  do 4 eexists.
  split; [reflexivity|].
  split; [vm_compute; reflexivity|].
  split; [vm_compute; reflexivity|].
  split; [vm_compute; reflexivity|].
  split; [vm_compute; reflexivity|].
  split; [reflexivity|].
  split; [vm_compute; reflexivity|].
  split; [vm_compute; reflexivity|].
  split; vm_compute; reflexivity.
Qed.

(** Reordering the seeds, indices and distances alike, does not change the
    buffer of a run that meets no tie. *)
Lemma UnsignedDistance_perm
      {T : Type} `{Scalar T} (eikonal_solver : Index -> Grid T -> Result T)
      (fuel : nat) (grid_size : Size)
      (frozen_indices frozen_indices' : list Index)
      (frozen_distances frozen_distances' : list T)
      (distance_buffer : list T) :
  all_positive grid_size ->
  size_product grid_size < size_t_modulus ->
  Forall (fun index => length index = length grid_size) frozen_indices ->
  NoDup frozen_indices ->
  length frozen_indices' = length frozen_distances' ->
  Permutation (combine frozen_indices frozen_distances)
              (combine frozen_indices' frozen_distances') ->
  UnsignedDistance_no_ties eikonal_solver fuel grid_size frozen_indices
                           frozen_distances ->
  UnsignedDistance eikonal_solver fuel grid_size frozen_indices
                   frozen_distances = Ok distance_buffer ->
  UnsignedDistance eikonal_solver fuel grid_size frozen_indices'
                   frozen_distances' = Ok distance_buffer.
Proof.
  intros Hpos Hov Hlen Hnd Hl' Hperm Hno Hrun.
  unfold UnsignedDistance, UnsignedDistance_no_ties in *.
  destruct (make_Grid_fresh grid_size (smax : T) Hpos Hov)
    as (g & Hmk & Hwf & Hsz & _).
  rewrite Hmk in *. cbn [bind] in *.
  destruct (SetBoundaryCondition frozen_indices frozen_distances (s_of_Z 1)
              unsigned_distance_predicate g) as [g1 r] eqn:Hsbc.
  destruct r as [[]|e]; cbn [bind] in Hrun; [|discriminate].
  destruct (SetBoundaryCondition_Ok_inv _ _ _ _ _ _ Hsbc)
    as (Hne & Hl & Hloop & Hw).
  assert (Hpi : Permutation frozen_indices frozen_indices').
  { rewrite <- (combine_fst frozen_indices frozen_distances Hl).
    rewrite <- (combine_fst frozen_indices' frozen_distances' Hl').
    now apply Permutation_map. }
  assert (Hsz1 : size_ g1 = grid_size).
  { rewrite <- Hsz.
    pose proof (SetBoundaryCondition_loop_prefix _ _ _ _ _ _ Hloop) as Hg1.
    simpl in Hg1. rewrite Hg1. apply install_seeds_size. }
  rewrite (SetBoundaryCondition_perm (s_of_Z 1) unsigned_distance_predicate
             frozen_indices frozen_distances frozen_indices'
             frozen_distances' g g1); auto;
    [|now rewrite Hsz].
  cbn [bind].
  destruct (InitialUnsignedNarrowBand eikonal_solver frozen_indices g1)
    as [nb|e] eqn:Hinit; cbn [bind] in Hrun; [|discriminate].
  destruct (InitialUnsignedNarrowBand_perm eikonal_solver g1 frozen_indices
              frozen_indices' nb Hpi) as (nb' & Hinit' & Hpnb); auto;
    try (rewrite Hsz1; assumption).
  rewrite Hinit'. cbn [bind].
  unfold MarchNarrowBand in *.
  destruct (MarchNarrowBand_loop eikonal_solver fuel 0 nb g1)
    as [[g2 n]|e] eqn:Hmarch; cbn [bind] in Hrun; [|discriminate].
  rewrite (MarchNarrowBand_loop_perm eikonal_solver fuel 0%nat nb nb' g1
             (g2, n) Hmarch Hno Hpnb).
  exact Hrun.
Qed.

(** A run of the unsigned driver that returns was given as many distances
    as indices. *)
Lemma UnsignedDistance_Ok_lengths
      {T : Type} `{Scalar T} (eikonal_solver : Index -> Grid T -> Result T)
      (fuel : nat) (grid_size : Size) (frozen_indices : list Index)
      (frozen_distances distance_buffer : list T) :
  UnsignedDistance eikonal_solver fuel grid_size frozen_indices
                   frozen_distances = Ok distance_buffer ->
  length frozen_indices = length frozen_distances.
Proof.
  unfold UnsignedDistance. intros Hrun.
  destruct (make_Grid grid_size _) as [g|e]; cbn [bind] in Hrun;
    [|discriminate].
  destruct (SetBoundaryCondition frozen_indices frozen_distances (s_of_Z 1)
              unsigned_distance_predicate g) as [g1 r] eqn:Hsbc.
  destruct r as [[]|e]; cbn [bind] in Hrun; [|discriminate].
  now destruct (SetBoundaryCondition_Ok_inv _ _ _ _ _ _ Hsbc)
    as (_ & Hl & _).
Qed.

(** *** Lists reordered by a permutation of their positions *)

Lemma reorder_cons {A : Type} k pi (l : list A) :
  reorder (k :: pi) l
  = match nth_error l k with Some a => [a] | None => [] end ++ reorder pi l.
Proof. reflexivity. Qed.

Section Reorder.
Context {A B : Type}.

Lemma nth_error_combine (a : list A) : forall (b : list B) k,
  nth_error (combine a b) k
  = match nth_error a k, nth_error b k with
    | Some x, Some y => Some (x, y)
    | _, _ => None
    end.
Proof.
  induction a as [|x a IH]; intros [|y b] [|k]; simpl; auto.
  now destruct (nth_error a k).
Qed.

Lemma reorder_combine pi (a : list A) (b : list B) :
  length a = length b ->
  reorder pi (combine a b) = combine (reorder pi a) (reorder pi b) /\
  length (reorder pi a) = length (reorder pi b).
Proof.
  intros Hl. induction pi as [|k pi [IH1 IH2]]; [split; reflexivity|].
  rewrite !reorder_cons, nth_error_combine, IH1.
  destruct (nth_error a k) as [x|] eqn:Ea, (nth_error b k) as [y|] eqn:Eb;
    simpl; auto.
  - apply nth_error_None in Eb.
    assert (nth_error a k <> None) as Hk by congruence.
    apply nth_error_Some in Hk. lia.
  - apply nth_error_None in Ea.
    assert (nth_error b k <> None) as Hk by congruence.
    apply nth_error_Some in Hk. lia.
Qed.

Lemma reorder_seq (l : list A) : forall pre,
  reorder (seq (length pre) (length l)) (pre ++ l) = l.
Proof.
  induction l as [|x l IH]; intros pre; [reflexivity|].
  cbn [length seq]. rewrite reorder_cons.
  rewrite nth_error_app2, Nat.sub_diag by lia. cbn [nth_error app].
  f_equal.
  specialize (IH (pre ++ [x])).
  rewrite length_app, Nat.add_1_r, <- app_assoc in IH. exact IH.
Qed.

Lemma reorder_Permutation pi (l : list A) :
  Permutation pi (seq 0 (length l)) -> Permutation l (reorder pi l).
Proof.
  intros Hp. rewrite <- (reorder_seq l []) at 1. cbn [length app].
  unfold reorder. apply Permutation_flat_map. now symmetry.
Qed.
End Reorder.

(** The unsigned driver does not depend on the order of the seeds as long
    as no entries tie.  On a grid whose size does not overflow, for distinct
    seed indices: when the run of the unsigned driver returns a buffer and
    no iteration of its march pops an entry that ties with a different
    entry of the narrow band, the run on the seed index list and the seed
    distance list both reordered by the same permutation returns the same
    buffer. *)
Theorem UnsignedDistance_seed_order
        {T : Type} `{Scalar T} (eikonal_solver : Index -> Grid T -> Result T)
        (fuel : nat) (grid_size : Size)
        (frozen_indices frozen_indices' : list Index)
        (frozen_distances frozen_distances' : list T)
        (distance_buffer : list T) :
  all_positive grid_size ->
  size_product grid_size < size_t_modulus ->
  Forall (fun index => length index = length grid_size) frozen_indices ->
  NoDup frozen_indices ->
  length frozen_indices' = length frozen_distances' ->
  Permutation (combine frozen_indices frozen_distances)
              (combine frozen_indices' frozen_distances') ->
  UnsignedDistance_no_ties eikonal_solver fuel grid_size frozen_indices
                           frozen_distances ->
  UnsignedDistance eikonal_solver fuel grid_size frozen_indices
                   frozen_distances = Ok distance_buffer ->
  UnsignedDistance eikonal_solver fuel grid_size frozen_indices'
                   frozen_distances' = Ok distance_buffer.
Proof. exact (UnsignedDistance_perm eikonal_solver fuel grid_size _ _ _ _ _). Qed.

Lemma UnsignedDistance_seed_order_witness :
  exists distance_buffer,
    UnsignedDistance SeedOrderExamples.solver_narrow 100 [3; 3]
                     [[0; 0]; [2; 2]] [0.25%float; 0.5%float]
    = Ok distance_buffer /\
    UnsignedDistance SeedOrderExamples.solver_narrow 100 [3; 3]
                     [[2; 2]; [0; 0]] [0.5%float; 0.25%float]
    = Ok distance_buffer.
Proof.
  eexists.
  split; [vm_compute; reflexivity|].
  apply (UnsignedDistance_seed_order SeedOrderExamples.solver_narrow 100%nat
           [3; 3] [[0; 0]; [2; 2]] [[2; 2]; [0; 0]]
           [0.25%float; 0.5%float] [0.5%float; 0.25%float]).
  - repeat constructor.
  - reflexivity.
  - repeat constructor.
  - repeat constructor; simpl; intuition discriminate.
  - reflexivity.
  - apply perm_swap.
  - vm_compute.
    repeat split;
      repeat (constructor;
              [first [left; reflexivity | right; split; reflexivity]|]);
      constructor.
  - vm_compute. reflexivity.
Defined.

(** C9 (amended).  On a grid whose size does not overflow, for distinct seed
    indices with as many components as the grid has dimensions, and every
    permutation [pi] of the positions of the seed list: when the unsigned
    driver returns a buffer and no iteration of its march pops an entry
    that ties with a different entry of the narrow band, the driver run
    with the seed index list and the seed distance list both reordered by
    [pi] returns a buffer that is equal to it, cell for cell. *)
Theorem UnsignedDistance_permutation_invariant
        {T : Type} `{Scalar T} (eikonal_solver : Index -> Grid T -> Result T)
        (fuel : nat) (grid_size : Size) (frozen_indices : list Index)
        (frozen_distances : list T) (pi : list nat)
        (distance_buffer : list T) :
  all_positive grid_size ->
  size_product grid_size < size_t_modulus ->
  Forall (fun index => length index = length grid_size) frozen_indices ->
  NoDup frozen_indices ->
  Permutation pi (seq 0 (length frozen_indices)) ->
  UnsignedDistance_no_ties eikonal_solver fuel grid_size frozen_indices
                           frozen_distances ->
  UnsignedDistance eikonal_solver fuel grid_size frozen_indices
                   frozen_distances = Ok distance_buffer ->
  exists distance_buffer',
    UnsignedDistance eikonal_solver fuel grid_size
                     (reorder pi frozen_indices)
                     (reorder pi frozen_distances) = Ok distance_buffer' /\
    length distance_buffer' = length distance_buffer /\
    forall k, nth_error distance_buffer' k = nth_error distance_buffer k.
Proof.
  intros Hpos Hov Hlen Hnd Hpi Hno Hrun.
  pose proof (UnsignedDistance_Ok_lengths _ _ _ _ _ _ Hrun) as Hl.
  destruct (reorder_combine pi frozen_indices frozen_distances Hl)
    as (Hc & Hl').
  exists distance_buffer. split; [|split; reflexivity].
  apply (UnsignedDistance_perm eikonal_solver fuel grid_size frozen_indices
           (reorder pi frozen_indices) frozen_distances
           (reorder pi frozen_distances)); auto.
  rewrite <- Hc. apply reorder_Permutation.
  rewrite length_combine, <- Hl, Nat.min_id. exact Hpi.
Qed.

Lemma UnsignedDistance_permutation_invariant_witness :
  exists distance_buffer distance_buffer',
    UnsignedDistance SeedOrderExamples.solver_narrow 100 [3; 3]
                     [[0; 0]; [2; 2]] [0.25%float; 0.5%float]
    = Ok distance_buffer /\
    UnsignedDistance SeedOrderExamples.solver_narrow 100 [3; 3]
                     (reorder [1; 0]%nat [[0; 0]; [2; 2]])
                     (reorder [1; 0]%nat [0.25%float; 0.5%float])
    = Ok distance_buffer' /\
    length distance_buffer' = length distance_buffer /\
    forall k, nth_error distance_buffer' k = nth_error distance_buffer k.
Proof.
  assert (Hrun : exists distance_buffer,
             UnsignedDistance SeedOrderExamples.solver_narrow 100 [3; 3]
                              [[0; 0]; [2; 2]] [0.25%float; 0.5%float]
             = Ok distance_buffer)
    by (eexists; vm_compute; reflexivity).
  destruct Hrun as (distance_buffer & Hrun).
  destruct (UnsignedDistance_permutation_invariant
              SeedOrderExamples.solver_narrow 100%nat [3; 3]
              [[0; 0]; [2; 2]] [0.25%float; 0.5%float] [1; 0]%nat
              distance_buffer) as (distance_buffer' & Hrun' & Hlen & Hcells).
  - repeat constructor.
  - reflexivity.
  - repeat constructor.
  - repeat constructor; simpl; intuition discriminate.
  - apply perm_swap.
  - vm_compute.
    repeat split;
      repeat (constructor;
              [first [left; reflexivity | right; split; reflexivity]|]);
      constructor.
  - exact Hrun.
  - exists distance_buffer, distance_buffer'. auto.
Defined.


(** ** The grid view: layout and access *)

(** Without overflow the linear offset of an in-bounds index is
    [index[0] + size[0] * (index[1] + size[1] * (...))]: the first axis
    varies fastest. *)
Theorem GridLinearIndex_row_major (size : Size) (index : Index) :
  all_positive size -> size_product size < size_t_modulus ->
  wf_index size index ->
  GridLinearIndex index (GridStrides size) = mixed_radix index size.
Proof.
  intros Hpos Hov (Hlen & Hin). now apply GridLinearIndex_exact.
Qed.

Lemma GridLinearIndex_row_major_witness :
  GridLinearIndex [2; 1; 3] (GridStrides [3; 4; 5]) = 2 + 3 * (1 + 4 * 3).
Proof.
  apply (GridLinearIndex_row_major [3; 4; 5] [2; 1; 3]).
  - repeat constructor.
  - reflexivity.
  - split; reflexivity.
Defined.

(** A grid built by the constructor over a buffer, on sizes whose product
    does not overflow, reads and writes every in-bounds index inside the
    buffer: the cell read is the buffer element at the row-major offset,
    and the write succeeds. *)
Theorem Grid_access_in_bounds {C : Type} (size : Size) (cell_buffer : list C)
        (g : Grid C) (index : Index) (v : C) :
  all_positive size -> size_product size < size_t_modulus ->
  make_Grid size cell_buffer = Ok g ->
  wf_index size index ->
  (exists c, Cell g index = Ok c /\
             nth_error cell_buffer (Z.to_nat (mixed_radix index size))
             = Some c) /\
  (exists g', SetCell g index v = Ok g').
Proof.
  intros Hpos Hov Hmk Hx.
  unfold make_Grid, ThrowIfZeroElementInGridSize,
    ThrowIfInvalidCellBufferSize in Hmk.
  destruct (existsb (fun x => x =? 0) size); [discriminate|].
  cbn [bind] in Hmk.
  destruct (Z.eqb_spec (LinearSize size) (Z.of_nat (length cell_buffer)))
    as [Hl|Hl]; cbn [negb bind] in Hmk; [|discriminate].
  inversion Hmk; subst g. clear Hmk.
  assert (Hwf : WfGrid (mkGrid size (GridStrides size) cell_buffer)).
  { constructor; simpl; auto. }
  split.
  - destruct (Cell_wf _ index Hwf Hx) as (c & Hc). exists c.
    split; [exact Hc|].
    destruct (Cell_inv _ _ _ Hc) as (_ & Hn). simpl in Hn.
    destruct Hx as (Hlen & Hin).
    now rewrite (GridLinearIndex_exact index size Hpos Hov Hlen Hin) in Hn.
  - apply SetCell_wf; auto.
Qed.

Lemma Grid_access_in_bounds_witness :
  (exists c, Cell (mkGrid [2; 3] [2] [10; 11; 12; 13; 14; 15]) [1; 2] = Ok c /\
             nth_error [10; 11; 12; 13; 14; 15]
                       (Z.to_nat (mixed_radix [1; 2] [2; 3])) = Some c) /\
  (exists g', SetCell (mkGrid [2; 3] [2] [10; 11; 12; 13; 14; 15]) [1; 2] 0
              = Ok g').
Proof.
  apply (Grid_access_in_bounds [2; 3] [10; 11; 12; 13; 14; 15]).
  - repeat constructor.
  - reflexivity.
  - reflexivity.
  - split; reflexivity.
Defined.

(** On a well-formed grid a write to an in-bounds index is read back at that
    index and leaves every other in-bounds cell as it was. *)
Theorem Grid_read_after_write {C : Type} (g g' : Grid C) (x y : Index) (v : C) :
  WfGrid g -> wf_index (size_ g) x -> wf_index (size_ g) y ->
  SetCell g x v = Ok g' ->
  Cell g' x = Ok v /\ (x <> y -> Cell g' y = Cell g y) /\ WfGrid g'.
Proof.
  intros Hwf Hx Hy Hs. split; [|split].
  - eapply Cell_SetCell_same; eauto.
  - intros Hne. eapply Cell_SetCell_other; eauto.
  - eapply SetCell_WfGrid; eauto.
Qed.

Lemma Grid_read_after_write_witness :
  Cell (mkGrid [2; 3] [2] [10; 11; 12; 13; 14; 0]) [1; 2] = Ok 0 /\
  ([1; 2] <> [0; 1] ->
   Cell (mkGrid [2; 3] [2] [10; 11; 12; 13; 14; 0]) [0; 1]
   = Cell (mkGrid [2; 3] [2] [10; 11; 12; 13; 14; 15]) [0; 1]) /\
  WfGrid (mkGrid [2; 3] [2] [10; 11; 12; 13; 14; 0]).
Proof.
  apply (Grid_read_after_write (mkGrid [2; 3] [2] [10; 11; 12; 13; 14; 15])
           (mkGrid [2; 3] [2] [10; 11; 12; 13; 14; 0]) [1; 2] [0; 1] 0).
  - constructor; simpl; [repeat constructor | reflexivity | reflexivity
                        | reflexivity].
  - split; reflexivity.
  - split; reflexivity.
  - reflexivity.
Defined.


(** ** The index iterator on any size *)

Lemma iterator_value_bounds size : forall index,
  all_positive size -> wf_index size index ->
  0 <= iterator_value index size < size_product size.
Proof.
  induction size as [|s size IH]; intros [|x index] Hpos (Hlen & Hin);
    simpl in Hlen; try discriminate.
  - simpl. lia.
  - inversion Hpos as [|? ? Hs Hpos']; subst.
    apply Inside_cons in Hin. destruct Hin as (Hx & Hin).
    assert (Hw : wf_index size index) by (split; [lia | exact Hin]).
    specialize (IH index Hpos' Hw).
    cbn [iterator_value].
    change (size_product (s :: size)) with (s * size_product size). nia.
Qed.

Lemma iterator_value_zeros size :
  iterator_value (repeat 0 (length size)) size = 0.
Proof. induction size as [|s size IH]; simpl; auto. Qed.



(** ** The tables of neighbour offsets *)

Section VertexCount.
Variable N : nat.

Lemma is_origin_ones index :
  digits index -> length index = N ->
  (is_origin (offset_of index) = true <->
   odometer_value index = odometer_value (repeat 1 N)).
Proof.
  intros Hd Hlen. split.
  - intros Ho. f_equal. subst N. clear Hd.
    induction index as [|d index IH]; [reflexivity|].
    unfold is_origin, offset_of in Ho. cbn [map forallb] in Ho.
    apply andb_prop in Ho. destruct Ho as (Hd0 & Ho).
    cbn [length repeat]. f_equal; [lia | now apply IH].
  - intros Hv.
    assert (Hone : digits (repeat 1 N)).
    { apply Forall_forall. intros d Hin. apply repeat_spec in Hin. lia. }
    rewrite (odometer_value_inj index (repeat 1 N) Hd Hone) by
        (rewrite ?repeat_length; auto).
    clear. induction N as [|n IH]; [reflexivity|].
    unfold is_origin, offset_of in *. cbn [repeat map forallb]. exact IH.
Qed.

Lemma loop_length fuel : forall index,
  digits index -> length index = N ->
  3 ^ Z.of_nat N <= odometer_value index + Z.of_nat fuel ->
  Z.of_nat (length (VertexNeighborOffsets_loop fuel (repeat 3 N) index))
  = 3 ^ Z.of_nat N - odometer_value index
    - (if odometer_value index <=? odometer_value (repeat 1 N)
       then 1 else 0).
Proof.
  assert (Hone : digits (repeat 1 N)).
  { apply Forall_forall. intros d Hin. apply repeat_spec in Hin. lia. }
  pose proof (odometer_value_bounds (repeat 1 N) Hone) as Hm.
  rewrite repeat_length in Hm.
  induction fuel as [|fuel IH]; intros index Hd Hlen Hfuel.
  - pose proof (odometer_value_bounds index Hd) as Hb.
    rewrite Hlen in Hb. lia.
  - pose proof (odometer_value_bounds index Hd) as Hb. rewrite Hlen in Hb.
    rewrite (loop_step N fuel index), length_app, Nat2Z.inj_add.
    pose proof (IndexIterator_Next_spec index Hd) as Hn. cbn zeta in Hn.
    rewrite Hlen in Hn.
    pose proof (is_origin_ones index Hd Hlen) as Ho.
    destruct (IndexIterator_Next (repeat 3 N) index) as [[|] index'].
    + destruct Hn as (Hl' & Hd' & Hv).
      rewrite (IH index' Hd' Hl') by lia. rewrite Hv.
      destruct (is_origin (offset_of index)) eqn:Eo.
      * assert (Heq : odometer_value index = odometer_value (repeat 1 N))
          by now apply Ho.
        rewrite Heq.
        destruct (Z.leb_spec (odometer_value (repeat 1 N) + 1)
                             (odometer_value (repeat 1 N))); [lia|].
        destruct (Z.leb_spec (odometer_value (repeat 1 N))
                             (odometer_value (repeat 1 N))); [|lia].
        simpl length. lia.
      * assert (Hne : odometer_value index <> odometer_value (repeat 1 N)).
        { intros Heq. apply Ho in Heq. congruence. }
        destruct (Z.leb_spec (odometer_value index + 1)
                             (odometer_value (repeat 1 N)));
          destruct (Z.leb_spec (odometer_value index)
                               (odometer_value (repeat 1 N)));
          simpl length; lia.
    + destruct Hn as (_ & _ & Hv & _).
      destruct (is_origin (offset_of index)) eqn:Eo.
      * assert (Heq : odometer_value index = odometer_value (repeat 1 N))
          by now apply Ho.
        destruct (Z.leb_spec (odometer_value index)
                             (odometer_value (repeat 1 N))); simpl length; lia.
      * assert (Hne : odometer_value index <> odometer_value (repeat 1 N)).
        { intros Heq. apply Ho in Heq. congruence. }
        destruct (Z.leb_spec (odometer_value index)
                             (odometer_value (repeat 1 N))); simpl length; lia.
Qed.

(** When [3^N] fits [size_t], [VertexNeighborOffsets] lists the
    [3^N - 1] offsets of {-1, 0, 1}^N other than the origin, each once. *)
Theorem VertexNeighborOffsets_is_shell :
  3 ^ Z.of_nat N < size_t_modulus ->
  Z.of_nat (length (VertexNeighborOffsets N)) = 3 ^ Z.of_nat N - 1 /\
  NoDup (VertexNeighborOffsets N) /\
  forall o, In o (VertexNeighborOffsets N) <->
            length o = N /\ Forall (fun d => -1 <= d <= 1) o /\
            exists d, In d o /\ d <> 0.
Proof.
  intros Hlt.
  destruct (VertexNeighborOffsets_spec N Hlt) as (Hnd & Hin).
  split; [|split; [exact Hnd|]].
  - unfold VertexNeighborOffsets. rewrite (static_pow_exact N Hlt).
    assert (Hp : 0 < 3 ^ Z.of_nat N) by (apply Z.pow_pos_nonneg; lia).
    rewrite loop_length.
    + rewrite odometer_value_zeros.
      assert (Hone : digits (repeat 1 N)).
      { apply Forall_forall. intros d Hd. apply repeat_spec in Hd. lia. }
      pose proof (odometer_value_bounds (repeat 1 N) Hone).
      destruct (Z.leb_spec 0 (odometer_value (repeat 1 N))); lia.
    + apply digits_zeros.
    + apply repeat_length.
    + rewrite odometer_value_zeros. lia.
  - intros o. rewrite (Hin o). unfold shell_offset.
    assert (Hor : is_origin o = false <-> exists d, In d o /\ d <> 0).
    { unfold is_origin. clear. induction o as [|a o IH]; simpl.
      - split; [discriminate | intros (d & [] & _)].
      - destruct (Z.eqb_spec a 0) as [->|Hne]; simpl.
        + rewrite IH. split.
          * intros (d & Hd & Hd0). exists d. auto.
          * intros (d & [<-|Hd] & Hd0); [congruence | eauto].
        + split; auto. intros _. exists a. auto. }
    rewrite Hor. reflexivity.
Qed.
End VertexCount.

Lemma VertexNeighborOffsets_is_shell_witness :
  Z.of_nat (length (VertexNeighborOffsets 2)) = 3 ^ Z.of_nat 2 - 1 /\
  NoDup (VertexNeighborOffsets 2) /\
  forall o, In o (VertexNeighborOffsets 2) <->
            length o = 2%nat /\ Forall (fun d => -1 <= d <= 1) o /\
            exists d, In d o /\ d <> 0.
Proof.
  apply (VertexNeighborOffsets_is_shell 2). reflexivity.
Defined.

(** [FaceNeighborOffsets] has [2 N] offsets, and adding them to an index of
    dimension [N] gives the index with one component moved by +1 or -1, axis
    by axis: the cells the loops over [kNeighborOffsets] visit. *)
Theorem FaceNeighborOffsets_moves (N : nat) (index : Index) :
  length index = N ->
  length (FaceNeighborOffsets N) = (2 * N)%nat /\
  map (add_index index) (FaceNeighborOffsets N)
  = flat_map (fun i => [add_at index i 1; add_at index i (-1)]) (seq 0 N) /\
  Permutation (map (add_index index) (FaceNeighborOffsets N))
              (map (fun s : nat * Z => add_at index (fst s) (snd s))
                   (face_steps N)).
Proof.
  intros Hlen. unfold FaceNeighborOffsets, face_steps, kNeighborOffsets.
  assert (Hmoves : map (add_index index)
                       (flat_map (fun i => [unit_offset N i 1;
                                            unit_offset N i (-1)]) (seq 0 N))
                   = flat_map (fun i => [add_at index i 1;
                                         add_at index i (-1)]) (seq 0 N)).
  { subst N. generalize (seq 0 (length index)) as l.
    induction l as [|i l IH]; [reflexivity|].
    cbn [flat_map map app]. rewrite !add_index_unit_offset, IH.
    reflexivity. }
  split; [|split; [exact Hmoves|]].
  - transitivity (2 * length (seq 0 N))%nat; [|now rewrite length_seq].
    generalize (seq 0 N) as l.
    induction l as [|i l IH]; [reflexivity|].
    cbn [flat_map app length]. rewrite IH. lia.
  - rewrite Hmoves. generalize (seq 0 N) as l.
    induction l as [|i l IH]; [constructor|].
    cbn [flat_map map app fst snd].
    eapply Permutation_trans; [apply perm_swap|].
    apply perm_skip, perm_skip. exact IH.
Qed.

Lemma FaceNeighborOffsets_moves_witness :
  length (FaceNeighborOffsets 2) = (2 * 2)%nat /\
  map (add_index [5; 7]) (FaceNeighborOffsets 2)
  = flat_map (fun i => [add_at [5; 7] i 1; add_at [5; 7] i (-1)]) (seq 0 2) /\
  Permutation (map (add_index [5; 7]) (FaceNeighborOffsets 2))
              (map (fun s : nat * Z => add_at [5; 7] (fst s) (snd s))
                   (face_steps 2)).
Proof.
  apply (FaceNeighborOffsets_moves 2 [5; 7]). reflexivity.
Defined.


(** ** What [SetBoundaryCondition] writes *)

Section BoundaryWrites.
Context {T : Type} `{Scalar T}.
Variable multiplier : T.
Variable distance_predicate : T -> bool.

Lemma SetBoundaryCondition_loop_writes seeds : forall (g g1 : Grid T),
  WfGrid g -> NoDup (map fst seeds) ->
  Forall (fun s => length (fst s) = length (size_ g)) seeds ->
  SetBoundaryCondition_loop seeds multiplier distance_predicate g
  = (g1, Ok tt) ->
  WfGrid g1 /\ size_ g1 = size_ g /\
  (forall s, In s seeds ->
             wf_index (size_ g) (fst s) /\
             distance_predicate (snd s) = true /\
             Cell g1 (fst s) = Ok (multiplier * snd s)%S) /\
  (forall y, wf_index (size_ g) y -> ~ In y (map fst seeds) ->
             Cell g1 y = Cell g y).
Proof.
  induction seeds as [|s seeds IH]; intros g g1 Hwf Hnd Hlen Hrun.
  - simpl in Hrun. inversion Hrun; subst.
    split; [exact Hwf|]. split; [reflexivity|].
    split; [intros s []|reflexivity].
  - rewrite SetBoundaryCondition_loop_cons in Hrun.
    destruct (SetBoundaryCondition_step s multiplier distance_predicate g)
      as [g'|e] eqn:Hs; [|inversion Hrun].
    destruct (SetBoundaryCondition_step_inv _ _ _ _ _ Hs)
      as (Hin & Hp & _ & Hset).
    pose proof (Forall_inv Hlen) as Hls. cbv beta in Hls.
    pose proof (Forall_inv_tail Hlen) as Hlen'.
    inversion Hnd as [|? ? Hni Hnd']; subst.
    pose proof (SetCell_WfGrid _ _ _ _ Hset Hwf) as Hwf'.
    pose proof (SetCell_size _ _ _ _ Hset) as Hsz'.
    assert (Hws : wf_index (size_ g) (fst s)) by (split; assumption).
    destruct (IH g' g1 Hwf' Hnd') as (Hwf1 & Hsz1 & Hseeds & Hother); auto.
    { now rewrite Hsz'. }
    rewrite Hsz' in *.
    split; [exact Hwf1|]. split; [exact Hsz1|]. split.
    + intros s' [<-|Hs']; [|now apply Hseeds].
      split; [exact Hws|]. split; [exact Hp|].
      rewrite (Hother (fst s) Hws Hni).
      eapply Cell_SetCell_same; eauto.
    + intros y Hy Hny.
      rewrite Hother; auto.
      * eapply Cell_SetCell_other; eauto.
        intros Heq. apply Hny. left. exact Heq.
      * intros Hi. apply Hny. right. exact Hi.
Qed.

Lemma SetBoundaryCondition_writes indices distances (g g1 : Grid T) :
  WfGrid g -> NoDup indices ->
  Forall (fun index => length index = length (size_ g)) indices ->
  SetBoundaryCondition indices distances multiplier distance_predicate g
  = (g1, Ok tt) ->
  length indices = length distances /\
  Z.of_nat (length indices) <> LinearSize (size_ g) /\
  (forall index distance,
      In (index, distance) (combine indices distances) ->
      wf_index (size_ g) index /\ distance_predicate distance = true /\
      Cell g1 index = Ok (multiplier * distance)%S) /\
  (forall y, wf_index (size_ g) y -> ~ In y indices -> Cell g1 y = Cell g y).
Proof.
  intros Hwf Hnd Hlen Hrun.
  destruct (SetBoundaryCondition_Ok_inv _ _ _ _ _ _ Hrun)
    as (Hne & Hl & Hloop & Hw).
  destruct (SetBoundaryCondition_loop_writes (combine indices distances)
              g g1 Hwf) as (_ & Hsz & Hseeds & Hother); auto.
  - now rewrite combine_fst.
  - apply Forall_forall. intros s Hs.
    rewrite Forall_forall in Hlen. apply Hlen.
    rewrite <- (combine_fst indices distances Hl). now apply in_map.
  - split; [exact Hl|]. split.
    + rewrite <- Hsz. now apply Z.eqb_neq.
    + split.
      * intros index distance Hin. exact (Hseeds (index, distance) Hin).
      * intros y Hy Hny. apply Hother; auto.
        now rewrite combine_fst.
Qed.

(** When [SetBoundaryCondition] succeeds on distinct seed indices, every
    seed lies in the grid and passes the predicate, its cell holds
    [multiplier * distance], and every other cell is as before. *)
Theorem SetBoundaryCondition_writes_seeds indices distances (g g1 : Grid T) :
  WfGrid g -> NoDup indices ->
  Forall (fun index => length index = length (size_ g)) indices ->
  SetBoundaryCondition indices distances multiplier distance_predicate g
  = (g1, Ok tt) ->
  length indices = length distances /\
  Z.of_nat (length indices) <> LinearSize (size_ g) /\
  (forall index distance,
      In (index, distance) (combine indices distances) ->
      wf_index (size_ g) index /\ distance_predicate distance = true /\
      Cell g1 index = Ok (multiplier * distance)%S) /\
  (forall y, wf_index (size_ g) y -> ~ In y indices -> Cell g1 y = Cell g y).
Proof. apply SetBoundaryCondition_writes. Qed.

(** Reordering the seeds, indices and distances by the same permutation,
    leaves the grid [SetBoundaryCondition] produces unchanged. *)
Theorem SetBoundaryCondition_seed_order indices distances indices' distances'
        (g g1 : Grid T) :
  WfGrid g -> NoDup indices ->
  Forall (fun index => length index = length (size_ g)) indices ->
  length indices' = length distances' ->
  Permutation (combine indices distances) (combine indices' distances') ->
  SetBoundaryCondition indices distances multiplier distance_predicate g
  = (g1, Ok tt) ->
  SetBoundaryCondition indices' distances' multiplier distance_predicate g
  = (g1, Ok tt).
Proof. apply SetBoundaryCondition_perm. Qed.
End BoundaryWrites.

Lemma SetBoundaryCondition_writes_seeds_witness :
  length [[0; 0]; [2; 1]] = length [0.5%float; 2%float] /\
  Z.of_nat (length [[0; 0]; [2; 1]])
  <> LinearSize (size_ (Examples.fresh3x3)) /\
  (forall index distance,
      In (index, distance) (combine [[0; 0]; [2; 1]] [0.5%float; 2%float]) ->
      wf_index (size_ Examples.fresh3x3) index /\
      unsigned_distance_predicate distance = true /\
      Cell (fst (SetBoundaryCondition [[0; 0]; [2; 1]] [0.5%float; 2%float]
                   1%float unsigned_distance_predicate Examples.fresh3x3))
           index = Ok (smul 1%float distance)) /\
  (forall y, wf_index (size_ Examples.fresh3x3) y ->
             ~ In y [[0; 0]; [2; 1]] ->
             Cell (fst (SetBoundaryCondition [[0; 0]; [2; 1]]
                          [0.5%float; 2%float] 1%float
                          unsigned_distance_predicate Examples.fresh3x3)) y
             = Cell Examples.fresh3x3 y).
Proof.
  apply (SetBoundaryCondition_writes_seeds 1%float
           unsigned_distance_predicate [[0; 0]; [2; 1]]
           [0.5%float; 2%float] Examples.fresh3x3).
  - constructor; [repeat constructor | reflexivity | reflexivity
                 | reflexivity].
  - repeat constructor; simpl; intuition discriminate.
  - repeat constructor.
  - vm_compute. reflexivity.
Defined.

Lemma SetBoundaryCondition_seed_order_witness :
  SetBoundaryCondition [[2; 1]; [0; 0]] [2%float; 0.5%float] 1%float
                       unsigned_distance_predicate Examples.fresh3x3
  = (fst (SetBoundaryCondition [[0; 0]; [2; 1]] [0.5%float; 2%float] 1%float
            unsigned_distance_predicate Examples.fresh3x3), Ok tt).
Proof.
  apply (SetBoundaryCondition_seed_order 1%float unsigned_distance_predicate
           [[0; 0]; [2; 1]] [0.5%float; 2%float]
           [[2; 1]; [0; 0]] [2%float; 0.5%float] Examples.fresh3x3).
  - constructor; [repeat constructor | reflexivity | reflexivity
                 | reflexivity].
  - repeat constructor; simpl; intuition discriminate.
  - repeat constructor.
  - reflexivity.
  - apply perm_swap.
  - vm_compute. reflexivity.
Defined.

(** ** The initial narrow band of the unsigned driver *)

Section InitialBand.
Context {T : Type} `{Scalar T}.
Variable eikonal_solver : Index -> Grid T -> Result T.
Variable distance_grid : Grid T.

Lemma narrow_band_visit_cell_cases c nbg nbg1 (new : NarrowBandStore (T:=T)) :
  WfGrid nbg -> length c = length (size_ nbg) ->
  narrow_band_visit_cell eikonal_solver c distance_grid nbg []
  = Ok (nbg1, new) ->
  (nbg1 = nbg /\ new = [] /\
   (Inside c (size_ nbg) = true ->
    Cell nbg c <> Ok NarrowBandCell.kBackground)) \/
  (exists d, new = [(d, c)] /\ wf_index (size_ nbg) c /\
             eikonal_solver c distance_grid = Ok d /\
             Cell nbg c = Ok NarrowBandCell.kBackground /\
             SetCell nbg c NarrowBandCell.kNarrowBand = Ok nbg1).
Proof.
  intros Hwf Hlen. unfold narrow_band_visit_cell, Push.
  destruct (Inside c (size_ nbg)) eqn:Hin.
  2:{ intros Heq; inversion Heq; subst. left.
      split; [reflexivity|]. split; [reflexivity | discriminate]. }
  destruct (Cell nbg c) as [cell|e]; cbn [bind]; [|discriminate].
  destruct (NarrowBandCell.eqb cell NarrowBandCell.kBackground) eqn:Eb.
  - destruct (eikonal_solver c distance_grid) as [d|e]; cbn [bind];
      [|discriminate].
    destruct (SetCell nbg c NarrowBandCell.kNarrowBand) as [g'|e] eqn:Hs;
      cbn [bind]; [|discriminate].
    intros Heq; inversion Heq; subst. right. exists d.
    split; [reflexivity|]. split; [split; assumption|].
    split; [reflexivity|]. split; [|reflexivity].
    destruct cell; simpl in Eb; try discriminate. reflexivity.
  - intros Heq; inversion Heq; subst. left.
    split; [reflexivity|]. split; [reflexivity|].
    intros _ Hc. inversion Hc; subst. discriminate.
Qed.

Lemma narrow_band_visit_spec cells :
  forall nbg nbg1 (new : NarrowBandStore (T:=T)),
    WfGrid nbg ->
    Forall (fun c => length c = length (size_ nbg)) cells ->
    narrow_band_visit eikonal_solver cells distance_grid nbg []
    = Ok (nbg1, new) ->
    WfGrid nbg1 /\ size_ nbg1 = size_ nbg /\
    NoDup (map snd new) /\
    (forall d x, In (d, x) new ->
       In x cells /\ wf_index (size_ nbg) x /\
       eikonal_solver x distance_grid = Ok d /\
       Cell nbg x = Ok NarrowBandCell.kBackground /\
       Cell nbg1 x = Ok NarrowBandCell.kNarrowBand) /\
    (forall y, wf_index (size_ nbg) y -> ~ In y (map snd new) ->
               Cell nbg1 y = Cell nbg y) /\
    (forall x, In x cells -> Inside x (size_ nbg) = true ->
               Cell nbg1 x <> Ok NarrowBandCell.kBackground).
Proof.
  induction cells as [|c cells IH]; intros nbg nbg1 new Hwf Hlen Hrun.
  - inversion Hrun; subst. split; [exact Hwf|]. split; [reflexivity|].
    split; [constructor|]. split; [intros d x []|].
    split; [reflexivity | intros x []].
  - cbn [narrow_band_visit] in Hrun.
    destruct (narrow_band_visit_cell eikonal_solver c distance_grid nbg [])
      as [[nbg2 new2]|e] eqn:Hc; [|discriminate].
    cbn [bind] in Hrun.
    pose proof (Forall_inv Hlen) as Hlc. cbv beta in Hlc.
    pose proof (Forall_inv_tail Hlen) as Hlen'.
    destruct (narrow_band_visit_cell_size _ _ _ _ _ _ _ Hc Hwf)
      as (Hwf2 & Hs2).
    destruct (narrow_band_visit_band _ _ _ _ _ _ _ Hrun)
      as (rest & -> & Hrest).
    specialize (Hrest []). cbn [app] in Hrest.
    destruct (IH nbg2 nbg1 rest Hwf2) as (Hwf1 & Hs1 & Hnd & Hent & Hoth & Hnb);
      auto.
    { now rewrite Hs2. }
    rewrite Hs2 in *.
    destruct (narrow_band_visit_cell_cases c nbg nbg2 new2 Hwf Hlc Hc)
      as [(-> & -> & Hskip)|(d & -> & Hwc & Hsol & Hbg & Hset)].
    + cbn [app]. split; [exact Hwf1|]. split; [exact Hs1|].
      split; [exact Hnd|]. split; [|split].
      * intros d x Hin. destruct (Hent d x Hin) as (H1 & H2).
        split; [right; exact H1 | exact H2].
      * exact Hoth.
      * intros x [<-|Hx] Hin; [|now apply Hnb].
        destruct (in_dec (list_eq_dec Z.eq_dec) c (map snd rest)) as [Hi|Hni].
        -- apply in_map_iff in Hi. destruct Hi as ((d & x) & Hx & Hi).
           simpl in Hx. subst x.
           destruct (Hent d c Hi) as (_ & _ & _ & _ & ->). discriminate.
        -- rewrite (Hoth c (conj Hlc Hin) Hni). now apply Hskip.
    + assert (Hc2 : Cell nbg2 c = Ok NarrowBandCell.kNarrowBand)
        by (eapply Cell_SetCell_same; eauto).
      assert (Hnc : ~ In c (map snd rest)).
      { intros Hi. apply in_map_iff in Hi. destruct Hi as ((d' & x) & Hx & Hi).
        simpl in Hx. subst x.
        destruct (Hent d' c Hi) as (_ & _ & _ & Hb & _). congruence. }
      assert (Hc1 : Cell nbg1 c = Ok NarrowBandCell.kNarrowBand).
      { rewrite (Hoth c Hwc Hnc). exact Hc2. }
      cbn [app map snd]. split; [exact Hwf1|]. split; [exact Hs1|].
      split; [constructor; assumption|]. split; [|split].
      * intros d' x [Heq|Hin].
        -- inversion Heq; subst. split; [left; reflexivity|]. auto.
        -- destruct (Hent d' x Hin) as (H1 & H2 & H3 & H4 & H5).
           split; [right; exact H1|]. split; [exact H2|].
           split; [exact H3|]. split; [|exact H5].
           rewrite <- H4. symmetry.
           eapply Cell_SetCell_other; eauto. intros ->. congruence.
      * intros y Hy Hny. rewrite Hoth; auto.
        -- eapply Cell_SetCell_other; eauto.
           intros ->. apply Hny. left. reflexivity.
        -- intros Hi. apply Hny. right. exact Hi.
      * intros x [<-|Hx] Hin; [|now apply Hnb].
        rewrite Hc1. discriminate.
Qed.

Lemma InitialUnsignedNarrowBand_band (frozen_indices : list Index)
      (narrow_band : NarrowBandStore (T:=T)) :
  all_positive (size_ distance_grid) ->
  size_product (size_ distance_grid) < size_t_modulus ->
  Forall (fun f => length f = length (size_ distance_grid)) frozen_indices ->
  InitialUnsignedNarrowBand eikonal_solver frozen_indices distance_grid
  = Ok narrow_band ->
  NoDup (map snd narrow_band) /\
  (forall d x, In (d, x) narrow_band ->
     wf_index (size_ distance_grid) x /\
     eikonal_solver x distance_grid = Ok d /\
     exists f i o, In f frozen_indices /\
                   In (i, o) (face_steps (length f)) /\ x = add_at f i o) /\
  (forall f i o, In f frozen_indices -> In (i, o) (face_steps (length f)) ->
                 Inside (add_at f i o) (size_ distance_grid) = true ->
                 In (add_at f i o) (map snd narrow_band)).
Proof.
  intros Hpos Hov Hlen. unfold InitialUnsignedNarrowBand.
  destruct (make_Grid_fresh (size_ distance_grid) NarrowBandCell.kBackground
              Hpos Hov) as (nbg & Hmk & Hwf & Hsz & Hcells).
  rewrite Hmk. cbn [bind]. rewrite InitialUnsignedNarrowBand_loop_visit.
  destruct (narrow_band_visit eikonal_solver
              (flat_map seed_neighbors frozen_indices) distance_grid nbg [])
    as [[nbg1 new]|e] eqn:Hrun; cbn [bind]; [|discriminate].
  intros Heq. inversion Heq; subst new. clear Heq.
  destruct (narrow_band_visit_spec
              (flat_map seed_neighbors frozen_indices) nbg nbg1 narrow_band
              Hwf) as (_ & _ & Hnd & Hent & Hoth & Hnb); auto.
  { apply Forall_forall. intros c Hc. apply in_flat_map in Hc.
    destruct Hc as (f & Hf & Hc). rewrite (seed_neighbors_length f c Hc).
    rewrite Forall_forall in Hlen. rewrite Hsz. now apply Hlen. }
  rewrite Hsz in *.
  split; [exact Hnd|]. split.
  - intros d x Hin. destruct (Hent d x Hin) as (Hc & Hw & Hs & _).
    split; [exact Hw|]. split; [exact Hs|].
    apply in_flat_map in Hc. destruct Hc as (f & Hf & Hc).
    unfold seed_neighbors in Hc. apply in_map_iff in Hc.
    destruct Hc as ((i & o) & Hx & Hio). exists f, i, o. auto.
  - intros f i o Hf Hio Hin.
    assert (Hc : In (add_at f i o) (flat_map seed_neighbors frozen_indices)).
    { apply in_flat_map. exists f. split; [exact Hf|].
      unfold seed_neighbors. apply in_map_iff. exists (i, o). auto. }
    destruct (in_dec (list_eq_dec Z.eq_dec) (add_at f i o)
                     (map snd narrow_band)) as [Hi|Hni]; [exact Hi|].
    exfalso. apply (Hnb _ Hc Hin).
    assert (Hw : wf_index (size_ distance_grid) (add_at f i o)).
    { split; [|exact Hin]. rewrite add_at_length.
      rewrite Forall_forall in Hlen. now apply Hlen. }
    rewrite (Hoth _ Hw Hni).
    apply Cell_repeat; auto; [|now rewrite Hsz].
    rewrite Hcells at 1. now rewrite Hcells, repeat_length.
Qed.

(** The initial narrow band holds every cell at most once; each entry is a
    face neighbour, inside the grid, of a seed, with the distance the solver
    gives it on the seeded grid; and every face neighbour of a seed that lies
    in the grid has an entry. *)
Theorem InitialUnsignedNarrowBand_entries (frozen_indices : list Index)
        (narrow_band : NarrowBandStore (T:=T)) :
  all_positive (size_ distance_grid) ->
  size_product (size_ distance_grid) < size_t_modulus ->
  Forall (fun f => length f = length (size_ distance_grid)) frozen_indices ->
  InitialUnsignedNarrowBand eikonal_solver frozen_indices distance_grid
  = Ok narrow_band ->
  NoDup (map snd narrow_band) /\
  (forall d x, In (d, x) narrow_band ->
     wf_index (size_ distance_grid) x /\
     eikonal_solver x distance_grid = Ok d /\
     exists f i o, In f frozen_indices /\
                   In (i, o) (face_steps (length f)) /\ x = add_at f i o) /\
  (forall f i o, In f frozen_indices -> In (i, o) (face_steps (length f)) ->
                 Inside (add_at f i o) (size_ distance_grid) = true ->
                 In (add_at f i o) (map snd narrow_band)).
Proof. apply InitialUnsignedNarrowBand_band. Qed.

(** The initial narrow band of a permutation of the seeds holds the same
    entries, in some order. *)
Theorem InitialUnsignedNarrowBand_seed_order
        (frozen_indices frozen_indices' : list Index)
        (narrow_band : NarrowBandStore (T:=T)) :
  Permutation frozen_indices frozen_indices' ->
  all_positive (size_ distance_grid) ->
  size_product (size_ distance_grid) < size_t_modulus ->
  Forall (fun f => length f = length (size_ distance_grid)) frozen_indices ->
  InitialUnsignedNarrowBand eikonal_solver frozen_indices distance_grid
  = Ok narrow_band ->
  exists narrow_band',
    InitialUnsignedNarrowBand eikonal_solver frozen_indices' distance_grid
    = Ok narrow_band' /\ Permutation narrow_band narrow_band'.
Proof. apply InitialUnsignedNarrowBand_perm. Qed.
End InitialBand.

Lemma InitialUnsignedNarrowBand_entries_witness :
  NoDup (map snd SeedOrderExamples.band) /\
  (forall d x, In (d, x) SeedOrderExamples.band ->
     wf_index (size_ SeedOrderExamples.seeded) x /\
     SeedOrderExamples.solver_narrow x SeedOrderExamples.seeded = Ok d /\
     exists f i o, In f [[0; 0]; [2; 2]] /\
                   In (i, o) (face_steps (length f)) /\ x = add_at f i o) /\
  (forall f i o, In f [[0; 0]; [2; 2]] -> In (i, o) (face_steps (length f)) ->
                 Inside (add_at f i o) (size_ SeedOrderExamples.seeded) = true ->
                 In (add_at f i o) (map snd SeedOrderExamples.band)).
Proof.
  apply (InitialUnsignedNarrowBand_entries SeedOrderExamples.solver_narrow
           SeedOrderExamples.seeded [[0; 0]; [2; 2]] SeedOrderExamples.band).
  - repeat constructor.
  - reflexivity.
  - repeat constructor.
  - vm_compute. reflexivity.
Defined.

Lemma InitialUnsignedNarrowBand_seed_order_witness :
  exists narrow_band',
    InitialUnsignedNarrowBand SeedOrderExamples.solver_narrow
                              [[2; 2]; [0; 0]] SeedOrderExamples.seeded
    = Ok narrow_band' /\
    Permutation SeedOrderExamples.band narrow_band'.
Proof.
  apply (InitialUnsignedNarrowBand_seed_order SeedOrderExamples.solver_narrow
           SeedOrderExamples.seeded [[0; 0]; [2; 2]] [[2; 2]; [0; 0]]
           SeedOrderExamples.band).
  - apply perm_swap.
  - repeat constructor.
  - reflexivity.
  - repeat constructor.
  - vm_compute. reflexivity.
Defined.

(** ** The march and the order of the narrow band *)

(** When no iteration pops an entry that ties with a different entry, the
    march returns the same grid from any reordering of the narrow band. *)
Theorem MarchNarrowBand_band_order {T : Type} `{Scalar T}
        (eikonal_solver : Index -> Grid T -> Result T) (fuel : nat)
        (narrow_band narrow_band' : NarrowBandStore (T:=T))
        (distance_grid distance_grid' : Grid T) :
  MarchNarrowBand eikonal_solver fuel narrow_band distance_grid
  = Ok distance_grid' ->
  MarchNarrowBand_no_ties eikonal_solver fuel narrow_band distance_grid ->
  Permutation narrow_band narrow_band' ->
  MarchNarrowBand eikonal_solver fuel narrow_band' distance_grid
  = Ok distance_grid'.
Proof.
  unfold MarchNarrowBand. intros Hrun Hno Hperm.
  destruct (MarchNarrowBand_loop eikonal_solver fuel 0 narrow_band
                                 distance_grid) as [[g n]|e] eqn:Hloop;
    cbn [bind] in Hrun; [|discriminate].
  rewrite (MarchNarrowBand_loop_perm eikonal_solver fuel 0%nat narrow_band
             narrow_band' distance_grid (g, n) Hloop Hno Hperm).
  exact Hrun.
Qed.

Lemma MarchNarrowBand_band_order_witness :
  exists distance_grid',
    MarchNarrowBand SeedOrderExamples.solver_narrow 100
                    SeedOrderExamples.band SeedOrderExamples.seeded
    = Ok distance_grid' /\
    MarchNarrowBand SeedOrderExamples.solver_narrow 100
                    (rev SeedOrderExamples.band) SeedOrderExamples.seeded
    = Ok distance_grid'.
Proof.
  eexists. split; [vm_compute; reflexivity|].
  apply (MarchNarrowBand_band_order SeedOrderExamples.solver_narrow 100%nat
           SeedOrderExamples.band (rev SeedOrderExamples.band)
           SeedOrderExamples.seeded).
  - vm_compute. reflexivity.
  - vm_compute.
    repeat split;
      repeat (constructor;
              [first [left; reflexivity | right; split; reflexivity]|]);
      constructor.
  - apply Permutation_rev.
Defined.


(** ** The grid is connected by face steps *)

Lemma face_steps_In N i o :
  In (i, o) (face_steps N) <-> (i < N)%nat /\ (o = -1 \/ o = 1).
Proof.
  unfold face_steps, kNeighborOffsets. rewrite in_flat_map. split.
  - intros (j & Hj & Hin). apply in_seq in Hj. simpl in Hin.
    destruct Hin as [Heq|[Heq|[]]]; inversion Heq; subst; split; auto; lia.
  - intros (Hi & Ho). exists i. split; [apply in_seq; lia|].
    simpl. destruct Ho as [->| ->]; auto.
Qed.

Lemma Inside_app pre : forall spre x sx,
  length pre = length spre ->
  Inside (pre ++ x) (spre ++ sx) = Inside pre spre && Inside x sx.
Proof.
  induction pre as [|a pre IH]; intros [|s spre] x sx Hl; simpl in Hl;
    try discriminate.
  - simpl. reflexivity.
  - cbn [app Inside]. rewrite IH by lia.
    destruct (0 <=? a), (a <? s), (Inside pre spre); reflexivity.
Qed.

Lemma add_at_app pre : forall a post o,
  add_at (pre ++ a :: post) (length pre) o = pre ++ (a + o) :: post.
Proof.
  induction pre as [|b pre IH]; intros a post o; simpl; auto.
  f_equal. apply IH.
Qed.

Section Connected.
Variable size : Size.
Variable P : Index -> Prop.
Hypothesis P_step :
  forall x i o, wf_index size x -> P x ->
                In (i, o) (face_steps (length size)) ->
                Inside (add_at x i o) size = true -> P (add_at x i o).

Lemma grid_line n : forall pre a b post spre s spost,
  size = spre ++ s :: spost -> length pre = length spre ->
  wf_index size (pre ++ a :: post) -> 0 <= b < s ->
  Z.abs (b - a) = Z.of_nat n ->
  P (pre ++ a :: post) -> P (pre ++ b :: post).
Proof.
  induction n as [|n IH]; intros pre a b post spre s spost Hsize Hlp Hwf Hb Hd HP.
  - assert (b = a) by lia. subst. exact HP.
  - destruct Hwf as (Hlen & Hin).
    assert (Hin' := Hin). rewrite Hsize, Inside_app in Hin' by exact Hlp.
    apply andb_prop in Hin'. destruct Hin' as (Hpre & Hrest).
    apply Inside_cons in Hrest. destruct Hrest as (Ha & Hpost).
    assert (Hi : (length pre < length size)%nat).
    { rewrite Hsize, length_app, Hlp. simpl. lia. }
    assert (Hmove : forall o, (o = -1 \/ o = 1) -> 0 <= a + o < s ->
                      P (pre ++ (a + o) :: post) /\
                      wf_index size (pre ++ (a + o) :: post)).
    { intros o Ho Hao.
      assert (Hin2 : Inside (pre ++ (a + o) :: post) size = true).
      { rewrite Hsize, Inside_app by exact Hlp. rewrite Hpre. cbn [andb].
        apply Inside_cons. split; [exact Hao | exact Hpost]. }
      split.
      - rewrite <- add_at_app. apply P_step.
        + split; assumption.
        + exact HP.
        + apply face_steps_In. split; [exact Hi | exact Ho].
        + rewrite add_at_app. exact Hin2.
      - split; [|exact Hin2].
        rewrite length_app in *. simpl in *. exact Hlen. }
    destruct (Z_lt_ge_dec a b) as [Hlt|Hge].
    + destruct (Hmove 1) as (HP1 & Hwf1); auto; [lia|].
      apply (IH pre (a + 1) b post spre s spost); auto. lia.
    + destruct (Hmove (-1)) as (HP1 & Hwf1); auto; [lia|].
      apply (IH pre (a + -1) b post spre s spost); auto. lia.
Qed.

Lemma grid_walk spost : forall pre spre post_x post_y,
  size = spre ++ spost -> length pre = length spre ->
  wf_index size (pre ++ post_x) -> wf_index size (pre ++ post_y) ->
  P (pre ++ post_x) -> P (pre ++ post_y).
Proof.
  induction spost as [|s spost IH]; intros pre spre px py Hsize Hlp Hx Hy HP.
  - destruct Hx as (Hlx & _). destruct Hy as (Hly & _).
    rewrite Hsize, !length_app in *. simpl in *.
    destruct px; [|simpl in Hlx; lia]. destruct py; [|simpl in Hly; lia].
    exact HP.
  - destruct px as [|a px].
    { destruct Hx as (Hlx & _). rewrite Hsize, !length_app in Hlx.
      simpl in Hlx. lia. }
    destruct py as [|b py].
    { destruct Hy as (Hly & _). rewrite Hsize, !length_app in Hly.
      simpl in Hly. lia. }
    assert (Hb : 0 <= b < s).
    { destruct Hy as (_ & Hin). rewrite Hsize, Inside_app in Hin by exact Hlp.
      apply andb_prop in Hin. destruct Hin as (_ & Hin).
      apply Inside_cons in Hin. tauto. }
    assert (Hmid : wf_index size (pre ++ b :: px)).
    { destruct Hx as (Hlx & Hin). split.
      - rewrite length_app in *. simpl in *. exact Hlx.
      - rewrite Hsize, Inside_app in * by exact Hlp.
        apply andb_prop in Hin. destruct Hin as (Hpre & Hin).
        apply Inside_cons in Hin. rewrite Hpre. cbn [andb].
        apply Inside_cons. tauto. }
    assert (HPmid : P (pre ++ b :: px)).
    { apply (grid_line (Z.to_nat (Z.abs (b - a))) pre a b px spre s spost);
        auto. lia. }
    replace (pre ++ b :: px) with ((pre ++ [b]) ++ px) in *
      by now rewrite <- app_assoc.
    replace (pre ++ b :: py) with ((pre ++ [b]) ++ py) in *
      by now rewrite <- app_assoc.
    apply (IH (pre ++ [b]) (spre ++ [s]) px py); auto.
    + rewrite Hsize, <- app_assoc. reflexivity.
    + rewrite !length_app. simpl. lia.
Qed.

(** What holds at one cell of the grid and is carried along face steps
    holds at every cell. *)
Lemma grid_connected x y :
  wf_index size x -> wf_index size y -> P x -> P y.
Proof.
  intros Hx Hy HP.
  apply (grid_walk size [] [] x y); auto.
Qed.
End Connected.

(** ** Row-major offsets reach every cell of the buffer *)

Lemma index_of_spec size : forall k,
  all_positive size -> 0 <= k < size_product size ->
  wf_index size (index_of size k) /\ mixed_radix (index_of size k) size = k.
Proof.
  induction size as [|s size IH]; intros k Hpos Hk.
  - simpl in *. split; [split; reflexivity | lia].
  - inversion Hpos as [|? ? Hs Hpos']; subst.
    change (size_product (s :: size)) with (s * size_product size) in Hk.
    pose proof (size_product_pos size Hpos') as Hp.
    assert (Hdiv : 0 <= k / s < size_product size).
    { split; [apply Z.div_pos; lia|].
      apply Z.div_lt_upper_bound; lia. }
    destruct (IH (k / s) Hpos' Hdiv) as ((Hl & Hin) & Hm).
    pose proof (Z.mod_pos_bound k s Hs) as Hmod.
    cbn [index_of]. split; [split|].
    + simpl. now rewrite Hl.
    + apply Inside_cons. split; [lia | exact Hin].
    + cbn [mixed_radix]. rewrite Hm.
      rewrite (Z.div_mod k s) at 3 by lia. lia.
Qed.

(** ** The narrow band covers the front of the frozen region *)

Section MarchCovers.
Context {T : Type} `{Scalar T}.
Variable eikonal_solver : Index -> Grid T -> Result T.

Lemma Pop_Permutation (nb rest : NarrowBandStore (T:=T)) e :
  Pop nb = Some (e, rest) -> Permutation nb (e :: rest).
Proof.
  unfold Pop. destruct nb as [|v r]; [discriminate|].
  destruct (nth_error (v :: r) (top_position v 0 1 r)) eqn:En;
    [|discriminate].
  intros Heq. inversion Heq; subst. now apply remove_nth_Permutation.
Qed.

(** [UpdateNeighbors] pushes an entry for every face neighbour of the cell
    that lies in the grid and is not frozen, and for no other cell. *)
Lemma UpdateNeighbors_steps_covers steps index (g : Grid T) :
  forall (nb nb1 : NarrowBandStore (T:=T)),
    UpdateNeighbors_steps eikonal_solver steps index g nb = Ok nb1 ->
    (exists new,
        nb1 = nb ++ new /\
        Forall (fun e : T * Index =>
                  exists i o w,
                    In (i, o) steps /\ snd e = add_at index i o /\
                    Inside (snd e) (size_ g) = true /\
                    Cell g (snd e) = Ok w /\ frozen w = false /\
                    eikonal_solver (snd e) g = Ok (fst e)) new) /\
    (forall i o w, In (i, o) steps ->
                   Inside (add_at index i o) (size_ g) = true ->
                   Cell g (add_at index i o) = Ok w -> frozen w = false ->
                   In (add_at index i o) (map snd nb1)).
Proof.
  induction steps as [|[i o] steps IH]; intros nb nb1 Hrun.
  - inversion Hrun; subst. split.
    + exists []. split; [now rewrite app_nil_r | constructor].
    + intros i o w [].
  - cbn [UpdateNeighbors_steps] in Hrun.
    assert (Hweak : forall new : NarrowBandStore (T:=T),
               Forall (fun e : T * Index =>
                         exists i0 o0 w,
                           In (i0, o0) steps /\ snd e = add_at index i0 o0 /\
                           Inside (snd e) (size_ g) = true /\
                           Cell g (snd e) = Ok w /\ frozen w = false /\
                           eikonal_solver (snd e) g = Ok (fst e)) new ->
               Forall (fun e : T * Index =>
                         exists i0 o0 w,
                           In (i0, o0) ((i, o) :: steps) /\
                           snd e = add_at index i0 o0 /\
                           Inside (snd e) (size_ g) = true /\
                           Cell g (snd e) = Ok w /\ frozen w = false /\
                           eikonal_solver (snd e) g = Ok (fst e)) new).
    { intros new Hnew. eapply Forall_impl; [|exact Hnew].
      intros e (i0 & o0 & w & Hin & Hrest). exists i0, o0, w.
      split; [right; exact Hin | exact Hrest]. }
    destruct (Inside (add_at index i o) (size_ g)) eqn:Hin.
    2:{ destruct (IH _ _ Hrun) as ((new & -> & Hnew) & Hcov). split.
        - exists new. split; [reflexivity | now apply Hweak].
        - intros i0 o0 w [Heq|Hio] Hi0 Hc Hf; [|eauto].
          inversion Heq; subst. congruence. }
    destruct (Cell g (add_at index i o)) as [c|e] eqn:Hc; cbn [bind] in Hrun;
      [|discriminate].
    destruct (frozen c) eqn:Hf; cbn [negb] in Hrun.
    { destruct (IH _ _ Hrun) as ((new & -> & Hnew) & Hcov). split.
      - exists new. split; [reflexivity | now apply Hweak].
      - intros i0 o0 w [Heq|Hio] Hi0 Hc0 Hf0; [|eauto].
        inversion Heq; subst. congruence. }
    destruct (eikonal_solver (add_at index i o) g) as [d|e] eqn:Hs;
      cbn [bind] in Hrun; [|discriminate].
    destruct (IH _ _ Hrun) as ((new & -> & Hnew) & Hcov). split.
    + exists ((d, add_at index i o) :: new). unfold Push.
      split; [now rewrite <- app_assoc|].
      constructor; [|now apply Hweak].
      exists i, o, c. cbn [fst snd].
      split; [left; reflexivity|]. auto.
    + intros i0 o0 w [Heq|Hio] Hi0 Hc0 Hf0; [|eauto].
      inversion Heq; subst. unfold Push. rewrite !map_app.
      apply in_or_app. left. apply in_or_app. right. left. reflexivity.
Qed.

Lemma MarchNarrowBand_body_covers (nb nb' : NarrowBandStore (T:=T)) g g' :
  WfGrid g -> band_covers nb g ->
  Forall (fun e => wf_index (size_ g) (snd e)) nb ->
  MarchNarrowBand_assertion nb g = true ->
  MarchNarrowBand_body eikonal_solver nb g = Ok (nb', g') ->
  WfGrid g' /\ size_ g' = size_ g /\ band_covers nb' g' /\
  Forall (fun e => wf_index (size_ g') (snd e)) nb'.
Proof.
  intros Hwf Hcov Hband Has Hbody.
  destruct (MarchNarrowBand_body_inv _ _ _ _ _ Hbody)
    as (d & idx & rest & dc & Hpop & Hcell & Hcase).
  pose proof (Pop_Permutation _ _ _ Hpop) as Hperm.
  assert (Hrest : Forall (fun e => wf_index (size_ g) (snd e))
                         ((d, idx) :: rest)).
  { eapply Permutation_Forall; eauto. }
  pose proof (Forall_inv Hrest) as Hidx. cbn [snd] in Hidx.
  pose proof (Forall_inv_tail Hrest) as Hrest'.
  assert (Hsplit : forall y, In y (map snd nb) ->
                             y = idx \/ In y (map snd rest)).
  { intros y Hy.
    apply (Permutation_in y (Permutation_map snd Hperm)) in Hy.
    destruct Hy as [<-|Hy]; auto. }
  destruct Hcase as [(Hf & -> & ->)|(Hf & Hset & Hupd)].
  - split; [exact Hwf|]. split; [reflexivity|]. split; [|exact Hrest'].
    intros x v i o Hx Hc Hv Hio Hin.
    destruct (Hcov x v i o Hx Hc Hv Hio Hin) as [Hl|Hr]; [left; exact Hl|].
    destruct (Hsplit _ Hr) as [Heq|Hr']; [|right; exact Hr'].
    left. exists dc. rewrite Heq. auto.
  - unfold MarchNarrowBand_assertion in Has. rewrite Hpop, Hcell, Hf in Has.
    cbn [orb] in Has.
    pose proof (SetCell_WfGrid _ _ _ _ Hset Hwf) as Hwf'.
    pose proof (SetCell_size _ _ _ _ Hset) as Hsz'.
    assert (Hnew_idx : Cell g' idx = Ok d)
      by (eapply Cell_SetCell_same; eauto).
    unfold UpdateNeighbors in Hupd.
    destruct (UpdateNeighbors_steps_covers _ _ _ _ _ Hupd)
      as ((new & -> & Hnew) & Hpush).
    split; [exact Hwf'|]. split; [exact Hsz'|]. rewrite Hsz'. split.
    + intros x v i o Hx Hc Hv Hio Hin. rewrite Hsz' in Hx, Hin.
      assert (Hy : wf_index (size_ g) (add_at x i o)).
      { split; [|exact Hin]. rewrite add_at_length. apply Hx. }
      destruct (list_eq_dec Z.eq_dec x idx) as [->|Hne].
      * rewrite <- Hsz' in Hy. destruct (Cell_wf g' _ Hwf' Hy) as (w & Hw).
        destruct (frozen w) eqn:Hfw; [left; eauto|].
        right. rewrite <- Hsz' in Hin. eapply Hpush; eauto.
      * assert (Hcx : Cell g x = Ok v).
        { rewrite <- Hc. symmetry. eapply Cell_SetCell_other; eauto. }
        assert (Hidx_frozen :
                  add_at x i o = idx ->
                  exists w, Cell g' (add_at x i o) = Ok w /\ frozen w = true).
        { intros ->. exists d. auto. }
        destruct (list_eq_dec Z.eq_dec (add_at x i o) idx) as [Heq|Hny];
          [left; now apply Hidx_frozen|].
        destruct (Hcov x v i o Hx Hcx Hv Hio Hin) as [(w & Hw & Hfw)|Hr].
        -- left. exists w. split; [|exact Hfw].
           rewrite <- Hw. eapply Cell_SetCell_other; eauto.
        -- destruct (Hsplit _ Hr) as [Heq|Hr']; [contradiction|].
           right. rewrite map_app. apply in_or_app. left. exact Hr'.
    + apply Forall_app. split; [exact Hrest'|].
      eapply Forall_impl; [|exact Hnew].
      intros e (i & o & w & _ & Heq & Hin & _). split.
      * rewrite Heq, add_at_length. apply Hidx.
      * now rewrite <- Hsz'.
Qed.

Lemma MarchNarrowBand_loop_covers fuel :
  forall iterations (nb : NarrowBandStore (T:=T)) g g' n,
    WfGrid g -> band_covers nb g ->
    Forall (fun e => wf_index (size_ g) (snd e)) nb ->
    MarchNarrowBand_assertions eikonal_solver fuel nb g = true ->
    MarchNarrowBand_loop eikonal_solver fuel iterations nb g = Ok (g', n) ->
    WfGrid g' /\ size_ g' = size_ g /\ band_covers [] g'.
Proof.
  induction fuel as [|fuel IH]; intros it nb g g' n Hwf Hcov Hband Has Hrun.
  - cbn [MarchNarrowBand_loop] in Hrun.
    destruct nb as [|e nb]; [|discriminate].
    inversion Hrun; subst. auto.
  - cbn [MarchNarrowBand_loop MarchNarrowBand_assertions] in Hrun, Has.
    destruct nb as [|e nb].
    { inversion Hrun; subst. auto. }
    cbn [empty] in Hrun, Has.
    apply andb_prop in Has. destruct Has as (Has1 & Has2).
    destruct (MarchNarrowBand_body eikonal_solver (e :: nb) g)
      as [[nb1 g1]|err] eqn:Hb; [|discriminate].
    cbn [bind] in Hrun.
    destruct (MarchNarrowBand_body_covers _ _ _ _ Hwf Hcov Hband Has1 Hb)
      as (Hwf1 & Hsz1 & Hcov1 & Hband1).
    destruct (IH _ _ _ _ _ Hwf1 Hcov1 Hband1 Has2 Hrun) as (Hw & Hs & Hc).
    split; [exact Hw|]. split; [congruence | exact Hc].
Qed.

(** When the narrow band is empty and covers the front, the frozen region
    is the whole grid as soon as it has one cell. *)
Lemma covered_grid_frozen (g : Grid T) :
  WfGrid g -> band_covers [] g ->
  (exists x v, wf_index (size_ g) x /\ Cell g x = Ok v /\ frozen v = true) ->
  forall y, wf_index (size_ g) y ->
            exists w, Cell g y = Ok w /\ frozen w = true.
Proof.
  intros Hwf Hcov (x & v & Hx & Hc & Hv) y Hy.
  apply (grid_connected (size_ g)
           (fun z => exists w, Cell g z = Ok w /\ frozen w = true)) with (x := x);
    auto; [|eauto].
  intros z i o Hz (w & Hw & Hfw) Hio Hin.
  assert (Hio' : In (i, o) (face_steps (length z))).
  { destruct Hz as (Hl & _). now rewrite Hl. }
  destruct (Hcov z w i o Hz Hw Hfw Hio' Hin) as [Hl|[]]. exact Hl.
Qed.

Lemma MarchNarrowBand_freezes (fuel : nat) (nb : NarrowBandStore (T:=T))
      (g g' : Grid T) :
  WfGrid g -> band_covers nb g ->
  Forall (fun e => wf_index (size_ g) (snd e)) nb ->
  MarchNarrowBand_assertions eikonal_solver fuel nb g = true ->
  (exists x v, wf_index (size_ g) x /\ Cell g x = Ok v /\ frozen v = true) ->
  MarchNarrowBand eikonal_solver fuel nb g = Ok g' ->
  WfGrid g' /\ size_ g' = size_ g /\
  forall y, wf_index (size_ g) y ->
            exists w, Cell g' y = Ok w /\ frozen w = true.
Proof.
  intros Hwf Hcov Hband Has (x & v & Hx & Hc & Hv) Hrun.
  unfold MarchNarrowBand in Hrun.
  destruct (MarchNarrowBand_loop eikonal_solver fuel 0 nb g)
    as [[g1 n]|e] eqn:Hloop; cbn [bind] in Hrun; [|discriminate].
  inversion Hrun; subst g1. clear Hrun.
  destruct (MarchNarrowBand_loop_covers _ _ _ _ _ _ Hwf Hcov Hband Has Hloop)
    as (Hwf' & Hsz' & Hcov').
  destruct (MarchNarrowBand_loop_frozen _ _ _ _ _ _ _ Hloop) as (Hst & Hkeep).
  split; [exact Hwf'|]. split; [exact Hsz'|]. rewrite <- Hsz'.
  apply covered_grid_frozen; auto.
  exists x, v. rewrite Hsz'. split; [exact Hx|]. split; [|exact Hv].
  eapply Cell_preserved; eauto.
Qed.

(** When the narrow band covers the front of a non-empty frozen region and
    every value the march writes is below the sentinel, every cell of the
    grid [MarchNarrowBand] returns is frozen. *)
Theorem MarchNarrowBand_freezes_all (fuel : nat)
        (narrow_band : NarrowBandStore (T:=T))
        (distance_grid distance_grid' : Grid T) :
  WfGrid distance_grid -> band_covers narrow_band distance_grid ->
  Forall (fun e => wf_index (size_ distance_grid) (snd e)) narrow_band ->
  MarchNarrowBand_assertions eikonal_solver fuel narrow_band distance_grid
  = true ->
  (exists x v, wf_index (size_ distance_grid) x /\
               Cell distance_grid x = Ok v /\ frozen v = true) ->
  MarchNarrowBand eikonal_solver fuel narrow_band distance_grid
  = Ok distance_grid' ->
  forall y, wf_index (size_ distance_grid) y ->
            exists w, Cell distance_grid' y = Ok w /\ frozen w = true.
Proof.
  intros Hwf Hcov Hband Has Hseed Hrun.
  now destruct (MarchNarrowBand_freezes fuel narrow_band distance_grid
                  distance_grid' Hwf Hcov Hband Has Hseed Hrun)
    as (_ & _ & Hall).
Qed.
End MarchCovers.

(** ** What the unsigned driver returns *)

Section UnsignedBuffer.
Context {T : Type} `{Scalar T}.
Variable eikonal_solver : Index -> Grid T -> Result T.

(** On a grid whose size does not overflow and for distinct seed indices
    whose stored distances are below the sentinel: when every value the
    march writes is below the sentinel and [UnsignedDistance] returns a
    buffer, the buffer has one cell per grid cell, every cell of it is
    frozen, and the cell of each seed holds its distance. *)
Theorem UnsignedDistance_buffer (fuel : nat) (grid_size : Size)
        (frozen_indices : list Index) (frozen_distances : list T)
        (distance_buffer : list T) :
  all_positive grid_size -> size_product grid_size < size_t_modulus ->
  Forall (fun index => length index = length grid_size) frozen_indices ->
  NoDup frozen_indices ->
  Forall (fun d => frozen (s_of_Z 1 * d)%S = true) frozen_distances ->
  UnsignedDistance_assertions eikonal_solver fuel grid_size frozen_indices
                              frozen_distances = true ->
  UnsignedDistance eikonal_solver fuel grid_size frozen_indices
                   frozen_distances = Ok distance_buffer ->
  Z.of_nat (length distance_buffer) = size_product grid_size /\
  Forall (fun v => frozen v = true) distance_buffer /\
  (forall index d,
      In (index, d) (combine frozen_indices frozen_distances) ->
      nth_error distance_buffer (Z.to_nat (mixed_radix index grid_size))
      = Some (s_of_Z 1 * d)%S).
Proof.
  intros Hpos Hov Hlen Hnd Hfd Has Hrun.
  unfold UnsignedDistance, UnsignedDistance_assertions in *.
  destruct (make_Grid_fresh grid_size (smax : T) Hpos Hov)
    as (g & Hmk & Hwf & Hsz & Hcells).
  rewrite Hmk in *. cbn [bind] in *.
  destruct (SetBoundaryCondition frozen_indices frozen_distances (s_of_Z 1)
              unsigned_distance_predicate g) as [g1 r] eqn:Hsbc.
  destruct r as [[]|e]; cbn [bind] in Hrun; [|discriminate].
  destruct (SetBoundaryCondition_Ok_inv _ _ _ _ _ _ Hsbc)
    as (Hne & Hl & Hloop & Hw).
  assert (Hlen' : Forall (fun s : Index * T =>
                            length (fst s) = length (size_ g))
                         (combine frozen_indices frozen_distances)).
  { apply Forall_forall. intros s Hs. rewrite Hsz.
    rewrite Forall_forall in Hlen. apply Hlen.
    rewrite <- (combine_fst frozen_indices frozen_distances Hl).
    now apply in_map. }
  assert (Hnd' : NoDup (map fst (combine frozen_indices frozen_distances)))
    by now rewrite combine_fst.
  destruct (SetBoundaryCondition_loop_writes _ _ _ g g1 Hwf Hnd' Hlen' Hloop)
    as (Hwf1 & Hsz1 & Hseeds & Hother).
  rewrite combine_fst in Hother by exact Hl.
  assert (Hfresh : forall x, wf_index (size_ g) x -> Cell g x = Ok smax).
  { intros x Hx. apply Cell_repeat; auto.
    rewrite Hcells at 1. now rewrite Hcells, repeat_length. }
  (* a first seed: the sentinel is not frozen, its cell is *)
  assert (Hfirst : exists index d,
             In (index, d) (combine frozen_indices frozen_distances)).
  { destruct frozen_indices as [|i0 idx]; [congruence|].
    destruct frozen_distances as [|d0 ds]; [discriminate|].
    exists i0, d0. left. reflexivity. }
  destruct Hfirst as (index0 & d0 & Hin0).
  destruct (Hseeds _ Hin0) as (Hw0 & _ & Hc0). cbn [fst snd] in Hw0, Hc0.
  assert (Hmax : frozen (smax : T) = false).
  { destruct (combine frozen_indices frozen_distances) as [|s seeds] eqn:Hcomb;
      [destruct Hin0|].
    rewrite SetBoundaryCondition_loop_cons in Hloop.
    destruct (SetBoundaryCondition_step s (s_of_Z 1)
                unsigned_distance_predicate g) as [g'|e] eqn:Hs;
      [|inversion Hloop].
    destruct (SetBoundaryCondition_step_inv _ _ _ _ _ Hs)
      as (Hi & _ & (c & Hc & Hf) & _).
    rewrite Hfresh in Hc.
    - inversion Hc; subst. exact Hf.
    - split; [|exact Hi]. apply (Forall_inv Hlen'). }
  assert (Hfd0 : frozen (s_of_Z 1 * d0)%S = true).
  { rewrite Forall_forall in Hfd. apply Hfd.
    eapply in_combine_r; eauto. }
  (* the initial narrow band *)
  destruct (InitialUnsignedNarrowBand eikonal_solver frozen_indices g1)
    as [nb|e] eqn:Hinit; cbn [bind] in Hrun; [|discriminate].
  destruct (InitialUnsignedNarrowBand_band eikonal_solver g1 frozen_indices nb)
    as (_ & Hent & Hcomplete); auto; try (rewrite Hsz1, Hsz; assumption).
  assert (Hcov : band_covers nb g1).
  { intros x v i o Hx Hc Hv Hio Hin. right.
    rewrite Hsz1 in Hx.
    destruct (in_dec (list_eq_dec Z.eq_dec) x frozen_indices) as [Hi|Hni].
    - now apply Hcomplete.
    - rewrite (Hother x Hx Hni), (Hfresh x Hx) in Hc.
      inversion Hc; subst. congruence. }
  assert (Hband : Forall (fun e => wf_index (size_ g1) (snd e)) nb).
  { apply Forall_forall. intros [d x] Hin. now apply (Hent d x). }
  (* the march *)
  destruct (MarchNarrowBand eikonal_solver fuel nb g1) as [g2|e] eqn:Hmarch;
    cbn [bind] in Hrun; [|discriminate].
  inversion Hrun; subst distance_buffer. clear Hrun.
  assert (Hseed : exists x v, wf_index (size_ g1) x /\
                              Cell g1 x = Ok v /\ frozen v = true).
  { exists index0, (s_of_Z 1 * d0)%S. rewrite Hsz1. auto. }
  destruct (MarchNarrowBand_freezes eikonal_solver fuel nb g1 g2 Hwf1 Hcov
              Hband Has Hseed Hmarch) as (Hwf2 & Hsz2 & Hall).
  assert (Hsize2 : size_ g2 = grid_size) by congruence.
  assert (Hlin : forall x, wf_index grid_size x ->
                   forall v, Cell g2 x = Ok v ->
                   nth_error (cells_ g2) (Z.to_nat (mixed_radix x grid_size))
                   = Some v).
  { intros x Hx v Hc. destruct (Cell_inv _ _ _ Hc) as (_ & Hn).
    rewrite <- Hsize2 in Hx.
    destruct (wf_index_linear g2 x Hwf2 Hx) as (Hk & _).
    rewrite Hk, Hsize2 in Hn. exact Hn. }
  split; [|split].
  - destruct Hwf2 as [_ _ _ Hc2]. rewrite Hc2, Hsize2.
    now apply LinearSize_exact.
  - apply Forall_forall. intros v Hv.
    destruct (In_nth_error _ _ Hv) as (k & Hk).
    assert (Hkb : (k < length (cells_ g2))%nat)
      by (apply nth_error_Some; congruence).
    assert (Hk' : 0 <= Z.of_nat k < size_product grid_size).
    { destruct Hwf2 as [_ _ _ Hc2].
      rewrite Hsize2, (LinearSize_exact _ Hpos Hov) in Hc2. lia. }
    destruct (index_of_spec grid_size (Z.of_nat k) Hpos Hk') as (Hx & Hm).
    destruct (Hall (index_of grid_size (Z.of_nat k))) as (w & Hcw & Hfw).
    { now rewrite Hsz1, Hsz. }
    pose proof (Hlin _ Hx w Hcw) as Hn.
    rewrite Hm, Nat2Z.id, Hk in Hn. inversion Hn; subst. exact Hfw.
  - intros index d Hin.
    destruct (Hseeds _ Hin) as (Hwi & _ & Hci). cbn [fst snd] in Hwi, Hci.
    assert (Hfi : frozen (s_of_Z 1 * d)%S = true).
    { rewrite Forall_forall in Hfd. apply Hfd. eapply in_combine_r; eauto. }
    apply Hlin; [now rewrite <- Hsz|].
    unfold MarchNarrowBand in Hmarch.
    destruct (MarchNarrowBand_loop eikonal_solver fuel 0 nb g1)
      as [[g2' n]|e] eqn:Hloop2; cbn [bind] in Hmarch; [|discriminate].
    inversion Hmarch; subst g2'.
    destruct (MarchNarrowBand_loop_frozen _ _ _ _ _ _ _ Hloop2)
      as (Hst & Hkeep).
    eapply Cell_preserved; eauto.
Qed.
End UnsignedBuffer.

Lemma MarchNarrowBand_freezes_all_witness :
  exists w,
    Cell (match MarchNarrowBand SeedOrderExamples.solver_narrow 100
                  SeedOrderExamples.band SeedOrderExamples.seeded with
          | Ok g => g
          | Err _ => SeedOrderExamples.seeded
          end) [1; 1] = Ok w /\ frozen w = true.
Proof.
  apply (MarchNarrowBand_freezes_all SeedOrderExamples.solver_narrow 100%nat
           SeedOrderExamples.band SeedOrderExamples.seeded).
  - constructor; [repeat constructor | reflexivity | reflexivity
                 | reflexivity].
  - intros x v i o (Hl & Hin) Hc Hv Hio Hin'.
    destruct x as [|a [|b [|c x]]]; simpl in Hl; try discriminate.
    apply face_steps_In in Hio. destruct Hio as (Hi & Ho).
    apply Inside_cons in Hin. destruct Hin as (Ha & Hin).
    apply Inside_cons in Hin. destruct Hin as (Hb & _).
    simpl in Ha, Hb.
    assert (Hcases : (a = 0 \/ a = 1 \/ a = 2) /\ (b = 0 \/ b = 1 \/ b = 2))
      by lia.
    destruct Hcases as ([->|[->| ->]] & [->|[->| ->]]);
      vm_compute in Hc; inversion Hc; subst v;
      try (vm_compute in Hv; discriminate Hv);
      (destruct i as [|[|i]]; [| |simpl in Hi; lia]);
      (destruct Ho as [->| ->]);
      try (vm_compute in Hin'; discriminate Hin');
      right; vm_compute; tauto.
  - repeat constructor.
  - vm_compute. reflexivity.
  - exists [0; 0], 0.25%float. split; [split; reflexivity|].
    split; vm_compute; reflexivity.
  - vm_compute. reflexivity.
  - split; reflexivity.
Defined.

Lemma UnsignedDistance_buffer_witness :
  exists distance_buffer,
    UnsignedDistance SeedOrderExamples.solver_narrow 100 [3; 3]
                     [[0; 0]; [2; 2]] [0.25%float; 0.5%float]
    = Ok distance_buffer /\
    Z.of_nat (length distance_buffer) = size_product [3; 3] /\
    Forall (fun v => frozen v = true) distance_buffer /\
    (forall index d,
        In (index, d) (combine [[0; 0]; [2; 2]] [0.25%float; 0.5%float]) ->
        nth_error distance_buffer (Z.to_nat (mixed_radix index [3; 3]))
        = Some (s_of_Z 1 * d)%S).
Proof.
  eexists. split; [vm_compute; reflexivity|].
  apply (UnsignedDistance_buffer SeedOrderExamples.solver_narrow 100%nat
           [3; 3] [[0; 0]; [2; 2]] [0.25%float; 0.5%float]).
  - repeat constructor.
  - reflexivity.
  - repeat constructor.
  - repeat constructor; simpl; intuition discriminate.
  - repeat constructor.
  - vm_compute. reflexivity.
  - vm_compute. reflexivity.
Defined.




(** ** The first-order update along one axis *)

Section OneAxis.
Local Open Scope R_scope.
Import EikonalSpec.

Lemma fold_add_axis_none (g : Grid R) index axes : forall a,
  (forall j hj, In (j, hj) axes -> frozen_face_values g index j = []) ->
  fold_left
    (fun a (axis : nat * R) =>
       add_axis a (minimum (frozen_face_values g index (fst axis))) (snd axis))
    axes a = a.
Proof.
  induction axes as [|[j hj] axes IH]; intros a Hnone; [reflexivity|].
  cbn [fold_left fst snd].
  rewrite (Hnone j hj (or_introl eq_refl)). cbn [minimum add_axis].
  apply IH. intros j' hj' Hin. apply (Hnone j' hj'). right. exact Hin.
Qed.

Lemma fold_add_axis_single (g : Grid R) index i h m axes : forall a,
  NoDup (map fst axes) -> In (i, h) axes ->
  (forall j hj, In (j, hj) axes -> j <> i ->
                frozen_face_values g index j = []) ->
  minimum (frozen_face_values g index i) = Some m ->
  fold_left
    (fun a (axis : nat * R) =>
       add_axis a (minimum (frozen_face_values g index (fst axis))) (snd axis))
    axes a = add_axis a (Some m) h.
Proof.
  induction axes as [|[j hj] axes IH]; intros a Hnd Hin Hnone Hm;
    [destruct Hin|].
  inversion Hnd as [|? ? Hni Hnd']; subst. cbn [map fst] in Hni.
  cbn [fold_left fst snd].
  destruct Hin as [Heq|Hin].
  - inversion Heq; subst. rewrite Hm.
    apply fold_add_axis_none. intros j' hj' Hin'.
    apply (Hnone j' hj'); [right; exact Hin'|].
    intros ->. apply Hni. apply in_map_iff. exists (i, hj'). auto.
  - assert (Hji : j <> i).
    { intros ->. apply Hni. apply in_map_iff. exists (i, h). auto. }
    rewrite (Hnone j hj (or_introl eq_refl) Hji). cbn [minimum add_axis].
    apply IH; auto.
    intros j' hj' Hin'. apply (Hnone j' hj'). right. exact Hin'.
Qed.

Lemma axes_of_nth (grid_spacing : list R) : forall s i,
  (i < length grid_spacing)%nat ->
  In ((s + i)%nat, nth i grid_spacing 0)
     (combine (seq s (length grid_spacing)) grid_spacing).
Proof.
  induction grid_spacing as [|h l IH]; intros s [|i] Hi; simpl in Hi;
    try lia.
  - left. f_equal. lia.
  - right. replace (s + S i)%nat with (S s + i)%nat by lia.
    apply IH. lia.
Qed.

Lemma axes_of_NoDup (grid_spacing : list R) : forall s,
  NoDup (map fst (combine (seq s (length grid_spacing)) grid_spacing)).
Proof.
  intros s.
  assert (Hfst : map fst (combine (seq s (length grid_spacing)) grid_spacing)
                 = seq s (length grid_spacing)).
  { revert s. induction grid_spacing as [|h l IH]; intros s; [reflexivity|].
    simpl. f_equal. apply IH. }
  rewrite Hfst. apply seq_NoDup.
Qed.

(** In exact arithmetic, when only axis [i] has frozen face neighbours and
    [m] is the smallest of their values, the update is [m] plus the spacing
    of that axis over the speed. *)
Theorem SolveEikonal_single_axis (g : Grid R) (index : Index) (speed : R)
        (grid_spacing : list R) (i : nat) (m : R) :
  WfGrid g -> length index = length (size_ g) ->
  length grid_spacing = length index ->
  0 < speed -> Forall (fun h => 0 < h) grid_spacing ->
  (i < length index)%nat ->
  minimum (frozen_face_values g index i) = Some m ->
  (forall j, (j < length index)%nat -> j <> i ->
             frozen_face_values g index j = []) ->
  0 <= m + nth i grid_spacing 0 / speed ->
  SolveEikonal index g speed grid_spacing
  = Ok (m + nth i grid_spacing 0 / speed).
Proof.
  intros Hwf Hlen Hsp Hspeed Hpos Hi Hm Hnone Hroot.
  set (h := nth i grid_spacing 0).
  assert (Hh : 0 < h).
  { rewrite Forall_forall in Hpos. apply Hpos. apply nth_In. lia. }
  unfold SolveEikonal.
  rewrite (SolveEikonal_coefficients_real g index speed grid_spacing
             Hwf Hlen Hspeed Hpos).
  cbn [bind]. unfold quadratic, axes_of.
  rewrite <- Hsp.
  rewrite (fold_add_axis_single g index i h m).
  - cbn [add_axis]. unfold SolveEikonalQuadratic.
    cbn [sadd ssub smul sdiv sopp ssqrt sltb s_of_Z real_Scalar].
    set (a0 := - 1 / speed ^ 2 + m ^ 2 / h ^ 2).
    set (a1 := 0 + - 2 * m / h ^ 2).
    set (a2 := 0 + 1 / h ^ 2).
    assert (Hd : a1 * a1 - 4 * a2 * a0 = (2 / (h * speed)) * (2 / (h * speed))).
    { unfold a0, a1, a2. field. lra. }
    rewrite Hd.
    assert (Hq : 0 < 2 / (h * speed)).
    { apply Rdiv_lt_0_compat; [lra|]. apply Rmult_lt_0_compat; lra. }
    replace (Rltb (2 / (h * speed) * (2 / (h * speed))) 0) with false
      by (symmetry; apply Rltb_false; nra).
    rewrite sqrt_square by lra.
    assert (Hr : (- a1 + 2 / (h * speed)) / (2 * a2) = m + h / speed).
    { unfold a1, a2. field. lra. }
    rewrite Hr.
    replace (Rltb (m + h / speed) 0) with false
      by (symmetry; apply Rltb_false; unfold h; lra).
    reflexivity.
  - apply axes_of_NoDup.
  - apply (axes_of_nth grid_spacing 0%nat i). lia.
  - intros j hj Hin Hji. apply Hnone; auto.
    apply in_combine_l, in_seq in Hin. lia.
  - exact Hm.
Qed.
End OneAxis.

Lemma SolveEikonal_single_axis_witness :
  SolveEikonal [0%Z; 0%Z]
               (Examples.real_corner_neighbors 1%R real_max) 1%R [1%R; 1%R]
  = Ok (1 + nth 0 [1%R; 1%R] 0%R / 1)%R.
Proof.
  apply (SolveEikonal_single_axis
           (Examples.real_corner_neighbors 1%R real_max) [0%Z; 0%Z] 1%R
           [1%R; 1%R] 0%nat 1%R).
  - apply WfGrid_real_corner_neighbors.
  - reflexivity.
  - reflexivity.
  - lra.
  - repeat constructor; lra.
  - simpl. lia.
  - cbv - [frozen real_Scalar Rmin pow Rdiv Rplus Rmult Ropp Rminus IZR
           real_max].
    rewrite ?frozen_real_max, ?(frozen_small 1%R) by lra. reflexivity.
  - intros j Hj Hji. destruct j as [|[|j]]; [congruence | | simpl in Hj; lia].
    cbv - [frozen real_Scalar Rmin pow Rdiv Rplus Rmult Ropp Rminus IZR
           real_max].
    rewrite ?frozen_real_max. reflexivity.
  - simpl. lra.
Defined.

(** ** The high-accuracy update without a second neighbour *)

Section Fallback.
Context {T : Type} `{Scalar T}.
Hypothesis sltb_smax : (smax <? smax)%S = false.
Hypothesis sltb_frozen :
  forall a b : T, (a <? b)%S = true -> frozen b = true -> frozen a = true.

Lemma neighbor_min2_first_order (g : Grid T) (index : Index) (i : nat) :
  (forall o v1, In o kNeighborOffsets ->
     Inside (add_at index i o) (size_ g) = true ->
     Inside (add_at (add_at index i o) i o) (size_ g) = true ->
     Cell g (add_at index i o) = Ok v1 -> frozen v1 = true ->
     exists v2, Cell g (add_at (add_at index i o) i o) = Ok v2 /\
                (v2 <=? v1)%S = false) ->
  forall offsets m, incl offsets kNeighborOffsets ->
    (forall v, (v <? m)%S = true -> frozen v = true) ->
    neighbor_min2 offsets index i g (m, smax)
    = (r <- neighbor_min offsets index i g m ;; Ok (r, smax)).
Proof.
  intros Hno. induction offsets as [|o offsets IH]; intros m Hincl Hm;
    [reflexivity|].
  assert (Ho : In o kNeighborOffsets) by (apply Hincl; left; reflexivity).
  assert (Hincl' : incl offsets kNeighborOffsets).
  { intros x Hx. apply Hincl. right. exact Hx. }
  cbn [neighbor_min2 neighbor_min].
  destruct (Inside (add_at index i o) (size_ g)) eqn:E1; [|now apply IH].
  destruct (Cell g (add_at index i o)) as [v1|e] eqn:EC; [|reflexivity].
  cbn [bind].
  destruct (v1 <? m)%S eqn:Elt; [|now apply IH].
  assert (Hf1 : frozen v1 = true) by now apply Hm.
  assert (Hm1 : forall v, (v <? v1)%S = true -> frozen v = true).
  { intros v Hv. now apply (sltb_frozen v v1). }
  destruct (Inside (add_at (add_at index i o) i o) (size_ g)) eqn:E2;
    [|now apply IH].
  destruct (Hno o v1 Ho E1 E2 EC Hf1) as (v2 & Hc2 & Hle).
  rewrite Hc2. cbn [bind]. rewrite Hle.
  now apply IH.
Qed.

Lemma HighAccuracySolveEikonal_axes_first_order (g : Grid T) (index : Index) :
  forall axes q,
  (forall i h o v1, In (i, h) axes -> In o kNeighborOffsets ->
     Inside (add_at index i o) (size_ g) = true ->
     Inside (add_at (add_at index i o) i o) (size_ g) = true ->
     Cell g (add_at index i o) = Ok v1 -> frozen v1 = true ->
     exists v2, Cell g (add_at (add_at index i o) i o) = Ok v2 /\
                (v2 <=? v1)%S = false) ->
  HighAccuracySolveEikonal_axes axes index g q
  = SolveEikonal_axes axes index g q.
Proof.
  induction axes as [|[i h] axes IH]; intros q Hno; [reflexivity|].
  cbn [HighAccuracySolveEikonal_axes SolveEikonal_axes].
  rewrite (neighbor_min2_first_order g index i);
    [ | intros o v1; apply (Hno i h o v1); left; reflexivity
      | apply incl_refl
      | intros v Hv; exact Hv ].
  destruct (neighbor_min kNeighborOffsets index i g smax) as [m|e];
    [|reflexivity].
  cbn [bind]. rewrite sltb_smax.
  apply IH. intros i' h' o v1 Hin. apply (Hno i' h' o v1). right. exact Hin.
Qed.

Lemma HighAccuracySolveEikonal_first_order (g : Grid T) (index : Index)
      (speed : T) (grid_spacing : list T) :
  WfGrid g -> length index = length (size_ g) ->
  (forall i o v1 v2, (i < length index)%nat -> In o kNeighborOffsets ->
     Cell g (add_at index i o) = Ok v1 -> frozen v1 = true ->
     Inside (add_at (add_at index i o) i o) (size_ g) = true ->
     Cell g (add_at (add_at index i o) i o) = Ok v2 ->
     (v2 <=? v1)%S = false) ->
  HighAccuracySolveEikonal index g speed grid_spacing
  = SolveEikonal index g speed grid_spacing.
Proof.
  intros Hwf Hlen Hno.
  unfold HighAccuracySolveEikonal, SolveEikonal,
    HighAccuracySolveEikonal_coefficients, SolveEikonal_coefficients.
  rewrite (HighAccuracySolveEikonal_axes_first_order g index);
    [reflexivity|].
  intros i h o v1 Hin Ho E1 E2 EC Hf1.
  assert (Hi : (i < length index)%nat).
  { unfold axes_of in Hin. apply in_combine_l, in_seq in Hin. lia. }
  destruct (Cell_inside_ok g (add_at (add_at index i o) i o) Hwf) as (v2 & Hv2).
  { now rewrite !add_at_length. }
  { exact E2. }
  exists v2. split; [exact Hv2|]. now apply (Hno i o v1 v2).
Qed.
End Fallback.

(** On a well-formed grid, over scalars whose order is transitive below the
    sentinel, when along every axis and direction the cell two steps behind
    a frozen face neighbour holds a value that is not at most the value of
    that neighbour (for instance because it is not frozen), the
    high-accuracy update is the first-order update: same result, same
    failure. *)
Theorem HighAccuracySolveEikonal_falls_back {T : Type} `{Scalar T}
        (g : Grid T) (index : Index) (speed : T) (grid_spacing : list T) :
  (smax <? smax)%S = false ->
  (forall a b : T, (a <? b)%S = true -> frozen b = true -> frozen a = true) ->
  WfGrid g -> length index = length (size_ g) ->
  (forall i o v1 v2, (i < length index)%nat -> In o kNeighborOffsets ->
     Cell g (add_at index i o) = Ok v1 -> frozen v1 = true ->
     Inside (add_at (add_at index i o) i o) (size_ g) = true ->
     Cell g (add_at (add_at index i o) i o) = Ok v2 ->
     (v2 <=? v1)%S = false) ->
  HighAccuracySolveEikonal index g speed grid_spacing
  = SolveEikonal index g speed grid_spacing.
Proof.
  intros Hmax Htrans. now apply HighAccuracySolveEikonal_first_order.
Qed.

Lemma HighAccuracySolveEikonal_falls_back_witness :
  HighAccuracySolveEikonal [0; 0]
    (Examples.real_corner_neighbors 1%R 2%R) 1%R [1%R; 1%R]
  = SolveEikonal [0; 0] (Examples.real_corner_neighbors 1%R 2%R) 1%R
                 [1%R; 1%R].
Proof.
  apply (HighAccuracySolveEikonal_falls_back
           (Examples.real_corner_neighbors 1%R 2%R) [0; 0] 1%R [1%R; 1%R]).
  - apply frozen_real_max.
  - intros a b Hab Hb. unfold frozen in *.
    cbn [sltb smax real_Scalar] in *.
    apply Rltb_true. apply Rltb_true in Hab. apply Rltb_true in Hb. lra.
  - apply WfGrid_real_corner_neighbors.
  - reflexivity.
  - intros i o v1 v2 Hi Ho H1 Hf Hin H2.
    pose proof real_max_large as Hlarge.
    assert (Hle : forall v, (v < 1000)%R ->
                            (real_max <=? v)%S = false).
    { intros v Hv. cbn [sleb real_Scalar]. unfold Rleb.
      destruct (Rle_dec real_max v); [lra|reflexivity]. }
    destruct i as [|[|i]]; [| |simpl in Hi; lia];
      destruct Ho as [<-|[<-|[]]];
      first [ discriminate Hin
            | cbv in H1; discriminate H1
            | cbv - [real_max] in H1; cbv - [real_max] in H2;
              inversion H1; inversion H2; subst; apply Hle; lra ].
Defined.

(** ** Solvers with a speed per cell *)

Section VaryingSpeed.
Context {T : Type} `{Scalar T}.

Lemma check_speeds_Forall (speed_buffer : list T) :
  check_speeds speed_buffer = Ok tt ->
  Forall (fun s => sisnan s = false /\ (s <=? s_of_Z 0)%S = false)
         speed_buffer.
Proof.
  induction speed_buffer as [|s rest IH]; intros Hc; [constructor|].
  cbn [check_speeds] in Hc. unfold ThrowIfZeroOrNegativeOrNanSpeed in Hc.
  destruct (sisnan s) eqn:En; [discriminate|].
  destruct (s <=? s_of_Z 0)%S eqn:El; [discriminate|].
  cbn [orb bind] in Hc. constructor; auto.
Qed.

(** A solver built over a buffer of speeds refuses an index outside the
    speed grid, and at an index inside it runs the first-order update with
    the speed stored at the row-major offset of that index, a speed that is
    neither NaN nor at most zero. *)
Theorem VaryingSpeedEikonalSolver_speed (grid_spacing : list T)
        (speed_grid_size : Size) (speed_buffer : list T)
        (solver : EikonalSolver) (index : Index) (distance_grid : Grid T) :
  all_positive speed_grid_size ->
  size_product speed_grid_size < size_t_modulus ->
  length index = length speed_grid_size ->
  VaryingSpeedEikonalSolver grid_spacing speed_grid_size speed_buffer
  = Ok solver ->
  if Inside index speed_grid_size then
    exists speed,
      nth_error speed_buffer (Z.to_nat (mixed_radix index speed_grid_size))
      = Some speed /\
      sisnan speed = false /\ (speed <=? s_of_Z 0)%S = false /\
      solver index distance_grid
      = SolveEikonal index distance_grid speed grid_spacing
  else solver index distance_grid = Err IndexOutsideSpeedGrid.
Proof.
  intros Hpos Hov Hlen Hs. unfold VaryingSpeedEikonalSolver in Hs.
  destruct (ThrowIfInvalidGridSpacing grid_spacing); [|discriminate].
  cbn [bind] in Hs.
  destruct (make_Grid speed_grid_size speed_buffer) as [sg|] eqn:Hmk;
    [|discriminate].
  cbn [bind] in Hs.
  destruct (check_speeds speed_buffer) as [[]|] eqn:Hc; [|discriminate].
  cbn [bind] in Hs. inversion Hs; subst solver. clear Hs.
  pose proof (check_speeds_Forall _ Hc) as Hall.
  unfold make_Grid, ThrowIfZeroElementInGridSize,
    ThrowIfInvalidCellBufferSize in Hmk.
  destruct (existsb (fun x => x =? 0) speed_grid_size); [discriminate|].
  cbn [bind] in Hmk.
  destruct (Z.eqb_spec (LinearSize speed_grid_size)
                       (Z.of_nat (length speed_buffer)))
    as [Hl|Hl]; cbn [negb bind] in Hmk; [|discriminate].
  inversion Hmk; subst sg. clear Hmk.
  unfold Speed. cbn [size_].
  destruct (Inside index speed_grid_size) eqn:Hin; cbn [negb];
    [|reflexivity].
  assert (Hwf : WfGrid (mkGrid speed_grid_size (GridStrides speed_grid_size)
                               speed_buffer)).
  { constructor; simpl; auto. }
  destruct (Cell_inside_ok _ index Hwf Hlen Hin) as (speed & Hcell).
  destruct (Cell_inv _ _ _ Hcell) as (_ & Hn). simpl in Hn.
  rewrite (GridLinearIndex_exact index speed_grid_size Hpos Hov Hlen Hin)
    in Hn.
  exists speed. rewrite Hcell. cbn [bind].
  rewrite Forall_forall in Hall.
  destruct (Hall speed (nth_error_In _ _ Hn)) as (Hnan & Hle).
  auto.
Qed.
End VaryingSpeed.

Lemma VaryingSpeedEikonalSolver_speed_witness :
  exists speed,
    nth_error [1; 2; 3; 4; 5; 6; 7; 8; 9]%float
              (Z.to_nat (mixed_radix [1; 0] [3; 3]))
    = Some speed /\
    sisnan speed = false /\ (speed <=? s_of_Z 0)%S = false /\
    (speed' <- Speed (mkGrid [3; 3] (GridStrides [3; 3])
                             [1; 2; 3; 4; 5; 6; 7; 8; 9]%float) [1; 0] ;;
     SolveEikonal [1; 0] Examples.corner_seed speed' [1%float; 1%float])
    = SolveEikonal [1; 0] Examples.corner_seed speed [1%float; 1%float].
Proof.
  apply (VaryingSpeedEikonalSolver_speed
           [1%float; 1%float] [3; 3] [1; 2; 3; 4; 5; 6; 7; 8; 9]%float
           (fun index distance_grid =>
              speed' <- Speed (mkGrid [3; 3] (GridStrides [3; 3])
                                      [1; 2; 3; 4; 5; 6; 7; 8; 9]%float)
                              index ;;
              SolveEikonal index distance_grid speed' [1%float; 1%float])
           [1; 0] Examples.corner_seed).
  - repeat constructor.
  - vm_compute. reflexivity.
  - reflexivity.
  - reflexivity.
Defined.


(** ** Connected foregrounds *)

(** On a grid whose size does not overflow, indices inside the grid that the
    neighbour offsets connect (every set that holds the first index and is
    closed under stepping by an offset to another of the indices holds them
    all) come back as one component.  The component holds exactly the given
    indices and has no more entries than were given. *)
Theorem ConnectedComponents_one_component (size : Size)
        (offsets : list Index) (d0 : Index) (D : list Index) :
  all_positive size -> size_product size < size_t_modulus ->
  (forall x, In x (d0 :: D) -> wf_index size x) ->
  (forall C : list Index,
      In d0 C ->
      (forall x o, In x C -> In o offsets ->
                   wf_index size (add_index x o) ->
                   In (add_index x o) (d0 :: D) -> In (add_index x o) C) ->
      forall x, In x (d0 :: D) -> In x C) ->
  exists C,
    ConnectedComponents (d0 :: D) size offsets = Ok [C] /\
    (forall x, In x C <-> In x (d0 :: D)) /\
    (length C <= length (d0 :: D))%nat.
Proof.
  intros Hpos Hov. now apply ConnectedComponents_connected.
Qed.

Lemma ConnectedComponents_one_component_witness :
  exists C,
    ConnectedComponents ([0; 0] :: [[0; 1]; [1; 1]; [0; 0]]) [3; 3]
                        (FaceNeighborOffsets 2) = Ok [C] /\
    (forall x, In x C <-> In x ([0; 0] :: [[0; 1]; [1; 1]; [0; 0]])) /\
    (length C <= length ([0; 0] :: [[0; 1]; [1; 1]; [0; 0]]))%nat.
Proof.
  apply (ConnectedComponents_one_component [3; 3] (FaceNeighborOffsets 2)
           [0; 0] [[0; 1]; [1; 1]; [0; 0]]).
  - repeat constructor.
  - vm_compute. reflexivity.
  - intros x Hx. simpl in Hx.
    destruct Hx as [<-|[<-|[<-|[<-|[]]]]]; split; reflexivity.
  - intros C H0 Hstep x Hx.
    assert (H1 : In [0; 1] C).
    { apply (Hstep [0; 0] [0; 1] H0).
      - vm_compute. auto.
      - split; reflexivity.
      - simpl. auto. }
    assert (H2 : In [1; 1] C).
    { apply (Hstep [0; 1] [1; 0] H1).
      - vm_compute. auto.
      - split; reflexivity.
      - simpl. auto. }
    simpl in Hx. destruct Hx as [<-|[<-|[<-|[<-|[]]]]]; assumption.
Defined.


(** ** Components and dilation bands in general *)

(** On a grid whose size does not overflow, for indices inside the grid and
    neighbour offsets that come in opposite pairs, [ConnectedComponents]
    returns, and its components partition the indices into connected
    pieces: every index is in a component and no index is in two of them;
    every cell of a component is one of the indices; an index that an
    offset reaches from a cell of a component is in that component; the
    cells of a component were reached one from another from its first cell
    on; and the first component starts at the first index. *)
Theorem ConnectedComponents_partitions (size : Size) (offsets : list Index)
        (indices : list Index) :
  all_positive size -> size_product size < size_t_modulus ->
  symmetric_offsets (length size) offsets ->
  (forall x, In x indices -> wf_index size x) ->
  exists connected_components,
    ConnectedComponents indices size offsets = Ok connected_components /\
    (forall x, In x indices ->
               exists c, In c connected_components /\ In x c) /\
    (forall i j c1 c2 x,
        nth_error connected_components i = Some c1 ->
        nth_error connected_components j = Some c2 ->
        In x c1 -> In x c2 -> i = j) /\
    (forall c, In c connected_components ->
       (forall x, In x c -> wf_index size x /\ In x indices) /\
       (forall x o, In x c -> In o offsets ->
                    wf_index size (add_index x o) ->
                    In (add_index x o) indices -> In (add_index x o) c) /\
       exists start, reached offsets start c) /\
    (forall first rest, indices = first :: rest ->
       exists c0 cs, connected_components = c0 :: cs /\
                     reached offsets first c0).
Proof.
  intros Hpos Hov Hsym Hwf.
  destruct (ConnectedComponents_partition size offsets Hpos Hov indices Hsym
              Hwf) as (comps & Hcc & Hcomps & Hall & Hfirst & Hdisj).
  exists comps. split; [exact Hcc|]. split; [exact Hall|].
  split; [exact Hdisj|]. split; [exact Hcomps | exact Hfirst].
Qed.

Lemma ConnectedComponents_partitions_witness :
  exists connected_components,
    ConnectedComponents (Examples.ring 3 3 ++ [[0; 0]]) [7; 7]
                        (VertexNeighborOffsets 2)
    = Ok connected_components /\
    (forall x, In x (Examples.ring 3 3 ++ [[0; 0]]) ->
               exists c, In c connected_components /\ In x c) /\
    (forall i j c1 c2 x,
        nth_error connected_components i = Some c1 ->
        nth_error connected_components j = Some c2 ->
        In x c1 -> In x c2 -> i = j) /\
    (forall c, In c connected_components ->
       (forall x, In x c ->
                  wf_index [7; 7] x /\ In x (Examples.ring 3 3 ++ [[0; 0]])) /\
       (forall x o, In x c -> In o (VertexNeighborOffsets 2) ->
                    wf_index [7; 7] (add_index x o) ->
                    In (add_index x o) (Examples.ring 3 3 ++ [[0; 0]]) ->
                    In (add_index x o) c) /\
       exists start, reached (VertexNeighborOffsets 2) start c) /\
    (forall first rest, Examples.ring 3 3 ++ [[0; 0]] = first :: rest ->
       exists c0 cs, connected_components = c0 :: cs /\
                     reached (VertexNeighborOffsets 2) first c0).
Proof.
  apply (ConnectedComponents_partitions [7; 7] (VertexNeighborOffsets 2)
           (Examples.ring 3 3 ++ [[0; 0]])).
  - repeat constructor.
  - vm_compute. reflexivity.
  - apply (VertexNeighborOffsets_symmetric 2). vm_compute. reflexivity.
  - intros x Hx. simpl in Hx.
    repeat (destruct Hx as [<-|Hx]; [split; reflexivity|]). contradiction.
Defined.

(** For a component whose cells lie in the grid, when the cell count of the
    padded grid fits [size_t], [DilationBands] returns; every cell of its
    bands is a vertex neighbour of a cell of the component and is not a
    cell of the component; and every vertex neighbour of a cell of the
    component that lies in the grid and is not a cell of the component is
    in one of the bands. *)
Theorem DilationBands_is_shell (size : Size) (indices : list Index) :
  all_positive size ->
  size_product (map (fun d => d + 2) size) < size_t_modulus ->
  (forall y, In y indices -> wf_index size y) ->
  exists dilation_bands,
    DilationBands indices size = Ok dilation_bands /\
    (forall band x, In band dilation_bands -> In x band ->
       ~ In x indices /\
       exists y o, In y indices /\
                   In o (VertexNeighborOffsets (length size)) /\
                   x = add_index y o) /\
    (forall y o, In y indices -> In o (VertexNeighborOffsets (length size)) ->
                 Inside (add_index y o) size = true ->
                 ~ In (add_index y o) indices ->
                 exists band, In band dilation_bands /\
                              In (add_index y o) band).
Proof. exact (DilationBands_shell size indices). Qed.

Lemma DilationBands_is_shell_witness :
  exists dilation_bands,
    DilationBands (Examples.ring 3 3) [7; 7] = Ok dilation_bands /\
    (forall band x, In band dilation_bands -> In x band ->
       ~ In x (Examples.ring 3 3) /\
       exists y o, In y (Examples.ring 3 3) /\
                   In o (VertexNeighborOffsets 2) /\
                   x = add_index y o) /\
    (forall y o, In y (Examples.ring 3 3) -> In o (VertexNeighborOffsets 2) ->
                 Inside (add_index y o) [7; 7] = true ->
                 ~ In (add_index y o) (Examples.ring 3 3) ->
                 exists band, In band dilation_bands /\
                              In (add_index y o) band).
Proof.
  apply (DilationBands_is_shell [7; 7] (Examples.ring 3 3)).
  - repeat constructor.
  - vm_compute. reflexivity.
  - intros x Hx. simpl in Hx.
    repeat (destruct Hx as [<-|Hx]; [split; reflexivity|]). contradiction.
Defined.


